(** * TORM: a self-describing binary codec for JavaScript values

    Shallow embedding of the two implementations of the codec and the
    properties of their [serialize] and [deserialize] functions.
    Implementation [A] has the tags 1..4, 11..18 and 21..23 and a reader
    that works by tag bands; implementation [B] has the tags 1..7 and
    10..17, a separate size calculator and explicit errors.

    Buffers are lists of bytes, offsets and lengths are natural numbers,
    wire values (tags, 32-bit prefixes, IEEE-754 bit patterns) are
    integers with their wrap-around written out, and every operation that
    can throw returns a [result].  A string is the sequence of its UTF-16
    code units, and [TextEncoder] and [TextDecoder] are the UTF-8 encoder
    and decoder of the Encoding Standard; an object is a plain data object,
    the list of its own enumerable properties in the order in which
    [for ... in] visits them. *)

From Stdlib Require Import List ZArith Lia Bool.
From Stdlib Require Import Strings.Byte.
From Stdlib Require String Ascii.
Import String.StringSyntax.
Delimit Scope string_scope with string.
Import ListNotations.

Local Open Scope Z_scope.
Set Warnings "-register-all".

(** ** Outcomes of fallible code *)

(** The exceptions the code can raise.  [RangeError] is the platform's
    error for an out-of-bounds [DataView] access, an out-of-bounds
    [TypedArray.prototype.set] and a typed-array constructor given a buffer
    whose length is not a multiple of the element size; [TypeError] is its
    error for reading a property of [undefined], for calling what is not
    a function and for an object that cannot be converted to a property
    name.  [EmptyBuffer] and [UnknownTypeCode] are the errors the source
    throws itself.  The last two outcomes mark the border of the model.
    [Unmodelled] stands for a step that is left out: in the assignment
    [obj[key] = val] of the readers, the conversion to a property name of
    a key that is a date, an array, a typed array or a number other than
    an integer below 2^53, and the assignment of an object or of [null]
    to [__proto__], which replaces the prototype of [obj]; the call of a
    function that the data holds as its own [hasOwnProperty] or
    [toString]; and a chunk whose payload does not have the type of its
    tag, which [createChunk] never builds.  [OutOfFuel] is the outcome of
    a reader that was given fewer recursion steps than it needs. *)
Inductive Error : Type :=
| RangeError
| TypeError
| EmptyBuffer
| UnknownTypeCode (type : Z)
| Unmodelled
| OutOfFuel.

Inductive result (A : Type) : Type :=
| Ret (a : A)
| Throw (e : Error).
Arguments Ret {A} a.
Arguments Throw {A} e.

Definition bind {A B : Type} (m : result A) (k : A -> result B) : result B :=
  match m with
  | Ret a => k a
  | Throw e => Throw e
  end.

Notation "x <- m ;; k" := (bind m (fun x => k))
  (at level 61, m at next level, right associativity).
Notation "' p <- m ;; k" := (bind m (fun x => let 'p := x in k))
  (at level 61, p pattern, m at next level, right associativity).

(** ** Bytes and big-endian fields *)

Definition byteVal (b : byte) : Z := Z.of_N (Byte.to_N b).

(** ToUint8: the integer modulo 256. *)
Definition byteOf (z : Z) : byte :=
  match Byte.of_N (Z.to_N (z mod 256)) with
  | Some b => b
  | None => x00
  end.

(** The value of a big-endian byte sequence. *)
Fixpoint beVal (bs : list byte) : Z :=
  match bs with
  | [] => 0
  | b :: rest => byteVal b * 256 ^ Z.of_nat (length rest) + beVal rest
  end.

(** The [n] low bytes of [z], most significant first. *)
Fixpoint beBytes (n : nat) (z : Z) : list byte :=
  match n with
  | O => []
  | S n' => byteOf (z / 256 ^ Z.of_nat n') :: beBytes n' z
  end.

(** ** ArrayBuffer and DataView *)

Definition ArrayBuffer := list byte.

(** [new ArrayBuffer(n)]: [n] zero bytes. *)
Definition newArrayBuffer (n : nat) : ArrayBuffer := repeat x00 n.

(** [buffer.slice(begin, end)]: both ends are clamped to the buffer. *)
Definition slice (buffer : ArrayBuffer) (begin_ end_ : nat) : ArrayBuffer :=
  firstn (end_ - begin_) (skipn begin_ buffer).

(** Overwriting [length src] bytes of [buffer] from [offset] on. *)
Definition splice (buffer : ArrayBuffer) (offset : nat) (src : list byte)
  : ArrayBuffer :=
  firstn offset buffer ++ src ++ skipn (offset + length src) buffer.

(** [new Uint8Array(buffer).set(src, offset)]. *)
Definition setBytes (buffer : ArrayBuffer) (src : list byte) (offset : nat)
  : result ArrayBuffer :=
  if (offset + length src <=? length buffer)%nat
  then Ret (splice buffer offset src)
  else Throw RangeError.

Definition getBytes (buffer : ArrayBuffer) (offset n : nat)
  : result (list byte) :=
  if (offset + n <=? length buffer)%nat
  then Ret (slice buffer offset (offset + n))
  else Throw RangeError.

Definition getUint8 (buffer : ArrayBuffer) (offset : nat) : result Z :=
  bs <- getBytes buffer offset 1 ;; Ret (beVal bs).

Definition getUint32 (buffer : ArrayBuffer) (offset : nat) : result Z :=
  bs <- getBytes buffer offset 4 ;; Ret (beVal bs).

Definition setUint8 (buffer : ArrayBuffer) (offset : nat) (value : Z)
  : result ArrayBuffer :=
  setBytes buffer (beBytes 1 value) offset.

Definition setUint32 (buffer : ArrayBuffer) (offset : nat) (value : Z)
  : result ArrayBuffer :=
  setBytes buffer (beBytes 4 value) offset.

(** ** Numbers: IEEE-754 binary64 bit patterns *)

(** A JavaScript number is represented by its 64-bit pattern.  JavaScript
    has a single NaN, so the NaN patterns are identified with the quiet
    NaN [0x7FF8000000000000]. *)
Definition float64 := Z.

Definition f64_exponent (bits : float64) : Z := (bits / 2 ^ 52) mod 2 ^ 11.
Definition f64_fraction (bits : float64) : Z := bits mod 2 ^ 52.
Definition f64_negative (bits : float64) : bool := 2 ^ 63 <=? bits.
Definition f64_NaN : float64 := 0x7FF8000000000000.

Definition f64_isNaN (bits : float64) : bool :=
  (f64_exponent bits =? 2047) && negb (f64_fraction bits =? 0).

Definition canonNaN (bits : float64) : float64 :=
  if f64_isNaN bits then f64_NaN else bits.

Definition isNumber (bits : float64) : Prop :=
  0 <= bits < 2 ^ 64 /\ canonNaN bits = bits.

Definition getFloat64 (buffer : ArrayBuffer) (offset : nat) : result float64 :=
  bs <- getBytes buffer offset 8 ;; Ret (canonNaN (beVal bs)).

Definition setFloat64 (buffer : ArrayBuffer) (offset : nat) (value : float64)
  : result ArrayBuffer :=
  setBytes buffer (beBytes 8 value) offset.

(** The integer part of a double, rounded toward zero; [None] for NaN and
    the infinities. *)
Definition f64_truncate (bits : float64) : option Z :=
  let e := f64_exponent bits in
  if e =? 2047 then None
  else
    let magnitude :=
      if e =? 0 then 0
      else
        let significand := 2 ^ 52 + f64_fraction bits in
        if 1075 <=? e then significand * 2 ^ (e - 1075)
        else significand / 2 ^ (1075 - e) in
    Some (if f64_negative bits then - magnitude else magnitude).

(** The double that holds the integer [n]; exact for [|n| < 2^53]. *)
Definition f64_ofInteger (n : Z) : float64 :=
  if n =? 0 then 0
  else
    let k := Z.log2 (Z.abs n) in
    (if n <? 0 then 2 ^ 63 else 0)
    + (k + 1023) * 2 ^ 52
    + (Z.abs n * 2 ^ (52 - k) - 2 ^ 52).

(** ToUint8 of a number. *)
Definition f64_toUint8 (bits : float64) : Z :=
  match f64_truncate bits with
  | Some n => n mod 256
  | None => 0
  end.

(** ** Dates *)

(** A [Date] holds a time value: a whole number of milliseconds of
    magnitude at most 8.64e15, or NaN.  [TimeClip] is the conversion that
    [new Date(number)] applies to its argument. *)
Definition TimeClip (time : float64) : float64 :=
  match f64_truncate time with
  | None => f64_NaN
  | Some n =>
      if 8640000000000000 <? Z.abs n then f64_NaN else f64_ofInteger n
  end.

Definition newDate (time : float64) : float64 := TimeClip time.

Definition isTimeValue (time : float64) : Prop :=
  0 <= time < 2 ^ 64 /\ TimeClip time = time.

(** ** Typed arrays *)

Inductive ElementType : Type :=
| Int8Array | Int16Array | Int32Array
| Uint8Array | Uint16Array | Uint32Array
| Float32Array | Float64Array.

Definition BYTES_PER_ELEMENT (k : ElementType) : nat :=
  match k with
  | Int8Array | Uint8Array => 1
  | Int16Array | Uint16Array => 2
  | Int32Array | Uint32Array | Float32Array => 4
  | Float64Array => 8
  end.

(** A typed array is a view of [byteLength] bytes, starting at
    [byteOffset], of an [ArrayBuffer] that can be larger than the view. *)
Module TypedArray.
Record t : Type := mk {
  elementType : ElementType;
  buffer : ArrayBuffer;
  byteOffset : nat;
  byteLength : nat
}.
End TypedArray.

(** The bytes of the elements: [new Uint8Array(a.buffer, a.byteOffset,
    a.byteLength)]. *)
Definition elementBytes (a : TypedArray.t) : list byte :=
  slice (TypedArray.buffer a) (TypedArray.byteOffset a)
    (TypedArray.byteOffset a + TypedArray.byteLength a).

(** [new Ctor(sub)] on a whole [ArrayBuffer]. *)
Definition newTypedArray (Ctor : ElementType) (sub : ArrayBuffer)
  : result TypedArray.t :=
  if (length sub mod BYTES_PER_ELEMENT Ctor =? 0)%nat
  then Ret (TypedArray.mk Ctor sub 0 (length sub))
  else Throw RangeError.

Definition isTypedArray (a : TypedArray.t) : Prop :=
  (TypedArray.byteOffset a + TypedArray.byteLength a
   <= length (TypedArray.buffer a))%nat /\
  (TypedArray.byteLength a mod BYTES_PER_ELEMENT (TypedArray.elementType a)
   = 0)%nat.

(** ** Text *)

(** A JavaScript string is the sequence of its UTF-16 code units, integers
    from 0 to 0xFFFF. *)
Module DOMString.
Definition t : Type := list Z.

(** [s === t] on strings. *)
Fixpoint eqb (s t : list Z) : bool :=
  match s, t with
  | [], [] => true
  | u :: s', v :: t' => (u =? v) && eqb s' t'
  | _, _ => false
  end.
End DOMString.

(** The string of a literal of ASCII characters. *)
Definition text (s : String.string) : DOMString.t :=
  map byteVal (String.list_byte_of_string s).

Definition isCodeUnit (u : Z) : bool := (0 <=? u) && (u <=? 0xFFFF).

Definition isLeadSurrogate (u : Z) : bool := (0xD800 <=? u) && (u <=? 0xDBFF).

Definition isTrailSurrogate (u : Z) : bool := (0xDC00 <=? u) && (u <=? 0xDFFF).

(** The scalar values of a string, the conversion that [TextEncoder.encode]
    applies to its argument: a lead surrogate followed by a trail surrogate
    is one code point, any other surrogate is replaced by U+FFFD. *)
Fixpoint scalarValues (s : DOMString.t) : list Z :=
  match s with
  | [] => []
  | u :: rest =>
      if isLeadSurrogate u then
        match rest with
        | u' :: rest' =>
            if isTrailSurrogate u'
            then (0x10000 + (u - 0xD800) * 0x400 + (u' - 0xDC00))
                   :: scalarValues rest'
            else 0xFFFD :: scalarValues rest
        | [] => [0xFFFD]
        end
      else if isTrailSurrogate u then 0xFFFD :: scalarValues rest
      else u :: scalarValues rest
  end.

(** The UTF-8 bytes of a scalar value.  [x / 64] is [x >> 6] and
    [x mod 64] is [x & 0x3F]. *)
Definition utf8Bytes (codePoint : Z) : list byte :=
  if codePoint <? 0x80 then [byteOf codePoint]
  else if codePoint <? 0x800 then
    [byteOf (0xC0 + codePoint / 64); byteOf (0x80 + codePoint mod 64)]
  else if codePoint <? 0x10000 then
    [byteOf (0xE0 + codePoint / 4096);
     byteOf (0x80 + (codePoint / 64) mod 64);
     byteOf (0x80 + codePoint mod 64)]
  else
    [byteOf (0xF0 + codePoint / 262144);
     byteOf (0x80 + (codePoint / 4096) mod 64);
     byteOf (0x80 + (codePoint / 64) mod 64);
     byteOf (0x80 + codePoint mod 64)].

(** [textEncoder.encode(s)]. *)
Definition encode (s : DOMString.t) : list byte :=
  flat_map utf8Bytes (scalarValues s).

(** The UTF-8 decoder of the Encoding Standard on a byte that is read with
    no sequence open; [continue codePoint needed lower upper] decodes the
    bytes that follow. *)
Definition utf8First (continue : Z -> nat -> Z -> Z -> list Z) (byte : Z)
  : list Z :=
  if byte <=? 0x7F then byte :: continue 0 0%nat 0x80 0xBF
  else if (0xC2 <=? byte) && (byte <=? 0xDF) then
    continue (byte mod 32) 1%nat 0x80 0xBF
  else if (0xE0 <=? byte) && (byte <=? 0xEF) then
    continue (byte mod 16) 2%nat
      (if byte =? 0xE0 then 0xA0 else 0x80)
      (if byte =? 0xED then 0x9F else 0xBF)
  else if (0xF0 <=? byte) && (byte <=? 0xF4) then
    continue (byte mod 8) 3%nat
      (if byte =? 0xF0 then 0x90 else 0x80)
      (if byte =? 0xF4 then 0x8F else 0xBF)
  else 0xFFFD :: continue 0 0%nat 0x80 0xBF.

(** The code points that the decoder emits, with U+FFFD for every error.
    [needed] is the number of continuation bytes still expected, which
    must lie between [lower] and [upper]; a byte outside ends the sequence
    with an error and is read again with no sequence open, and so does the
    end of the input. *)
Fixpoint utf8Decode (bytes : list byte) (codePoint : Z) (needed : nat)
  (lower upper : Z) : list Z :=
  match bytes with
  | [] =>
      match needed with
      | O => []
      | S _ => [0xFFFD]
      end
  | b :: rest =>
      let byte := byteVal b in
      match needed with
      | O => utf8First (utf8Decode rest) byte
      | S needed' =>
          if (lower <=? byte) && (byte <=? upper) then
            let codePoint := codePoint * 64 + byte mod 64 in
            match needed' with
            | O => codePoint :: utf8Decode rest 0 0%nat 0x80 0xBF
            | S _ => utf8Decode rest codePoint needed' 0x80 0xBF
            end
          else 0xFFFD :: utf8First (utf8Decode rest) byte
      end
  end.

(** The UTF-16 code units of a code point. *)
Definition codeUnits (codePoint : Z) : list Z :=
  if codePoint <? 0x10000 then [codePoint]
  else
    [0xD800 + (codePoint - 0x10000) / 0x400;
     0xDC00 + (codePoint - 0x10000) mod 0x400].

(** A decoder made by [new TextDecoder()] drops a byte-order mark at the
    start of its input. *)
Definition stripBOM (bytes : list byte) : list byte :=
  match bytes with
  | xef :: xbb :: xbf :: rest => rest
  | _ => bytes
  end.

(** [textDecoder.decode(bytes)]. *)
Definition decode (bytes : list byte) : DOMString.t :=
  flat_map codeUnits (utf8Decode (stripBOM bytes) 0 0%nat 0x80 0xBF).

(** ** Values *)

(** The values the codec is applied to.  An object is the list of its own
    enumerable string-keyed properties in the order in which [for ... in]
    and [Object.keys] visit them: the names that are array indices in
    ascending order, then the other names in the order of their creation.
    [VFunction] and [VUndefined] stand for the values outside the
    supported domain.  [VHole] is the empty slot of a sparse array; it is
    no value and occurs only as an item of a [VArray], where reading it
    ([value[i]]) gives [undefined] and [Array.prototype.map] skips it. *)
Inductive Value : Type :=
| VNull
| VUndefined
| VFunction
| VBoolean (b : bool)
| VNumber (n : float64)
| VString (s : DOMString.t)
| VDate (time : float64)
| VTypedArray (a : TypedArray.t)
| VArray (items : list Value)
| VObject (props : list (DOMString.t * Value))
| VHole.

(** ** Properties of objects *)

(** The own property [key] of an object, if it has one. *)
Fixpoint getProperty (props : list (DOMString.t * Value))
  (key : DOMString.t) : option Value :=
  match props with
  | [] => None
  | (k, v) :: rest =>
      if DOMString.eqb k key then Some v else getProperty rest key
  end.

Definition isDigit (u : Z) : bool := (48 <=? u) && (u <=? 57).

(** The array index that a property name denotes: the name is the decimal
    numeral, without a leading zero, of an integer from 0 to 2^32 - 2. *)
Definition arrayIndex (key : DOMString.t) : option Z :=
  match key with
  | [] => None
  | d :: rest =>
      if forallb isDigit key
         && (negb (d =? 48) || (length rest =? 0)%nat)
      then
        let n := fold_left (fun n u => 10 * n + (u - 48)) key 0 in
        if n <? 2 ^ 32 - 1 then Some n else None
      else None
  end.

(** [key] is enumerated before [k]: an array index comes before a greater
    array index and before every name that is not an array index. *)
Definition precedes (key k : DOMString.t) : bool :=
  match arrayIndex key, arrayIndex k with
  | Some i, Some j => i <? j
  | Some _, None => true
  | None, _ => false
  end.

(** The creation of the own property [key]: an array index takes its place
    among the array indices, any other name goes last. *)
Fixpoint insertProperty (props : list (DOMString.t * Value))
  (key : DOMString.t) (val : Value) : list (DOMString.t * Value) :=
  match props with
  | [] => [(key, val)]
  | (k, v) :: rest =>
      if precedes key k then (key, val) :: (k, v) :: rest
      else (k, v) :: insertProperty rest key val
  end.

(** A new value for the own property [key], which keeps its place. *)
Fixpoint updateProperty (props : list (DOMString.t * Value))
  (key : DOMString.t) (val : Value) : list (DOMString.t * Value) :=
  match props with
  | [] => []
  | (k, v) :: rest =>
      if DOMString.eqb k key then (k, val) :: rest
      else (k, v) :: updateProperty rest key val
  end.

(** Truthiness of a table lookup. *)
Definition isSome {A : Type} (o : option A) : bool :=
  match o with Some _ => true | None => false end.

(** [obj[key] = val] on an object that has the own property [key] or
    inherits no property of that name. *)
Definition setProperty (props : list (DOMString.t * Value))
  (key : DOMString.t) (val : Value) : list (DOMString.t * Value) :=
  if isSome (getProperty props key) then updateProperty props key val
  else insertProperty props key val.

(** The name of the accessor that every plain object inherits from
    [Object.prototype]. *)
Definition PROTO : DOMString.t := text "__proto__"%string.

(** The values that the setter of [__proto__] ignores: it replaces the
    prototype only by an object or [null]. *)
Definition keepsPrototype (val : Value) : bool :=
  match val with
  | VUndefined | VBoolean _ | VNumber _ | VString _ => true
  | _ => false
  end.

(** The decimal numeral of a natural number, most significant digit
    first. *)
Fixpoint digits (fuel : nat) (n : Z) (numeral : DOMString.t) : DOMString.t :=
  match fuel with
  | O => numeral
  | S fuel' =>
      let numeral := (48 + n mod 10) :: numeral in
      if n <? 10 then numeral else digits fuel' (n / 10) numeral
  end.

(** [Number.prototype.toString] on the numbers of which it is modelled:
    NaN, the infinities, the zeros and the integers of magnitude below
    2^53, which are written in full.  The shortest decimal expansion of
    any other number is left out. *)
Definition numberToString (bits : float64) : result DOMString.t :=
  if f64_isNaN bits then Ret (text "NaN"%string)
  else
    match f64_truncate bits with
    | None =>
        Ret (if f64_negative bits then text "-Infinity"%string
             else text "Infinity"%string)
    | Some n =>
        if bits mod 2 ^ 63 =? 0 then Ret (text "0"%string)
        else if (Z.abs n <? 2 ^ 53) && (f64_ofInteger n =? bits) then
          Ret ((if n <? 0 then [45] else []) ++ digits 16 (Z.abs n) [])
        else Throw Unmodelled
    end.

(** The name of the method that converts an object to a string. *)
Definition TO_STRING : DOMString.t := text "toString"%string.

(** [ToPropertyKey(key)], the conversion that [obj[key]] applies to
    [key].  A string is its own name; [null], [undefined] and the
    booleans have the names of their literals; a plain object is
    converted by the [toString] that it inherits from [Object.prototype],
    unless it has a property of that name of its own: one that is no
    function cannot be called, and neither can the [valueOf] that is tried
    next give a primitive.  The conversion of a date, of an array and of a
    typed array is left out. *)
Definition toPropertyKey (key : Value) : result DOMString.t :=
  match key with
  | VString k => Ret k
  | VNull => Ret (text "null"%string)
  | VUndefined => Ret (text "undefined"%string)
  | VBoolean b => Ret (if b then text "true"%string else text "false"%string)
  | VNumber n => numberToString n
  | VObject props =>
      match getProperty props TO_STRING with
      | None => Ret (text "[object Object]"%string)
      | Some VFunction => Throw Unmodelled
      | Some _ => Throw TypeError
      end
  | _ => Throw Unmodelled
  end.

(** The assignment [obj[key.value] = val.value] of both readers, on the
    object that they build from [{}].  An assignment to [__proto__] calls
    the inherited setter and creates no property; the setter replaces the
    prototype of the object by an object or by [null], which is left
    out. *)
Definition assign (props : list (DOMString.t * Value)) (key val : Value)
  : result (list (DOMString.t * Value)) :=
  k <- toPropertyKey key ;;
  if DOMString.eqb k PROTO then
    if keepsPrototype val then Ret props else Throw Unmodelled
  else Ret (setProperty props k val).

(** The method that [value.hasOwnProperty] finds on a plain object: the
    one of [Object.prototype], unless the object has a property of that
    name of its own. *)
Definition HAS_OWN_PROPERTY : DOMString.t := text "hasOwnProperty"%string.

(** [value.hasOwnProperty(s)] for an own property [s] of [value]. *)
Definition hasOwnProperty (props : list (DOMString.t * Value))
  (s : DOMString.t) : result bool :=
  match getProperty props HAS_OWN_PROPERTY with
  | None => Ret true
  | Some VFunction => Throw Unmodelled
  | Some _ => Throw TypeError
  end.

(** A [for] loop that runs [count] times over a state and a cursor. *)
Fixpoint forLoop {State : Type} (count : nat)
  (body : State -> nat -> result (State * nat)) (s : State) (offset : nat)
  : result (State * nat) :=
  match count with
  | O => Ret (s, offset)
  | S count' =>
      '(s', offset') <- body s offset ;;
      forLoop count' body s' offset'
  end.

(** A loop that writes the chunks of a list one after the other, each at
    the offset the previous one returned. *)
Definition forEach {C : Type}
  (write : C -> ArrayBuffer -> nat -> result (ArrayBuffer * nat))
  : list C -> ArrayBuffer -> nat -> result (ArrayBuffer * nat) :=
  fix each (subs : list C) (buffer : ArrayBuffer) (offset : nat) :=
    match subs with
    | [] => Ret (buffer, offset)
    | sub :: rest =>
        '(buffer, offset) <- write sub buffer offset ;;
        each rest buffer offset
    end.

(** A loop that adds the sizes of the chunks of a list to [size]. *)
Definition sumSizes {C : Type} (sizeOf : C -> result nat)
  : list C -> nat -> result nat :=
  fix each (subs : list C) (size : nat) :=
    match subs with
    | [] => Ret size
    | sub :: rest =>
        n <- sizeOf sub ;;
        each rest (size + n)%nat
    end.

(** [items.map(f)] on one item: an empty slot stays empty. *)
Definition mapSlot {C : Type} (f : Value -> C) (item : Value) : option C :=
  match item with
  | VHole => None
  | _ => Some (f item)
  end.

(** The chunk that a [for ... of] loop over the child chunks hands to a
    function: an empty slot gives [undefined], whose [type] cannot be
    read. *)
Definition ofChunk {C R : Type} (f : C -> result R) (sub : option C)
  : result R :=
  match sub with
  | Some chunk => f chunk
  | None => Throw TypeError
  end.

Definition writeOf {C : Type}
  (write : C -> ArrayBuffer -> nat -> result (ArrayBuffer * nat))
  (sub : option C) (buffer : ArrayBuffer) (offset : nat)
  : result (ArrayBuffer * nat) :=
  ofChunk (fun chunk => write chunk buffer offset) sub.

(** * Implementation B (tags 1..7 and 10..17) *)

Module B.

Module TYPES.
Definition Null := 1.
Definition Boolean := 2.
Definition Number := 3.
Definition Date := 4.
Definition String := 5.
Definition Array := 6.
Definition Object := 7.

Definition Int8Array := 10.
Definition Int16Array := 11.
Definition Int32Array := 12.
Definition Uint8Array := 13.
Definition Uint16Array := 14.
Definition Uint32Array := 15.
Definition Float32Array := 16.
Definition Float64Array := 17.
End TYPES.

(** The table from tag to typed-array constructor; [None] is the
    [undefined] of a missing entry. *)
Definition TYPED_ARRAY_TYPES (type : Z) : option ElementType :=
  if type =? TYPES.Int8Array then Some Int8Array
  else if type =? TYPES.Int16Array then Some Int16Array
  else if type =? TYPES.Int32Array then Some Int32Array
  else if type =? TYPES.Uint8Array then Some Uint8Array
  else if type =? TYPES.Uint16Array then Some Uint16Array
  else if type =? TYPES.Uint32Array then Some Uint32Array
  else if type =? TYPES.Float32Array then Some Float32Array
  else if type =? TYPES.Float64Array then Some Float64Array
  else None.

Definition getTypeCode (value : Value) : Z :=
  match value with
  | VNull | VUndefined => TYPES.Null
  | VBoolean _ => TYPES.Boolean
  | VNumber _ => TYPES.Number
  | VString _ => TYPES.String
  | VDate _ => TYPES.Date
  | VArray _ => TYPES.Array
  | VTypedArray a =>
      match TypedArray.elementType a with
      | Int8Array => TYPES.Int8Array
      | Int16Array => TYPES.Int16Array
      | Int32Array => TYPES.Int32Array
      | Uint8Array => TYPES.Uint8Array
      | Uint16Array => TYPES.Uint16Array
      | Uint32Array => TYPES.Uint32Array
      | Float32Array => TYPES.Float32Array
      | Float64Array => TYPES.Float64Array
      end
  | VObject _ => TYPES.Object
  | VFunction | VHole => TYPES.Null
  end.

(** *** Reading *)

Fixpoint readChunk (fuel : nat) (buffer : ArrayBuffer) (offset : nat)
  : result (Value * nat) :=
  match fuel with
  | O => Throw OutOfFuel
  | S fuel' =>
    type <- getUint8 buffer offset ;;
    let offset := (offset + 1)%nat in
    if type =? TYPES.Null then Ret (VNull, offset)
    else if type =? TYPES.Boolean then
      b <- getUint8 buffer offset ;;
      Ret (VBoolean (negb (b =? 0)), (offset + 1)%nat)
    else if type =? TYPES.Number then
      value <- getFloat64 buffer offset ;;
      Ret (VNumber value, (offset + 8)%nat)
    else if type =? TYPES.Date then
      time <- getFloat64 buffer offset ;;
      Ret (VDate (newDate time), (offset + 8)%nat)
    else
      len <- getUint32 buffer offset ;;
      let length := Z.to_nat len in
      let offset := (offset + 4)%nat in
      if isSome (TYPED_ARRAY_TYPES type) || (type =? TYPES.String) then
        let sub := slice buffer offset (offset + length) in
        let offset := (offset + length)%nat in
        if type =? TYPES.String then Ret (VString (decode sub), offset)
        else
          match TYPED_ARRAY_TYPES type with
          | Some Ctor =>
              a <- newTypedArray Ctor sub ;; Ret (VTypedArray a, offset)
          | None => Throw TypeError
          end
      else if type =? TYPES.Array then
        '(arr, offset) <-
          forLoop length
            (fun arr offset =>
               '(value, offset) <- readChunk fuel' buffer offset ;;
               Ret (arr ++ [value], offset))
            [] offset ;;
        Ret (VArray arr, offset)
      else if type =? TYPES.Object then
        '(obj, offset) <-
          forLoop length
            (fun obj offset =>
               '(key, offset) <- readChunk fuel' buffer offset ;;
               '(val, offset) <- readChunk fuel' buffer offset ;;
               obj <- assign obj key val ;;
               Ret (obj, offset))
            [] offset ;;
        Ret (VObject obj, offset)
      else Throw (UnknownTypeCode type)
  end.

(** *** Writing *)

(** The [value] field of a chunk: the payload byte of a Boolean or the
    double of a Number or a Date. *)
Inductive Scalar : Type :=
| Integer (z : Z)
| Double (bits : float64).

(** The [data] field of a chunk: the payload bytes, or the array of the
    child chunks, in which [None] is an empty slot. *)
Inductive ChunkData (C : Type) : Type :=
| Bytes (bytes : list byte)
| Chunks (items : list (option C)).
Arguments Bytes {C} bytes.
Arguments Chunks {C} items.

Module Chunk.
Inductive t : Type := mk {
  type : Z;
  length : nat;
  data : option (ChunkData t);
  value : option Scalar
}.
End Chunk.

(** [chunk.value as number] handed to [setUint8] and to [setFloat64]. *)
Definition asUint8 (value : option Scalar) : Z :=
  match value with
  | Some (Integer z) => z
  | Some (Double bits) => f64_toUint8 bits
  | None => 0
  end.

Definition asFloat64 (value : option Scalar) : float64 :=
  match value with
  | Some (Integer z) => f64_ofInteger z
  | Some (Double bits) => bits
  | None => f64_NaN
  end.

(** [createChunk] on a string, also used for the keys of an object. *)
Definition createStringChunk (s : DOMString.t) : Chunk.t :=
  let data := encode s in
  Chunk.mk TYPES.String (length data) (Some (Bytes data)) None.

(** [createChunk] dispatches on [getTypeCode value]; its final
    [throw new Error('Unsupported value')] is never reached, since every
    code that [getTypeCode] returns has its branch.  [value.map] leaves
    the empty slots of an array empty. *)
Fixpoint createChunk (v : Value) : Chunk.t :=
  let type := getTypeCode v in
  match v with
  | VNull | VUndefined | VFunction | VHole => Chunk.mk type 0 None None
  | VBoolean b =>
      Chunk.mk type 0 None (Some (Integer (if b then 0xff else 0x00)))
  | VNumber n => Chunk.mk type 0 None (Some (Double n))
  | VDate time => Chunk.mk type 0 None (Some (Double time))
  | VString s => createStringChunk s
  | VTypedArray arr =>
      Chunk.mk type (TypedArray.byteLength arr)
        (Some (Bytes (elementBytes arr))) None
  | VArray items =>
      let items := map (mapSlot createChunk) items in
      Chunk.mk type (length items) (Some (Chunks items)) None
  | VObject props =>
      let entries :=
        flat_map (fun '(key, val) =>
                    [Some (createStringChunk key); Some (createChunk val)])
          props in
      Chunk.mk type (length entries / 2)%nat (Some (Chunks entries)) None
  end.


Fixpoint writeChunk (chunk : Chunk.t) (buffer : ArrayBuffer) (offset : nat)
  : result (ArrayBuffer * nat) :=
  buffer <- setUint8 buffer offset (Chunk.type chunk) ;;
  let offset := (offset + 1)%nat in
  if Chunk.type chunk =? TYPES.Null then Ret (buffer, offset)
  else if Chunk.type chunk =? TYPES.Boolean then
    buffer <- setUint8 buffer offset (asUint8 (Chunk.value chunk)) ;;
    Ret (buffer, (offset + 1)%nat)
  else if Chunk.type chunk =? TYPES.Number then
    buffer <- setFloat64 buffer offset (asFloat64 (Chunk.value chunk)) ;;
    Ret (buffer, (offset + 8)%nat)
  else if Chunk.type chunk =? TYPES.Date then
    buffer <- setFloat64 buffer offset (asFloat64 (Chunk.value chunk)) ;;
    Ret (buffer, (offset + 8)%nat)
  else
    buffer <- setUint32 buffer offset (Z.of_nat (Chunk.length chunk)) ;;
    let offset := (offset + 4)%nat in
    if isSome (TYPED_ARRAY_TYPES (Chunk.type chunk))
       || (Chunk.type chunk =? TYPES.String)
    then
      match Chunk.data chunk with
      | Some (Bytes bytes) =>
          buffer <- setBytes buffer bytes offset ;;
          Ret (buffer, (offset + Chunk.length chunk)%nat)
      | Some (Chunks subs) =>
          buffer <- setBytes buffer (repeat x00 (length subs)) offset ;;
          Ret (buffer, (offset + Chunk.length chunk)%nat)
      | None => Throw TypeError
      end
    else
      match Chunk.data chunk with
      | Some (Chunks subs) =>
          forEach (writeOf writeChunk) subs buffer offset
      | _ => Ret (buffer, offset)
      end.

Fixpoint calculateSize (chunk : Chunk.t) : result nat :=
  if Chunk.type chunk =? TYPES.Null then Ret 1%nat
  else if Chunk.type chunk =? TYPES.Boolean then Ret 2%nat
  else if (Chunk.type chunk =? TYPES.Number)
          || (Chunk.type chunk =? TYPES.Date)
  then Ret 9%nat
  else if isSome (TYPED_ARRAY_TYPES (Chunk.type chunk))
          || (Chunk.type chunk =? TYPES.String)
  then Ret (1 + 4 + Chunk.length chunk)%nat
  else if (Chunk.type chunk =? TYPES.Array)
          || (Chunk.type chunk =? TYPES.Object)
  then
    match Chunk.data chunk with
    | Some (Chunks subs) =>
        sumSizes (ofChunk calculateSize) subs (1 + 4)%nat
    | _ => Ret (1 + 4)%nat
    end
  else Ret 0%nat.

(** *** The public functions *)

Definition serialize (value : Value) : result ArrayBuffer :=
  let chunk := createChunk value in
  size <- calculateSize chunk ;;
  let buffer := newArrayBuffer size in
  '(buffer, _) <- writeChunk chunk buffer 0 ;;
  Ret buffer.

(** Every nested [readChunk] starts at least one byte further, so the
    recursion is never deeper than the buffer is long. *)
Definition deserialize (buffer : ArrayBuffer) : result Value :=
  if (length buffer =? 0)%nat then Throw EmptyBuffer
  else '(value, _) <- readChunk (S (length buffer)) buffer 0 ;; Ret value.

End B.

(** * Implementation A (tags 1..4, 11..18 and 21..23) *)

Module A.

Module TYPES.
Definition Null := 1.
Definition Boolean := 2.
Definition Number := 3.
Definition Date := 4.

Definition Int8Array := 11.
Definition Int16Array := 12.
Definition Int32Array := 13.
Definition Uint8Array := 14.
Definition Uint16Array := 15.
Definition Uint32Array := 16.
Definition Float32Array := 17.
Definition Float64Array := 18.

Definition String := 21.
Definition Array := 22.
Definition Object := 23.
End TYPES.

Definition typeIndexOf (value : Value) : Z :=
  match value with
  | VFunction | VNull | VUndefined | VHole => TYPES.Null
  | VTypedArray a =>
      match TypedArray.elementType a with
      | Int8Array => TYPES.Int8Array
      | Int16Array => TYPES.Int16Array
      | Int32Array => TYPES.Int32Array
      | Uint8Array => TYPES.Uint8Array
      | Uint16Array => TYPES.Uint16Array
      | Uint32Array => TYPES.Uint32Array
      | Float32Array => TYPES.Float32Array
      | Float64Array => TYPES.Float64Array
      end
  | VArray _ => TYPES.Array
  | VDate _ => TYPES.Date
  | VNumber _ => TYPES.Number
  | VBoolean _ => TYPES.Boolean
  | VObject _ => TYPES.Object
  | VString _ => TYPES.String
  end.

(** *** Reading *)

Module ReadChunk.
Record t : Type := mk {
  typeIndex : Z;
  value : Value;
  length : nat;
  offset : nat
}.
End ReadChunk.

(** The constructor that the first [switch] of [readChunk] picks. *)
Definition typedArrayOf (typeIndex : Z) : option ElementType :=
  if typeIndex =? TYPES.Int8Array then Some Int8Array
  else if typeIndex =? TYPES.Int16Array then Some Int16Array
  else if typeIndex =? TYPES.Int32Array then Some Int32Array
  else if typeIndex =? TYPES.Uint8Array then Some Uint8Array
  else if typeIndex =? TYPES.Uint16Array then Some Uint16Array
  else if typeIndex =? TYPES.Uint32Array then Some Uint32Array
  else if typeIndex =? TYPES.Float32Array then Some Float32Array
  else if typeIndex =? TYPES.Float64Array then Some Float64Array
  else None.

Fixpoint readChunk (fuel : nat) (buffer : ArrayBuffer) (offset : nat)
  : result ReadChunk.t :=
  match fuel with
  | O => Throw OutOfFuel
  | S fuel' =>
    typeIndex <- getUint8 buffer offset ;;
    let offset := (offset + 1)%nat in
    let length := 0%nat in
    let value := VNull in
    '(length, offset, value) <-
      (if TYPES.Int8Array <=? typeIndex then
         len <- getUint32 buffer offset ;;
         let length := Z.to_nat len in
         let offset := (offset + 4)%nat in
         if typeIndex <=? TYPES.String then
           let sub := slice buffer offset (offset + length) in
           let offset := (offset + length)%nat in
           match typedArrayOf typeIndex with
           | Some Ctor =>
               a <- newTypedArray Ctor sub ;;
               Ret (length, offset, VTypedArray a)
           | None =>
               if typeIndex =? TYPES.String
               then Ret (length, offset, VString (decode sub))
               else Ret (length, offset, value)
           end
         else Ret (length, offset, value)
       else Ret (length, offset, value)) ;;
    '(value, offset) <-
      (if typeIndex =? TYPES.Null then Ret (VNull, offset)
       else if typeIndex =? TYPES.Boolean then
         b <- getUint8 buffer offset ;;
         Ret (VBoolean (negb (b =? 0)), (offset + 1)%nat)
       else if typeIndex =? TYPES.Number then
         n <- getFloat64 buffer offset ;;
         Ret (VNumber n, (offset + 8)%nat)
       else if typeIndex =? TYPES.Array then
         '(arr, offset) <-
           forLoop length
             (fun arr offset =>
                item <- readChunk fuel' buffer offset ;;
                Ret (arr ++ [ReadChunk.value item], ReadChunk.offset item))
             [] offset ;;
         Ret (VArray arr, offset)
       else if typeIndex =? TYPES.Object then
         '(obj, offset) <-
           forLoop length
             (fun obj offset =>
                key <- readChunk fuel' buffer offset ;;
                let offset := ReadChunk.offset key in
                val <- readChunk fuel' buffer offset ;;
                let offset := ReadChunk.offset val in
                obj <- assign obj (ReadChunk.value key)
                         (ReadChunk.value val) ;;
                Ret (obj, offset))
             [] offset ;;
         Ret (VObject obj, offset)
       else if typeIndex =? TYPES.Date then
         time <- getFloat64 buffer offset ;;
         Ret (VDate (newDate time), (offset + 8)%nat)
       else Ret (value, offset)) ;;
    Ret (ReadChunk.mk typeIndex value length offset)
  end.

(** *** Writing *)

(** The [value] field of a chunk: the value itself, or the child chunks
    of an Array or an Object. *)
Inductive ChunkValue (C : Type) : Type :=
| Raw (v : Value)
| Chunks (items : list C).
Arguments Raw {C} v.
Arguments Chunks {C} items.

Module CreateChunk.
Inductive t : Type := mk {
  byteLength : nat;
  length : nat;
  value : ChunkValue t;
  subBuffer : option (list byte);
  typeIndex : Z
}.
End CreateChunk.

(** [createChunk(s, TYPES.String)], the call made on each property name,
    and the String case of [createChunk(value)]. *)
Definition createStringChunk (s : DOMString.t) : CreateChunk.t :=
  let subBuffer := encode s in
  let length := length subBuffer in
  CreateChunk.mk (1 + 4 + length) length (Raw (VString s)) (Some subBuffer)
    TYPES.String.

(** The loop over the items of an array: [byteLength] and the list [val]
    of the chunks built so far. *)
Definition eachItem {V C : Type} (create : V -> result C)
  (byteLengthOf : C -> nat)
  : list V -> nat -> list C -> result (nat * list C) :=
  fix each (items : list V) (byteLength : nat) (val : list C) :=
    match items with
    | [] => Ret (byteLength, val)
    | item :: rest =>
        chunk <- create item ;;
        each rest (byteLength + byteLengthOf chunk)%nat (val ++ [chunk])
    end.

(** The loop over the properties that [for (let s in value)] visits:
    [length], [byteLength] and the list [val] of the chunks built so
    far.  [own s] is [value.hasOwnProperty(s)]. *)
Definition eachProperty {V C : Type} (own : DOMString.t -> result bool)
  (createKey : DOMString.t -> C) (create : V -> result C)
  (byteLengthOf : C -> nat)
  : list (DOMString.t * V) -> nat -> nat -> list C
    -> result (nat * nat * list C) :=
  fix each (props : list (DOMString.t * V)) (length byteLength : nat)
    (val : list C) :=
    match props with
    | [] => Ret (length, byteLength, val)
    | (s, v) :: rest =>
        isOwn <- own s ;;
        if isOwn : bool then
          let length := S length in
          let chunk := createKey s in
          let byteLength := (byteLength + byteLengthOf chunk)%nat in
          let val := val ++ [chunk] in
          chunk <- create v ;;
          let byteLength := (byteLength + byteLengthOf chunk)%nat in
          let val := val ++ [chunk] in
          each rest length byteLength val
        else each rest length byteLength val
    end.

(** [createChunk(value)]: the type index is [typeIndexOf value], and the
    [switch] on it is the match on the value.  An empty slot of an array
    is read as [undefined]. *)
Fixpoint createChunk (value : Value) : result CreateChunk.t :=
  let typeIndex := typeIndexOf value in
  match value with
  | VNull | VUndefined | VFunction =>
      Ret (CreateChunk.mk 1 0 (Raw value) None typeIndex)
  | VHole => Ret (CreateChunk.mk 1 0 (Raw VUndefined) None typeIndex)
  | VBoolean _ => Ret (CreateChunk.mk (1 + 1) 0 (Raw value) None typeIndex)
  | VNumber _ => Ret (CreateChunk.mk (1 + 8) 0 (Raw value) None typeIndex)
  | VTypedArray a =>
      let length := TypedArray.byteLength a in
      Ret (CreateChunk.mk (1 + 4 + length) length (Raw value) None typeIndex)
  | VString s => Ret (createStringChunk s)
  | VArray items =>
      let length := length items in
      '(byteLength, val) <-
        eachItem createChunk CreateChunk.byteLength items (1 + 4)%nat [] ;;
      Ret (CreateChunk.mk byteLength length (Chunks val) None typeIndex)
  | VObject props =>
      '(length, byteLength, val) <-
        eachProperty (hasOwnProperty props) createStringChunk createChunk
          CreateChunk.byteLength props 0%nat (1 + 4)%nat [] ;;
      Ret (CreateChunk.mk byteLength length (Chunks val) None typeIndex)
  | VDate _ => Ret (CreateChunk.mk (1 + 8) 0 (Raw value) None typeIndex)
  end.

(** ToBoolean of a chunk's value. *)
Definition truthy (value : ChunkValue CreateChunk.t) : bool :=
  match value with
  | Raw (VBoolean b) => b
  | Raw VNull | Raw VUndefined => false
  | Raw (VNumber n) =>
      negb ((n =? 0) || (n =? 2 ^ 63) || f64_isNaN n)
  | Raw (VString s) => negb (DOMString.eqb s [])
  | _ => true
  end.

Fixpoint writeChunk (chunk : CreateChunk.t) (buffer : ArrayBuffer)
  (offset : nat) : result (ArrayBuffer * nat) :=
  let typeIndex := CreateChunk.typeIndex chunk in
  buffer <- setUint8 buffer offset typeIndex ;;
  let offset := (offset + 1)%nat in
  let value := CreateChunk.value chunk in
  let length := CreateChunk.length chunk in
  if typeIndex =? TYPES.Null then Ret (buffer, offset)
  else if typeIndex =? TYPES.Boolean then
    buffer <- setUint8 buffer offset (if truthy value then 0xff else 0x00) ;;
    Ret (buffer, (offset + 1)%nat)
  else if typeIndex =? TYPES.Number then
    match value with
    | Raw (VNumber n) =>
        buffer <- setFloat64 buffer offset n ;;
        Ret (buffer, (offset + 8)%nat)
    | _ => Throw Unmodelled
    end
  else if isSome (typedArrayOf typeIndex) then
    buffer <- setUint32 buffer offset (Z.of_nat length) ;;
    let offset := (offset + 4)%nat in
    match value with
    | Raw (VTypedArray a) =>
        buffer <- setBytes buffer (TypedArray.buffer a) offset ;;
        Ret (buffer, (offset + length)%nat)
    | _ => Throw Unmodelled
    end
  else if typeIndex =? TYPES.String then
    buffer <- setUint32 buffer offset (Z.of_nat length) ;;
    let offset := (offset + 4)%nat in
    match CreateChunk.subBuffer chunk with
    | Some subBuffer =>
        buffer <- setBytes buffer subBuffer offset ;;
        Ret (buffer, (offset + length)%nat)
    | None => Throw TypeError
    end
  else if (typeIndex =? TYPES.Array) || (typeIndex =? TYPES.Object) then
    buffer <- setUint32 buffer offset (Z.of_nat length) ;;
    let offset := (offset + 4)%nat in
    match value with
    | Chunks items =>
        forEach writeChunk items buffer offset
    | Raw _ => Throw Unmodelled
    end
  else if typeIndex =? TYPES.Date then
    match value with
    | Raw (VDate time) =>
        buffer <- setFloat64 buffer offset time ;;
        Ret (buffer, (offset + 8)%nat)
    | _ => Throw Unmodelled
    end
  else Ret (buffer, offset).

(** *** The public functions *)

Definition serialize (value : Value) : result ArrayBuffer :=
  chunk <- createChunk value ;;
  let buffer := newArrayBuffer (CreateChunk.byteLength chunk) in
  '(buffer, _) <- writeChunk chunk buffer 0 ;;
  Ret buffer.

(** Every nested [readChunk] starts at least one byte further, so the
    recursion is never deeper than the buffer is long. *)
Definition deserialize (buffer : ArrayBuffer) : result Value :=
  chunk <- readChunk (S (length buffer)) buffer 0 ;;
  Ret (ReadChunk.value chunk).

End A.

(** * The wire format and the supported values *)

(** The bytes of a chunk on the wire, for a given tag table and a given
    choice of the payload bytes of a typed array. *)
Section Wire.
Variable tagOf : Value -> Z.
Variable stringTag : Z.
Variable payload : TypedArray.t -> list byte.

Definition wireString (s : DOMString.t) : list byte :=
  byteOf stringTag
    :: beBytes 4 (Z.of_nat (length (encode s))) ++ encode s.

Fixpoint wire (v : Value) : list byte :=
  byteOf (tagOf v) ::
  match v with
  | VNull | VUndefined | VFunction | VHole => []
  | VBoolean b => [if b then xff else x00]
  | VNumber n => beBytes 8 n
  | VDate time => beBytes 8 time
  | VString s => beBytes 4 (Z.of_nat (length (encode s))) ++ encode s
  | VTypedArray a =>
      beBytes 4 (Z.of_nat (TypedArray.byteLength a)) ++ payload a
  | VArray items =>
      beBytes 4 (Z.of_nat (length items)) ++ flat_map wire items
  | VObject props =>
      beBytes 4 (Z.of_nat (length props))
        ++ flat_map (fun '(key, val) => wireString key ++ wire val) props
  end.
End Wire.

(** The nesting depth of a value: the number of recursion steps a reader
    needs for it. *)
Fixpoint depth (v : Value) : nat :=
  match v with
  | VArray items =>
      S (fold_right (fun item d => Nat.max (depth item) d) 1%nat items)
  | VObject props =>
      S (fold_right (fun '(_, val) d => Nat.max (depth val) d) 1%nat props)
  | _ => 1
  end.

Definition isNumberb (n : float64) : bool :=
  (0 <=? n) && (n <? 2 ^ 64) && (canonNaN n =? n).

Definition isTimeValueb (time : float64) : bool :=
  (0 <=? time) && (time <? 2 ^ 64) && (TimeClip time =? time).

Definition isTypedArrayb (a : TypedArray.t) : bool :=
  (TypedArray.byteOffset a + TypedArray.byteLength a
   <=? length (TypedArray.buffer a))%nat
  && (TypedArray.byteLength a mod BYTES_PER_ELEMENT (TypedArray.elementType a)
      =? 0)%nat.

Definition fitsUint32 (n : nat) : bool := Z.of_nat n <? 2 ^ 32.

Fixpoint distinct (keys : list DOMString.t) : bool :=
  match keys with
  | [] => true
  | k :: rest => negb (existsb (DOMString.eqb k) rest) && distinct rest
  end.

(** The order of the own property names of an object: no name is followed
    by one that is enumerated before it. *)
Fixpoint ownKeysOrder (keys : list DOMString.t) : bool :=
  match keys with
  | [] => true
  | k :: rest =>
      match rest with
      | [] => true
      | k' :: _ => negb (precedes k' k)
      end
      && ownKeysOrder rest
  end.

(** What is lost by design: [undefined] and functions become [null], and
    so does the empty slot of an array. *)
Fixpoint degrade (v : Value) : Value :=
  match v with
  | VUndefined | VFunction | VHole => VNull
  | VArray items => VArray (map degrade items)
  | VObject props => VObject (map (fun '(key, val) => (key, degrade val)) props)
  | _ => v
  end.

(** The values of the supported domain, with the invariants that every
    JavaScript value of their kind has: a number is a double, the time
    value of a date is clipped, a string is made of code units, a typed
    array lies inside its buffer and holds whole elements, the property
    names of an object are distinct and in the order of their
    enumeration.  Every length and count fits the 32-bit prefix of the
    format and every array is dense.  [undefined] and functions belong to
    them: they are encoded as [null].  One kind of object is left out: an
    object with a property that reads back as [__proto__] and holds
    anything but a boolean, a number or a string, since the assignment
    that the readers make for it replaces the prototype of the object
    they build. *)
Fixpoint supportedb (v : Value) : bool :=
  match v with
  | VNull | VUndefined | VFunction | VBoolean _ => true
  | VNumber n => isNumberb n
  | VDate time => isTimeValueb time
  | VString s => forallb isCodeUnit s && fitsUint32 (length (encode s))
  | VTypedArray a => isTypedArrayb a && fitsUint32 (TypedArray.byteLength a)
  | VArray items => fitsUint32 (length items) && forallb supportedb items
  | VObject props =>
      fitsUint32 (length props)
      && distinct (map fst props)
      && ownKeysOrder (map fst props)
      && forallb (fun '(key, val) =>
                    forallb isCodeUnit key
                    && fitsUint32 (length (encode key))
                    && (negb (DOMString.eqb (decode (encode key)) PROTO)
                        || keepsPrototype (degrade val))
                    && supportedb val) props
  | VHole => false
  end.

Definition supported (v : Value) : Prop := supportedb v = true.

(** The values whose typed arrays lie within their buffer and hold whole
    elements, and whose arrays are dense.  Nothing is asked of lengths,
    numbers or property names. *)
Fixpoint wellFormed (v : Value) : bool :=
  match v with
  | VTypedArray a => isTypedArrayb a
  | VArray items => forallb wellFormed items
  | VObject props => forallb (fun '(_, val) => wellFormed val) props
  | VHole => false
  | _ => true
  end.

(** Deep equality: scalars and strings are equal, dates have the same time
    value, typed arrays have the same element type and the same elements,
    arrays are equal item by item and objects property by property, in
    the order of enumeration. *)
Inductive deepEqual : Value -> Value -> Prop :=
| deNull : deepEqual VNull VNull
| deUndefined : deepEqual VUndefined VUndefined
| deFunction : deepEqual VFunction VFunction
| deHole : deepEqual VHole VHole
| deBoolean b : deepEqual (VBoolean b) (VBoolean b)
| deNumber n : deepEqual (VNumber n) (VNumber n)
| deString s : deepEqual (VString s) (VString s)
| deDate time : deepEqual (VDate time) (VDate time)
| deTypedArray a b :
    TypedArray.elementType a = TypedArray.elementType b ->
    elementBytes a = elementBytes b ->
    deepEqual (VTypedArray a) (VTypedArray b)
| deArray items items' :
    Forall2 deepEqual items items' ->
    deepEqual (VArray items) (VArray items')
| deObject props props' :
    Forall2 (fun p p' => fst p = fst p' /\ deepEqual (snd p) (snd p'))
      props props' ->
    deepEqual (VObject props) (VObject props').

(** The own properties after [obj[key] = val], when the assignment leaves
    the prototype of [obj] as it is. *)
Definition assigned (props : list (DOMString.t * Value)) (key : DOMString.t)
  (val : Value) : list (DOMString.t * Value) :=
  if DOMString.eqb key PROTO then props else setProperty props key val.

(** The value a reader rebuilds from the wire bytes of [v]: a string is
    decoded from its encoding, typed arrays come back over a buffer of
    their own that holds [payload a], and an object is built by assigning
    its properties one after the other under their decoded names. *)
Section Received.
Variable payload : TypedArray.t -> list byte.

Fixpoint received (v : Value) : Value :=
  match v with
  | VUndefined | VFunction | VHole => VNull
  | VString s => VString (decode (encode s))
  | VTypedArray a =>
      VTypedArray
        (TypedArray.mk (TypedArray.elementType a) (payload a) 0
           (length (payload a)))
  | VArray items => VArray (map received items)
  | VObject props =>
      VObject
        (fold_left
           (fun obj '(key, val) =>
              assigned obj (decode (encode key)) (received val))
           props [])
  | _ => v
  end.
End Received.

(** ** The values that come back as they are *)

(** [s.isWellFormed()]: every code unit is in range and every surrogate
    is one of a pair. *)
Fixpoint isWellFormed (s : DOMString.t) : bool :=
  match s with
  | [] => true
  | u :: rest =>
      isCodeUnit u
      && (if isLeadSurrogate u then
            match rest with
            | u' :: rest' => isTrailSurrogate u' && isWellFormed rest'
            | [] => false
            end
          else negb (isTrailSurrogate u) && isWellFormed rest)
  end.

(** The strings that [TextEncoder] and [TextDecoder] give back unchanged:
    well-formed, and not starting with the byte-order mark U+FEFF. *)
Definition plainText (s : DOMString.t) : bool :=
  isWellFormed s
  && match s with
     | u :: _ => negb (u =? 0xFEFF)
     | [] => true
     end.

(** The values made of such strings, whose objects have such property
    names and no property named [__proto__]. *)
Fixpoint plain (v : Value) : bool :=
  match v with
  | VString s => plainText s
  | VArray items => forallb plain items
  | VObject props =>
      forallb (fun '(key, val) =>
                 plainText key && negb (DOMString.eqb key PROTO) && plain val)
        props
  | _ => true
  end.

(** Some object in [v] has a property named [hasOwnProperty] of its own,
    which hides the method of [Object.prototype]. *)
Fixpoint shadowsHasOwnProperty (v : Value) : bool :=
  match v with
  | VArray items => existsb shadowsHasOwnProperty items
  | VObject props =>
      isSome (getProperty props HAS_OWN_PROPERTY)
      || existsb (fun '(_, val) => shadowsHasOwnProperty val) props
  | _ => false
  end.


(** Induction on values, with their items and properties. *)
Section ValueInduction.
Variable P : Value -> Prop.
Hypothesis HNull : P VNull.
Hypothesis HUndefined : P VUndefined.
Hypothesis HFunction : P VFunction.
Hypothesis HBoolean : forall b, P (VBoolean b).
Hypothesis HNumber : forall n, P (VNumber n).
Hypothesis HString : forall s, P (VString s).
Hypothesis HDate : forall time, P (VDate time).
Hypothesis HTypedArray : forall a, P (VTypedArray a).
Hypothesis HArray : forall items, Forall P items -> P (VArray items).
Hypothesis HObject :
  forall props, Forall (fun p => P (snd p)) props -> P (VObject props).
Hypothesis HHole : P VHole.

Fixpoint Value_induction (v : Value) : P v :=
  match v with
  | VNull => HNull
  | VUndefined => HUndefined
  | VFunction => HFunction
  | VBoolean b => HBoolean b
  | VNumber n => HNumber n
  | VString s => HString s
  | VDate time => HDate time
  | VTypedArray a => HTypedArray a
  | VArray items =>
      HArray items
        ((fix all (l : list Value) : Forall P l :=
            match l with
            | [] => Forall_nil P
            | x :: rest => Forall_cons x (Value_induction x) (all rest)
            end) items)
  | VObject props =>
      HObject props
        ((fix all (l : list (DOMString.t * Value))
            : Forall (fun p => P (snd p)) l :=
            match l with
            | [] => Forall_nil _
            | p :: rest =>
                Forall_cons p (Value_induction (snd p)) (all rest)
            end) props)
  | VHole => HHole
  end.
End ValueInduction.

(** The wire bytes and the rebuilt values of the two implementations.
    [A.writeChunk] copies the start of the array's whole buffer. *)
Definition wireB : Value -> list byte :=
  wire B.getTypeCode B.TYPES.String elementBytes.

Definition bufferStart (a : TypedArray.t) : list byte :=
  firstn (TypedArray.byteLength a) (TypedArray.buffer a).

Definition wireA : Value -> list byte :=
  wire A.typeIndexOf A.TYPES.String bufferStart.

Definition receivedB : Value -> Value := received elementBytes.
Definition receivedA : Value -> Value := received bufferStart.

(** The value [v] with [null] for [undefined], for a function and for an
    empty slot, and with every typed array over a buffer of its own that
    holds [payload a]. *)
Section Rebuilt.
Variable payload : TypedArray.t -> list byte.

Fixpoint rebuilt (v : Value) : Value :=
  match v with
  | VUndefined | VFunction | VHole => VNull
  | VTypedArray a =>
      VTypedArray
        (TypedArray.mk (TypedArray.elementType a) (payload a) 0
           (length (payload a)))
  | VArray items => VArray (map rebuilt items)
  | VObject props =>
      VObject (map (fun '(key, val) => (key, rebuilt val)) props)
  | _ => v
  end.
End Rebuilt.

Definition rebuiltB : Value -> Value := rebuilt elementBytes.
Definition rebuiltA : Value -> Value := rebuilt bufferStart.

(** The values whose typed arrays span the whole of their buffer, as the
    arrays built by [Uint8Array.from] or [new Float64Array(n)] do; a
    [subarray] or a view made with an explicit offset and length does
    not. *)
Fixpoint wholeBuffers (v : Value) : bool :=
  match v with
  | VTypedArray a =>
      (length (TypedArray.buffer a) =? TypedArray.byteLength a)%nat
  | VArray items => forallb wholeBuffers items
  | VObject props => forallb (fun '(_, val) => wholeBuffers val) props
  | _ => true
  end.

(** The registered tags of the two tables. *)
Definition registeredB (type : Z) : bool :=
  ((B.TYPES.Null <=? type) && (type <=? B.TYPES.Object))
  || ((B.TYPES.Int8Array <=? type) && (type <=? B.TYPES.Float64Array)).

Definition registeredA (type : Z) : bool :=
  ((A.TYPES.Null <=? type) && (type <=? A.TYPES.Date))
  || ((A.TYPES.Int8Array <=? type) && (type <=? A.TYPES.Float64Array))
  || ((A.TYPES.String <=? type) && (type <=? A.TYPES.Object)).

(** [new Uint8Array(new Uint8Array([1, 2, 3, 4]).buffer, 1, 2)]: the
    elements 2 and 3, seen through a view of a four-byte buffer. *)
Definition offsetView : TypedArray.t :=
  TypedArray.mk Uint8Array [x01; x02; x03; x04] 1 2.

(** An array that holds that view, followed by a string. *)
Definition viewThenText : Value :=
  VArray [VTypedArray offsetView; VString (text "pad"%string)].

(** The string ["\uFEFFhi"], which starts with the byte-order mark. *)
Definition markedText : DOMString.t := 0xFEFF :: text "hi"%string.




(** The array [[ , 1]], whose first slot is empty. *)
Definition sparseArray : Value := VArray [VHole; VNumber 0x3FF0000000000000].

(** Some array in [v] has an empty slot. *)
Fixpoint sparse (v : Value) : bool :=
  match v with
  | VArray items =>
      existsb (fun item =>
                 match item with
                 | VHole => true
                 | _ => sparse item
                 end) items
  | VObject props => existsb (fun '(_, val) => sparse val) props
  | _ => false
  end.

(** Big-endian fields as the format describes them: the bytes of a 32-bit
    and of a 64-bit field, most significant byte first. *)
Definition bigEndian32 (n : Z) : list byte :=
  [byteOf (n / 2 ^ 24); byteOf (n / 2 ^ 16); byteOf (n / 2 ^ 8); byteOf n].

Definition bigEndian64 (n : Z) : list byte :=
  [byteOf (n / 2 ^ 56); byteOf (n / 2 ^ 48); byteOf (n / 2 ^ 40);
   byteOf (n / 2 ^ 32); byteOf (n / 2 ^ 24); byteOf (n / 2 ^ 16);
   byteOf (n / 2 ^ 8); byteOf n].

(** The values whose tag is not one of the four scalar tags: strings,
    typed arrays, arrays and objects. *)
Definition lengthPrefixed (v : Value) : bool :=
  match v with
  | VString _ | VTypedArray _ | VArray _ | VObject _ => true
  | _ => false
  end.

(** The eight element types, in the order of the tag tables. *)
Definition elementTypes : list ElementType :=
  [Int8Array; Int16Array; Int32Array; Uint8Array; Uint16Array; Uint32Array;
   Float32Array; Float64Array].

(** * Vocabulary of the proofs *)

(** The scalar values: the code points that are no surrogates. *)
Definition isScalarValue (c : Z) : Prop :=
  0 <= c < 0x110000 /\ ~ (0xD800 <= c <= 0xDFFF).

(** Every code point that the decoder can emit for the sequence it has
    open satisfies [P]: [needed] bytes are still expected, the first of
    them between [lower] and [upper]. *)
Fixpoint completes (P : Z -> Prop) (needed : nat) (codePoint lower upper : Z)
  : Prop :=
  match needed with
  | O => True
  | S needed' =>
      forall byte,
        lower <= byte <= upper ->
        match needed' with
        | O => P (codePoint * 64 + byte mod 64)
        | S _ => completes P needed' (codePoint * 64 + byte mod 64) 0x80 0xBF
        end
  end.

(** A reader [read] rebuilds [val v] from the bytes [bytes v] wherever
    they stand in [buffer], and returns the offset that follows them. *)
Definition reads (buffer : ArrayBuffer) (read : nat -> result (Value * nat))
  (bytes : Value -> list byte) (val : Value -> Value) (v : Value) : Prop :=
  forall offset rest,
    skipn offset buffer = bytes v ++ rest ->
    read offset = Ret (val v, (offset + length (bytes v))%nat).

Definition readsKey (buffer : ArrayBuffer)
  (read : nat -> result (Value * nat))
  (keyBytes : DOMString.t -> list byte) (key : DOMString.t) : Prop :=
  forall offset rest,
    skipn offset buffer = keyBytes key ++ rest ->
    read offset
    = Ret (VString (decode (encode key)),
           (offset + length (keyBytes key))%nat).

(** A write that returns leaves the length of the buffer and the bytes
    before its offset as they were, and the bytes from its offset to the
    offset it returns are [bytes]; it may have written further. *)
Definition writesPrefix
  (write : ArrayBuffer -> nat -> result (ArrayBuffer * nat))
  (bytes : list byte) : Prop :=
  forall buffer offset buffer' offset',
    write buffer offset = Ret (buffer', offset') ->
    length buffer' = length buffer
    /\ offset' = (offset + length bytes)%nat
    /\ (offset' <= length buffer)%nat
    /\ firstn offset' buffer' = firstn offset buffer ++ bytes.

(** The state of a sequence of writes that started at [offset]: the buffer
    has kept its length and its bytes before [offset], and holds [acc] from
    [offset] to the current offset [o]. *)
Definition written (buffer : ArrayBuffer) (offset : nat) (acc : list byte)
  (b : ArrayBuffer) (o : nat) : Prop :=
  length b = length buffer
  /\ o = (offset + length acc)%nat
  /\ (o <= length buffer)%nat
  /\ firstn o b = firstn offset buffer ++ acc.

(** The [length] field of the chunk that [A.readChunk] returns. *)
Definition lengthField (v : Value) : nat :=
  match v with
  | VString s => length (encode s)
  | VTypedArray a => TypedArray.byteLength a
  | VArray items => length items
  | VObject props => length props
  | _ => 0
  end.

(** The chunk tree that [A.createChunk] builds when it returns: the
    chunks of the items of an array, and of the names and the values of
    the properties of an object, with the sum of their sizes. *)
Fixpoint chunkTreeA (value : Value) : A.CreateChunk.t :=
  let typeIndex := A.typeIndexOf value in
  match value with
  | VNull | VUndefined | VFunction =>
      A.CreateChunk.mk 1 0 (A.Raw value) None typeIndex
  | VHole => A.CreateChunk.mk 1 0 (A.Raw VUndefined) None typeIndex
  | VBoolean _ => A.CreateChunk.mk (1 + 1) 0 (A.Raw value) None typeIndex
  | VNumber _ => A.CreateChunk.mk (1 + 8) 0 (A.Raw value) None typeIndex
  | VTypedArray a =>
      let length := TypedArray.byteLength a in
      A.CreateChunk.mk (1 + 4 + length) length (A.Raw value) None typeIndex
  | VString s => A.createStringChunk s
  | VArray items =>
      let val := map chunkTreeA items in
      let byteLength :=
        fold_left (fun n chunk => (n + A.CreateChunk.byteLength chunk)%nat)
          val (1 + 4)%nat in
      A.CreateChunk.mk byteLength (length items) (A.Chunks val) None typeIndex
  | VObject props =>
      let val :=
        flat_map (fun '(s, v) => [A.createStringChunk s; chunkTreeA v])
          props in
      let byteLength :=
        fold_left (fun n chunk => (n + A.CreateChunk.byteLength chunk)%nat)
          val (1 + 4)%nat in
      A.CreateChunk.mk byteLength (length props) (A.Chunks val) None typeIndex
  | VDate _ => A.CreateChunk.mk (1 + 8) 0 (A.Raw value) None typeIndex
  end.

(** The value and the offset of the chunk that [A.readChunk] returns. *)
Definition A_read_at (fuel : nat) (buffer : ArrayBuffer) (offset : nat)
  : result (Value * nat) :=
  item <- A.readChunk fuel buffer offset ;;
  Ret (A.ReadChunk.value item, A.ReadChunk.offset item).

(** The outcome of a write of [n] bytes at [offset] that checks its bounds:
    the platform's [RangeError], or a buffer of the same length and the
    offset moved by [n], still inside the buffer. *)
Definition checked (r : result (ArrayBuffer * nat)) (buffer : ArrayBuffer)
  (offset n : nat) : Prop :=
  match r with
  | Ret (buffer', offset') =>
      length buffer' = length buffer
      /\ offset' = (offset + n)%nat
      /\ (offset' <= length buffer)%nat
  | Throw e => e = RangeError
  end.

(** What a reader builds: no [undefined], no function and no empty slot;
    numbers and time values as a [DataView] and [new Date] give them;
    well-formed strings; typed arrays that span a buffer of their own;
    objects with distinct, well-formed property names in the order of
    their enumeration, none of them [__proto__]; and no more items or
    properties than a 32-bit count announces. *)
Fixpoint decoded (v : Value) : bool :=
  match v with
  | VNull | VBoolean _ => true
  | VNumber n => isNumberb n
  | VDate time => isTimeValueb time
  | VString s => isWellFormed s
  | VTypedArray a =>
      isTypedArrayb a
      && fitsUint32 (TypedArray.byteLength a)
      && (TypedArray.byteOffset a =? 0)%nat
      && (length (TypedArray.buffer a) =? TypedArray.byteLength a)%nat
  | VArray items => fitsUint32 (length items) && forallb decoded items
  | VObject props =>
      fitsUint32 (length props)
      && distinct (map fst props)
      && ownKeysOrder (map fst props)
      && forallb (fun '(key, val) =>
                    isWellFormed key
                    && negb (DOMString.eqb key PROTO)
                    && decoded val) props
  | VUndefined | VFunction | VHole => false
  end.

(** The errors that a computation can raise are among those of [P]. *)
Definition raisesOnly {A : Type} (r : result A) (P : Error -> Prop) : Prop :=
  forall e, r = Throw e -> P e.

(** * The value of the repository's test *)

(** The object that the round-trip test builds, with the typed arrays as
    [Uint8Array.from], [Float32Array.from] and [Float64Array.from] lay
    them out on a little-endian host, and a date in November 2023. *)
Definition original : Value :=
  VObject
    [(text "nil"%string, VNull);
     (text "integer"%string, VNumber 0x3FF0000000000000);
     (text "float"%string, VNumber 0x400921FB54442D18);
     (text "string"%string, VString (text "Hello, world!"%string));
     (text "binary"%string,
      VTypedArray (TypedArray.mk Uint8Array [x01; x02; x03] 0 3));
     (text "float32"%string,
      VTypedArray
        (TypedArray.mk Float32Array
           [xf4; xfd; xe4; x3f; x37; x8e; x23; x40; x38; xa2; x07; x4a] 0 12));
     (text "float64"%string,
      VTypedArray
        (TypedArray.mk Float64Array
           [x8d; x97; x6e; x12; x83; xc0; xf3; x3f;
            x1d; x5a; x64; x3b; xdf; x4f; x06; x40;
            xa0; x1a; xc7; x71; x8d; x8e; xd0; x41] 0 24));
     (text "array"%string,
      VArray [VNumber 0x4024000000000000; VNumber 0x4034000000000000;
              VNumber 0x403E000000000000]);
     (text "map"%string,
      VObject [(text "foo"%string, VString (text "bar"%string))]);
     (text "timestampExt"%string, VDate 0x4278BCFE56800000)].

(** The same object with the date that [new Date()] gives at the time of
    the test. *)
Definition testValue (now : float64) : Value :=
  VObject
    [(text "nil"%string, VNull);
     (text "integer"%string, VNumber 0x3FF0000000000000);
     (text "float"%string, VNumber 0x400921FB54442D18);
     (text "string"%string, VString (text "Hello, world!"%string));
     (text "binary"%string,
      VTypedArray (TypedArray.mk Uint8Array [x01; x02; x03] 0 3));
     (text "float32"%string,
      VTypedArray
        (TypedArray.mk Float32Array
           [xf4; xfd; xe4; x3f; x37; x8e; x23; x40; x38; xa2; x07; x4a] 0 12));
     (text "float64"%string,
      VTypedArray
        (TypedArray.mk Float64Array
           [x8d; x97; x6e; x12; x83; xc0; xf3; x3f;
            x1d; x5a; x64; x3b; xdf; x4f; x06; x40;
            xa0; x1a; xc7; x71; x8d; x8e; xd0; x41] 0 24));
     (text "array"%string,
      VArray [VNumber 0x4024000000000000; VNumber 0x4034000000000000;
              VNumber 0x403E000000000000]);
     (text "map"%string,
      VObject [(text "foo"%string, VString (text "bar"%string))]);
     (text "timestampExt"%string, VDate now)].

(** * Proofs *)

(** * Bytes and big-endian fields *)

Lemma byteVal_range (b : byte) : 0 <= byteVal b < 256.
Proof.
  unfold byteVal. pose proof (Byte.to_N_bounded b). lia.
Qed.

Lemma byteVal_byteOf (z : Z) : byteVal (byteOf z) = z mod 256.
Proof.
  unfold byteVal, byteOf.
  assert (Hr : 0 <= z mod 256 < 256) by (apply Z.mod_pos_bound; lia).
  destruct (Byte.of_N (Z.to_N (z mod 256))) as [b|] eqn:E.
  - apply Byte.to_of_N in E. rewrite E. lia.
  - apply Byte.of_N_None_iff in E. lia.
Qed.

Lemma byteOf_byteVal (b : byte) : byteOf (byteVal b) = b.
Proof.
  unfold byteOf, byteVal.
  pose proof (Byte.to_N_bounded b) as Hb.
  rewrite Z.mod_small by lia.
  rewrite N2Z.id, Byte.of_to_N. reflexivity.
Qed.

Lemma length_beBytes (n : nat) (z : Z) : length (beBytes n z) = n.
Proof. induction n; simpl; congruence. Qed.

Lemma beVal_range (bs : list byte) : 0 <= beVal bs < 256 ^ Z.of_nat (length bs).
Proof.
  induction bs as [|b rest IH]; simpl beVal.
  - simpl. lia.
  - pose proof (byteVal_range b) as Hb.
    change (length (b :: rest)) with (S (length rest)).
    rewrite Nat2Z.inj_succ, Z.pow_succ_r by lia.
    nia.
Qed.

Lemma beVal_beBytes (n : nat) (z : Z) :
  beVal (beBytes n z) = z mod 256 ^ Z.of_nat n.
Proof.
  induction n as [|n IH].
  - simpl. rewrite Z.mod_1_r. reflexivity.
  - simpl beBytes. simpl beVal.
    rewrite length_beBytes, IH, byteVal_byteOf.
    rewrite Nat2Z.inj_succ, Z.pow_succ_r by lia.
    rewrite (Z.mul_comm 256).
    rewrite Z.rem_mul_r by lia. lia.
Qed.

Lemma beVal_beBytes_small (n : nat) (z : Z) :
  0 <= z < 256 ^ Z.of_nat n -> beVal (beBytes n z) = z.
Proof.
  intros H. rewrite beVal_beBytes. apply Z.mod_small. exact H.
Qed.

(** * Buffers *)

Lemma length_newArrayBuffer (n : nat) : length (newArrayBuffer n) = n.
Proof. apply repeat_length. Qed.

Lemma length_splice (buffer : ArrayBuffer) (offset : nat) (src : list byte) :
  (offset + length src <= length buffer)%nat ->
  length (splice buffer offset src) = length buffer.
Proof.
  intros H. unfold splice.
  rewrite !length_app, length_firstn, length_skipn. lia.
Qed.

Lemma splice_nil (buffer : ArrayBuffer) (offset : nat) :
  splice buffer offset [] = buffer.
Proof.
  unfold splice. simpl. rewrite Nat.add_0_r. apply firstn_skipn.
Qed.

Lemma splice_whole (buffer : ArrayBuffer) (src : list byte) :
  length src = length buffer -> splice buffer 0 src = src.
Proof.
  intros H. unfold splice. simpl.
  rewrite H, skipn_all, app_nil_r. reflexivity.
Qed.

Lemma firstn_splice_before (buffer : ArrayBuffer) (offset : nat)
  (src : list byte) (n : nat) :
  (n <= offset)%nat -> (offset <= length buffer)%nat ->
  firstn n (splice buffer offset src) = firstn n buffer.
Proof.
  intros Hn Ho. unfold splice.
  rewrite firstn_app, length_firstn.
  replace (n - Nat.min offset (length buffer))%nat with 0%nat by lia.
  rewrite firstn_firstn. simpl. rewrite app_nil_r.
  f_equal. lia.
Qed.

Lemma firstn_splice_upto (buffer : ArrayBuffer) (offset : nat)
  (src : list byte) (k : nat) :
  (offset <= length buffer)%nat -> (k <= length src)%nat ->
  firstn (offset + k) (splice buffer offset src)
  = firstn offset buffer ++ firstn k src.
Proof.
  intros Ho Hk. unfold splice.
  rewrite firstn_app, length_firstn.
  rewrite firstn_all2 by (rewrite length_firstn; lia).
  f_equal.
  replace (offset + k - Nat.min offset (length buffer))%nat with k by lia.
  rewrite firstn_app.
  replace (k - length src)%nat with 0%nat by lia.
  simpl. apply app_nil_r.
Qed.

Lemma splice_splice (buffer : ArrayBuffer) (offset : nat)
  (src1 src2 : list byte) :
  (offset + length src1 + length src2 <= length buffer)%nat ->
  splice (splice buffer offset src1) (offset + length src1) src2
  = splice buffer offset (src1 ++ src2).
Proof.
  intros H. unfold splice at 1.
  pose proof (firstn_splice_upto buffer offset src1 (length src1)) as F.
  rewrite F by lia. rewrite firstn_all.
  unfold splice.
  rewrite <- !app_assoc. do 3 f_equal.
  rewrite length_app.
  rewrite !skipn_app, !length_firstn.
  rewrite (skipn_all2 (firstn offset buffer))
    by (rewrite length_firstn; lia).
  rewrite (skipn_all2 src1) by lia.
  simpl. rewrite skipn_skipn. f_equal. lia.
Qed.

Lemma setBytes_ok (buffer : ArrayBuffer) (src : list byte) (offset : nat) :
  (offset + length src <= length buffer)%nat ->
  setBytes buffer src offset = Ret (splice buffer offset src).
Proof.
  intros H. unfold setBytes.
  destruct (Nat.leb_spec (offset + length src) (length buffer)); [reflexivity|lia].
Qed.

Lemma setBytes_inv (buffer : ArrayBuffer) (src : list byte) (offset : nat)
  (buffer' : ArrayBuffer) :
  setBytes buffer src offset = Ret buffer' ->
  (offset + length src <= length buffer)%nat
  /\ buffer' = splice buffer offset src.
Proof.
  unfold setBytes.
  destruct (Nat.leb_spec (offset + length src) (length buffer));
    intros E; inversion E; auto.
Qed.

(** Reading at an offset where the rest of the buffer is known. *)
Lemma getBytes_at (buffer : ArrayBuffer) (offset : nat)
  (bs rest : list byte) :
  skipn offset buffer = bs ++ rest -> bs <> [] ->
  getBytes buffer offset (length bs) = Ret bs.
Proof.
  intros H Hne. unfold getBytes.
  assert (Hlen : length (skipn offset buffer) = (length bs + length rest)%nat)
    by (rewrite H; apply length_app).
  rewrite length_skipn in Hlen.
  assert (length bs <> 0%nat) by (destruct bs; simpl; congruence).
  destruct (Nat.leb_spec (offset + length bs) (length buffer)); [|lia].
  unfold slice. replace (offset + length bs - offset)%nat with (length bs) by lia.
  rewrite H, firstn_app, firstn_all, Nat.sub_diag. simpl.
  rewrite app_nil_r. reflexivity.
Qed.

Lemma skipn_at (buffer : ArrayBuffer) (offset : nat) (bs rest : list byte) :
  skipn offset buffer = bs ++ rest ->
  skipn (offset + length bs) buffer = rest.
Proof.
  intros H. rewrite Nat.add_comm, <- skipn_skipn, H.
  rewrite skipn_app, skipn_all, Nat.sub_diag. reflexivity.
Qed.

Lemma slice_at (buffer : ArrayBuffer) (offset : nat) (bs rest : list byte) :
  skipn offset buffer = bs ++ rest ->
  slice buffer offset (offset + length bs) = bs.
Proof.
  intros H. unfold slice.
  replace (offset + length bs - offset)%nat with (length bs) by lia.
  rewrite H, firstn_app, firstn_all, Nat.sub_diag. simpl. apply app_nil_r.
Qed.

Lemma getUint8_at (buffer : ArrayBuffer) (offset : nat) (b : byte)
  (rest : list byte) :
  skipn offset buffer = b :: rest ->
  getUint8 buffer offset = Ret (byteVal b).
Proof.
  intros H. unfold getUint8.
  pose proof (getBytes_at buffer offset [b] rest H) as G.
  simpl length in G. rewrite G by discriminate.
  simpl. f_equal. lia.
Qed.

Lemma getUint32_at (buffer : ArrayBuffer) (offset : nat) (z : Z)
  (rest : list byte) :
  skipn offset buffer = beBytes 4 z ++ rest ->
  getUint32 buffer offset = Ret (z mod 2 ^ 32).
Proof.
  intros H. unfold getUint32.
  pose proof (getBytes_at buffer offset (beBytes 4 z) rest H) as G.
  rewrite length_beBytes in G. rewrite G by (simpl; discriminate).
  cbv beta iota delta [bind]. rewrite beVal_beBytes. reflexivity.
Qed.

Lemma getFloat64_at (buffer : ArrayBuffer) (offset : nat) (z : Z)
  (rest : list byte) :
  skipn offset buffer = beBytes 8 z ++ rest ->
  getFloat64 buffer offset = Ret (canonNaN (z mod 2 ^ 64)).
Proof.
  intros H. unfold getFloat64.
  pose proof (getBytes_at buffer offset (beBytes 8 z) rest H) as G.
  rewrite length_beBytes in G. rewrite G by (simpl; discriminate).
  cbv beta iota delta [bind]. rewrite beVal_beBytes. reflexivity.
Qed.

(** * Supported values *)

Lemma supported_array (items : list Value) :
  supported (VArray items) ->
  Z.of_nat (length items) < 2 ^ 32 /\ Forall supported items.
Proof.
  unfold supported. simpl. intros H.
  apply andb_true_iff in H. destruct H as [Hn Hall]. split.
  - unfold fitsUint32 in Hn. lia.
  - apply Forall_forall. apply forallb_forall. exact Hall.
Qed.

Lemma supported_object (props : list (DOMString.t * Value)) :
  supported (VObject props) ->
  Z.of_nat (length props) < 2 ^ 32
  /\ distinct (map fst props) = true
  /\ Forall (fun p => Z.of_nat (length (encode (fst p))) < 2 ^ 32
                      /\ supported (snd p)) props.
Proof.
  unfold supported. cbn [supportedb]. intros H.
  repeat (apply andb_true_iff in H; destruct H as [H ?]).
  repeat split; auto.
  - unfold fitsUint32 in H. lia.
  - apply Forall_forall. intros [key val] Hin.
    match goal with
    | Hall : forallb _ props = true |- _ =>
        rewrite forallb_forall in Hall; specialize (Hall _ Hin);
        cbv beta iota in Hall;
        repeat (apply andb_true_iff in Hall; destruct Hall as [Hall ?])
    end.
    match goal with
    | Hk : fitsUint32 _ = true |- _ => unfold fitsUint32 in Hk
    end.
    cbn [fst snd]. split; [lia | assumption].
Qed.

(** The property names are in the order of their enumeration. *)
Lemma supported_order (props : list (DOMString.t * Value)) :
  supported (VObject props) -> ownKeysOrder (map fst props) = true.
Proof.
  unfold supported. cbn [supportedb]. intros H.
  repeat (apply andb_true_iff in H; destruct H as [H ?]). assumption.
Qed.

(** A property that reads back as [__proto__] holds a value that the
    setter ignores. *)
Lemma supported_proto (props : list (DOMString.t * Value)) :
  supported (VObject props) ->
  Forall (fun p =>
            DOMString.eqb (decode (encode (fst p))) PROTO = true ->
            keepsPrototype (degrade (snd p)) = true) props.
Proof.
  unfold supported. cbn [supportedb]. intros H.
  apply andb_true_iff in H. destruct H as [_ Hall].
  apply Forall_forall. intros [key val] Hin.
  rewrite forallb_forall in Hall. specialize (Hall _ Hin).
  cbv beta iota in Hall.
  apply andb_true_iff in Hall. destruct Hall as [Hall _].
  apply andb_true_iff in Hall. destruct Hall as [_ Hp].
  cbn [fst snd]. intros E. rewrite E in Hp. exact Hp.
Qed.

(** The strings and the property names are made of code units. *)
Lemma supported_units (props : list (DOMString.t * Value)) :
  supported (VObject props) ->
  Forall (fun p => forallb isCodeUnit (fst p) = true) props.
Proof.
  unfold supported. cbn [supportedb]. intros H.
  apply andb_true_iff in H. destruct H as [_ Hall].
  apply Forall_forall. intros [key val] Hin.
  rewrite forallb_forall in Hall. specialize (Hall _ Hin).
  cbv beta iota in Hall.
  repeat (apply andb_true_iff in Hall; destruct Hall as [Hall ?]).
  exact Hall.
Qed.

Lemma supported_typedArray (a : TypedArray.t) :
  supported (VTypedArray a) ->
  isTypedArray a /\ Z.of_nat (TypedArray.byteLength a) < 2 ^ 32.
Proof.
  unfold supported, isTypedArray. simpl. unfold isTypedArrayb, fitsUint32.
  intros H.
  apply andb_true_iff in H. destruct H as [H Hn].
  apply andb_true_iff in H. destruct H as [Hin Hmod].
  apply Nat.leb_le in Hin. apply Nat.eqb_eq in Hmod. lia.
Qed.

Lemma supported_number (n : float64) :
  supported (VNumber n) -> isNumber n.
Proof.
  unfold supported, isNumber. simpl. unfold isNumberb. intros H.
  apply andb_true_iff in H. destruct H as [H Hc].
  apply andb_true_iff in H. destruct H as [H0 H1]. lia.
Qed.

Lemma supported_date (time : float64) :
  supported (VDate time) -> isTimeValue time.
Proof.
  unfold supported, isTimeValue. simpl. unfold isTimeValueb. intros H.
  apply andb_true_iff in H. destruct H as [H Hc].
  apply andb_true_iff in H. destruct H as [H0 H1]. lia.
Qed.

Lemma supported_string (s : DOMString.t) :
  supported (VString s) -> Z.of_nat (length (encode s)) < 2 ^ 32.
Proof.
  unfold supported. cbn [supportedb]. unfold fitsUint32. intros H.
  apply andb_true_iff in H. lia.
Qed.

Lemma supported_string_units (s : DOMString.t) :
  supported (VString s) -> forallb isCodeUnit s = true.
Proof.
  unfold supported. cbn [supportedb]. intros H.
  apply andb_true_iff in H. tauto.
Qed.

Lemma wellFormed_array (items : list Value) :
  wellFormed (VArray items) = true ->
  Forall (fun v => wellFormed v = true) items.
Proof.
  cbn [wellFormed]. intros H. apply Forall_forall. apply forallb_forall.
  exact H.
Qed.

Lemma wellFormed_object (props : list (DOMString.t * Value)) :
  wellFormed (VObject props) = true ->
  Forall (fun p => wellFormed (snd p) = true) props.
Proof.
  cbn [wellFormed]. intros H. apply Forall_forall. intros [k x] Hin.
  rewrite forallb_forall in H. apply (H _ Hin).
Qed.

Lemma wellFormed_typedArray (a : TypedArray.t) :
  wellFormed (VTypedArray a) = true -> isTypedArray a.
Proof.
  cbn [wellFormed]. unfold isTypedArrayb, isTypedArray. intros H.
  apply andb_true_iff in H. destruct H as [Hin Hmod].
  apply Nat.leb_le in Hin. apply Nat.eqb_eq in Hmod. lia.
Qed.

Lemma supported_wellFormed (v : Value) :
  supported v -> wellFormed v = true.
Proof.
  induction v using Value_induction; intros Hs; try reflexivity;
    try discriminate Hs.
  - unfold supported in Hs. cbn [supportedb wellFormed] in *.
    apply andb_true_iff in Hs. tauto.
  - apply supported_array in Hs. destruct Hs as [_ Hall].
    cbn [wellFormed]. apply forallb_forall. intros x Hx.
    rewrite Forall_forall in *. auto.
  - apply supported_object in Hs. destruct Hs as (_ & _ & Hall).
    cbn [wellFormed]. apply forallb_forall. intros [k x] Hx.
    rewrite Forall_forall in *. apply (H _ Hx). apply (Hall _ Hx).
Qed.

Lemma length_elementBytes (a : TypedArray.t) :
  isTypedArray a -> length (elementBytes a) = TypedArray.byteLength a.
Proof.
  intros [Hin _]. unfold elementBytes, slice.
  rewrite length_firstn, length_skipn. lia.
Qed.

Lemma length_bufferStart (a : TypedArray.t) :
  isTypedArray a -> length (bufferStart a) = TypedArray.byteLength a.
Proof.
  intros [Hin _]. unfold bufferStart. rewrite length_firstn. lia.
Qed.

(** * Writing a header *)

Lemma beBytes_1 (z : Z) : beBytes 1 z = [byteOf z].
Proof. simpl. rewrite Z.div_1_r. reflexivity. Qed.

Lemma setUint8_ok (buffer : ArrayBuffer) (offset : nat) (z : Z) :
  (offset + 1 <= length buffer)%nat ->
  setUint8 buffer offset z = Ret (splice buffer offset [byteOf z]).
Proof.
  intros H. unfold setUint8. rewrite beBytes_1.
  apply setBytes_ok. simpl. lia.
Qed.

Lemma setUint32_ok (buffer : ArrayBuffer) (offset : nat) (z : Z) :
  (offset + 4 <= length buffer)%nat ->
  setUint32 buffer offset z = Ret (splice buffer offset (beBytes 4 z)).
Proof.
  intros H. unfold setUint32. apply setBytes_ok.
  rewrite length_beBytes. lia.
Qed.

Lemma setFloat64_ok (buffer : ArrayBuffer) (offset : nat) (z : Z) :
  (offset + 8 <= length buffer)%nat ->
  setFloat64 buffer offset z = Ret (splice buffer offset (beBytes 8 z)).
Proof.
  intros H. unfold setFloat64. apply setBytes_ok.
  rewrite length_beBytes. lia.
Qed.

(** Two writes in a row are one write of the two sources. *)
Lemma splice_then (buffer : ArrayBuffer) (offset offset' : nat)
  (src1 src2 : list byte) :
  offset' = (offset + length src1)%nat ->
  (offset + length src1 + length src2 <= length buffer)%nat ->
  splice (splice buffer offset src1) offset' src2
  = splice buffer offset (src1 ++ src2).
Proof. intros -> H. apply splice_splice. exact H. Qed.

(** The chunks of a list, written one after the other. *)
Lemma forEach_splice {C : Type}
  (write : C -> ArrayBuffer -> nat -> result (ArrayBuffer * nat))
  (bytes : C -> list byte) (subs : list C) :
  Forall (fun sub => forall buffer offset,
            (offset + length (bytes sub) <= length buffer)%nat ->
            write sub buffer offset
            = Ret (splice buffer offset (bytes sub),
                   (offset + length (bytes sub))%nat)) subs ->
  forall buffer offset,
    (offset + length (flat_map bytes subs) <= length buffer)%nat ->
    forEach write subs buffer offset
    = Ret (splice buffer offset (flat_map bytes subs),
           (offset + length (flat_map bytes subs))%nat).
Proof.
  induction 1 as [|sub rest Hsub _ IH]; intros buffer offset Hlen.
  - simpl. rewrite splice_nil, Nat.add_0_r. reflexivity.
  - simpl in *. rewrite length_app in Hlen.
    rewrite Hsub by lia. cbv beta iota delta [bind].
    rewrite IH by (rewrite length_splice; lia).
    rewrite splice_splice by lia.
    rewrite length_app. do 2 f_equal. lia.
Qed.

#[local] Arguments beBytes : simpl never.
#[local] Arguments splice : simpl never.
#[local] Arguments encode : simpl never.
#[local] Arguments byteOf : simpl never.

(** Tests on closed terms are decided by computation. *)
Ltac decide_tests :=
  repeat match goal with
  | |- context [if ?c then _ else _] =>
      let b := eval vm_compute in c in
      match b with
      | true => change c with true; cbv iota
      | false => change c with false; cbv iota
      end
  end.

(** Side conditions on lengths. *)
Ltac lengths :=
  repeat first
    [ progress cbn [length]
    | rewrite length_splice
    | rewrite length_app
    | rewrite length_beBytes
    | rewrite length_newArrayBuffer ];
  try lia.

Ltac lengths_in H :=
  repeat first
    [ progress cbn [length] in H
    | rewrite length_app in H
    | rewrite length_beBytes in H ].

(** * The writer of implementation B *)

Lemma B_write_string (s : DOMString.t) (buffer : ArrayBuffer) (offset : nat) :
  (offset + length (wireB (VString s)) <= length buffer)%nat ->
  B.writeChunk (B.createStringChunk s) buffer offset
  = Ret (splice buffer offset (wireB (VString s)),
         (offset + length (wireB (VString s)))%nat).
Proof.
  unfold wireB. cbn [wire]. intros H.
  cbn [length] in H. rewrite length_app, length_beBytes in H.
  unfold B.writeChunk, B.createStringChunk.
  cbn [B.Chunk.type B.Chunk.length B.Chunk.data B.Chunk.value].
  rewrite setUint8_ok by lia. cbn [bind].
  decide_tests.
  rewrite setUint32_ok by lengths. cbn [bind].
  rewrite setBytes_ok by lengths. cbn [bind].
  rewrite !splice_then by lengths.
  rewrite <- ?app_assoc. cbn [app].
  f_equal. f_equal. lengths.
Qed.

Lemma forEach_map_splice {C V : Type}
  (write : C -> ArrayBuffer -> nat -> result (ArrayBuffer * nat))
  (f : V -> C) (bytes : V -> list byte) (items : list V) :
  Forall (fun item => forall buffer offset,
            (offset + length (bytes item) <= length buffer)%nat ->
            write (f item) buffer offset
            = Ret (splice buffer offset (bytes item),
                   (offset + length (bytes item))%nat)) items ->
  forall buffer offset,
    (offset + length (flat_map bytes items) <= length buffer)%nat ->
    forEach write (map f items) buffer offset
    = Ret (splice buffer offset (flat_map bytes items),
           (offset + length (flat_map bytes items))%nat).
Proof.
  induction 1 as [|item rest Hitem _ IH]; intros buffer offset Hlen.
  - cbn. rewrite splice_nil, Nat.add_0_r. reflexivity.
  - cbn [map flat_map forEach] in *. rewrite length_app in Hlen.
    rewrite Hitem by lia. cbn [bind].
    fold (forEach write).
    rewrite IH by lengths.
    rewrite splice_splice by lia.
    rewrite length_app. do 2 f_equal. lia.
Qed.

Lemma forEach_entries_splice {C V K : Type}
  (write : C -> ArrayBuffer -> nat -> result (ArrayBuffer * nat))
  (g : K -> C) (f : V -> C) (keyBytes : K -> list byte)
  (bytes : V -> list byte) (props : list (K * V)) :
  (forall key buffer offset,
      (offset + length (keyBytes key) <= length buffer)%nat ->
      write (g key) buffer offset
      = Ret (splice buffer offset (keyBytes key),
             (offset + length (keyBytes key))%nat)) ->
  Forall (fun p => forall buffer offset,
            (offset + length (bytes (snd p)) <= length buffer)%nat ->
            write (f (snd p)) buffer offset
            = Ret (splice buffer offset (bytes (snd p)),
                   (offset + length (bytes (snd p)))%nat)) props ->
  forall buffer offset,
    (offset
     + length (flat_map (fun '(key, val) => keyBytes key ++ bytes val) props)
     <= length buffer)%nat ->
    forEach write (flat_map (fun '(key, val) => [g key; f val]) props)
      buffer offset
    = Ret (splice buffer offset
             (flat_map (fun '(key, val) => keyBytes key ++ bytes val) props),
           (offset
            + length
                (flat_map (fun '(key, val) => keyBytes key ++ bytes val) props))%nat).
Proof.
  intros Hkey. induction 1 as [|[key val] rest Hval _ IH];
    intros buffer offset Hlen.
  - cbn. rewrite splice_nil, Nat.add_0_r. reflexivity.
  - cbn [map flat_map forEach app snd] in *. rewrite !length_app in Hlen.
    rewrite Hkey by lia. cbn [bind].
    rewrite Hval by lengths. cbn [bind].
    fold (forEach write).
    rewrite IH by lengths.
    rewrite !splice_then by lengths.
    rewrite <- !app_assoc.
    rewrite !length_app. do 2 f_equal. lia.
Qed.

Lemma length_flat_map_pairs {K V C : Type} (g : K -> C) (f : V -> C)
  (props : list (K * V)) :
  length (flat_map (fun '(key, val) => [g key; f val]) props)
  = (2 * length props)%nat.
Proof.
  induction props as [|[key val] rest IH]; cbn [flat_map length app] in *; lia.
Qed.

(** On a dense array [map] builds the chunk of every item. *)
Lemma mapSlot_wellFormed {C : Type} (f : Value -> C) (item : Value) :
  wellFormed item = true -> mapSlot f item = Some (f item).
Proof. destruct item; intros H; try reflexivity. discriminate H. Qed.

Ltac B_unfold :=
  unfold wireB in *; cbn [wire] in *;
  cbn [B.createChunk B.createStringChunk B.writeChunk B.Chunk.type
       B.Chunk.length B.Chunk.data B.Chunk.value B.asUint8 B.asFloat64].

(** One write after the other, until the loop or the end. *)
Ltac write_steps :=
  repeat first
    [ rewrite setUint8_ok by lengths
    | rewrite setUint32_ok by lengths
    | rewrite setFloat64_ok by lengths
    | rewrite setBytes_ok by lengths
    | progress cbn [bind]
    | progress decide_tests ].

Ltac write_done :=
  rewrite ?splice_then by lengths;
  rewrite <- ?app_assoc; cbn [app];
  f_equal; f_equal; lengths.

Lemma B_write (v : Value) :
  wellFormed v = true ->
  forall buffer offset,
    (offset + length (wireB v) <= length buffer)%nat ->
    B.writeChunk (B.createChunk v) buffer offset
    = Ret (splice buffer offset (wireB v), (offset + length (wireB v))%nat).
Proof.
  induction v using Value_induction; intros Hs buffer offset Hlen;
    try discriminate Hs.
  - B_unfold. lengths_in Hlen. write_steps. write_done.
  - B_unfold. lengths_in Hlen. write_steps. write_done.
  - B_unfold. lengths_in Hlen. write_steps. write_done.
  - B_unfold. lengths_in Hlen. destruct b; write_steps; write_done.
  - B_unfold. lengths_in Hlen. write_steps. write_done.
  - apply B_write_string. exact Hlen.
  - B_unfold. lengths_in Hlen. write_steps. write_done.
  - apply wellFormed_typedArray in Hs. rename Hs into Hta.
    pose proof (length_elementBytes a Hta) as Hb.
    B_unfold. lengths_in Hlen.
    destruct a as [k buf bo bl]; cbn [TypedArray.elementType TypedArray.byteLength] in *.
    destruct k; write_steps; write_done.
  - apply wellFormed_array in Hs. rename Hs into Hall.
    assert (IH : Forall (fun v => forall buffer offset,
              (offset + length (wireB v) <= length buffer)%nat ->
              writeOf B.writeChunk (mapSlot B.createChunk v) buffer offset
              = Ret (splice buffer offset (wireB v),
                     (offset + length (wireB v))%nat)) items).
    { rewrite Forall_forall in *. intros x Hx buffer' offset' Hl.
      rewrite (mapSlot_wellFormed _ x (Hall x Hx)). apply H; auto. }
    clear H.
    B_unfold. lengths_in Hlen. write_steps.
    rewrite length_map.
    rewrite (forEach_map_splice (writeOf B.writeChunk)
               (mapSlot B.createChunk) _ items IH)
      by lengths.
    write_done.
  - apply wellFormed_object in Hs. rename Hs into Hall.
    assert (IH : Forall (fun p => forall buffer offset,
              (offset + length (wireB (snd p)) <= length buffer)%nat ->
              B.writeChunk (B.createChunk (snd p)) buffer offset
              = Ret (splice buffer offset (wireB (snd p)),
                     (offset + length (wireB (snd p)))%nat)) props).
    { rewrite Forall_forall in *. intros x Hx. apply H; auto. }
    clear H.
    B_unfold. lengths_in Hlen. write_steps.
    rewrite length_flat_map_pairs.
    replace (2 * length props / 2)%nat with (length props)
      by (rewrite Nat.mul_comm, Nat.div_mul; lia).
    rewrite (forEach_entries_splice (writeOf B.writeChunk)
               (fun key => Some (B.createStringChunk key))
               (fun val => Some (B.createChunk val))
               (wireString B.TYPES.String)
               (wire B.getTypeCode B.TYPES.String elementBytes) props)
      by (try (intros; apply B_write_string; assumption); try exact IH;
          lengths).
    write_done.
Qed.

(** * The size calculator of implementation B *)

Lemma fold_left_sizes {C V : Type} (size : C -> nat) (f : V -> C)
  (bytes : V -> list byte) (items : list V) :
  Forall (fun item => size (f item) = length (bytes item)) items ->
  forall acc,
    fold_left (fun n sub => (n + size sub)%nat) (map f items) acc
    = (acc + length (flat_map bytes items))%nat.
Proof.
  induction 1 as [|item rest Hitem _ IH]; intros acc; cbn [map fold_left flat_map].
  - cbn. lia.
  - rewrite IH, Hitem, length_app. lia.
Qed.

Lemma fold_left_entry_sizes {C V K : Type} (size : C -> nat)
  (g : K -> C) (f : V -> C) (keyBytes : K -> list byte)
  (bytes : V -> list byte) (props : list (K * V)) :
  (forall key, size (g key) = length (keyBytes key)) ->
  Forall (fun p => size (f (snd p)) = length (bytes (snd p))) props ->
  forall acc,
    fold_left (fun n sub => (n + size sub)%nat)
      (flat_map (fun '(key, val) => [g key; f val]) props) acc
    = (acc + length (flat_map (fun '(key, val) => keyBytes key ++ bytes val)
                       props))%nat.
Proof.
  intros Hkey. induction 1 as [|[key val] rest Hval _ IH]; intros acc;
    cbn [map fold_left flat_map app snd] in *.
  - cbn. lia.
  - rewrite IH, Hkey, Hval, !length_app. lia.
Qed.

Lemma sumSizes_map {C V : Type} (size : C -> result nat) (f : V -> C)
  (bytes : V -> list byte) (items : list V) :
  Forall (fun item => size (f item) = Ret (length (bytes item))) items ->
  forall acc,
    sumSizes size (map f items) acc
    = Ret (acc + length (flat_map bytes items))%nat.
Proof.
  induction 1 as [|item rest Hitem _ IH]; intros acc;
    cbn [map sumSizes flat_map].
  - cbn. f_equal. lia.
  - rewrite Hitem. cbn [bind]. fold (sumSizes size).
    rewrite IH, length_app. f_equal. lia.
Qed.

Lemma sumSizes_entries {C V K : Type} (size : C -> result nat)
  (g : K -> C) (f : V -> C) (keyBytes : K -> list byte)
  (bytes : V -> list byte) (props : list (K * V)) :
  (forall key, size (g key) = Ret (length (keyBytes key))) ->
  Forall (fun p => size (f (snd p)) = Ret (length (bytes (snd p)))) props ->
  forall acc,
    sumSizes size
      (flat_map (fun '(key, val) => [g key; f val]) props) acc
    = Ret (acc + length (flat_map (fun '(key, val) => keyBytes key ++ bytes val)
                           props))%nat.
Proof.
  intros Hkey. induction 1 as [|[key val] rest Hval _ IH]; intros acc;
    cbn [map sumSizes flat_map app snd] in *.
  - cbn. f_equal. lia.
  - rewrite Hkey. cbn [bind]. rewrite Hval. cbn [bind].
    fold (sumSizes size).
    rewrite IH, !length_app. f_equal. lia.
Qed.

Lemma B_size_string (s : DOMString.t) :
  B.calculateSize (B.createStringChunk s) = Ret (length (wireB (VString s))).
Proof.
  unfold wireB. cbn [wire]. unfold B.createStringChunk, B.calculateSize.
  cbn [B.Chunk.type B.Chunk.length B.Chunk.data]. decide_tests.
  f_equal; lengths.
Qed.

Lemma B_size (v : Value) :
  wellFormed v = true ->
  B.calculateSize (B.createChunk v) = Ret (length (wireB v)).
Proof.
  induction v using Value_induction; intros Hs; try discriminate Hs.
  - reflexivity.
  - reflexivity.
  - reflexivity.
  - reflexivity.
  - unfold wireB; cbn; f_equal; lengths.
  - apply B_size_string.
  - unfold wireB; cbn; f_equal; lengths.
  - apply wellFormed_typedArray in Hs. rename Hs into Hta.
    pose proof (length_elementBytes a Hta) as Hb.
    unfold wireB. cbn [wire B.createChunk B.calculateSize B.Chunk.type
                        B.Chunk.length B.Chunk.data].
    destruct a as [k buf bo bl];
      cbn [TypedArray.elementType TypedArray.byteLength B.getTypeCode] in *.
    destruct k; decide_tests; f_equal; lengths.
  - apply wellFormed_array in Hs. rename Hs into Hall.
    assert (IH : Forall (fun v => ofChunk B.calculateSize
                                    (mapSlot B.createChunk v)
                                  = Ret (length (wireB v))) items).
    { rewrite Forall_forall in *. intros x Hx.
      rewrite (mapSlot_wellFormed _ x (Hall x Hx)). apply H; auto. }
    unfold wireB in *.
    cbn [wire B.createChunk B.calculateSize B.Chunk.type B.Chunk.length
         B.Chunk.data B.getTypeCode].
    decide_tests.
    rewrite (sumSizes_map (ofChunk B.calculateSize) (mapSlot B.createChunk)
               _ items IH).
    f_equal; lengths.
  - apply wellFormed_object in Hs. rename Hs into Hall.
    assert (IH : Forall (fun p => B.calculateSize (B.createChunk (snd p))
                                  = Ret (length (wireB (snd p)))) props).
    { rewrite Forall_forall in *. intros x Hx. apply H; auto. }
    unfold wireB in *.
    cbn [wire B.createChunk B.calculateSize B.Chunk.type B.Chunk.length
         B.Chunk.data B.getTypeCode].
    decide_tests.
    rewrite (sumSizes_entries (ofChunk B.calculateSize)
               (fun key => Some (B.createStringChunk key))
               (fun val => Some (B.createChunk val))
               (wireString B.TYPES.String) _ props
               B_size_string IH).
    f_equal; lengths.
Qed.

(** [serialize] of implementation B returns the wire bytes. *)
Lemma B_serialize_wire (v : Value) :
  wellFormed v = true -> B.serialize v = Ret (wireB v).
Proof.
  intros Hs. unfold B.serialize. cbv zeta.
  rewrite (B_size v Hs). cbn [bind].
  rewrite (B_write v Hs) by (rewrite length_newArrayBuffer; lia).
  cbn [bind]. rewrite splice_whole; [reflexivity|].
  rewrite length_newArrayBuffer. reflexivity.
Qed.

(** * Text *)

Lemma DOMString_eqb_eq (s t : DOMString.t) :
  DOMString.eqb s t = true <-> s = t.
Proof.
  revert t. induction s as [|u s IH]; intros [|v t]; cbn [DOMString.eqb];
    try (split; [discriminate|discriminate]); [tauto|].
  rewrite andb_true_iff, Z.eqb_eq, IH. split.
  - intros [-> ->]. reflexivity.
  - intros E. injection E as -> ->. auto.
Qed.

Lemma DOMString_eqb_refl (s : DOMString.t) : DOMString.eqb s s = true.
Proof. apply DOMString_eqb_eq. reflexivity. Qed.

Lemma DOMString_eqb_neq (s t : DOMString.t) :
  DOMString.eqb s t = false <-> s <> t.
Proof.
  rewrite <- DOMString_eqb_eq. destruct (DOMString.eqb s t); split;
    congruence.
Qed.

Lemma DOMString_eqb_sym (s t : DOMString.t) :
  DOMString.eqb s t = DOMString.eqb t s.
Proof.
  destruct (DOMString.eqb s t) eqn:E.
  - apply DOMString_eqb_eq in E. subst. symmetry. apply DOMString_eqb_refl.
  - symmetry. apply DOMString_eqb_neq. apply DOMString_eqb_neq in E.
    congruence.
Qed.

Ltac tests :=
  repeat match goal with
  | H : _ && _ = true |- _ => apply andb_true_iff in H; destruct H
  | H : _ && _ = false |- _ => apply andb_false_iff in H
  | H : negb _ = true |- _ => apply negb_true_iff in H
  | H : negb _ = false |- _ => apply negb_false_iff in H
  | H : (_ <=? _) = true |- _ => apply Z.leb_le in H
  | H : (_ <=? _) = false |- _ => apply Z.leb_gt in H
  | H : (_ <? _) = true |- _ => apply Z.ltb_lt in H
  | H : (_ <? _) = false |- _ => apply Z.ltb_ge in H
  | H : (_ =? _) = true |- _ => apply Z.eqb_eq in H
  | H : (_ =? _) = false |- _ => apply Z.eqb_neq in H
  end.

Lemma wellFormed_scalars (n : nat) (s : DOMString.t) :
  (length s <= n)%nat ->
  isWellFormed s = true ->
  Forall isScalarValue (scalarValues s)
  /\ flat_map codeUnits (scalarValues s) = s.
Proof.
  revert s. induction n as [|n IH]; intros s Hn Hw.
  - destruct s; [|cbn in Hn; lia]. cbn. auto.
  - destruct s as [|u rest]; [cbn; auto|].
    cbn [isWellFormed scalarValues] in *.
    apply andb_true_iff in Hw. destruct Hw as [Hu Hw].
    unfold isCodeUnit in Hu.
    destruct (isLeadSurrogate u) eqn:L.
    + destruct rest as [|u' rest']; [discriminate|].
      apply andb_true_iff in Hw. destruct Hw as [T Hw].
      rewrite T. cbn [length] in Hn.
      destruct (IH rest' ltac:(lia) Hw) as [Hall Hflat].
      unfold isLeadSurrogate, isTrailSurrogate in *. tests.
      cbn [flat_map]. split.
      * constructor; [|exact Hall]. unfold isScalarValue. lia.
      * rewrite Hflat. unfold codeUnits.
        destruct (Z.ltb_spec (65536 + (u - 55296) * 1024 + (u' - 56320)) 65536);
          [lia|].
        cbn [app]. f_equal; [|f_equal]; Z.div_mod_to_equations; lia.
    + apply andb_true_iff in Hw. destruct Hw as [T Hw].
      apply negb_true_iff in T. rewrite T. cbn [length] in Hn.
      destruct (IH rest ltac:(lia) Hw) as [Hall Hflat].
      unfold isLeadSurrogate, isTrailSurrogate in *. tests.
      cbn [flat_map]. split.
      * constructor; [|exact Hall]. unfold isScalarValue. lia.
      * rewrite Hflat. unfold codeUnits.
        destruct (Z.ltb_spec u 65536); [|lia]. reflexivity.
Qed.

Lemma byteVal_byteOf_small (z : Z) : 0 <= z < 256 -> byteVal (byteOf z) = z.
Proof. intros H. rewrite byteVal_byteOf. apply Z.mod_small. exact H. Qed.

Ltac decide_bounds :=
  repeat match goal with
  | |- context [?a <=? ?b] =>
      first [ rewrite (proj2 (Z.leb_le a b)) by (Z.div_mod_to_equations; lia)
            | rewrite (proj2 (Z.leb_gt a b)) by (Z.div_mod_to_equations; lia) ]
  | |- context [?a <? ?b] =>
      first [ rewrite (proj2 (Z.ltb_lt a b)) by (Z.div_mod_to_equations; lia)
            | rewrite (proj2 (Z.ltb_ge a b)) by (Z.div_mod_to_equations; lia) ]
  | |- context [?a =? ?b] =>
      first [ rewrite (proj2 (Z.eqb_eq a b)) by (Z.div_mod_to_equations; lia)
            | rewrite (proj2 (Z.eqb_neq a b)) by (Z.div_mod_to_equations; lia) ]
  end.

Lemma utf8Decode_start (b : byte) (rest : list byte) (c lower upper : Z) :
  utf8Decode (b :: rest) c 0%nat lower upper
  = utf8First (utf8Decode rest) (byteVal b).
Proof. reflexivity. Qed.

Lemma utf8Decode_last (b : byte) (rest : list byte) (c lower upper : Z) :
  lower <= byteVal b <= upper ->
  utf8Decode (b :: rest) c 1%nat lower upper
  = (c * 64 + byteVal b mod 64) :: utf8Decode rest 0 0%nat 0x80 0xBF.
Proof.
  intros H. cbn [utf8Decode].
  rewrite (proj2 (Z.leb_le _ _) (proj1 H)), (proj2 (Z.leb_le _ _) (proj2 H)).
  reflexivity.
Qed.

Lemma utf8Decode_next (b : byte) (rest : list byte) (c lower upper : Z)
  (n : nat) :
  lower <= byteVal b <= upper ->
  utf8Decode (b :: rest) c (S (S n)) lower upper
  = utf8Decode rest (c * 64 + byteVal b mod 64) (S n) 0x80 0xBF.
Proof.
  intros H. cbn [utf8Decode].
  rewrite (proj2 (Z.leb_le _ _) (proj1 H)), (proj2 (Z.leb_le _ _) (proj2 H)).
  reflexivity.
Qed.

Lemma utf8First_1 (k : Z -> nat -> Z -> Z -> list Z) (byte : Z) :
  byte <= 0x7F -> utf8First k byte = byte :: k 0 0%nat 0x80 0xBF.
Proof. intros H. unfold utf8First. decide_bounds. reflexivity. Qed.

Lemma utf8First_2 (k : Z -> nat -> Z -> Z -> list Z) (byte : Z) :
  0xC2 <= byte <= 0xDF -> utf8First k byte = k (byte mod 32) 1%nat 0x80 0xBF.
Proof. intros H. unfold utf8First. decide_bounds. reflexivity. Qed.

Lemma utf8First_3 (k : Z -> nat -> Z -> Z -> list Z) (byte : Z) :
  0xE0 <= byte <= 0xEF ->
  utf8First k byte
  = k (byte mod 16) 2%nat (if byte =? 0xE0 then 0xA0 else 0x80)
      (if byte =? 0xED then 0x9F else 0xBF).
Proof. intros H. unfold utf8First. decide_bounds. reflexivity. Qed.

Lemma utf8First_4 (k : Z -> nat -> Z -> Z -> list Z) (byte : Z) :
  0xF0 <= byte <= 0xF4 ->
  utf8First k byte
  = k (byte mod 8) 3%nat (if byte =? 0xF0 then 0x90 else 0x80)
      (if byte =? 0xF4 then 0x8F else 0xBF).
Proof. intros H. unfold utf8First. decide_bounds. reflexivity. Qed.

Ltac arith := Z.div_mod_to_equations; lia.

Lemma utf8_read (c : Z) (rest : list byte) :
  isScalarValue c ->
  utf8Decode (utf8Bytes c ++ rest) 0 0%nat 0x80 0xBF
  = c :: utf8Decode rest 0 0%nat 0x80 0xBF.
Proof.
  intros [Hr Hs]. unfold utf8Bytes.
  destruct (Z.ltb_spec c 0x80); [|destruct (Z.ltb_spec c 0x800);
    [|destruct (Z.ltb_spec c 0x10000)]];
    cbn [app]; rewrite utf8Decode_start.
  - rewrite byteVal_byteOf_small by arith.
    apply utf8First_1. lia.
  - rewrite byteVal_byteOf_small by arith.
    rewrite utf8First_2 by arith.
    rewrite utf8Decode_last
      by (rewrite byteVal_byteOf_small by arith; arith).
    rewrite byteVal_byteOf_small by arith. f_equal. arith.
  - rewrite byteVal_byteOf_small by arith.
    rewrite utf8First_3 by arith.
    rewrite utf8Decode_next
      by (rewrite byteVal_byteOf_small by arith;
          destruct (Z.eqb_spec (224 + c / 4096) 224);
          destruct (Z.eqb_spec (224 + c / 4096) 237); arith).
    rewrite utf8Decode_last
      by (rewrite byteVal_byteOf_small by arith; arith).
    rewrite !byteVal_byteOf_small by arith. f_equal. arith.
  - rewrite byteVal_byteOf_small by arith.
    rewrite utf8First_4 by arith.
    rewrite utf8Decode_next
      by (rewrite byteVal_byteOf_small by arith;
          destruct (Z.eqb_spec (240 + c / 262144) 240);
          destruct (Z.eqb_spec (240 + c / 262144) 244); arith).
    rewrite utf8Decode_next
      by (rewrite byteVal_byteOf_small by arith; arith).
    rewrite utf8Decode_last
      by (rewrite byteVal_byteOf_small by arith; arith).
    rewrite !byteVal_byteOf_small by arith. f_equal. arith.
Qed.

Lemma utf8_decode_encode (cs : list Z) :
  Forall isScalarValue cs ->
  utf8Decode (flat_map utf8Bytes cs) 0 0%nat 0x80 0xBF = cs.
Proof.
  induction 1 as [|c cs Hc _ IH]; [reflexivity|].
  cbn [flat_map]. rewrite utf8_read by exact Hc. rewrite IH. reflexivity.
Qed.

(** The byte-order mark is the encoding of U+FEFF alone. *)
Lemma stripBOM_other (b : byte) (rest : list byte) :
  byteVal b <> 0xEF -> stripBOM (b :: rest) = b :: rest.
Proof. destruct b; try reflexivity. intros H. exfalso. apply H. reflexivity. Qed.

Lemma stripBOM_other2 (b : byte) (rest : list byte) :
  byteVal b <> 0xBB -> stripBOM (xef :: b :: rest) = xef :: b :: rest.
Proof. destruct b; try reflexivity. intros H. exfalso. apply H. reflexivity. Qed.

Lemma stripBOM_other3 (b : byte) (rest : list byte) :
  byteVal b <> 0xBF ->
  stripBOM (xef :: xbb :: b :: rest) = xef :: xbb :: b :: rest.
Proof. destruct b; try reflexivity. intros H. exfalso. apply H. reflexivity. Qed.

Lemma byteOf_eq (z : Z) (b : byte) :
  0 <= z < 256 -> byteOf z = b -> z = byteVal b.
Proof. intros H <-. symmetry. apply byteVal_byteOf_small. exact H. Qed.

Lemma stripBOM_scalar (c : Z) (rest : list byte) :
  isScalarValue c -> c <> 0xFEFF ->
  stripBOM (utf8Bytes c ++ rest) = utf8Bytes c ++ rest.
Proof.
  intros [Hr Hs] Hc. unfold utf8Bytes.
  destruct (Z.ltb_spec c 0x80); [|destruct (Z.ltb_spec c 0x800);
    [|destruct (Z.ltb_spec c 0x10000)]];
    cbn [app];
    try (apply stripBOM_other; rewrite byteVal_byteOf_small by arith; arith).
  destruct (Z.eq_dec (c / 4096) 15) as [E1|E1];
    [|apply stripBOM_other; rewrite byteVal_byteOf_small by arith; arith].
  rewrite E1. change (byteOf (224 + 15)) with xef.
  destruct (Z.eq_dec ((c / 64) mod 64) 59) as [E2|E2];
    [|apply stripBOM_other2; rewrite byteVal_byteOf_small by arith; arith].
  rewrite E2. change (byteOf (128 + 59)) with xbb.
  apply stripBOM_other3. rewrite byteVal_byteOf_small by arith. arith.
Qed.

Lemma decode_encode (s : DOMString.t) :
  plainText s = true -> decode (encode s) = s.
Proof.
  unfold plainText. intros H. apply andb_true_iff in H. destruct H as [Hw Hb].
  destruct (wellFormed_scalars (length s) s (le_n _) Hw) as [Hall Hflat].
  unfold decode, encode.
  assert (Hs : stripBOM (flat_map utf8Bytes (scalarValues s))
               = flat_map utf8Bytes (scalarValues s)).
  { destruct s as [|u rest]; [reflexivity|].
    apply negb_true_iff, Z.eqb_neq in Hb.
    cbn [isWellFormed] in Hw. cbn [scalarValues] in *.
    apply andb_true_iff in Hw. destruct Hw as [Hu Hw].
    destruct (isLeadSurrogate u) eqn:L.
    - destruct rest as [|u' rest']; [discriminate|].
      apply andb_true_iff in Hw. destruct Hw as [T Hw]. rewrite T in *.
      cbn [flat_map]. inversion Hall; subst.
      apply stripBOM_scalar; [assumption|].
      unfold isLeadSurrogate, isTrailSurrogate in *. tests. lia.
    - apply andb_true_iff in Hw. destruct Hw as [T Hw].
      apply negb_true_iff in T. rewrite T in *.
      cbn [flat_map]. inversion Hall; subst.
      apply stripBOM_scalar; assumption. }
  rewrite Hs, utf8_decode_encode by exact Hall. exact Hflat.
Qed.

(** * Numbers and dates read back *)

Lemma isNumber_read (n : float64) :
  isNumber n -> canonNaN (n mod 2 ^ 64) = n.
Proof.
  intros [Hr Hc]. rewrite Z.mod_small by exact Hr. exact Hc.
Qed.

Lemma isTimeValue_canon (time : float64) :
  isTimeValue time -> canonNaN time = time.
Proof.
  intros [_ Hc]. unfold canonNaN.
  destruct (f64_isNaN time) eqn:E; [|reflexivity].
  unfold f64_isNaN in E. apply andb_true_iff in E. destruct E as [E _].
  unfold TimeClip, f64_truncate in Hc. rewrite E in Hc. exact Hc.
Qed.

Lemma isTimeValue_read (time : float64) :
  isTimeValue time -> newDate (canonNaN (time mod 2 ^ 64)) = time.
Proof.
  intros H. pose proof (isTimeValue_canon time H) as Hc.
  destruct H as [Hr Ht]. rewrite Z.mod_small by exact Hr.
  rewrite Hc. exact Ht.
Qed.

Lemma uint32_read (n : nat) :
  Z.of_nat n < 2 ^ 32 -> Z.to_nat (Z.of_nat n mod 2 ^ 32) = n.
Proof.
  intros H. rewrite Z.mod_small by lia. apply Nat2Z.id.
Qed.

(** * Depth *)

Lemma depth_pos (v : Value) : (1 <= depth v)%nat.
Proof. destruct v; cbn; lia. Qed.

Lemma depth_item (items : list Value) (item : Value) :
  In item items ->
  (depth item <= fold_right (fun item d => Nat.max (depth item) d) 1%nat items)%nat.
Proof.
  induction items as [|x rest IH]; cbn [In fold_right]; [tauto|].
  intros [->|Hin]; [lia|]. specialize (IH Hin). lia.
Qed.

Lemma depth_prop (props : list (DOMString.t * Value))
  (p : DOMString.t * Value) :
  In p props ->
  (depth (snd p)
   <= fold_right (fun '(_, val) d => Nat.max (depth val) d) 1%nat props)%nat.
Proof.
  induction props as [|[k x] rest IH]; cbn [In fold_right]; [tauto|].
  intros [<-|Hin]; [cbn; lia|]. specialize (IH Hin). lia.
Qed.

(** * Objects rebuilt property by property *)

Lemma precedes_trans (a b c : DOMString.t) :
  precedes c b = false -> precedes b a = false -> precedes c a = false.
Proof.
  unfold precedes.
  destruct (arrayIndex a), (arrayIndex b), (arrayIndex c);
    intros H1 H2; try reflexivity; try discriminate; tests;
    try apply Z.ltb_ge; lia.
Qed.

Lemma ownKeysOrder_app (keys rest : list DOMString.t) (key : DOMString.t) :
  ownKeysOrder (keys ++ key :: rest) = true ->
  ownKeysOrder (keys ++ [key]) = true.
Proof.
  induction keys as [|k keys IH]; intros H; [reflexivity|].
  cbn [app ownKeysOrder] in *.
  apply andb_true_iff in H. destruct H as [Hk H].
  rewrite (IH H), andb_true_r.
  destruct keys; exact Hk.
Qed.

Lemma ownKeysOrder_last (keys : list DOMString.t) (key : DOMString.t) :
  ownKeysOrder (keys ++ [key]) = true ->
  Forall (fun k => precedes key k = false) keys.
Proof.
  induction keys as [|k keys IH]; intros H; [constructor|].
  cbn [app ownKeysOrder] in H.
  apply andb_true_iff in H. destruct H as [Hk H].
  specialize (IH H). constructor; [|exact IH].
  destruct keys as [|k' keys].
  - cbn [app] in Hk. apply negb_true_iff in Hk. exact Hk.
  - cbn [app] in Hk. apply negb_true_iff in Hk.
    inversion IH; subst. apply (precedes_trans k k' key); assumption.
Qed.

Lemma insertProperty_last (props : list (DOMString.t * Value))
  (key : DOMString.t) (val : Value) :
  Forall (fun k => precedes key k = false) (map fst props) ->
  insertProperty props key val = props ++ [(key, val)].
Proof.
  induction props as [|[k v] rest IH]; cbn [map fst insertProperty app];
    [reflexivity|].
  intros H. inversion H; subst.
  match goal with E : precedes key k = false |- _ => rewrite E end.
  rewrite IH by assumption. reflexivity.
Qed.

Lemma getProperty_fresh (props : list (DOMString.t * Value))
  (key : DOMString.t) :
  existsb (DOMString.eqb key) (map fst props) = false ->
  getProperty props key = None.
Proof.
  induction props as [|[k v] rest IH]; cbn [map fst existsb getProperty];
    [reflexivity|].
  intros H. apply orb_false_iff in H. destruct H as [Hk Hrest].
  rewrite DOMString_eqb_sym, Hk. apply IH. exact Hrest.
Qed.

(** A new property whose name is enumerated after those of the object
    goes last. *)
Lemma setProperty_fresh (props : list (DOMString.t * Value))
  (key : DOMString.t) (val : Value) :
  existsb (DOMString.eqb key) (map fst props) = false ->
  ownKeysOrder (map fst props ++ [key]) = true ->
  setProperty props key val = props ++ [(key, val)].
Proof.
  intros Hf Ho. unfold setProperty.
  rewrite getProperty_fresh by exact Hf. cbn [isSome].
  apply insertProperty_last. apply ownKeysOrder_last. exact Ho.
Qed.

Lemma distinct_app_cons (keys rest : list DOMString.t) (key : DOMString.t) :
  distinct (keys ++ key :: rest) = true ->
  existsb (DOMString.eqb key) keys = false
  /\ distinct ((keys ++ [key]) ++ rest) = true.
Proof.
  intros H. rewrite <- app_assoc. cbn [app]. split; [|exact H].
  induction keys as [|k keys IH]; cbn [app distinct existsb] in *; [reflexivity|].
  apply andb_true_iff in H. destruct H as [Hk Hd].
  apply negb_true_iff in Hk. rewrite existsb_app in Hk.
  apply orb_false_iff in Hk. destruct Hk as [_ Hk]. cbn [existsb] in Hk.
  apply orb_false_iff in Hk. destruct Hk as [Hk _].
  rewrite DOMString_eqb_sym, Hk. cbn [orb]. apply IH. exact Hd.
Qed.

(** The assignments of the properties of an object, in the order of their
    enumeration and under names other than [__proto__], build the object
    again. *)
Lemma fold_assigned (f : Value -> Value)
  (props : list (DOMString.t * Value)) :
  forall acc,
    distinct (map fst acc ++ map fst props) = true ->
    ownKeysOrder (map fst acc ++ map fst props) = true ->
    Forall (fun p => DOMString.eqb (fst p) PROTO = false) props ->
    fold_left (fun obj '(key, val) => assigned obj key (f val)) props acc
    = acc ++ map (fun '(key, val) => (key, f val)) props.
Proof.
  induction props as [|[key val] props IH]; intros acc Hd Ho Hp.
  - cbn. rewrite app_nil_r. reflexivity.
  - cbn [fold_left map fst] in *. inversion Hp; subst. cbn [fst] in *.
    unfold assigned at 2.
    match goal with E : DOMString.eqb key PROTO = false |- _ => rewrite E end.
    apply distinct_app_cons in Hd. destruct Hd as [Hfresh Hd].
    rewrite setProperty_fresh;
      [|exact Hfresh|apply (ownKeysOrder_app _ (map fst props)); exact Ho].
    rewrite IH.
    + rewrite <- app_assoc. reflexivity.
    + rewrite map_app. exact Hd.
    + rewrite map_app, <- app_assoc. exact Ho.
    + assumption.
Qed.

(** The assignment of the readers, where it replaces no prototype. *)
Lemma assign_assigned (props : list (DOMString.t * Value))
  (key : DOMString.t) (val : Value) :
  (DOMString.eqb key PROTO = true -> keepsPrototype val = true) ->
  assign props (VString key) val = Ret (assigned props key val).
Proof.
  intros H. unfold assign, assigned. cbn [toPropertyKey bind].
  destruct (DOMString.eqb key PROTO); [|reflexivity].
  rewrite H by reflexivity. reflexivity.
Qed.

(** * The loops of the readers *)

Section ReadLoops.
Variable buffer : ArrayBuffer.
Variable read : nat -> result (Value * nat).
Variable bytes : Value -> list byte.
Variable val : Value -> Value.

Lemma forLoop_items (items : list Value) :
  Forall (reads buffer read bytes val) items ->
  forall acc offset rest,
    skipn offset buffer = flat_map bytes items ++ rest ->
    forLoop (length items)
      (fun arr offset =>
         '(value, offset) <- read offset ;;
         Ret (arr ++ [value], offset))
      acc offset
    = Ret (acc ++ map val items,
           (offset + length (flat_map bytes items))%nat).
Proof.
  induction 1 as [|item items Hitem _ IH]; intros acc offset rest Hrest.
  - cbn. rewrite app_nil_r, Nat.add_0_r. reflexivity.
  - cbn [length forLoop flat_map map] in *.
    rewrite <- app_assoc in Hrest.
    rewrite (Hitem _ _ Hrest). cbn [bind].
    apply skipn_at in Hrest.
    rewrite (IH _ _ _ Hrest).
    rewrite <- app_assoc, length_app. cbn [app]. do 2 f_equal. lia.
Qed.

Variable keyBytes : DOMString.t -> list byte.

Lemma forLoop_props (props : list (DOMString.t * Value)) :
  Forall (fun p => readsKey buffer read keyBytes (fst p)
                   /\ reads buffer read bytes val (snd p)
                   /\ (DOMString.eqb (decode (encode (fst p))) PROTO = true
                       -> keepsPrototype (val (snd p)) = true)) props ->
  forall acc offset rest,
    skipn offset buffer
    = flat_map (fun '(key, v) => keyBytes key ++ bytes v) props ++ rest ->
    forLoop (length props)
      (fun obj offset =>
         '(key, offset) <- read offset ;;
         '(v, offset) <- read offset ;;
         obj <- assign obj key v ;;
         Ret (obj, offset))
      acc offset
    = Ret (fold_left
             (fun obj '(key, v) =>
                assigned obj (decode (encode key)) (val v)) props acc,
           (offset
            + length (flat_map (fun '(key, v) => keyBytes key ++ bytes v)
                        props))%nat).
Proof.
  induction 1 as [|[key v] props (Hkey & Hval & Hproto) _ IH];
    intros acc offset rest Hrest.
  - cbn. rewrite Nat.add_0_r. reflexivity.
  - cbn [length forLoop flat_map fold_left fst snd] in *.
    rewrite <- !app_assoc in Hrest.
    rewrite (Hkey _ _ Hrest). cbn [bind].
    apply skipn_at in Hrest.
    rewrite (Hval _ _ Hrest). cbn [bind].
    apply skipn_at in Hrest.
    rewrite assign_assigned by exact Hproto. cbn [bind].
    rewrite (IH _ _ rest Hrest).
    rewrite !length_app. do 2 f_equal. lia.
Qed.
End ReadLoops.

(** * The reader of implementation B *)

(** The tag byte, read back. *)
Lemma tag_read (buffer : ArrayBuffer) (offset : nat) (tag : Z)
  (rest : list byte) :
  0 <= tag < 256 ->
  skipn offset buffer = byteOf tag :: rest ->
  getUint8 buffer offset = Ret tag
  /\ skipn (offset + 1) buffer = rest.
Proof.
  intros Ht H. split.
  - rewrite (getUint8_at _ _ _ _ H), byteVal_byteOf, Z.mod_small by exact Ht.
    reflexivity.
  - apply (skipn_at buffer offset [byteOf tag] rest H).
Qed.

Lemma B_tag_range (v : Value) : 0 <= B.getTypeCode v < 256.
Proof.
  destruct v; cbn; try (cbv; intuition congruence).
  destruct (TypedArray.elementType a); cbv; intuition congruence.
Qed.

Lemma prefix_read (buffer : ArrayBuffer) (offset n : nat) (rest : list byte) :
  Z.of_nat n < 2 ^ 32 ->
  skipn offset buffer = beBytes 4 (Z.of_nat n) ++ rest ->
  getUint32 buffer offset = Ret (Z.of_nat n)
  /\ skipn (offset + 4) buffer = rest.
Proof.
  intros Hn H. split.
  - rewrite (getUint32_at _ _ _ _ H), Z.mod_small by lia. reflexivity.
  - pose proof (skipn_at _ _ _ _ H) as S. rewrite length_beBytes in S. exact S.
Qed.

Lemma double_read (buffer : ArrayBuffer) (offset : nat) (bits : Z)
  (rest : list byte) :
  skipn offset buffer = beBytes 8 bits ++ rest ->
  getFloat64 buffer offset = Ret (canonNaN (bits mod 2 ^ 64)).
Proof. apply getFloat64_at. Qed.

Lemma B_read_string (s : DOMString.t) (fuel : nat) (buffer : ArrayBuffer)
  (offset : nat) (rest : list byte) :
  Z.of_nat (length (encode s)) < 2 ^ 32 ->
  (1 <= fuel)%nat ->
  skipn offset buffer = wireString B.TYPES.String s ++ rest ->
  B.readChunk fuel buffer offset
  = Ret (VString (decode (encode s)),
         (offset + length (wireString B.TYPES.String s))%nat).
Proof.
  intros Hn Hf H. destruct fuel as [|fuel]; [lia|].
  unfold wireString in *. cbn [app] in H.
  apply tag_read in H; [|cbv; intuition congruence].
  destruct H as [Htag H].
  rewrite <- app_assoc in H.
  pose proof (prefix_read _ _ _ _ Hn H) as [Hlen H'].
  replace (offset + 1 + 4)%nat with (offset + 1 + 4)%nat in H' by lia.
  cbn [B.readChunk]. rewrite Htag. cbn [bind]. decide_tests.
  rewrite Hlen. cbn [bind]. decide_tests.
  rewrite Nat2Z.id, (slice_at _ _ _ _ H').
  do 2 f_equal. lengths.
Qed.

Lemma newTypedArray_ok (Ctor : ElementType) (sub : ArrayBuffer) :
  (length sub mod BYTES_PER_ELEMENT Ctor = 0)%nat ->
  newTypedArray Ctor sub = Ret (TypedArray.mk Ctor sub 0 (length sub)).
Proof.
  intros H. unfold newTypedArray. rewrite H. reflexivity.
Qed.

(** Whether the setter of [__proto__] ignores the value that is read
    back depends on the kind of the value alone. *)
Lemma keepsPrototype_received (payload : TypedArray.t -> list byte)
  (v : Value) :
  keepsPrototype (received payload v) = keepsPrototype (degrade v).
Proof. destruct v; reflexivity. Qed.

Lemma B_read (v : Value) :
  supported v ->
  forall fuel buffer offset rest,
    (depth v <= fuel)%nat ->
    skipn offset buffer = wireB v ++ rest ->
    B.readChunk fuel buffer offset
    = Ret (receivedB v, (offset + length (wireB v))%nat).
Proof.
  induction v using Value_induction; intros Hs fuel buffer offset rest Hf Hw;
    try discriminate Hs;
    (destruct fuel as [|fuel]; [cbn [depth] in Hf; lia|]);
    unfold wireB, receivedB in *; cbn [wire received app] in *;
    (apply tag_read in Hw; [|apply B_tag_range]); destruct Hw as [Htag Hw];
    cbn [B.readChunk]; rewrite Htag; cbn [bind B.getTypeCode].
  - decide_tests. reflexivity.
  - decide_tests. reflexivity.
  - decide_tests. reflexivity.
  - decide_tests. rewrite (getUint8_at _ _ _ _ Hw). cbn [bind].
    destruct b; (f_equal; f_equal; solve [reflexivity | lengths]).
  - decide_tests. rewrite (double_read _ _ _ _ Hw). cbn [bind].
    rewrite isNumber_read by (apply supported_number; exact Hs).
    do 2 f_equal. lengths.
  - decide_tests. apply supported_string in Hs.
    rewrite <- app_assoc in Hw.
    pose proof (prefix_read _ _ _ _ Hs Hw) as [Hlen Hw'].
    rewrite Hlen. cbn [bind]. decide_tests.
    rewrite Nat2Z.id, (slice_at _ _ _ _ Hw').
    do 2 f_equal. lengths.
  - decide_tests. rewrite (double_read _ _ _ _ Hw). cbn [bind].
    rewrite isTimeValue_read by (apply supported_date; exact Hs).
    do 2 f_equal. lengths.
  - apply supported_typedArray in Hs. destruct Hs as [Hta Hn].
    pose proof (length_elementBytes a Hta) as Hb.
    destruct Hta as [_ Hmod].
    remember (elementBytes a) as sub eqn:Esub. clear Esub.
    destruct a as [k buf bo bl];
      cbn [TypedArray.elementType TypedArray.byteLength] in *.
    subst bl.
    rewrite <- app_assoc in Hw.
    pose proof (prefix_read _ _ _ _ Hn Hw) as [Hlen Hw'].
    destruct k; decide_tests; rewrite Hlen; cbn [bind]; decide_tests;
      rewrite Nat2Z.id, (slice_at _ _ _ _ Hw');
      match goal with
      | |- context [B.TYPED_ARRAY_TYPES ?t] =>
          let r := eval vm_compute in (B.TYPED_ARRAY_TYPES t) in
          change (B.TYPED_ARRAY_TYPES t) with r
      end; cbv iota beta;
      rewrite newTypedArray_ok by exact Hmod; cbn [bind];
      do 2 f_equal; lengths.
  - decide_tests. apply supported_array in Hs. destruct Hs as [Hn Hall].
    rewrite <- app_assoc in Hw.
    pose proof (prefix_read _ _ _ _ Hn Hw) as [Hlen Hw'].
    rewrite Hlen. cbn [bind]. decide_tests. rewrite Nat2Z.id.
    assert (IH : Forall (reads buffer (B.readChunk fuel buffer)
                           (wire B.getTypeCode B.TYPES.String elementBytes)
                           (received elementBytes)) items).
    { rewrite Forall_forall in *. intros x Hx offset' rest' Hr.
      apply (H x Hx (Hall x Hx) fuel buffer offset' rest'); [|exact Hr].
      pose proof (depth_item items x Hx). cbn [depth] in Hf. lia. }
    rewrite (forLoop_items _ _ _ _ items IH [] _ rest Hw').
    cbn [bind app]. do 2 f_equal. lengths.
  - decide_tests. pose proof (supported_proto props Hs) as Hproto.
    apply supported_object in Hs. destruct Hs as (Hn & Hd & Hall).
    rewrite <- app_assoc in Hw.
    pose proof (prefix_read _ _ _ _ Hn Hw) as [Hlen Hw'].
    rewrite Hlen. cbn [bind]. decide_tests. rewrite Nat2Z.id.
    assert (IH : Forall (fun p =>
                   readsKey buffer (B.readChunk fuel buffer)
                     (wireString B.TYPES.String) (fst p)
                   /\ reads buffer (B.readChunk fuel buffer)
                        (wire B.getTypeCode B.TYPES.String elementBytes)
                        (received elementBytes) (snd p)
                   /\ (DOMString.eqb (decode (encode (fst p))) PROTO = true
                       -> keepsPrototype (received elementBytes (snd p))
                          = true)) props).
    { rewrite Forall_forall in *. intros x Hx.
      destruct (Hall x Hx) as [Hk Hv]. split; [|split].
      - intros offset' rest' Hr. apply B_read_string with (rest := rest'); auto.
        pose proof (depth_prop props x Hx). pose proof (depth_pos (snd x)).
        cbn [depth] in Hf. lia.
      - intros offset' rest' Hr.
        apply (H x Hx Hv fuel buffer offset' rest'); [|exact Hr].
        pose proof (depth_prop props x Hx). cbn [depth] in Hf. lia.
      - intros E. rewrite keepsPrototype_received.
        apply (Hproto x Hx E). }
    rewrite (forLoop_props _ _ _ _ _ props IH [] _ rest Hw').
    cbn [bind app]. do 2 f_equal. lengths.
Qed.

(** * The depth of a value is at most the length of its wire bytes *)

Section DepthWire.
Variable tagOf : Value -> Z.
Variable stringTag : Z.
Variable payload : TypedArray.t -> list byte.

Lemma depth_le_wire (v : Value) :
  (depth v <= length (wire tagOf stringTag payload v))%nat.
Proof.
  induction v using Value_induction; cbn [depth wire length]; try lia.
  - rewrite length_app, length_beBytes.
    assert (fold_right (fun item d => Nat.max (depth item) d) 1%nat items
            <= 1 + length (flat_map (wire tagOf stringTag payload) items))%nat;
      [|lia].
    induction H as [|x rest Hx _ IH]; cbn [fold_right flat_map]; [cbn; lia|].
    rewrite length_app. lia.
  - rewrite length_app, length_beBytes.
    assert (fold_right (fun '(_, val) d => Nat.max (depth val) d) 1%nat props
            <= 1 + length
                     (flat_map
                        (fun '(key, val) =>
                           wireString stringTag key
                             ++ wire tagOf stringTag payload val) props))%nat;
      [|lia].
    induction H as [|[k x] rest Hx _ IH]; cbn [fold_right flat_map snd] in *;
      [cbn; lia|].
    rewrite !length_app. lia.
Qed.
End DepthWire.

(** * Round trip of implementation B *)

Lemma wire_not_empty tagOf stringTag payload (v : Value) :
  (1 <= length (wire tagOf stringTag payload v))%nat.
Proof. destruct v; cbn [wire length]; lia. Qed.

Lemma B_deserialize_wire (v : Value) (trailing : list byte) :
  supported v ->
  B.deserialize (wireB v ++ trailing) = Ret (receivedB v).
Proof.
  intros Hs. unfold B.deserialize.
  pose proof (wire_not_empty B.getTypeCode B.TYPES.String elementBytes v) as Hne.
  pose proof (depth_le_wire B.getTypeCode B.TYPES.String elementBytes v) as Hd.
  fold wireB in Hne, Hd.
  destruct (Nat.eqb_spec (length (wireB v ++ trailing)) 0) as [E|_].
  - rewrite length_app in E. lia.
  - rewrite (B_read v Hs _ _ 0%nat trailing); [reflexivity| |reflexivity].
    rewrite length_app. lia.
Qed.

(** * Deep equality of what is read back *)

Lemma elementBytes_fresh (k : ElementType) (sub : list byte) :
  elementBytes (TypedArray.mk k sub 0 (length sub)) = sub.
Proof.
  unfold elementBytes, slice. cbn. rewrite Nat.sub_0_r. apply firstn_all.
Qed.

Lemma deepEqual_refl (v : Value) : deepEqual v v.
Proof.
  induction v using Value_induction; try constructor; auto.
  - induction H; constructor; auto.
  - induction H; constructor; auto.
Qed.

Lemma rebuilt_deepEqual (v : Value) :
  deepEqual (rebuiltB v) (degrade v).
Proof.
  unfold rebuiltB.
  induction v using Value_induction; cbn [rebuilt degrade]; try constructor.
  - reflexivity.
  - apply elementBytes_fresh.
  - induction H; cbn [map]; constructor; auto.
  - induction H as [|[k x] rest Hx _ IH]; cbn [map]; constructor; auto.
Qed.

(** * What is read back of a plain value *)

Lemma fold_left_agree {A B : Type} (f g : A -> B -> A) (l : list B) :
  Forall (fun x => forall acc, f acc x = g acc x) l ->
  forall acc, fold_left f l acc = fold_left g l acc.
Proof.
  induction 1 as [|x l Hx _ IH]; intros acc; cbn [fold_left]; [reflexivity|].
  rewrite Hx. apply IH.
Qed.

Lemma plain_object (props : list (DOMString.t * Value)) :
  plain (VObject props) = true ->
  Forall (fun p => plainText (fst p) = true
                   /\ DOMString.eqb (fst p) PROTO = false
                   /\ plain (snd p) = true) props.
Proof.
  cbn [plain]. intros H. apply Forall_forall. intros [k x] Hin.
  rewrite forallb_forall in H. specialize (H _ Hin). cbv beta iota in H.
  apply andb_true_iff in H. destruct H as [H Hv].
  apply andb_true_iff in H. destruct H as [Hk Hp].
  apply negb_true_iff in Hp. cbn [fst snd]. auto.
Qed.

Lemma plain_array (items : list Value) :
  plain (VArray items) = true -> Forall (fun v => plain v = true) items.
Proof.
  cbn [plain]. intros H. apply Forall_forall. apply forallb_forall. exact H.
Qed.

(** A supported plain value is read back as it was written, up to what
    is lost by design and the buffers of its typed arrays. *)
Lemma received_rebuilt (payload : TypedArray.t -> list byte) (v : Value) :
  supported v -> plain v = true -> received payload v = rebuilt payload v.
Proof.
  induction v using Value_induction; intros Hs Hp;
    cbn [received rebuilt]; try reflexivity.
  - cbn [plain] in Hp. rewrite decode_encode by exact Hp. reflexivity.
  - apply supported_array in Hs. destruct Hs as [_ Hall].
    apply plain_array in Hp. f_equal. apply map_ext_in.
    intros x Hx. rewrite Forall_forall in *. auto.
  - pose proof (supported_order props Hs) as Ho.
    apply supported_object in Hs. destruct Hs as (_ & Hd & Hall).
    apply plain_object in Hp. f_equal.
    rewrite (fold_left_agree _
               (fun obj '(key, val) => assigned obj key (rebuilt payload val))).
    + rewrite fold_assigned; [reflexivity|exact Hd|exact Ho|].
      rewrite Forall_forall in *. intros x Hx. apply (Hp x Hx).
    + rewrite Forall_forall in *. intros [k x] Hx acc.
      destruct (Hp _ Hx) as (Hk & _ & Hv). destruct (Hall _ Hx) as [_ Hsx].
      cbn [fst snd] in *.
      rewrite decode_encode by exact Hk.
      pose proof (H _ Hx Hsx Hv) as E. cbn [snd] in E. rewrite E.
      reflexivity.
Qed.

Lemma received_deepEqual (v : Value) :
  supported v -> plain v = true -> deepEqual (receivedB v) (degrade v).
Proof.
  intros Hs Hp. unfold receivedB. rewrite received_rebuilt by assumption.
  apply rebuilt_deepEqual.
Qed.

(** * Writers that may write past their chunk *)

Lemma setBytes_prefix (buffer : ArrayBuffer) (src : list byte)
  (offset : nat) (buffer' : ArrayBuffer) (k : nat) :
  setBytes buffer src offset = Ret buffer' ->
  (k <= length src)%nat ->
  length buffer' = length buffer
  /\ (offset + k <= length buffer)%nat
  /\ firstn (offset + k) buffer' = firstn offset buffer ++ firstn k src.
Proof.
  intros H Hk. apply setBytes_inv in H. destruct H as [Hle ->].
  repeat split.
  - apply length_splice. exact Hle.
  - lia.
  - apply firstn_splice_upto; lia.
Qed.

Lemma setBytes_all (buffer : ArrayBuffer) (src : list byte)
  (offset : nat) (buffer' : ArrayBuffer) :
  setBytes buffer src offset = Ret buffer' ->
  length buffer' = length buffer
  /\ (offset + length src <= length buffer)%nat
  /\ firstn (offset + length src) buffer' = firstn offset buffer ++ src.
Proof.
  intros H.
  pose proof (setBytes_prefix _ _ _ _ (length src) H (Nat.le_refl _)) as P.
  rewrite firstn_all in P. exact P.
Qed.

Lemma forEach_prefix {C V : Type}
  (write : C -> ArrayBuffer -> nat -> result (ArrayBuffer * nat))
  (f : V -> C) (bytes : V -> list byte) (items : list V) :
  Forall (fun item => writesPrefix (write (f item)) (bytes item)) items ->
  forall buffer offset buffer' offset',
    (offset <= length buffer)%nat ->
    forEach write (map f items) buffer offset = Ret (buffer', offset') ->
    length buffer' = length buffer
    /\ offset' = (offset + length (flat_map bytes items))%nat
    /\ (offset' <= length buffer)%nat
    /\ firstn offset' buffer' = firstn offset buffer ++ flat_map bytes items.
Proof.
  induction 1 as [|item rest Hitem _ IH];
    intros buffer offset buffer' offset' Ho Hw.
  - cbn in Hw. inversion Hw; subst. cbn [flat_map length].
    rewrite app_nil_r, Nat.add_0_r. auto.
  - cbn [map forEach flat_map] in *. fold (forEach write) in Hw.
    destruct (write (f item) buffer offset) as [[b1 o1]|] eqn:E1;
      cbn [bind] in Hw; [|discriminate].
    apply Hitem in E1. destruct E1 as (L1 & O1 & B1 & F1).
    apply IH in Hw; [|lia]. destruct Hw as (L2 & O2 & B2 & F2).
    rewrite length_app. repeat split; try lia.
    rewrite F2, F1, <- app_assoc. reflexivity.
Qed.

Lemma forEach_entries_prefix {C V K : Type}
  (write : C -> ArrayBuffer -> nat -> result (ArrayBuffer * nat))
  (g : K -> C) (f : V -> C) (keyBytes : K -> list byte)
  (bytes : V -> list byte) (props : list (K * V)) :
  (forall key, writesPrefix (write (g key)) (keyBytes key)) ->
  Forall (fun p => writesPrefix (write (f (snd p))) (bytes (snd p))) props ->
  forall buffer offset buffer' offset',
    (offset <= length buffer)%nat ->
    forEach write (flat_map (fun '(key, val) => [g key; f val]) props)
      buffer offset = Ret (buffer', offset') ->
    length buffer' = length buffer
    /\ offset'
       = (offset
          + length (flat_map (fun '(key, val) => keyBytes key ++ bytes val)
                      props))%nat
    /\ (offset' <= length buffer)%nat
    /\ firstn offset' buffer'
       = firstn offset buffer
           ++ flat_map (fun '(key, val) => keyBytes key ++ bytes val) props.
Proof.
  intros Hkey.
  induction 1 as [|[key val] rest Hval _ IH];
    intros buffer offset buffer' offset' Ho Hw.
  - cbn in Hw. inversion Hw; subst. cbn [flat_map length].
    rewrite app_nil_r, Nat.add_0_r. auto.
  - cbn [forEach flat_map app snd] in *. fold (forEach write) in Hw.
    destruct (write (g key) buffer offset) as [[b1 o1]|] eqn:E1;
      cbn [bind] in Hw; [|discriminate].
    apply Hkey in E1. destruct E1 as (L1 & O1 & B1 & F1).
    destruct (write (f val) b1 o1) as [[b2 o2]|] eqn:E2;
      cbn [bind] in Hw; [|discriminate].
    apply Hval in E2. destruct E2 as (L2 & O2 & B2 & F2).
    apply IH in Hw; [|lia]. destruct Hw as (L3 & O3 & B3 & F3).
    rewrite !length_app. repeat split; try lia.
    rewrite F3, F2, F1, <- !app_assoc. reflexivity.
Qed.

(** * The writer of implementation A *)

Lemma written_step (buffer : ArrayBuffer) (offset : nat) (acc : list byte)
  (b : ArrayBuffer) (o : nat) (src : list byte) (b' : ArrayBuffer) (k : nat) :
  written buffer offset acc b o ->
  setBytes b src o = Ret b' ->
  (k <= length src)%nat ->
  written buffer offset (acc ++ firstn k src) b' (o + k).
Proof.
  intros (L & O & B & F) H Hk.
  destruct (setBytes_prefix _ _ _ _ k H Hk) as (L' & B' & F').
  unfold written. rewrite length_app, length_firstn.
  repeat split; try lia.
  rewrite F', F, <- app_assoc. reflexivity.
Qed.

Lemma written_all (buffer : ArrayBuffer) (offset : nat) (acc : list byte)
  (b : ArrayBuffer) (o : nat) (src : list byte) (b' : ArrayBuffer) :
  written buffer offset acc b o ->
  setBytes b src o = Ret b' ->
  written buffer offset (acc ++ src) b' (o + length src).
Proof.
  intros W H.
  pose proof (written_step _ _ _ _ _ _ _ (length src) W H (Nat.le_refl _)) as S.
  rewrite firstn_all in S. exact S.
Qed.

Lemma written_tag (buffer : ArrayBuffer) (offset : nat) (tag : Z)
  (b' : ArrayBuffer) :
  setUint8 buffer offset tag = Ret b' ->
  written buffer offset [byteOf tag] b' (offset + 1).
Proof.
  intros H. unfold setUint8 in H. rewrite beBytes_1 in H.
  pose proof (setBytes_all _ _ _ _ H) as (L & B & F).
  unfold written. cbn [length] in *. repeat split; auto; lia.
Qed.

Lemma written_uint8 (buffer : ArrayBuffer) (offset : nat) (acc : list byte)
  (b : ArrayBuffer) (o : nat) (z : Z) (b' : ArrayBuffer) :
  written buffer offset acc b o ->
  setUint8 b o z = Ret b' ->
  written buffer offset (acc ++ [byteOf z]) b' (o + 1).
Proof.
  intros W H. unfold setUint8 in H. rewrite beBytes_1 in H.
  apply (written_all _ _ _ _ _ _ _ W H).
Qed.

Lemma written_uint32 (buffer : ArrayBuffer) (offset : nat) (acc : list byte)
  (b : ArrayBuffer) (o : nat) (z : Z) (b' : ArrayBuffer) :
  written buffer offset acc b o ->
  setUint32 b o z = Ret b' ->
  written buffer offset (acc ++ beBytes 4 z) b' (o + 4).
Proof.
  intros W H. unfold setUint32 in H.
  pose proof (written_all _ _ _ _ _ _ _ W H) as S.
  rewrite length_beBytes in S. exact S.
Qed.

Lemma written_float64 (buffer : ArrayBuffer) (offset : nat) (acc : list byte)
  (b : ArrayBuffer) (o : nat) (z : Z) (b' : ArrayBuffer) :
  written buffer offset acc b o ->
  setFloat64 b o z = Ret b' ->
  written buffer offset (acc ++ beBytes 8 z) b' (o + 8).
Proof.
  intros W H. unfold setFloat64 in H.
  pose proof (written_all _ _ _ _ _ _ _ W H) as S.
  rewrite length_beBytes in S. exact S.
Qed.

Lemma written_done (buffer : ArrayBuffer) (offset : nat) (acc bytes : list byte)
  (b : ArrayBuffer) (o o' : nat) :
  written buffer offset acc b o ->
  acc = bytes -> o' = o ->
  length b = length buffer
  /\ o' = (offset + length bytes)%nat
  /\ (o' <= length buffer)%nat
  /\ firstn o' b = firstn offset buffer ++ bytes.
Proof. intros W <- ->. exact W. Qed.

Lemma written_each {C V : Type}
  (write : C -> ArrayBuffer -> nat -> result (ArrayBuffer * nat))
  (f : V -> C) (bytes : V -> list byte) (items : list V)
  (buffer : ArrayBuffer) (offset : nat) (acc : list byte)
  (b : ArrayBuffer) (o : nat) (b' : ArrayBuffer) (o' : nat) :
  Forall (fun item => writesPrefix (write (f item)) (bytes item)) items ->
  written buffer offset acc b o ->
  forEach write (map f items) b o = Ret (b', o') ->
  written buffer offset (acc ++ flat_map bytes items) b' o'.
Proof.
  intros Hall (L & O & B & F) H.
  apply (forEach_prefix write f bytes items Hall) in H; [|lia].
  destruct H as (L' & O' & B' & F').
  unfold written. rewrite length_app. repeat split; try lia.
  rewrite F', F, <- app_assoc. reflexivity.
Qed.

Lemma written_entries {C V K : Type}
  (write : C -> ArrayBuffer -> nat -> result (ArrayBuffer * nat))
  (g : K -> C) (f : V -> C) (keyBytes : K -> list byte)
  (bytes : V -> list byte) (props : list (K * V))
  (buffer : ArrayBuffer) (offset : nat) (acc : list byte)
  (b : ArrayBuffer) (o : nat) (b' : ArrayBuffer) (o' : nat) :
  (forall key, writesPrefix (write (g key)) (keyBytes key)) ->
  Forall (fun p => writesPrefix (write (f (snd p))) (bytes (snd p))) props ->
  written buffer offset acc b o ->
  forEach write (flat_map (fun '(key, val) => [g key; f val]) props) b o
  = Ret (b', o') ->
  written buffer offset
    (acc ++ flat_map (fun '(key, val) => keyBytes key ++ bytes val) props)
    b' o'.
Proof.
  intros Hkey Hall (L & O & B & F) H.
  apply (forEach_entries_prefix write g f keyBytes bytes props Hkey Hall) in H;
    [|lia].
  destruct H as (L' & O' & B' & F').
  unfold written. rewrite length_app. repeat split; try lia.
  rewrite F', F, <- app_assoc. reflexivity.
Qed.

Ltac decide_tests_in H :=
  repeat match type of H with
  | context [if ?c then _ else _] =>
      let b := eval vm_compute in c in
      match b with
      | true => change c with true in H; cbv iota in H
      | false => change c with false in H; cbv iota in H
      end
  end.

(** Take the first write of [H] apart. *)
Ltac first_write H E :=
  match type of H with
  | bind ?m _ = Ret _ =>
      destruct m as [?b|] eqn:E; cbn [bind] in H; [|discriminate H]
  end.

Ltac A_unfold_in H :=
  unfold wireA in *; cbn [wire] in *;
  cbn [chunkTreeA A.createStringChunk A.writeChunk A.typeIndexOf
       A.CreateChunk.typeIndex A.CreateChunk.length A.CreateChunk.value
       A.CreateChunk.subBuffer A.CreateChunk.byteLength A.truthy] in H.

Lemma A_write_string (s : DOMString.t) :
  writesPrefix (A.writeChunk (A.createStringChunk s))
    (wireString A.TYPES.String s).
Proof.
  intros buffer offset buffer' offset' H.
  unfold wireString. A_unfold_in H.
  first_write H E0. apply written_tag in E0.
  decide_tests_in H.
  first_write H E1. apply (written_uint32 _ _ _ _ _ _ _ E0) in E1.
  first_write H E2. apply (written_all _ _ _ _ _ _ _ E1) in E2.
  inversion H; subst.
  apply (written_done _ _ _ _ _ _ _ E2); [|reflexivity].
  rewrite <- app_assoc. reflexivity.
Qed.

Lemma A_write_prefix (v : Value) :
  wellFormed v = true ->
  writesPrefix (A.writeChunk (chunkTreeA v)) (wireA v).
Proof.
  induction v using Value_induction; intros Hs buffer offset buffer' offset' Hw;
    try discriminate Hs;
    A_unfold_in Hw; first_write Hw E0; apply written_tag in E0.
  - decide_tests_in Hw. inversion Hw; subst.
    apply (written_done _ _ _ _ _ _ _ E0); reflexivity.
  - decide_tests_in Hw. inversion Hw; subst.
    apply (written_done _ _ _ _ _ _ _ E0); reflexivity.
  - decide_tests_in Hw. inversion Hw; subst.
    apply (written_done _ _ _ _ _ _ _ E0); reflexivity.
  - decide_tests_in Hw.
    first_write Hw E1. apply (written_uint8 _ _ _ _ _ _ _ E0) in E1.
    inversion Hw; subst.
    apply (written_done _ _ _ _ _ _ _ E1); [|reflexivity].
    destruct b; reflexivity.
  - decide_tests_in Hw.
    first_write Hw E1. apply (written_float64 _ _ _ _ _ _ _ E0) in E1.
    inversion Hw; subst.
    apply (written_done _ _ _ _ _ _ _ E1); reflexivity.
  - decide_tests_in Hw.
    first_write Hw E1. apply (written_uint32 _ _ _ _ _ _ _ E0) in E1.
    first_write Hw E2. apply (written_all _ _ _ _ _ _ _ E1) in E2.
    inversion Hw; subst.
    apply (written_done _ _ _ _ _ _ _ E2); [|reflexivity].
    rewrite <- app_assoc. reflexivity.
  - decide_tests_in Hw.
    first_write Hw E1. apply (written_float64 _ _ _ _ _ _ _ E0) in E1.
    inversion Hw; subst.
    apply (written_done _ _ _ _ _ _ _ E1); reflexivity.
  - apply wellFormed_typedArray in Hs. destruct Hs as [Hin _].
    assert (Hk : (TypedArray.byteLength a <= length (TypedArray.buffer a))%nat)
      by lia.
    unfold bufferStart.
    destruct a as [k buf bo bl];
      cbn [TypedArray.elementType TypedArray.byteLength TypedArray.buffer] in *.
    destruct k; decide_tests_in Hw;
      first_write Hw E1; apply (written_uint32 _ _ _ _ _ _ _ E0) in E1;
      first_write Hw E2;
      apply (fun W => written_step _ _ _ _ _ _ _ bl W E2 Hk) in E1;
      inversion Hw; subst;
      (apply (written_done _ _ _ _ _ _ _ E1); [|reflexivity]);
      rewrite <- app_assoc; reflexivity.
  - apply wellFormed_array in Hs. rename Hs into Hall.
    assert (IH : Forall (fun v => writesPrefix
                           (A.writeChunk (chunkTreeA v))
                           (wire A.typeIndexOf A.TYPES.String bufferStart v))
                   items).
    { rewrite Forall_forall in *. intros x Hx. apply H; auto. }
    decide_tests_in Hw.
    first_write Hw E1. apply (written_uint32 _ _ _ _ _ _ _ E0) in E1.
    apply (written_each _ _ _ _ _ _ _ _ _ _ _ IH E1) in Hw.
    destruct Hw as (L & O & B & F). rewrite <- app_assoc in *.
    cbn [app] in *. repeat split; auto.
  - apply wellFormed_object in Hs. rename Hs into Hall.
    assert (IH : Forall (fun p => writesPrefix
                           (A.writeChunk (chunkTreeA (snd p)))
                           (wire A.typeIndexOf A.TYPES.String bufferStart
                              (snd p))) props).
    { rewrite Forall_forall in *. intros x Hx. apply H; auto. }
    decide_tests_in Hw.
    first_write Hw E1. apply (written_uint32 _ _ _ _ _ _ _ E0) in E1.
    apply (written_entries _ _ _ _ _ _ _ _ _ _ _ _ _ A_write_string IH E1) in Hw.
    destruct Hw as (L & O & B & F). rewrite <- app_assoc in *.
    cbn [app] in *. repeat split; auto.
Qed.

(** * The size that implementation A predicts *)

Lemma A_byteLength_string (s : DOMString.t) :
  A.CreateChunk.byteLength (A.createStringChunk s)
  = length (wireString A.TYPES.String s).
Proof.
  unfold wireString, A.createStringChunk. cbn [A.CreateChunk.byteLength].
  lengths.
Qed.

Lemma A_byteLength (v : Value) :
  wellFormed v = true ->
  A.CreateChunk.byteLength (chunkTreeA v) = length (wireA v).
Proof.
  induction v using Value_induction; intros Hs; try discriminate Hs;
    unfold wireA in *;
    cbn [wire chunkTreeA A.CreateChunk.byteLength].
  - reflexivity.
  - reflexivity.
  - reflexivity.
  - reflexivity.
  - lengths.
  - apply A_byteLength_string.
  - lengths.
  - apply wellFormed_typedArray in Hs. rename Hs into Hta.
    cbn [length].
    rewrite length_app, length_beBytes, (length_bufferStart a Hta). lia.
  - apply wellFormed_array in Hs. rename Hs into Hall.
    assert (IH : Forall (fun v => A.CreateChunk.byteLength (chunkTreeA v)
                                  = length (wire A.typeIndexOf A.TYPES.String
                                              bufferStart v)) items).
    { rewrite Forall_forall in *. intros x Hx. apply H; auto. }
    rewrite (fold_left_sizes A.CreateChunk.byteLength chunkTreeA _ items IH).
    lengths.
  - apply wellFormed_object in Hs. rename Hs into Hall.
    assert (IH : Forall (fun p =>
                   A.CreateChunk.byteLength (chunkTreeA (snd p))
                   = length (wire A.typeIndexOf A.TYPES.String bufferStart
                               (snd p))) props).
    { rewrite Forall_forall in *. intros x Hx. apply H; auto. }
    rewrite (fold_left_entry_sizes A.CreateChunk.byteLength
               A.createStringChunk chunkTreeA
               (wireString A.TYPES.String) _ props A_byteLength_string IH).
    lengths.
Qed.

(** * The chunk builder of implementation A *)

Lemma eachItem_inv {V C : Type} (create : V -> result C) (f : V -> C)
  (byteLengthOf : C -> nat) (items : list V) :
  Forall (fun item => forall c, create item = Ret c -> c = f item) items ->
  forall byteLength val byteLength' val',
    A.eachItem create byteLengthOf items byteLength val
    = Ret (byteLength', val') ->
    val' = val ++ map f items
    /\ byteLength'
       = fold_left (fun n chunk => (n + byteLengthOf chunk)%nat)
           (map f items) byteLength.
Proof.
  induction 1 as [|item rest Hitem _ IH]; intros bl val bl' val' H;
    cbn [A.eachItem map fold_left] in *.
  - inversion H; subst. rewrite app_nil_r. auto.
  - destruct (create item) as [c|] eqn:E; cbn [bind] in H; [|discriminate].
    fold (A.eachItem create byteLengthOf) in H.
    specialize (Hitem c eq_refl). subst c.
    apply IH in H. destruct H as [-> ->].
    rewrite <- app_assoc. auto.
Qed.

Lemma eachItem_ok {V C : Type} (create : V -> result C) (f : V -> C)
  (byteLengthOf : C -> nat) (items : list V) :
  Forall (fun item => create item = Ret (f item)) items ->
  forall byteLength val,
    A.eachItem create byteLengthOf items byteLength val
    = Ret (fold_left (fun n chunk => (n + byteLengthOf chunk)%nat)
             (map f items) byteLength,
           val ++ map f items).
Proof.
  induction 1 as [|item rest Hitem _ IH]; intros bl val;
    cbn [A.eachItem map fold_left].
  - rewrite app_nil_r. reflexivity.
  - rewrite Hitem. cbn [bind]. fold (A.eachItem create byteLengthOf).
    rewrite IH, <- app_assoc. reflexivity.
Qed.

Lemma eachProperty_inv {V C : Type} (own : DOMString.t -> result bool)
  (createKey : DOMString.t -> C) (create : V -> result C) (f : V -> C)
  (byteLengthOf : C -> nat) (props : list (DOMString.t * V)) :
  (forall s b, own s = Ret b -> b = true) ->
  Forall (fun p => forall c, create (snd p) = Ret c -> c = f (snd p)) props ->
  forall length byteLength val length' byteLength' val',
    A.eachProperty own createKey create byteLengthOf props length byteLength val
    = Ret (length', byteLength', val') ->
    length' = (length + List.length props)%nat
    /\ val' = val ++ flat_map (fun '(s, v) => [createKey s; f v]) props
    /\ byteLength'
       = fold_left (fun n chunk => (n + byteLengthOf chunk)%nat)
           (flat_map (fun '(s, v) => [createKey s; f v]) props) byteLength.
Proof.
  intros Hown.
  induction 1 as [|[s v] rest Hval _ IH]; intros len bl val len' bl' val' H;
    cbn [A.eachProperty flat_map fold_left app List.length snd] in *.
  - inversion H; subst. rewrite app_nil_r. auto.
  - destruct (own s) as [b|] eqn:O; cbn [bind] in H; [|discriminate].
    apply Hown in O. subst b. cbv zeta in H.
    destruct (create v) as [c|] eqn:E; cbn [bind] in H; [|discriminate].
    fold (A.eachProperty own createKey create byteLengthOf) in H.
    specialize (Hval c eq_refl). subst c.
    apply IH in H. destruct H as (-> & -> & ->).
    rewrite <- !app_assoc. cbn [app]. repeat split. lia.
Qed.

Lemma eachProperty_ok {V C : Type} (own : DOMString.t -> result bool)
  (createKey : DOMString.t -> C) (create : V -> result C) (f : V -> C)
  (byteLengthOf : C -> nat) (props : list (DOMString.t * V)) :
  (forall s, own s = Ret true) ->
  Forall (fun p => create (snd p) = Ret (f (snd p))) props ->
  forall length byteLength val,
    A.eachProperty own createKey create byteLengthOf props length byteLength val
    = Ret ((length + List.length props)%nat,
           fold_left (fun n chunk => (n + byteLengthOf chunk)%nat)
             (flat_map (fun '(s, v) => [createKey s; f v]) props) byteLength,
           val ++ flat_map (fun '(s, v) => [createKey s; f v]) props).
Proof.
  intros Hown.
  induction 1 as [|[s v] rest Hval _ IH]; intros len bl val;
    cbn [A.eachProperty flat_map fold_left app List.length snd] in *.
  - rewrite app_nil_r, Nat.add_0_r. reflexivity.
  - rewrite Hown. cbn [bind]. cbv zeta. rewrite Hval. cbn [bind].
    fold (A.eachProperty own createKey create byteLengthOf).
    rewrite IH, <- !app_assoc. cbn [app]. do 3 f_equal. lia.
Qed.

Lemma hasOwnProperty_true (props : list (DOMString.t * Value))
  (s : DOMString.t) (b : bool) :
  hasOwnProperty props s = Ret b -> b = true.
Proof.
  unfold hasOwnProperty.
  destruct (getProperty props HAS_OWN_PROPERTY) as [[]|]; congruence.
Qed.

Lemma hasOwnProperty_inherited (props : list (DOMString.t * Value))
  (s : DOMString.t) :
  getProperty props HAS_OWN_PROPERTY = None ->
  hasOwnProperty props s = Ret true.
Proof. unfold hasOwnProperty. intros ->. reflexivity. Qed.

(** Whenever [createChunk] returns, it returns the chunk tree. *)
Lemma A_createChunk_tree (v : Value) (chunk : A.CreateChunk.t) :
  A.createChunk v = Ret chunk -> chunk = chunkTreeA v.
Proof.
  revert chunk.
  induction v using Value_induction; intros chunk Hc;
    cbn [A.createChunk chunkTreeA] in *; try (inversion Hc; reflexivity).
  - destruct (A.eachItem A.createChunk A.CreateChunk.byteLength items
                (1 + 4)%nat []) as [[bl val]|] eqn:E;
      cbn [bind] in Hc; [|discriminate].
    inversion Hc; subst chunk. clear Hc.
    apply (eachItem_inv _ chunkTreeA) in E; [|exact H].
    destruct E as [-> ->]. reflexivity.
  - destruct (A.eachProperty (hasOwnProperty props) A.createStringChunk
                A.createChunk A.CreateChunk.byteLength props 0%nat
                (1 + 4)%nat []) as [[[len bl] val]|] eqn:E;
      cbn [bind] in Hc; [|discriminate].
    inversion Hc; subst chunk. clear Hc.
    apply (eachProperty_inv _ _ _ chunkTreeA) in E;
      [|apply hasOwnProperty_true|exact H].
    destruct E as (-> & -> & ->). reflexivity.
Qed.

Lemma shadows_array (items : list Value) :
  shadowsHasOwnProperty (VArray items) = false ->
  Forall (fun v => shadowsHasOwnProperty v = false) items.
Proof.
  cbn [shadowsHasOwnProperty]. intros H. apply Forall_forall. intros x Hx.
  destruct (shadowsHasOwnProperty x) eqn:E; [|reflexivity].
  rewrite <- H. symmetry. apply existsb_exists. eauto.
Qed.

Lemma shadows_object (props : list (DOMString.t * Value)) :
  shadowsHasOwnProperty (VObject props) = false ->
  getProperty props HAS_OWN_PROPERTY = None
  /\ Forall (fun p => shadowsHasOwnProperty (snd p) = false) props.
Proof.
  cbn [shadowsHasOwnProperty]. intros H. apply orb_false_iff in H.
  destruct H as [Hg H]. split.
  - destruct (getProperty props HAS_OWN_PROPERTY); [discriminate|reflexivity].
  - apply Forall_forall. intros [k x] Hx. cbn [snd].
    destruct (shadowsHasOwnProperty x) eqn:E; [|reflexivity].
    rewrite <- H. symmetry. apply existsb_exists.
    exists (k, x). auto.
Qed.

(** [createChunk] returns for the values whose objects inherit their
    [hasOwnProperty]. *)
Lemma A_createChunk_ok (v : Value) :
  shadowsHasOwnProperty v = false -> A.createChunk v = Ret (chunkTreeA v).
Proof.
  induction v using Value_induction; intros Hs;
    cbn [A.createChunk chunkTreeA]; try reflexivity.
  - apply shadows_array in Hs.
    rewrite (eachItem_ok _ chunkTreeA).
    + reflexivity.
    + rewrite Forall_forall in *. auto.
  - apply shadows_object in Hs. destruct Hs as [Hg Hs].
    rewrite (eachProperty_ok _ _ _ chunkTreeA).
    + reflexivity.
    + intros s. apply hasOwnProperty_inherited. exact Hg.
    + rewrite Forall_forall in *. auto.
Qed.

(** Whenever [serialize] of implementation A returns, it
    returns the wire bytes. *)
Lemma A_serialize_wire (v : Value) (buffer : ArrayBuffer) :
  wellFormed v = true -> A.serialize v = Ret buffer -> buffer = wireA v.
Proof.
  intros Hs H. unfold A.serialize in H.
  destruct (A.createChunk v) as [chunk|] eqn:C; cbn [bind] in H;
    [|discriminate].
  apply A_createChunk_tree in C. subst chunk. cbv zeta in H.
  destruct (A.writeChunk (chunkTreeA v)
              (newArrayBuffer (A.CreateChunk.byteLength (chunkTreeA v))) 0)
    as [[b o]|] eqn:E; cbn [bind] in H; [|discriminate].
  inversion H; subst b. clear H.
  apply (A_write_prefix v Hs) in E. destruct E as (L & O & B & F).
  rewrite length_newArrayBuffer, (A_byteLength v Hs) in L.
  cbn [firstn app] in F. cbn in O. subst o.
  rewrite <- L, firstn_all in F. exact F.
Qed.

(** * The reader of implementation A *)

Lemma forLoop_ext {S : Type} (body body' : S -> nat -> result (S * nat)) :
  (forall s offset, body s offset = body' s offset) ->
  forall count s offset,
    forLoop count body s offset = forLoop count body' s offset.
Proof.
  intros Hext. induction count as [|count IH]; intros s offset; cbn [forLoop].
  - reflexivity.
  - rewrite Hext. destruct (body' s offset) as [[s' o']|]; cbn [bind]; auto.
Qed.

Lemma A_array_body (fuel : nat) (buffer : ArrayBuffer) :
  forall (arr : list Value) (offset : nat),
    (item <- A.readChunk fuel buffer offset ;;
     Ret (arr ++ [A.ReadChunk.value item], A.ReadChunk.offset item))
    = ('(value, offset) <- A_read_at fuel buffer offset ;;
       Ret (arr ++ [value], offset)).
Proof.
  intros arr offset. unfold A_read_at.
  destruct (A.readChunk fuel buffer offset); reflexivity.
Qed.

Lemma A_object_body (fuel : nat) (buffer : ArrayBuffer) :
  forall (obj : list (DOMString.t * Value)) (offset : nat),
    (key <- A.readChunk fuel buffer offset ;;
     let offset := A.ReadChunk.offset key in
     val <- A.readChunk fuel buffer offset ;;
     let offset := A.ReadChunk.offset val in
     obj <- assign obj (A.ReadChunk.value key) (A.ReadChunk.value val) ;;
     Ret (obj, offset))
    = ('(key, offset) <- A_read_at fuel buffer offset ;;
       '(v, offset) <- A_read_at fuel buffer offset ;;
       obj <- assign obj key v ;;
       Ret (obj, offset)).
Proof.
  intros obj offset. unfold A_read_at.
  destruct (A.readChunk fuel buffer offset) as [key|]; cbn [bind]; [|reflexivity].
  destruct (A.readChunk fuel buffer (A.ReadChunk.offset key)); reflexivity.
Qed.

Lemma A_tag_range (v : Value) : 0 <= A.typeIndexOf v < 256.
Proof.
  destruct v; cbn; try (cbv; intuition congruence).
  destruct (TypedArray.elementType a); cbv; intuition congruence.
Qed.

Ltac eval_typedArrayOf :=
  match goal with
  | |- context [A.typedArrayOf ?t] =>
      let r := eval vm_compute in (A.typedArrayOf t) in
      change (A.typedArrayOf t) with r
  end; cbv iota beta.

Lemma A_read_string (s : DOMString.t) (fuel : nat) (buffer : ArrayBuffer)
  (offset : nat) (rest : list byte) :
  Z.of_nat (length (encode s)) < 2 ^ 32 ->
  (1 <= fuel)%nat ->
  skipn offset buffer = wireString A.TYPES.String s ++ rest ->
  A.readChunk fuel buffer offset
  = Ret (A.ReadChunk.mk A.TYPES.String (VString (decode (encode s)))
           (length (encode s))
           (offset + length (wireString A.TYPES.String s))).
Proof.
  intros Hn Hf H. destruct fuel as [|fuel]; [lia|].
  unfold wireString in *. cbn [app] in H.
  apply tag_read in H; [|cbv; intuition congruence].
  destruct H as [Htag H].
  rewrite <- app_assoc in H.
  pose proof (prefix_read _ _ _ _ Hn H) as [Hlen H'].
  cbn [A.readChunk]. rewrite Htag. cbn [bind]. decide_tests.
  rewrite Hlen. cbn [bind]. decide_tests. eval_typedArrayOf. decide_tests.
  cbn [bind]. decide_tests.
  rewrite Nat2Z.id, (slice_at _ _ _ _ H').
  do 2 f_equal. lengths.
Qed.

Lemma A_read (v : Value) :
  supported v ->
  forall fuel buffer offset rest,
    (depth v <= fuel)%nat ->
    skipn offset buffer = wireA v ++ rest ->
    A.readChunk fuel buffer offset
    = Ret (A.ReadChunk.mk (A.typeIndexOf v) (receivedA v) (lengthField v)
             (offset + length (wireA v))).
Proof.
  induction v using Value_induction; intros Hs fuel buffer offset rest Hf Hw;
    try discriminate Hs;
    (destruct fuel as [|fuel]; [cbn [depth] in Hf; lia|]);
    unfold wireA, receivedA in *; cbn [wire received app lengthField] in *;
    (apply tag_read in Hw; [|apply A_tag_range]); destruct Hw as [Htag Hw];
    cbn [A.readChunk]; rewrite Htag; cbn [bind A.typeIndexOf].
  - decide_tests. cbn [bind]. decide_tests. reflexivity.
  - decide_tests. cbn [bind]. decide_tests. reflexivity.
  - decide_tests. cbn [bind]. decide_tests. reflexivity.
  - decide_tests. cbn [bind]. decide_tests.
    rewrite (getUint8_at _ _ _ _ Hw). cbn [bind].
    destruct b; (f_equal; f_equal; solve [reflexivity | lengths]).
  - decide_tests. cbn [bind]. decide_tests.
    rewrite (double_read _ _ _ _ Hw). cbn [bind].
    rewrite isNumber_read by (apply supported_number; exact Hs).
    do 2 f_equal. lengths.
  - apply supported_string in Hs.
    rewrite <- app_assoc in Hw.
    pose proof (prefix_read _ _ _ _ Hs Hw) as [Hlen Hw'].
    decide_tests. rewrite Hlen. cbn [bind]. decide_tests.
    eval_typedArrayOf. decide_tests. cbn [bind]. decide_tests.
    rewrite Nat2Z.id, (slice_at _ _ _ _ Hw').
    do 2 f_equal. lengths.
  - decide_tests. cbn [bind]. decide_tests.
    rewrite (double_read _ _ _ _ Hw). cbn [bind].
    rewrite isTimeValue_read by (apply supported_date; exact Hs).
    do 2 f_equal. lengths.
  - apply supported_typedArray in Hs. destruct Hs as [Hta Hn].
    pose proof (length_bufferStart a Hta) as Hb.
    destruct Hta as [_ Hmod].
    remember (bufferStart a) as sub eqn:Esub. clear Esub.
    destruct a as [k buf bo bl];
      cbn [TypedArray.elementType TypedArray.byteLength] in *.
    subst bl.
    rewrite <- app_assoc in Hw.
    pose proof (prefix_read _ _ _ _ Hn Hw) as [Hlen Hw'].
    destruct k; decide_tests; rewrite Hlen; cbn [bind]; decide_tests;
      rewrite Nat2Z.id, (slice_at _ _ _ _ Hw');
      eval_typedArrayOf;
      rewrite newTypedArray_ok by exact Hmod; cbn [bind]; decide_tests;
      do 2 f_equal; lengths.
  - apply supported_array in Hs. destruct Hs as [Hn Hall].
    rewrite <- app_assoc in Hw.
    pose proof (prefix_read _ _ _ _ Hn Hw) as [Hlen Hw'].
    decide_tests. rewrite Hlen. cbn [bind]. decide_tests.
    rewrite Nat2Z.id.
    assert (IH : Forall (reads buffer (A_read_at fuel buffer)
                           (wire A.typeIndexOf A.TYPES.String bufferStart)
                           (received bufferStart)) items).
    { rewrite Forall_forall in *. intros x Hx offset' rest' Hr.
      unfold A_read_at.
      rewrite (H x Hx (Hall x Hx) fuel buffer offset' rest'); [reflexivity| |exact Hr].
      pose proof (depth_item items x Hx). cbn [depth] in Hf. lia. }
    rewrite (forLoop_ext _ _ (A_array_body fuel buffer)).
    rewrite (forLoop_items _ _ _ _ items IH [] _ rest Hw').
    cbn [bind app]. do 2 f_equal. lengths.
  - pose proof (supported_proto props Hs) as Hproto.
    apply supported_object in Hs. destruct Hs as (Hn & Hd & Hall).
    rewrite <- app_assoc in Hw.
    pose proof (prefix_read _ _ _ _ Hn Hw) as [Hlen Hw'].
    decide_tests. rewrite Hlen. cbn [bind]. decide_tests.
    rewrite Nat2Z.id.
    assert (IH : Forall (fun p =>
                   readsKey buffer (A_read_at fuel buffer)
                     (wireString A.TYPES.String) (fst p)
                   /\ reads buffer (A_read_at fuel buffer)
                        (wire A.typeIndexOf A.TYPES.String bufferStart)
                        (received bufferStart) (snd p)
                   /\ (DOMString.eqb (decode (encode (fst p))) PROTO = true
                       -> keepsPrototype (received bufferStart (snd p))
                          = true)) props).
    { rewrite Forall_forall in *. intros x Hx.
      destruct (Hall x Hx) as [Hk Hv]. split; [|split].
      - intros offset' rest' Hr. unfold A_read_at.
        rewrite (A_read_string (fst x) fuel buffer offset' rest');
          [reflexivity|exact Hk| |exact Hr].
        pose proof (depth_prop props x Hx). pose proof (depth_pos (snd x)).
        cbn [depth] in Hf. lia.
      - intros offset' rest' Hr. unfold A_read_at.
        rewrite (H x Hx Hv fuel buffer offset' rest'); [reflexivity| |exact Hr].
        pose proof (depth_prop props x Hx). cbn [depth] in Hf. lia.
      - intros E. rewrite keepsPrototype_received.
        apply (Hproto x Hx E). }
    rewrite (forLoop_ext _ _ (A_object_body fuel buffer)).
    rewrite (forLoop_props _ _ _ _ _ props IH [] _ rest Hw').
    cbn [bind app]. do 2 f_equal. lengths.
Qed.

Lemma A_deserialize_wire (v : Value) (trailing : list byte) :
  supported v ->
  A.deserialize (wireA v ++ trailing) = Ret (receivedA v).
Proof.
  intros Hs. unfold A.deserialize.
  pose proof (depth_le_wire A.typeIndexOf A.TYPES.String bufferStart v) as Hd.
  fold wireA in Hd.
  rewrite (A_read v Hs _ _ 0%nat trailing); [reflexivity| |reflexivity].
  rewrite length_app. lia.
Qed.

(** * The writer of implementation A on arrays that span their buffer *)

Lemma wholeBuffers_array (items : list Value) :
  wholeBuffers (VArray items) = true ->
  Forall (fun v => wholeBuffers v = true) items.
Proof.
  cbn [wholeBuffers]. intros H. apply Forall_forall. apply forallb_forall.
  exact H.
Qed.

Lemma wholeBuffers_object (props : list (DOMString.t * Value)) :
  wholeBuffers (VObject props) = true ->
  Forall (fun p => wholeBuffers (snd p) = true) props.
Proof.
  cbn [wholeBuffers]. intros H. apply Forall_forall. intros [k x] Hin.
  rewrite forallb_forall in H. apply (H _ Hin).
Qed.

Lemma wholeBuffers_typedArray (a : TypedArray.t) :
  isTypedArray a -> wholeBuffers (VTypedArray a) = true ->
  bufferStart a = TypedArray.buffer a /\ elementBytes a = TypedArray.buffer a.
Proof.
  intros [Hin _] H. cbn [wholeBuffers] in H. apply Nat.eqb_eq in H.
  unfold bufferStart, elementBytes, slice.
  assert (TypedArray.byteOffset a = 0%nat) as -> by lia.
  rewrite <- H. cbn [skipn]. rewrite Nat.sub_0_r. cbn [Nat.add].
  rewrite firstn_all. auto.
Qed.

Ltac A_unfold :=
  unfold wireA in *; cbn [wire] in *;
  cbn [chunkTreeA A.createStringChunk A.writeChunk A.typeIndexOf
       A.CreateChunk.typeIndex A.CreateChunk.length A.CreateChunk.value
       A.CreateChunk.subBuffer A.CreateChunk.byteLength A.truthy].

Lemma A_write_string_ok (s : DOMString.t) (buffer : ArrayBuffer)
  (offset : nat) :
  (offset + length (wireString A.TYPES.String s) <= length buffer)%nat ->
  A.writeChunk (A.createStringChunk s) buffer offset
  = Ret (splice buffer offset (wireString A.TYPES.String s),
         (offset + length (wireString A.TYPES.String s))%nat).
Proof.
  unfold wireString. intros Hlen. lengths_in Hlen.
  A_unfold. write_steps. write_done.
Qed.

Lemma A_write (v : Value) :
  wellFormed v = true -> wholeBuffers v = true ->
  forall buffer offset,
    (offset + length (wireA v) <= length buffer)%nat ->
    A.writeChunk (chunkTreeA v) buffer offset
    = Ret (splice buffer offset (wireA v), (offset + length (wireA v))%nat).
Proof.
  induction v using Value_induction; intros Hs Hwb buffer offset Hlen;
    try discriminate Hs.
  - A_unfold. lengths_in Hlen. write_steps. write_done.
  - A_unfold. lengths_in Hlen. write_steps. write_done.
  - A_unfold. lengths_in Hlen. write_steps. write_done.
  - A_unfold. lengths_in Hlen. destruct b; write_steps; write_done.
  - A_unfold. lengths_in Hlen. write_steps. write_done.
  - apply A_write_string_ok. exact Hlen.
  - A_unfold. lengths_in Hlen. write_steps. write_done.
  - apply wellFormed_typedArray in Hs. rename Hs into Hta.
    pose proof (length_bufferStart a Hta) as Hb.
    destruct (wholeBuffers_typedArray a Hta Hwb) as [Hstart _].
    A_unfold. rewrite Hstart in *. lengths_in Hlen.
    destruct a as [k buf bo bl];
      cbn [TypedArray.elementType TypedArray.byteLength TypedArray.buffer] in *.
    destruct k; write_steps; write_done.
  - apply wellFormed_array in Hs. rename Hs into Hall.
    apply wholeBuffers_array in Hwb.
    assert (IH : Forall (fun v => forall buffer offset,
              (offset + length (wireA v) <= length buffer)%nat ->
              A.writeChunk (chunkTreeA v) buffer offset
              = Ret (splice buffer offset (wireA v),
                     (offset + length (wireA v))%nat)) items).
    { rewrite Forall_forall in *. intros x Hx. apply H; auto. }
    clear H.
    A_unfold. lengths_in Hlen. write_steps.
    rewrite (forEach_map_splice A.writeChunk chunkTreeA _ items IH)
      by lengths.
    write_done.
  - apply wellFormed_object in Hs. rename Hs into Hall.
    apply wholeBuffers_object in Hwb.
    assert (IH : Forall (fun p => forall buffer offset,
              (offset + length (wireA (snd p)) <= length buffer)%nat ->
              A.writeChunk (chunkTreeA (snd p)) buffer offset
              = Ret (splice buffer offset (wireA (snd p)),
                     (offset + length (wireA (snd p)))%nat)) props).
    { rewrite Forall_forall in *. intros x Hx. apply H; auto. }
    clear H.
    A_unfold. lengths_in Hlen. write_steps.
    rewrite (forEach_entries_splice A.writeChunk A.createStringChunk
               chunkTreeA
               (wireString A.TYPES.String)
               (wire A.typeIndexOf A.TYPES.String bufferStart) props)
      by (try apply A_write_string_ok; try exact IH; lengths).
    write_done.
Qed.

Lemma A_serialize_whole (v : Value) :
  wellFormed v = true -> wholeBuffers v = true ->
  shadowsHasOwnProperty v = false ->
  A.serialize v = Ret (wireA v).
Proof.
  intros Hs Hwb Hsh. unfold A.serialize.
  rewrite (A_createChunk_ok v Hsh). cbn [bind]. cbv zeta.
  rewrite (A_byteLength v Hs).
  rewrite (A_write v Hs Hwb) by (rewrite length_newArrayBuffer; lia).
  cbn [bind]. rewrite splice_whole; [reflexivity|].
  rewrite length_newArrayBuffer. reflexivity.
Qed.

Lemma rebuiltA_deepEqual (v : Value) :
  supported v -> wholeBuffers v = true ->
  deepEqual (rebuiltA v) (degrade v).
Proof.
  unfold rebuiltA.
  induction v using Value_induction; intros Hs Hwb;
    cbn [rebuilt degrade]; try constructor.
  - reflexivity.
  - apply supported_typedArray in Hs. destruct Hs as [Hta _].
    destruct (wholeBuffers_typedArray a Hta Hwb) as [Hs1 Hs2].
    rewrite elementBytes_fresh. congruence.
  - apply supported_array in Hs. destruct Hs as [_ Hall].
    apply wholeBuffers_array in Hwb.
    induction H; cbn [map]; constructor;
      inversion Hall; inversion Hwb; subst; auto.
  - apply supported_object in Hs. destruct Hs as (_ & _ & Hall).
    apply wholeBuffers_object in Hwb.
    induction H as [|[k x] rest Hx _ IH]; cbn [map]; constructor;
      inversion Hall; inversion Hwb; subst; cbn [fst snd] in *; intuition.
Qed.

Lemma receivedA_deepEqual (v : Value) :
  supported v -> plain v = true -> wholeBuffers v = true ->
  deepEqual (receivedA v) (degrade v).
Proof.
  intros Hs Hp Hwb. unfold receivedA. rewrite received_rebuilt by assumption.
  apply rebuiltA_deepEqual; assumption.
Qed.

(** * The readers never run out of fuel *)

Lemma getBytes_inv (buffer : ArrayBuffer) (offset n : nat) (r : result (list byte)) :
  getBytes buffer offset n = r ->
  (exists bs, r = Ret bs /\ (offset + n <= length buffer)%nat)
  \/ r = Throw RangeError.
Proof.
  unfold getBytes. destruct (Nat.leb_spec (offset + n) (length buffer));
    intros <-; eauto.
Qed.

Lemma getUint8_inv (buffer : ArrayBuffer) (offset : nat) (r : result Z) :
  getUint8 buffer offset = r ->
  (exists z, r = Ret z /\ (offset < length buffer)%nat) \/ r = Throw RangeError.
Proof.
  unfold getUint8. intros <-.
  destruct (getBytes_inv buffer offset 1 _ eq_refl) as [(bs & -> & Hle)| ->];
    cbn [bind]; [left|right; reflexivity].
  eexists. split; [reflexivity|lia].
Qed.

Lemma getUint32_inv (buffer : ArrayBuffer) (offset : nat) (r : result Z) :
  getUint32 buffer offset = r ->
  (exists z, r = Ret z) \/ r = Throw RangeError.
Proof.
  unfold getUint32. intros <-.
  destruct (getBytes_inv buffer offset 4 _ eq_refl) as [(bs & -> & Hle)| ->];
    cbn [bind]; eauto.
Qed.

Lemma getFloat64_inv (buffer : ArrayBuffer) (offset : nat) (r : result Z) :
  getFloat64 buffer offset = r ->
  (exists z, r = Ret z) \/ r = Throw RangeError.
Proof.
  unfold getFloat64. intros <-.
  destruct (getBytes_inv buffer offset 8 _ eq_refl) as [(bs & -> & Hle)| ->];
    cbn [bind]; eauto.
Qed.

Lemma newTypedArray_inv (Ctor : ElementType) (sub : ArrayBuffer)
  (r : result TypedArray.t) :
  newTypedArray Ctor sub = r ->
  (exists a, r = Ret a) \/ r = Throw RangeError.
Proof.
  unfold newTypedArray. intros <-.
  destruct (_ =? _)%nat; eauto.
Qed.

Lemma assign_inv (obj : list (DOMString.t * Value)) (key val : Value)
  (r : result (list (DOMString.t * Value))) :
  assign obj key val = r ->
  (exists obj', r = Ret obj') \/ r = Throw Unmodelled \/ r = Throw TypeError.
Proof.
  unfold assign. intros <-.
  assert (Hk : (exists k, toPropertyKey key = Ret k)
               \/ toPropertyKey key = Throw Unmodelled
               \/ toPropertyKey key = Throw TypeError).
  { destruct key; cbn [toPropertyKey]; eauto.
    - unfold numberToString.
      repeat match goal with
      | |- context [if ?c then _ else _] => destruct c
      | |- context [match ?o with Some _ => _ | None => _ end] => destruct o
      end; eauto.
    - destruct (getProperty props TO_STRING) as [[]|]; eauto. }
  destruct Hk as [[k ->]|[-> | ->]]; cbn [bind]; auto.
  destruct (DOMString.eqb k PROTO); eauto.
  destruct (keepsPrototype val); eauto.
Qed.

Section Loops.
Context {State : Type}.
Variable body : State -> nat -> result (State * nat).
Hypothesis body_progress :
  forall s o s' o', body s o = Ret (s', o') -> (o < o')%nat.

Lemma forLoop_progress (count : nat) :
  forall s o s' o',
    forLoop count body s o = Ret (s', o') -> (o <= o')%nat.
Proof.
  induction count as [|count IH]; intros s o s' o' H; cbn [forLoop] in H.
  - inversion H. lia.
  - destruct (body s o) as [[s1 o1]|] eqn:E; cbn [bind] in H; [|discriminate].
    apply body_progress in E. apply IH in H. lia.
Qed.

Variable start : nat.
Hypothesis body_fuel :
  forall s o, (start <= o)%nat -> body s o <> Throw OutOfFuel.

Lemma forLoop_fuel (count : nat) :
  forall s o, (start <= o)%nat -> forLoop count body s o <> Throw OutOfFuel.
Proof.
  induction count as [|count IH]; intros s o Ho; cbn [forLoop].
  - discriminate.
  - destruct (body s o) as [[s1 o1]|e] eqn:E; cbn [bind].
    + apply IH. apply body_progress in E. lia.
    + intros H. apply (body_fuel s o Ho). congruence.
Qed.
End Loops.

(** Take a hypothesis [... = Ret _] about a reader apart. *)
Ltac read_inv H :=
  repeat match type of H with
  | bind ?m _ = Ret _ =>
      let E := fresh "E" in
      destruct m as [?a|] eqn:E; cbn [bind] in H; [|discriminate H]
  | (if ?c then _ else _) = Ret _ => destruct c
  | (match ?x with Some _ => _ | None => _ end) = Ret _ => destruct x
  | (let '(_, _) := ?p in _) = Ret _ => destruct p
  | Ret _ = Ret _ => inversion H; subst; clear H
  | Throw _ = Ret _ => discriminate H
  end.

Lemma B_readChunk_progress (fuel : nat) :
  forall buffer offset v offset',
    B.readChunk fuel buffer offset = Ret (v, offset') -> (offset < offset')%nat.
Proof.
  induction fuel as [|fuel IH]; intros buffer offset v offset' H;
    cbn [B.readChunk] in H; [discriminate|].
  destruct (getUint8 buffer offset) as [type|]; cbn [bind] in H; [|discriminate].
  repeat match type of H with
  | (if ?c then _ else _) = Ret _ => destruct c
  end; read_inv H; try lia.
  - match goal with
    | L : forLoop _ _ _ _ = Ret _ |- _ => apply forLoop_progress in L; [lia|]
    end.
    intros s o s' o' Hb. read_inv Hb.
    match goal with R : B.readChunk _ _ _ = Ret _ |- _ => apply IH in R; exact R end.
  - match goal with
    | L : forLoop _ _ _ _ = Ret _ |- _ => apply forLoop_progress in L; [lia|]
    end.
    intros s o s' o' Hb. read_inv Hb.
    repeat match goal with
    | R : B.readChunk _ _ _ = Ret _ |- _ => apply IH in R
    end. lia.
Qed.

(** Take a goal [... <> Throw OutOfFuel] about a reader apart. *)
Ltac fuel_step :=
  match goal with
  | |- Ret _ <> Throw _ => discriminate
  | |- Throw RangeError <> Throw OutOfFuel => discriminate
  | |- Throw TypeError <> Throw OutOfFuel => discriminate
  | |- Throw Unmodelled <> Throw OutOfFuel => discriminate
  | |- Throw TypeError <> Throw OutOfFuel => discriminate
  | |- Throw (UnknownTypeCode _) <> Throw OutOfFuel => discriminate
  | |- (if ?c then _ else _) <> Throw _ => destruct c
  | |- (match ?x with Some _ => _ | None => _ end) <> Throw _ => destruct x
  | |- (let '(_, _) := ?p in _) <> Throw _ => destruct p
  | |- bind (getUint8 ?b ?o) _ <> Throw _ =>
      let z := fresh "z" in
      destruct (getUint8_inv b o _ eq_refl) as [(z & -> & _)| ->]; cbn [bind]
  | |- bind (getUint32 ?b ?o) _ <> Throw _ =>
      let z := fresh "z" in
      destruct (getUint32_inv b o _ eq_refl) as [(z & ->)| ->]; cbn [bind]
  | |- bind (getFloat64 ?b ?o) _ <> Throw _ =>
      let z := fresh "z" in
      destruct (getFloat64_inv b o _ eq_refl) as [(z & ->)| ->]; cbn [bind]
  | |- bind (newTypedArray ?c ?s) _ <> Throw _ =>
      let z := fresh "z" in
      destruct (newTypedArray_inv c s _ eq_refl) as [(z & ->)| ->]; cbn [bind]
  | |- bind (assign ?obj ?k ?v) _ <> Throw _ =>
      let z := fresh "z" in
      destruct (assign_inv obj k v _ eq_refl) as [(z & ->)|[-> | ->]];
      cbn [bind]
  end.

Lemma bind_fuel {A B : Type} (m : result A) (k : A -> result B) :
  m <> Throw OutOfFuel ->
  (forall a, m = Ret a -> k a <> Throw OutOfFuel) ->
  bind m k <> Throw OutOfFuel.
Proof.
  destruct m as [a|e]; cbn [bind]; intros Hm Hk; [apply Hk; reflexivity|].
  intros H. apply Hm. congruence.
Qed.

Lemma B_readChunk_fuel (fuel : nat) :
  forall buffer offset,
    (1 <= fuel)%nat -> (length buffer < offset + fuel)%nat ->
    B.readChunk fuel buffer offset <> Throw OutOfFuel.
Proof.
  induction fuel as [|fuel IH]; intros buffer offset H1 Hlen; [lia|].
  cbn [B.readChunk].
  destruct (getUint8_inv buffer offset _ eq_refl) as [(type & -> & Ho)| ->];
    cbn [bind]; [|discriminate].
  assert (Hnested : forall o, (offset < o)%nat ->
                      B.readChunk fuel buffer o <> Throw OutOfFuel).
  { intros o Hlt. apply IH; lia. }
  repeat fuel_step.
  - apply bind_fuel; [|intros [arr o] _; discriminate].
    apply forLoop_fuel with (start := (offset + 1 + 4)%nat); [| |lia].
    + intros s o s' o' Hb. read_inv Hb.
      match goal with
      | R : B.readChunk _ _ _ = Ret _ |- _ =>
          apply B_readChunk_progress in R; exact R
      end.
    + intros s o Hs. apply bind_fuel; [apply Hnested; lia|].
      intros [x o1] _. discriminate.
  - apply bind_fuel; [|intros [arr o] _; discriminate].
    apply forLoop_fuel with (start := (offset + 1 + 4)%nat); [| |lia].
    + intros s o s' o' Hb. read_inv Hb.
      repeat match goal with
      | R : B.readChunk _ _ _ = Ret _ |- _ => apply B_readChunk_progress in R
      end. lia.
    + intros s o Hs. apply bind_fuel; [apply Hnested; lia|].
      intros [x o1] Hx. apply B_readChunk_progress in Hx.
      apply bind_fuel; [apply Hnested; lia|].
      intros [y o2] _. repeat fuel_step.
Qed.

(** [B.deserialize] never reports [OutOfFuel]: the fuel it passes is
    enough for every buffer. *)
Lemma B_deserialize_fuel (buffer : ArrayBuffer) :
  B.deserialize buffer <> Throw OutOfFuel.
Proof.
  unfold B.deserialize. destruct (_ =? _)%nat; [discriminate|].
  apply bind_fuel; [|intros [v o] _; discriminate].
  apply B_readChunk_fuel; lia.
Qed.

Lemma A_readChunk_progress (fuel : nat) :
  forall buffer offset r,
    A.readChunk fuel buffer offset = Ret r ->
    (offset < A.ReadChunk.offset r)%nat.
Proof.
  induction fuel as [|fuel IH]; intros buffer offset r H;
    cbn [A.readChunk] in H; [discriminate|].
  destruct (getUint8 buffer offset) as [typeIndex|]; cbn [bind] in H;
    [|discriminate].
  match type of H with
  | bind ?m _ = Ret _ =>
      assert (Hfirst : forall len o v, m = Ret (len, o, v) -> (offset < o)%nat);
      [|destruct m as [[[len o] v]|] eqn:E; cbn [bind] in H; [|discriminate H];
        specialize (Hfirst _ _ _ eq_refl)]
  end.
  { intros len o v Hm.
    repeat match type of Hm with
    | (if ?c then _ else _) = Ret _ => destruct c
    end; read_inv Hm; lia. }
  clear E.
  repeat match type of H with
  | bind (if ?c then _ else _) _ = Ret _ => destruct c
  end; read_inv H;
    repeat match goal with
    | R : _ = Ret _ |- _ => progress read_inv R
    end; cbn [A.ReadChunk.offset]; try lia.
  - match goal with
    | L : forLoop _ _ _ _ = Ret _ |- _ => apply forLoop_progress in L; [lia|]
    end.
    intros s o1 s' o' Hb. read_inv Hb.
    match goal with R : A.readChunk _ _ _ = Ret _ |- _ => apply IH in R; exact R end.
  - match goal with
    | L : forLoop _ _ _ _ = Ret _ |- _ => apply forLoop_progress in L; [lia|]
    end.
    intros s o1 s' o' Hb. read_inv Hb.
    repeat match goal with
    | R : A.readChunk _ _ _ = Ret _ |- _ => apply IH in R
    end. lia.
Qed.

Lemma A_readChunk_fuel (fuel : nat) :
  forall buffer offset,
    (1 <= fuel)%nat -> (length buffer < offset + fuel)%nat ->
    A.readChunk fuel buffer offset <> Throw OutOfFuel.
Proof.
  induction fuel as [|fuel IH]; intros buffer offset H1 Hlen; [lia|].
  cbn [A.readChunk].
  destruct (getUint8_inv buffer offset _ eq_refl) as [(type & -> & Ho)| ->];
    cbn [bind]; [|discriminate].
  assert (Hnested : forall o, (offset < o)%nat ->
                      A.readChunk fuel buffer o <> Throw OutOfFuel).
  { intros o Hlt. apply IH; lia. }
  match goal with
  | |- bind ?m _ <> _ =>
      assert (Hfirst : forall len o v, m = Ret (len, o, v) -> (offset < o)%nat);
      [|apply bind_fuel; [clear Hfirst|]]
  end.
  { intros len o v Hm.
    repeat match type of Hm with
    | (if ?c then _ else _) = Ret _ => destruct c
    end; read_inv Hm; lia. }
  { repeat fuel_step. }
  intros [[len o] v] Hm. apply Hfirst in Hm. clear Hfirst.
  apply bind_fuel; [|intros [x o1] _; discriminate].
  repeat fuel_step.
  - apply bind_fuel; [|intros [arr o1] _; discriminate].
    apply forLoop_fuel with (start := o); [| |lia].
    + intros s o1 s' o' Hb. read_inv Hb.
      match goal with
      | R : A.readChunk _ _ _ = Ret _ |- _ =>
          apply A_readChunk_progress in R; exact R
      end.
    + intros s o1 Hs. apply bind_fuel; [apply Hnested; lia|].
      intros x _. discriminate.
  - apply bind_fuel; [|intros [arr o1] _; discriminate].
    apply forLoop_fuel with (start := o); [| |lia].
    + intros s o1 s' o' Hb. read_inv Hb.
      repeat match goal with
      | R : A.readChunk _ _ _ = Ret _ |- _ => apply A_readChunk_progress in R
      end. lia.
    + intros s o1 Hs. apply bind_fuel; [apply Hnested; lia|].
      intros x Hx. apply A_readChunk_progress in Hx.
      apply bind_fuel; [apply Hnested; lia|].
      intros y _. repeat fuel_step.
Qed.

(** [A.deserialize] never reports [OutOfFuel]. *)
Lemma A_deserialize_fuel (buffer : ArrayBuffer) :
  A.deserialize buffer <> Throw OutOfFuel.
Proof.
  unfold A.deserialize.
  apply bind_fuel; [|intros r _; discriminate].
  apply A_readChunk_fuel; lia.
Qed.

(** * Round trips *)










(** * Exact sizing *)





(** * [serialize] and the values outside the domain *)







(** * Decoding an empty buffer *)

(** C3, as the code has it: on an empty buffer [deserialize] fails and
    returns no value; implementation B throws its "Empty buffer" error,
    implementation A has no such check and fails with the RangeError of
    the tag read, which is out of bounds. *)
Theorem C3_empty_buffer (b : ArrayBuffer) :
  length b = 0%nat ->
  B.deserialize b = Throw EmptyBuffer /\ A.deserialize b = Throw RangeError.
Proof.
  destruct b as [|x rest]; [|discriminate]. intros _.
  split; reflexivity.
Qed.

Lemma C3_empty_buffer_witness :
  length (newArrayBuffer 0) = 0%nat
  /\ B.deserialize (newArrayBuffer 0) = Throw EmptyBuffer
  /\ A.deserialize (newArrayBuffer 0) = Throw RangeError.
Proof.
  split; [reflexivity|]. apply C3_empty_buffer. reflexivity.
Defined.

(** Implementation A does not fail with the empty-input
    error on the empty buffer. *)
Lemma C3_counterexample :
  length (newArrayBuffer 0) = 0%nat
  /\ A.deserialize (newArrayBuffer 0) <> Throw EmptyBuffer.
Proof.
  split; [reflexivity|]. vm_compute. discriminate.
Qed.

(** * Decoding a Boolean *)

Lemma byteVal_zero (b : byte) : byteVal b = 0 -> b = x00.
Proof.
  intros H. rewrite <- (byteOf_byteVal b), H. reflexivity.
Qed.

(** C9: a Boolean chunk decodes to [true] for every payload byte other
    than 0x00, and to [false] for 0x00, in both implementations, whatever
    follows the two bytes. *)
Theorem C9_boolean_nonzero (b : byte) (rest : list byte) :
  b <> x00 ->
  B.deserialize (byteOf B.TYPES.Boolean :: b :: rest) = Ret (VBoolean true)
  /\ A.deserialize (byteOf A.TYPES.Boolean :: b :: rest) = Ret (VBoolean true)
  /\ B.deserialize (byteOf B.TYPES.Boolean :: x00 :: rest)
     = Ret (VBoolean false)
  /\ A.deserialize (byteOf A.TYPES.Boolean :: x00 :: rest)
     = Ret (VBoolean false).
Proof.
  intros Hb.
  assert (Hz : (byteVal b =? 0) = false).
  { apply Z.eqb_neq. intros H. apply Hb, byteVal_zero, H. }
  assert (G0 : forall x tag,
             getUint8 (byteOf tag :: x :: rest) 0 = Ret (byteVal (byteOf tag))).
  { intros x tag. apply (getUint8_at _ 0 _ (x :: rest)). reflexivity. }
  assert (G1 : forall x tag,
             getUint8 (byteOf tag :: x :: rest) (0 + 1) = Ret (byteVal x)).
  { intros x tag. apply (getUint8_at _ 1 _ rest). reflexivity. }
  unfold B.deserialize, A.deserialize.
  cbn [length Nat.eqb B.readChunk A.readChunk].
  rewrite !G0. cbn [bind]. decide_tests. cbn [bind]. decide_tests.
  rewrite !G1. cbn [bind]. rewrite Hz.
  repeat split; reflexivity.
Qed.

Lemma C9_boolean_nonzero_witness :
  x01 <> x00
  /\ B.deserialize [x02; x01] = Ret (VBoolean true)
  /\ A.deserialize [x02; x01] = Ret (VBoolean true).
Proof.
  split; [discriminate|].
  destruct (C9_boolean_nonzero x01 [] ltac:(discriminate)) as (HB & HA & _).
  split; [exact HB | exact HA].
Defined.

(** * Decoding an unregistered tag *)

Lemma getUint8_head (tag : byte) (rest : list byte) :
  getUint8 (tag :: rest) 0 = Ret (byteVal tag).
Proof. apply (getUint8_at _ 0 _ rest). reflexivity. Qed.

Lemma getUint32_short (buffer : ArrayBuffer) (offset : nat) :
  (length buffer < offset + 4)%nat ->
  getUint32 buffer offset = Throw RangeError.
Proof.
  intros H. unfold getUint32, getBytes.
  destruct (Nat.leb_spec (offset + 4) (length buffer)); [lia|reflexivity].
Qed.

Lemma getUint32_long (buffer : ArrayBuffer) (offset : nat) :
  (offset + 4 <= length buffer)%nat ->
  exists len, getUint32 buffer offset = Ret len.
Proof.
  intros H. unfold getUint32, getBytes.
  destruct (Nat.leb_spec (offset + 4) (length buffer)); [|lia].
  cbn [bind]. eauto.
Qed.

(** Decide the tests on a tag from what is known of it. *)
Ltac tag_tests H :=
  repeat match goal with
  | |- context [?t =? ?c] =>
      let E := fresh "E" in
      destruct (Z.eqb_spec t c) as [E|E];
      [exfalso; rewrite E in H; vm_compute in H; discriminate H|clear E]
  end.

Lemma B_unregistered (tag : byte) (rest : list byte) :
  registeredB (byteVal tag) = false ->
  (4 <= length rest)%nat ->
  B.deserialize (tag :: rest) = Throw (UnknownTypeCode (byteVal tag)).
Proof.
  intros Hr Hlen. unfold B.deserialize. cbn [length Nat.eqb B.readChunk].
  rewrite getUint8_head. cbn [bind].
  destruct (getUint32_long (tag :: rest) (0 + 1)) as [len Hl];
    [cbn [length]; lia|].
  unfold B.TYPED_ARRAY_TYPES.
  tag_tests Hr. rewrite Hl. cbn [bind isSome orb]. reflexivity.
Qed.

Lemma B_unregistered_short (tag : byte) (rest : list byte) :
  registeredB (byteVal tag) = false ->
  (length rest < 4)%nat ->
  B.deserialize (tag :: rest) = Throw RangeError.
Proof.
  intros Hr Hlen. unfold B.deserialize. cbn [length Nat.eqb B.readChunk].
  rewrite getUint8_head. cbn [bind].
  rewrite getUint32_short by (cbn [length]; lia).
  tag_tests Hr. reflexivity.
Qed.

Lemma A_unregistered_low (tag : byte) (rest : list byte) :
  registeredA (byteVal tag) = false ->
  byteVal tag < A.TYPES.Int8Array ->
  A.deserialize (tag :: rest) = Ret VNull.
Proof.
  intros Hr Hlow. unfold A.deserialize. cbn [length A.readChunk].
  rewrite getUint8_head. cbn [bind].
  destruct (Z.leb_spec A.TYPES.Int8Array (byteVal tag)); [lia|].
  cbn [bind]. tag_tests Hr. reflexivity.
Qed.

Lemma A_unregistered_high (tag : byte) (rest : list byte) :
  registeredA (byteVal tag) = false ->
  A.TYPES.Int8Array <= byteVal tag ->
  (4 <= length rest)%nat ->
  A.deserialize (tag :: rest) = Ret VNull.
Proof.
  intros Hr Hhigh Hlen. unfold A.deserialize. cbn [length A.readChunk].
  rewrite getUint8_head. cbn [bind].
  destruct (Z.leb_spec A.TYPES.Int8Array (byteVal tag)); [|lia].
  destruct (getUint32_long (tag :: rest) (0 + 1)) as [len Hl];
    [cbn [length]; lia|].
  rewrite Hl. cbn [bind]. unfold A.typedArrayOf.
  tag_tests Hr.
  destruct (byteVal tag <=? A.TYPES.String); reflexivity.
Qed.

Lemma A_unregistered_short (tag : byte) (rest : list byte) :
  A.TYPES.Int8Array <= byteVal tag ->
  (length rest < 4)%nat ->
  A.deserialize (tag :: rest) = Throw RangeError.
Proof.
  intros Hhigh Hlen. unfold A.deserialize. cbn [length A.readChunk].
  rewrite getUint8_head. cbn [bind].
  destruct (Z.leb_spec A.TYPES.Int8Array (byteVal tag)); [|lia].
  rewrite getUint32_short by (cbn [length]; lia). reflexivity.
Qed.

(** C4, as the code has it: on a buffer whose first byte is not a
    registered tag, implementation B fails and decodes nothing: with
    "Unknown type code" when at least four bytes follow the tag, with the
    RangeError of the length read, which comes before the check, when
    fewer do.  Implementation A has no such check: the chunk decodes to
    [null], after a four-byte length read for a tag of 11 or more, which
    raises a RangeError when fewer than four bytes follow. *)
Theorem C4_unregistered_tag (tag : byte) (rest : list byte) :
  (registeredB (byteVal tag) = false ->
     ((4 <= length rest)%nat ->
        B.deserialize (tag :: rest) = Throw (UnknownTypeCode (byteVal tag)))
     /\ ((length rest < 4)%nat ->
           B.deserialize (tag :: rest) = Throw RangeError))
  /\ (registeredA (byteVal tag) = false ->
        (byteVal tag < A.TYPES.Int8Array ->
           A.deserialize (tag :: rest) = Ret VNull)
        /\ (A.TYPES.Int8Array <= byteVal tag -> (4 <= length rest)%nat ->
              A.deserialize (tag :: rest) = Ret VNull)
        /\ (A.TYPES.Int8Array <= byteVal tag -> (length rest < 4)%nat ->
              A.deserialize (tag :: rest) = Throw RangeError)).
Proof.
  split; intros Hr.
  - split; intros Hlen.
    + apply B_unregistered; assumption.
    + apply B_unregistered_short; assumption.
  - split; [|split].
    + apply A_unregistered_low; assumption.
    + apply A_unregistered_high; assumption.
    + apply A_unregistered_short.
Qed.

Lemma C4_unregistered_tag_witness :
  registeredB (byteVal "c"%byte) = false
  /\ registeredA (byteVal "c"%byte) = false
  /\ B.deserialize ["c"%byte; x00; x00; x00; x00] = Throw (UnknownTypeCode 99)
  /\ B.deserialize ["c"%byte] = Throw RangeError
  /\ A.deserialize ["c"%byte; x00; x00; x00; x00] = Ret VNull
  /\ A.deserialize [x00] = Ret VNull.
Proof.
  split; [reflexivity|]. split; [reflexivity|].
  split.
  { apply (proj1 (proj1 (C4_unregistered_tag "c"%byte [x00; x00; x00; x00])
                    eq_refl)).
    cbn [length]. lia. }
  split.
  { apply (proj2 (proj1 (C4_unregistered_tag "c"%byte []) eq_refl)).
    cbn [length]. lia. }
  split.
  { apply (proj1 (proj2 (proj2 (C4_unregistered_tag "c"%byte
                                  [x00; x00; x00; x00]) eq_refl))).
    - vm_compute. discriminate.
    - cbn [length]. lia. }
  apply (proj1 (proj2 (C4_unregistered_tag x00 []) eq_refl)).
  vm_compute. reflexivity.
Defined.

(** The tag 0 is not registered, and implementation A
    decodes the one-byte buffer that holds it to [null]; the tag 99 is not
    registered either, and implementation B fails on the
    one-byte buffer that holds it with a RangeError, not with "Unknown
    type code". *)
Lemma C4_counterexample :
  registeredA (byteVal x00) = false
  /\ A.deserialize [x00] = Ret VNull
  /\ registeredB (byteVal "c"%byte) = false
  /\ B.deserialize ["c"%byte] = Throw RangeError.
Proof. repeat split. Qed.

(** * Byte order *)

Lemma beBytes_4 (z : Z) : beBytes 4 z = bigEndian32 z.
Proof.
  cbv [beBytes bigEndian32]. change (256 ^ Z.of_nat 0) with 1.
  rewrite (Z.div_1_r z). reflexivity.
Qed.

Lemma beBytes_8 (z : Z) : beBytes 8 z = bigEndian64 z.
Proof.
  cbv [beBytes bigEndian64]. change (256 ^ Z.of_nat 0) with 1.
  rewrite (Z.div_1_r z). reflexivity.
Qed.

Lemma wire_prefix tagOf stringTag payload (v : Value) (n : Z) :
  (exists a, v = VTypedArray a /\ n = Z.of_nat (TypedArray.byteLength a))
  \/ (exists items, v = VArray items /\ n = Z.of_nat (length items))
  \/ (exists props, v = VObject props /\ n = Z.of_nat (length props)) ->
  exists body,
    wire tagOf stringTag payload v = byteOf (tagOf v) :: bigEndian32 n ++ body.
Proof.
  intros [(a & -> & ->)|[(items & -> & ->)|(props & -> & ->)]];
    cbn [wire]; rewrite beBytes_4; eauto.
Qed.

(** C6: [true] is written as the Boolean tag followed by 0xFF and [false]
    as the tag followed by 0x00; the double of a Number or a Date and the
    32-bit length or count of a String, a typed array, an Array and an
    Object are written most significant byte first. *)
Theorem C6_boolean_and_big_endian :
  B.serialize (VBoolean true) = Ret [x02; xff]
  /\ B.serialize (VBoolean false) = Ret [x02; x00]
  /\ A.serialize (VBoolean true) = Ret [x02; xff]
  /\ A.serialize (VBoolean false) = Ret [x02; x00]
  /\ (forall n,
        B.serialize (VNumber n) = Ret (x03 :: bigEndian64 n)
        /\ A.serialize (VNumber n) = Ret (x03 :: bigEndian64 n))
  /\ (forall time,
        B.serialize (VDate time) = Ret (x04 :: bigEndian64 time)
        /\ A.serialize (VDate time) = Ret (x04 :: bigEndian64 time))
  /\ (forall s,
        B.serialize (VString s)
        = Ret (x05 :: bigEndian32 (Z.of_nat (length (encode s))) ++ encode s)
        /\ A.serialize (VString s)
           = Ret (x15 :: bigEndian32 (Z.of_nat (length (encode s)))
                    ++ encode s))
  /\ (forall v n buffer,
        wellFormed v = true ->
        (exists a, v = VTypedArray a /\ n = Z.of_nat (TypedArray.byteLength a))
        \/ (exists items, v = VArray items /\ n = Z.of_nat (length items))
        \/ (exists props, v = VObject props /\ n = Z.of_nat (length props)) ->
        (B.serialize v = Ret buffer ->
           exists body,
             buffer = byteOf (B.getTypeCode v) :: bigEndian32 n ++ body)
        /\ (A.serialize v = Ret buffer ->
              exists body,
                buffer = byteOf (A.typeIndexOf v) :: bigEndian32 n ++ body)).
Proof.
  do 4 (split; [vm_compute; reflexivity|]).
  split; [|split; [|split]].
  - intros n. rewrite <- beBytes_8. split.
    + apply (B_serialize_wire (VNumber n)). reflexivity.
    + apply (A_serialize_whole (VNumber n)); reflexivity.
  - intros time. rewrite <- beBytes_8. split.
    + apply (B_serialize_wire (VDate time)). reflexivity.
    + apply (A_serialize_whole (VDate time)); reflexivity.
  - intros s. rewrite <- beBytes_4. split.
    + apply (B_serialize_wire (VString s)). reflexivity.
    + apply (A_serialize_whole (VString s)); reflexivity.
  - intros v n buffer Hw Hn. split; intros Hs.
    + rewrite (B_serialize_wire v Hw) in Hs. inversion Hs; subst.
      apply wire_prefix, Hn.
    + rewrite (A_serialize_wire v buffer Hw Hs).
      apply wire_prefix, Hn.
Qed.

Lemma C6_boolean_and_big_endian_witness :
  wellFormed (VArray [VNull; VNull; VNull]) = true
  /\ B.serialize (VArray [VNull; VNull; VNull])
     = Ret [x06; x00; x00; x00; x03; x01; x01; x01]
  /\ exists body,
       [x06; x00; x00; x00; x03; x01; x01; x01]
       = x06 :: [x00; x00; x00; x03] ++ body.
Proof.
  split; [reflexivity|]. split; [vm_compute; reflexivity|].
  destruct C6_boolean_and_big_endian as (_ & _ & _ & _ & _ & _ & _ & H).
  destruct (H (VArray [VNull; VNull; VNull]) 3
              [x06; x00; x00; x00; x03; x01; x01; x01] eq_refl) as [HB _].
  - right. left. eexists. split; reflexivity.
  - apply HB. vm_compute. reflexivity.
Defined.

(** * Objects *)








(** * Trailing bytes *)

(** C10: [deserialize] reads one chunk from offset 0 and drops the offset
    it ends at, so bytes that follow the serialization of a value change
    nothing: with any suffix the value read is the same, and there is no
    error.  For implementation A this is about every buffer that
    [A.serialize] returns. *)
Theorem C10_trailing_bytes (v : Value) (trailing : list byte) :
  supported v ->
  (exists buffer w,
     B.serialize v = Ret buffer
     /\ B.deserialize buffer = Ret w
     /\ B.deserialize (buffer ++ trailing) = Ret w)
  /\ (forall buffer,
        A.serialize v = Ret buffer ->
        exists w,
          A.deserialize buffer = Ret w
          /\ A.deserialize (buffer ++ trailing) = Ret w)
  /\ (buffer <- A.serialize v ;; A.deserialize (buffer ++ trailing))
     = (buffer <- A.serialize v ;; A.deserialize buffer).
Proof.
  intros Hs. pose proof (supported_wellFormed _ Hs) as Hw.
  assert (HA : forall buffer,
             A.serialize v = Ret buffer ->
             A.deserialize buffer = Ret (receivedA v)
             /\ A.deserialize (buffer ++ trailing) = Ret (receivedA v)).
  { intros buffer Hb. apply (A_serialize_wire _ _ Hw) in Hb. subst buffer.
    split; [|apply A_deserialize_wire, Hs].
    rewrite <- (app_nil_r (wireA v)). apply A_deserialize_wire, Hs. }
  split; [|split].
  - exists (wireB v), (receivedB v). split; [|split].
    + apply B_serialize_wire, Hw.
    + rewrite <- (app_nil_r (wireB v)). apply B_deserialize_wire, Hs.
    + apply B_deserialize_wire, Hs.
  - intros buffer Hb. exists (receivedA v). apply HA, Hb.
  - destruct (A.serialize v) as [buffer|e] eqn:E; cbn [bind]; [|reflexivity].
    destruct (HA buffer eq_refl) as [H1 H2]. congruence.
Qed.

Lemma C10_trailing_bytes_witness :
  supported (VArray [VBoolean true; VString (text "hi"%string)])
  /\ (exists buffer w,
        B.serialize (VArray [VBoolean true; VString (text "hi"%string)])
        = Ret buffer
        /\ B.deserialize buffer = Ret w
        /\ B.deserialize (buffer ++ [xff; x00; x63]) = Ret w)
  /\ (exists buffer w,
        A.serialize (VArray [VBoolean true; VString (text "hi"%string)])
        = Ret buffer
        /\ A.deserialize buffer = Ret w
        /\ A.deserialize (buffer ++ [xff; x00; x63]) = Ret w).
Proof.
  split; [reflexivity|].
  pose proof (C10_trailing_bytes
                (VArray [VBoolean true; VString (text "hi"%string)])
                [xff; x00; x63] eq_refl) as (HB & HA & _).
  split; [exact HB|].
  eexists.
  assert (E : A.serialize
                (VArray [VBoolean true; VString (text "hi"%string)])
              = Ret (wireA
                       (VArray [VBoolean true; VString (text "hi"%string)])))
    by (vm_compute; reflexivity).
  destruct (HA _ E) as (w & H1 & H2).
  exists w. split; [exact E|]. split; assumption.
Defined.

(** * The two tag tables *)

Lemma byteOf_inj (x y : Z) :
  0 <= x < 256 -> 0 <= y < 256 -> byteOf x = byteOf y -> x = y.
Proof.
  intros Hx Hy H. apply (f_equal byteVal) in H.
  rewrite !byteVal_byteOf, !Z.mod_small in H by assumption. exact H.
Qed.

Lemma tags_differ (v : Value) :
  lengthPrefixed v = true -> A.typeIndexOf v <> B.getTypeCode v.
Proof.
  destruct v; cbn [lengthPrefixed]; try discriminate; intros _;
    cbn [A.typeIndexOf B.getTypeCode]; try (vm_compute; discriminate).
  destruct (TypedArray.elementType a); vm_compute; discriminate.
Qed.

Lemma wire_head tagOf stringTag payload (v : Value) :
  exists body, wire tagOf stringTag payload v = byteOf (tagOf v) :: body.
Proof. destruct v; cbn [wire]; eauto. Qed.

(** C8: the two tag tables are the ones the specification quotes, and
    they disagree on every string, typed array, array and object: the
    buffers that the two [serialize] functions return for such a value
    differ in their first byte.  Neither reader reads the other's string:
    B rejects the tag 21, A decodes the tag 5 to [null]. *)
Theorem C8_tag_tables_incompatible :
  [A.TYPES.Null; A.TYPES.Boolean; A.TYPES.Number; A.TYPES.Date] = [1; 2; 3; 4]
  /\ map (fun k => A.typeIndexOf (VTypedArray (TypedArray.mk k [] 0 0)))
       elementTypes
     = [11; 12; 13; 14; 15; 16; 17; 18]
  /\ [A.TYPES.String; A.TYPES.Array; A.TYPES.Object] = [21; 22; 23]
  /\ [B.TYPES.Null; B.TYPES.Boolean; B.TYPES.Number; B.TYPES.Date;
      B.TYPES.String; B.TYPES.Array; B.TYPES.Object] = [1; 2; 3; 4; 5; 6; 7]
  /\ map (fun k => B.getTypeCode (VTypedArray (TypedArray.mk k [] 0 0)))
       elementTypes
     = [10; 11; 12; 13; 14; 15; 16; 17]
  /\ (forall v a b,
        wellFormed v = true -> lengthPrefixed v = true ->
        A.serialize v = Ret a -> B.serialize v = Ret b -> a <> b)
  /\ (forall s, A.serialize (VString s) <> B.serialize (VString s))
  /\ A.serialize (VString (text "hi"%string))
     = Ret [x15; x00; x00; x00; x02; "h"%byte; "i"%byte]
  /\ B.serialize (VString (text "hi"%string))
     = Ret [x05; x00; x00; x00; x02; "h"%byte; "i"%byte]
  /\ A.serialize (VArray []) = Ret [x16; x00; x00; x00; x00]
  /\ B.serialize (VArray []) = Ret [x06; x00; x00; x00; x00]
  /\ A.serialize (VObject []) = Ret [x17; x00; x00; x00; x00]
  /\ B.serialize (VObject []) = Ret [x07; x00; x00; x00; x00]
  /\ B.deserialize [x15; x00; x00; x00; x02; "h"%byte; "i"%byte]
     = Throw (UnknownTypeCode 21)
  /\ A.deserialize [x05; x00; x00; x00; x02; "h"%byte; "i"%byte]
     = Ret VNull.
Proof.
  do 5 (split; [reflexivity|]).
  assert (H : forall v a b,
             wellFormed v = true -> lengthPrefixed v = true ->
             A.serialize v = Ret a -> B.serialize v = Ret b -> a <> b).
  { intros v a b Hw Hl Ha Hb.
    apply (A_serialize_wire _ _ Hw) in Ha.
    rewrite (B_serialize_wire _ Hw) in Hb. inversion Hb as [Hb'].
    rewrite Ha. clear Ha Hb Hb' a b. intros E.
    destruct (wire_head A.typeIndexOf A.TYPES.String bufferStart v) as [x Hx].
    destruct (wire_head B.getTypeCode B.TYPES.String elementBytes v) as [y Hy].
    unfold wireA, wireB in E. rewrite Hx, Hy in E.
    assert (Ht : byteOf (A.typeIndexOf v) = byteOf (B.getTypeCode v))
      by (inversion E; reflexivity || assumption).
    apply byteOf_inj in Ht; [|apply A_tag_range|apply B_tag_range].
    apply (tags_differ v Hl Ht). }
  split; [exact H|].
  split.
  { intros s E.
    apply (H (VString s) (wireA (VString s)) (wireB (VString s)));
      try reflexivity.
    - apply A_serialize_whole; reflexivity.
    - apply B_serialize_wire; reflexivity.
    - rewrite (A_serialize_whole (VString s)) in E by reflexivity.
      rewrite (B_serialize_wire (VString s)) in E by reflexivity.
      congruence. }
  repeat split; vm_compute; reflexivity.
Qed.

Lemma C8_tag_tables_incompatible_witness :
  wellFormed (VObject [(text "k"%string, VNull)]) = true
  /\ lengthPrefixed (VObject [(text "k"%string, VNull)]) = true
  /\ [x17; x00; x00; x00; x01; x15; x00; x00; x00; x01; "k"%byte; x01]
     <> [x07; x00; x00; x00; x01; x05; x00; x00; x00; x01; "k"%byte; x01].
Proof.
  split; [reflexivity|]. split; [reflexivity|].
  destruct C8_tag_tables_incompatible as (_ & _ & _ & _ & _ & H & _).
  apply (H (VObject [(text "k"%string, VNull)])); try reflexivity.
Defined.

(** * The scenarios of the specification and the test of the repository *)

Example scenario_null :
  B.serialize VNull = Ret [x01] /\ B.deserialize [x01] = Ret VNull
  /\ A.serialize VNull = Ret [x01] /\ A.deserialize [x01] = Ret VNull.
Proof. repeat split. Qed.

Example scenario_true :
  B.serialize (VBoolean true) = Ret [x02; xff]
  /\ B.deserialize [x02; xff] = Ret (VBoolean true)
  /\ A.serialize (VBoolean true) = Ret [x02; xff]
  /\ A.deserialize [x02; xff] = Ret (VBoolean true).
Proof. repeat split. Qed.

Example scenario_string :
  B.serialize (VString (text "hi"%string))
  = Ret [x05; x00; x00; x00; x02; x68; x69]
  /\ B.deserialize [x05; x00; x00; x00; x02; x68; x69]
     = Ret (VString (text "hi"%string))
  /\ A.serialize (VString (text "hi"%string))
     = Ret [x15; x00; x00; x00; x02; x68; x69]
  /\ A.deserialize [x15; x00; x00; x00; x02; x68; x69]
     = Ret (VString (text "hi"%string)).
Proof. repeat split; vm_compute; reflexivity. Qed.

Example scenario_array :
  exists one two three,
    length one = 9%nat /\ length two = 9%nat /\ length three = 9%nat
    /\ B.serialize (VArray [VNumber 0x3FF0000000000000;
                            VNumber 0x4000000000000000;
                            VNumber 0x4008000000000000])
       = Ret ([x06; x00; x00; x00; x03] ++ one ++ two ++ three)
    /\ B.deserialize ([x06; x00; x00; x00; x03] ++ one ++ two ++ three)
       = Ret (VArray [VNumber 0x3FF0000000000000;
                      VNumber 0x4000000000000000;
                      VNumber 0x4008000000000000]).
Proof.
  exists [x03; x3f; xf0; x00; x00; x00; x00; x00; x00],
         [x03; x40; x00; x00; x00; x00; x00; x00; x00],
         [x03; x40; x08; x00; x00; x00; x00; x00; x00].
  repeat split; vm_compute; reflexivity.
Qed.

Example scenario_bytes :
  B.serialize (VTypedArray (TypedArray.mk Uint8Array [x01; x02; x03] 0 3))
  = Ret [x0d; x00; x00; x00; x03; x01; x02; x03]
  /\ B.deserialize [x0d; x00; x00; x00; x03; x01; x02; x03]
     = Ret (VTypedArray (TypedArray.mk Uint8Array [x01; x02; x03] 0 3))
  /\ A.serialize (VTypedArray (TypedArray.mk Uint8Array [x01; x02; x03] 0 3))
     = Ret [x0e; x00; x00; x00; x03; x01; x02; x03]
  /\ A.deserialize [x0e; x00; x00; x00; x03; x01; x02; x03]
     = Ret (VTypedArray (TypedArray.mk Uint8Array [x01; x02; x03] 0 3)).
Proof. repeat split; vm_compute; reflexivity. Qed.

Example scenario_object :
  B.serialize (VObject [(text "foo"%string, VString (text "bar"%string))])
  = Ret ([x07; x00; x00; x00; x01]
           ++ [x05; x00; x00; x00; x03; x66; x6f; x6f]
           ++ [x05; x00; x00; x00; x03; x62; x61; x72])
  /\ B.deserialize ([x07; x00; x00; x00; x01]
                      ++ [x05; x00; x00; x00; x03; x66; x6f; x6f]
                      ++ [x05; x00; x00; x00; x03; x62; x61; x72])
     = Ret (VObject [(text "foo"%string, VString (text "bar"%string))]).
Proof. repeat split; vm_compute; reflexivity. Qed.

(** The test of the repository: [expect(deserialized).toEqual(original)],
    run on either implementation. *)
Example test_roundtrip :
  supported original /\ wholeBuffers original = true
  /\ (buffer <- B.serialize original ;; B.deserialize buffer) = Ret original
  /\ (buffer <- A.serialize original ;; A.deserialize buffer) = Ret original.
Proof. repeat split; vm_compute; reflexivity. Qed.

(** [new Date(number)] keeps the whole milliseconds: 1.5 becomes 1, and a
    value past 8.64e15 becomes the invalid date. *)
Example newDate_clips :
  newDate 0x3FF8000000000000 = 0x3FF0000000000000
  /\ newDate 0x433EB208C2DC0002 = f64_NaN
  /\ isTimeValue 0x4278BCFE56800000.
Proof. repeat split; vm_compute; reflexivity || discriminate. Qed.

(** * Writers: bounds and framing *)

Lemma setBytes_cases (buffer : ArrayBuffer) (src : list byte) (offset : nat) :
  (setBytes buffer src offset = Ret (splice buffer offset src)
   /\ (offset + length src <= length buffer)%nat)
  \/ (setBytes buffer src offset = Throw RangeError
      /\ (length buffer < offset + length src)%nat).
Proof.
  unfold setBytes.
  destruct (Nat.leb_spec (offset + length src) (length buffer)); auto.
Qed.

(** One bounds-checked store of a writer. *)
Ltac store_step :=
  match goal with
  | |- checked (bind (setBytes ?b ?src ?o) _) _ _ _ =>
      let Hle := fresh "Hle" in
      let Hl := fresh "Hl" in
      let b' := fresh "b" in
      destruct (setBytes_cases b src o) as [[-> Hle]|[-> _]]; cbn [bind];
      [ pose proof (length_splice b o src Hle) as Hl;
        rewrite ?length_beBytes in Hle;
        remember (splice b o src) as b' eqn:Eb; clear Eb
      | exact eq_refl ]
  end.

Ltac stores :=
  unfold setUint8, setUint32, setFloat64;
  repeat first [ store_step | progress decide_tests ].

Ltac checked_done :=
  cbn [checked]; repeat split; lengths.

Lemma forEach_map_checked {C V : Type}
  (write : C -> ArrayBuffer -> nat -> result (ArrayBuffer * nat))
  (f : V -> C) (bytes : V -> list byte) (items : list V) :
  Forall (fun item => forall buffer offset,
            checked (write (f item) buffer offset) buffer offset
              (length (bytes item))) items ->
  forall buffer offset,
    (offset <= length buffer)%nat ->
    checked (forEach write (map f items) buffer offset) buffer offset
      (length (flat_map bytes items)).
Proof.
  induction 1 as [|item rest Hitem _ IH]; intros buffer offset Ho.
  - cbn. repeat split; lia.
  - cbn [map flat_map forEach]. specialize (Hitem buffer offset).
    destruct (write (f item) buffer offset) as [[b1 o1]|e];
      cbn [bind checked] in *; [|exact Hitem].
    destruct Hitem as (Hl & -> & Hb).
    fold (forEach write).
    specialize (IH b1 (offset + length (bytes item))%nat).
    rewrite Hl in IH. specialize (IH Hb).
    destruct (forEach write (map f rest) b1 _) as [[b2 o2]|e];
      cbn [checked] in *; [|exact IH].
    rewrite length_app. destruct IH as (Hl2 & -> & Hb2).
    repeat split; lia.
Qed.

Lemma forEach_entries_checked {C V K : Type}
  (write : C -> ArrayBuffer -> nat -> result (ArrayBuffer * nat))
  (g : K -> C) (f : V -> C) (keyBytes : K -> list byte)
  (bytes : V -> list byte) (props : list (K * V)) :
  (forall key buffer offset,
      checked (write (g key) buffer offset) buffer offset
        (length (keyBytes key))) ->
  Forall (fun p => forall buffer offset,
            checked (write (f (snd p)) buffer offset) buffer offset
              (length (bytes (snd p)))) props ->
  forall buffer offset,
    (offset <= length buffer)%nat ->
    checked
      (forEach write (flat_map (fun '(key, val) => [g key; f val]) props)
         buffer offset)
      buffer offset
      (length (flat_map (fun '(key, val) => keyBytes key ++ bytes val) props)).
Proof.
  intros Hkey. induction 1 as [|[key val] rest Hval _ IH];
    intros buffer offset Ho.
  - cbn. repeat split; lia.
  - cbn [map flat_map forEach app snd] in *.
    specialize (Hkey key buffer offset).
    destruct (write (g key) buffer offset) as [[b1 o1]|e];
      cbn [bind checked] in *; [|exact Hkey].
    destruct Hkey as (Hl & -> & Hb).
    specialize (Hval b1 (offset + length (keyBytes key))%nat).
    destruct (write (f val) b1 _) as [[b2 o2]|e];
      cbn [bind checked] in *; [|exact Hval].
    destruct Hval as (Hl2 & -> & Hb2).
    fold (forEach write).
    specialize
      (IH b2 (offset + length (keyBytes key) + length (bytes val))%nat).
    rewrite Hl2, Hl in IH. rewrite Hl in Hb2. specialize (IH Hb2).
    destruct (forEach write _ b2 _) as [[b3 o3]|e]; cbn [checked] in *;
      [|exact IH].
    rewrite !length_app. destruct IH as (Hl3 & -> & Hb3).
    repeat split; lia.
Qed.

Lemma B_write_string_checked (s : DOMString.t) (buffer : ArrayBuffer)
  (offset : nat) :
  checked (B.writeChunk (B.createStringChunk s) buffer offset) buffer offset
    (length (wireString B.TYPES.String s)).
Proof.
  unfold wireString. lengths.
  unfold B.writeChunk, B.createStringChunk.
  cbn [B.Chunk.type B.Chunk.length B.Chunk.data B.Chunk.value].
  stores. checked_done.
Qed.

(** [B.writeChunk] checks its bounds. *)
Lemma B_write_checked (v : Value) :
  wellFormed v = true ->
  forall buffer offset,
    checked (B.writeChunk (B.createChunk v) buffer offset) buffer offset
      (length (wireB v)).
Proof.
  induction v using Value_induction; intros Hs buffer offset;
    try discriminate Hs.
  - B_unfold. stores. checked_done.
  - B_unfold. stores. checked_done.
  - B_unfold. stores. checked_done.
  - B_unfold. stores. checked_done.
  - B_unfold. stores. checked_done.
  - apply B_write_string_checked.
  - B_unfold. stores. checked_done.
  - apply wellFormed_typedArray in Hs. rename Hs into Hta.
    pose proof (length_elementBytes a Hta) as Hb.
    B_unfold.
    destruct a as [k buf bo bl];
      cbn [TypedArray.elementType TypedArray.byteLength] in *.
    destruct k; stores; checked_done.
  - apply wellFormed_array in Hs. rename Hs into Hall.
    assert (IH : Forall (fun v => forall buffer offset,
              checked (writeOf B.writeChunk (mapSlot B.createChunk v)
                         buffer offset)
                buffer offset (length (wireB v))) items).
    { rewrite Forall_forall in *. intros x Hx buffer' offset'.
      rewrite (mapSlot_wellFormed _ x (Hall x Hx)). apply H; auto. }
    clear H.
    B_unfold. stores.
    match goal with
    | |- checked (forEach _ _ ?b ?o) _ _ _ =>
        pose proof (forEach_map_checked (writeOf B.writeChunk)
                      (mapSlot B.createChunk) _ items IH
                      b o ltac:(lia)) as L
    end.
    destruct (forEach _ _ _ _) as [[bf off]|e]; cbn [checked] in *; [|exact L].
    destruct L as (HlL & -> & HbL). repeat split; lengths.
  - apply wellFormed_object in Hs. rename Hs into Hall.
    assert (IH : Forall (fun p => forall buffer offset,
              checked (B.writeChunk (B.createChunk (snd p)) buffer offset)
                buffer offset (length (wireB (snd p)))) props).
    { rewrite Forall_forall in *. intros x Hx. apply H; auto. }
    clear H.
    B_unfold. stores.
    match goal with
    | |- checked (forEach _ _ ?b ?o) _ _ _ =>
        pose proof (forEach_entries_checked (writeOf B.writeChunk)
                      (fun key => Some (B.createStringChunk key))
                      (fun val => Some (B.createChunk val))
                      (wireString B.TYPES.String) _ props
                      B_write_string_checked IH b o ltac:(lia)) as L
    end.
    destruct (forEach _ _ _ _) as [[bf off]|e]; cbn [checked] in *; [|exact L].
    destruct L as (HlL & -> & HbL). repeat split; lengths.
Qed.

Lemma A_write_string_checked (s : DOMString.t) (buffer : ArrayBuffer)
  (offset : nat) :
  checked (A.writeChunk (A.createStringChunk s) buffer offset) buffer offset
    (length (wireString A.TYPES.String s)).
Proof.
  unfold wireString. lengths.
  A_unfold. stores. checked_done.
Qed.

(** [A.writeChunk] checks its bounds. *)
Lemma A_write_checked (v : Value) :
  wellFormed v = true ->
  forall buffer offset,
    checked (A.writeChunk (chunkTreeA v) buffer offset) buffer offset
      (length (wireA v)).
Proof.
  induction v using Value_induction; intros Hs buffer offset;
    try discriminate Hs.
  - A_unfold. stores. checked_done.
  - A_unfold. stores. checked_done.
  - A_unfold. stores. checked_done.
  - A_unfold. stores. checked_done.
  - A_unfold. stores. checked_done.
  - apply A_write_string_checked.
  - A_unfold. stores. checked_done.
  - apply wellFormed_typedArray in Hs. rename Hs into Hta.
    pose proof (length_bufferStart a Hta) as Hb.
    destruct Hta as [Hin _].
    A_unfold.
    destruct a as [k buf bo bl];
      cbn [TypedArray.elementType TypedArray.byteLength TypedArray.buffer] in *.
    destruct k; stores; checked_done.
  - apply wellFormed_array in Hs. rename Hs into Hall.
    assert (IH : Forall (fun v => forall buffer offset,
              checked (A.writeChunk (chunkTreeA v) buffer offset)
                buffer offset (length (wireA v))) items).
    { rewrite Forall_forall in *. intros x Hx. apply H; auto. }
    clear H.
    A_unfold. stores.
    match goal with
    | |- checked (forEach _ _ ?b ?o) _ _ _ =>
        pose proof (forEach_map_checked A.writeChunk chunkTreeA _ items IH
                      b o ltac:(lia)) as L
    end.
    destruct (forEach _ _ _ _) as [[bf off]|e]; cbn [checked] in *; [|exact L].
    destruct L as (HlL & -> & HbL). repeat split; lengths.
  - apply wellFormed_object in Hs. rename Hs into Hall.
    assert (IH : Forall (fun p => forall buffer offset,
              checked (A.writeChunk (chunkTreeA (snd p)) buffer offset)
                buffer offset (length (wireA (snd p)))) props).
    { rewrite Forall_forall in *. intros x Hx. apply H; auto. }
    clear H.
    A_unfold. stores.
    match goal with
    | |- checked (forEach _ _ ?b ?o) _ _ _ =>
        pose proof (forEach_entries_checked A.writeChunk A.createStringChunk
                      chunkTreeA (wireString A.TYPES.String) _ props
                      A_write_string_checked IH b o ltac:(lia)) as L
    end.
    destruct (forEach _ _ _ _) as [[bf off]|e]; cbn [checked] in *; [|exact L].
    destruct L as (HlL & -> & HbL). repeat split; lengths.
Qed.

Lemma splice_middle (before old after src : list byte) :
  length old = length src ->
  splice (before ++ old ++ after) (length before) src
  = before ++ src ++ after.
Proof.
  intros H. unfold splice.
  rewrite firstn_app, firstn_all, Nat.sub_diag. cbn [firstn].
  rewrite app_nil_r. f_equal. f_equal.
  rewrite skipn_app, skipn_all2 by lia. cbn [app].
  replace (length before + length src - length before)%nat
    with (length old) by lia.
  rewrite skipn_app, skipn_all, Nat.sub_diag. reflexivity.
Qed.

Lemma setBytes_short (buffer : ArrayBuffer) (src : list byte) (offset : nat) :
  (length buffer < offset + length src)%nat ->
  setBytes buffer src offset = Throw RangeError.
Proof.
  intros H. destruct (setBytes_cases buffer src offset) as [[_ Hle]|[E _]];
    [lia|exact E].
Qed.

(** X1: [B.writeChunk] writes a chunk tree in place.  In a buffer that
    holds [before], then as many bytes as [B.calculateSize] predicts, then
    [after], a write at the offset that follows [before] replaces the
    middle bytes, whatever they were, by the bytes that [B.serialize]
    returns, leaves [before] and [after] as they were and returns the
    offset that follows the bytes written. *)
Theorem X1_B_writeChunk_in_place (v : Value) (before old after : list byte) :
  wellFormed v = true ->
  B.calculateSize (B.createChunk v) = Ret (length old) ->
  exists bytes,
    B.serialize v = Ret bytes
    /\ B.writeChunk (B.createChunk v) (before ++ old ++ after) (length before)
       = Ret (before ++ bytes ++ after, (length before + length bytes)%nat).
Proof.
  intros Hs Hold. exists (wireB v). split; [apply B_serialize_wire, Hs|].
  rewrite (B_size v Hs) in Hold. inversion Hold as [Hlen].
  rewrite (B_write v Hs) by (rewrite !length_app; lia).
  rewrite splice_middle by (symmetry; exact Hlen). reflexivity.
Qed.

Lemma X1_B_writeChunk_in_place_witness :
  wellFormed (VArray [VBoolean true; VString (text "hi"%string)]) = true
  /\ B.calculateSize
       (B.createChunk (VArray [VBoolean true; VString (text "hi"%string)]))
     = Ret (length (repeat x2a 14))
  /\ exists bytes,
       B.serialize (VArray [VBoolean true; VString (text "hi"%string)])
       = Ret bytes
       /\ B.writeChunk
            (B.createChunk
               (VArray [VBoolean true; VString (text "hi"%string)]))
            ([xaa; xbb] ++ repeat x2a 14 ++ [xcc]) (length [xaa; xbb])
          = Ret ([xaa; xbb] ++ bytes ++ [xcc],
                 (length [xaa; xbb] + length bytes)%nat).
Proof.
  split; [reflexivity|]. split; [reflexivity|].
  apply (X1_B_writeChunk_in_place
           (VArray [VBoolean true; VString (text "hi"%string)])
           [xaa; xbb] (repeat x2a 14) [xcc]); reflexivity.
Defined.

(** X2: [B.writeChunk] never writes past the end of its buffer.  When
    fewer bytes than [B.calculateSize] predicts are left from the offset
    on, the write of a chunk tree built by [B.createChunk] raises the
    platform's [RangeError]. *)
Theorem X2_B_writeChunk_bounds (v : Value) (buffer : ArrayBuffer)
  (offset size : nat) :
  wellFormed v = true ->
  B.calculateSize (B.createChunk v) = Ret size ->
  (length buffer < offset + size)%nat ->
  B.writeChunk (B.createChunk v) buffer offset = Throw RangeError.
Proof.
  intros Hs Hsize Hshort. rewrite (B_size v Hs) in Hsize.
  inversion Hsize; subst size.
  pose proof (B_write_checked v Hs buffer offset) as H.
  destruct (B.writeChunk _ _ _) as [[b o]|e]; cbn [checked] in H.
  - lia.
  - congruence.
Qed.

Lemma X2_B_writeChunk_bounds_witness :
  wellFormed (VArray [VBoolean true; VString (text "hi"%string)]) = true
  /\ B.calculateSize
       (B.createChunk (VArray [VBoolean true; VString (text "hi"%string)]))
     = Ret 14%nat
  /\ (length (newArrayBuffer 13) < 0 + 14)%nat
  /\ B.writeChunk
       (B.createChunk (VArray [VBoolean true; VString (text "hi"%string)]))
       (newArrayBuffer 13) 0
     = Throw RangeError.
Proof.
  split; [reflexivity|]. split; [reflexivity|]. split; [vm_compute; lia|].
  apply (X2_B_writeChunk_bounds
           (VArray [VBoolean true; VString (text "hi"%string)])
           (newArrayBuffer 13) 0 14); [reflexivity|reflexivity|vm_compute; lia].
Defined.



(** X4: [A.writeChunk] never writes past the end of its buffer.  On the
    chunk tree of a value, which is the chunk that [A.createChunk] returns
    whenever it returns one, its only error is the platform's
    [RangeError]; it raises it whenever fewer bytes than the chunk's
    [byteLength] are left from the offset on; and when it returns, the
    buffer has kept its length and the offset has moved by [byteLength],
    inside the buffer. *)
Theorem X4_A_writeChunk_bounds (v : Value) (buffer : ArrayBuffer)
  (offset : nat) :
  wellFormed v = true ->
  (forall chunk, A.createChunk v = Ret chunk -> chunk = chunkTreeA v)
  /\ (forall e,
        A.writeChunk (chunkTreeA v) buffer offset = Throw e ->
        e = RangeError)
  /\ ((length buffer < offset + A.CreateChunk.byteLength (chunkTreeA v))%nat ->
      A.writeChunk (chunkTreeA v) buffer offset = Throw RangeError)
  /\ (forall buffer' offset',
        A.writeChunk (chunkTreeA v) buffer offset = Ret (buffer', offset') ->
        length buffer' = length buffer
        /\ offset' = (offset + A.CreateChunk.byteLength (chunkTreeA v))%nat
        /\ (offset' <= length buffer)%nat).
Proof.
  intros Hs. split; [apply A_createChunk_tree|].
  rewrite (A_byteLength v Hs).
  pose proof (A_write_checked v Hs buffer offset) as H.
  destruct (A.writeChunk _ _ _) as [[b o]|e]; cbn [checked] in H.
  - split; [discriminate|]. split; [lia|].
    intros b' o' E. inversion E; subst. exact H.
  - subst e. split; [intros e E; congruence|]. split; [reflexivity|].
    discriminate.
Qed.

Lemma X4_A_writeChunk_bounds_witness :
  wellFormed (VArray [VTypedArray offsetView; VNull]) = true
  /\ exists chunk,
       A.createChunk (VArray [VTypedArray offsetView; VNull]) = Ret chunk
       /\ A.writeChunk chunk (newArrayBuffer 12) 0 = Throw RangeError.
Proof.
  split; [reflexivity|].
  exists (chunkTreeA (VArray [VTypedArray offsetView; VNull])).
  split; [reflexivity|].
  apply (X4_A_writeChunk_bounds (VArray [VTypedArray offsetView; VNull])
           (newArrayBuffer 12) 0); [reflexivity|vm_compute; lia].
Defined.

(** X5: [A.serialize] on a typed array returns exactly when the array
    spans its whole buffer.  It then returns the tag, the byte length and
    the bytes of the buffer; on a view of a part of a larger buffer
    [A.writeChunk] copies the whole buffer into the room that
    [A.createChunk] counted for the view, and [serialize] raises the
    platform's [RangeError]. *)
Theorem X5_A_serialize_typedArray (a : TypedArray.t) :
  isTypedArray a ->
  (length (TypedArray.buffer a) = TypedArray.byteLength a ->
   A.serialize (VTypedArray a)
   = Ret (byteOf (A.typeIndexOf (VTypedArray a))
            :: bigEndian32 (Z.of_nat (TypedArray.byteLength a))
            ++ TypedArray.buffer a))
  /\ (length (TypedArray.buffer a) <> TypedArray.byteLength a ->
      A.serialize (VTypedArray a) = Throw RangeError).
Proof.
  intros Hta. split.
  - intros Hwhole.
    assert (Hwb : wholeBuffers (VTypedArray a) = true).
    { cbn [wholeBuffers]. apply Nat.eqb_eq. exact Hwhole. }
    assert (Hs : wellFormed (VTypedArray a) = true).
    { cbn [wellFormed]. unfold isTypedArrayb. destruct Hta as [H1 H2].
      apply andb_true_intro. split; [apply Nat.leb_le|apply Nat.eqb_eq]; auto. }
    rewrite (A_serialize_whole _ Hs Hwb eq_refl). unfold wireA. cbn [wire].
    destruct (wholeBuffers_typedArray a Hta Hwb) as [-> _].
    rewrite beBytes_4. reflexivity.
  - intros Hview. destruct Hta as [Hin _].
    unfold A.serialize. cbn [A.createChunk bind]. cbv zeta.
    cbn [A.writeChunk A.typeIndexOf A.CreateChunk.typeIndex
         A.CreateChunk.length A.CreateChunk.value A.CreateChunk.byteLength].
    destruct a as [k buf bo bl];
      cbn [TypedArray.elementType TypedArray.byteLength TypedArray.buffer
           TypedArray.byteOffset] in *.
    destruct k; write_steps;
      rewrite setBytes_short by (lengths; lia); reflexivity.
Qed.

Lemma X5_A_serialize_typedArray_witness :
  isTypedArray offsetView
  /\ length (TypedArray.buffer offsetView) <> TypedArray.byteLength offsetView
  /\ A.serialize (VTypedArray offsetView) = Throw RangeError.
Proof.
  assert (H : isTypedArray offsetView) by (split; [cbn; lia|reflexivity]).
  split; [exact H|]. split; [cbn; lia|].
  apply (X5_A_serialize_typedArray offsetView H). cbn; lia.
Defined.

(** * Readers: framing, truncated and misaligned chunks *)

Lemma skipn_before (before bytes after : list byte) :
  skipn (length before) (before ++ bytes ++ after) = bytes ++ after.
Proof.
  rewrite skipn_app, skipn_all, Nat.sub_diag. reflexivity.
Qed.

(** X6: [B.readChunk] reads a chunk wherever it stands.  When the bytes
    that [B.serialize] returns for a supported value stand in a buffer
    after [before] and in front of [after], [B.readChunk] at the offset
    that follows [before] returns the value that [B.deserialize] gives
    for those bytes alone, and the offset that follows them: chunks laid
    end to end are read one after the other by passing the offset on. *)
Theorem X6_B_readChunk_in_place (v : Value) (before after : list byte) :
  supported v ->
  exists bytes w,
    B.serialize v = Ret bytes
    /\ B.deserialize bytes = Ret w
    /\ forall fuel,
         (length bytes <= fuel)%nat ->
         B.readChunk fuel (before ++ bytes ++ after) (length before)
         = Ret (w, (length before + length bytes)%nat).
Proof.
  intros Hs. exists (wireB v), (receivedB v).
  split; [apply B_serialize_wire, supported_wellFormed, Hs|].
  split.
  - rewrite <- (app_nil_r (wireB v)) at 1. apply B_deserialize_wire, Hs.
  - intros fuel Hf.
    apply (B_read v Hs fuel _ _ after); [|apply skipn_before].
    pose proof (depth_le_wire B.getTypeCode B.TYPES.String elementBytes v).
    unfold wireB in Hf. lia.
Qed.

Lemma X6_B_readChunk_in_place_witness :
  supported (VArray [VNull; VString (text "hi"%string)])
  /\ exists bytes w,
       B.serialize (VArray [VNull; VString (text "hi"%string)]) = Ret bytes
       /\ B.deserialize bytes = Ret w
       /\ forall fuel,
            (length bytes <= fuel)%nat ->
            B.readChunk fuel ([x01; x02; xff] ++ bytes ++ [x63])
              (length [x01; x02; xff])
            = Ret (w, (length [x01; x02; xff] + length bytes)%nat).
Proof.
  split; [reflexivity|].
  apply (X6_B_readChunk_in_place (VArray [VNull; VString (text "hi"%string)])
           [x01; x02; xff] [x63]).
  reflexivity.
Defined.

(** X7: [A.readChunk] reads a chunk wherever it stands.  For the bytes
    that [A.serialize] returns for a supported value, standing anywhere in
    a buffer, it returns a record with the type index of the value, the
    value that [A.deserialize] gives for those bytes alone, the byte
    length or the item count of the chunk, and the offset that follows
    the chunk. *)
Theorem X7_A_readChunk_in_place (v : Value) (bytes before after : list byte) :
  supported v ->
  A.serialize v = Ret bytes ->
  exists w,
    A.deserialize bytes = Ret w
    /\ forall fuel,
         (length bytes <= fuel)%nat ->
         A.readChunk fuel (before ++ bytes ++ after) (length before)
         = Ret (A.ReadChunk.mk (A.typeIndexOf v) w (lengthField v)
                  (length before + length bytes)).
Proof.
  intros Hs Hser.
  apply A_serialize_wire in Hser; [|apply supported_wellFormed, Hs].
  subst bytes. exists (receivedA v). split.
  - rewrite <- (app_nil_r (wireA v)) at 1. apply A_deserialize_wire, Hs.
  - intros fuel Hf.
    apply (A_read v Hs fuel _ _ after); [|apply skipn_before].
    pose proof (depth_le_wire A.typeIndexOf A.TYPES.String bufferStart v).
    unfold wireA in Hf. lia.
Qed.

Lemma X7_A_readChunk_in_place_witness :
  supported (VArray [VNull; VString (text "hi"%string)])
  /\ A.serialize (VArray [VNull; VString (text "hi"%string)])
     = Ret [x16; x00; x00; x00; x02; x01; x15; x00; x00; x00; x02; x68; x69]
  /\ exists w,
       A.deserialize
         [x16; x00; x00; x00; x02; x01; x15; x00; x00; x00; x02; x68; x69]
       = Ret w
       /\ forall fuel,
            (13 <= fuel)%nat ->
            A.readChunk fuel
              ([xff]
                 ++ [x16; x00; x00; x00; x02; x01; x15; x00; x00; x00; x02;
                     x68; x69]
                 ++ [x63; x64])
              1
            = Ret (A.ReadChunk.mk 22 w 2 14).
Proof.
  split; [reflexivity|]. split; [reflexivity|].
  apply (X7_A_readChunk_in_place (VArray [VNull; VString (text "hi"%string)])
           [x16; x00; x00; x00; x02; x01; x15; x00; x00; x00; x02; x68; x69]
           [xff] [x63; x64]); reflexivity.
Defined.

(** The header of a length-prefixed chunk, read back. *)
Lemma header_read (tag len : Z) (payload : list byte) :
  0 <= tag < 256 -> 0 <= len < 2 ^ 32 ->
  let buffer := byteOf tag :: bigEndian32 len ++ payload in
  getUint8 buffer 0 = Ret tag
  /\ getUint32 buffer 1 = Ret len
  /\ forall n, slice buffer 5 (5 + n) = firstn n payload.
Proof.
  intros Ht Hl buffer. subst buffer. rewrite <- beBytes_4. split; [|split].
  - apply (tag_read _ 0%nat tag (beBytes 4 len ++ payload) Ht). reflexivity.
  - rewrite (getUint32_at _ 1%nat len payload) by reflexivity.
    rewrite Z.mod_small by lia. reflexivity.
  - intros n. unfold slice.
    replace (5 + n - 5)%nat with n by lia.
    rewrite beBytes_4. reflexivity.
Qed.

(** X8: the declared length of a String chunk is not checked against the
    buffer.  Both readers slice the payload with [buffer.slice], which
    stops at the end of the buffer: a String chunk decodes to the text
    that [TextDecoder] makes of the first [len] bytes that follow its
    header, and when fewer than [len] bytes follow, of those that are
    there, without any error.  The decoder drops a byte-order mark at the
    start and replaces every malformed sequence by U+FFFD: the byte [FF]
    and the two-byte sequence [C3 A9] cut after its first byte are both
    read as U+FFFD. *)
Theorem X8_string_length_not_checked (len : Z) (payload : list byte) :
  0 <= len < 2 ^ 32 ->
  B.deserialize (byteOf B.TYPES.String :: bigEndian32 len ++ payload)
  = Ret (VString (decode (firstn (Z.to_nat len) payload)))
  /\ A.deserialize (byteOf A.TYPES.String :: bigEndian32 len ++ payload)
     = Ret (VString (decode (firstn (Z.to_nat len) payload)))
  /\ ((length payload <= Z.to_nat len)%nat ->
      B.deserialize (byteOf B.TYPES.String :: bigEndian32 len ++ payload)
      = Ret (VString (decode payload))
      /\ A.deserialize (byteOf A.TYPES.String :: bigEndian32 len ++ payload)
         = Ret (VString (decode payload)))
  /\ B.deserialize [x05; x00; x00; x00; x01; xff] = Ret (VString [0xFFFD])
  /\ A.deserialize [x15; x00; x00; x00; x01; xff] = Ret (VString [0xFFFD])
  /\ B.deserialize [x05; x00; x00; x00; x01; xc3; xa9]
     = Ret (VString [0xFFFD])
  /\ B.deserialize [x05; x00; x00; x00; x02; xc3; xa9]
     = Ret (VString [0xE9])
  /\ B.deserialize [x05; x00; x00; x00; x04; xef; xbb; xbf; "h"%byte]
     = Ret (VString (text "h"%string))
  /\ A.deserialize [x15; x00; x00; x00; x04; xef; xbb; xbf; "h"%byte]
     = Ret (VString (text "h"%string)).
Proof.
  intros Hl.
  assert (HB : B.deserialize
                 (byteOf B.TYPES.String :: bigEndian32 len ++ payload)
               = Ret (VString (decode (firstn (Z.to_nat len) payload)))).
  { destruct (header_read B.TYPES.String len payload
                ltac:(cbv; intuition congruence) Hl)
      as (Htag & Hlen & Hslice).
    unfold B.deserialize. cbn [length Nat.eqb B.readChunk Nat.add].
    rewrite Htag. cbn [bind]. decide_tests.
    rewrite Hlen. cbn [bind]. decide_tests.
    exact (f_equal (fun sub => Ret (VString (decode sub)))
             (Hslice (Z.to_nat len))). }
  assert (HA : A.deserialize
                 (byteOf A.TYPES.String :: bigEndian32 len ++ payload)
               = Ret (VString (decode (firstn (Z.to_nat len) payload)))).
  { destruct (header_read A.TYPES.String len payload
                ltac:(cbv; intuition congruence) Hl)
      as (Htag & Hlen & Hslice).
    unfold A.deserialize. cbn [length A.readChunk Nat.add].
    rewrite Htag. cbn [bind]. decide_tests.
    rewrite Hlen. cbn [bind]. decide_tests.
    exact (f_equal (fun sub => Ret (VString (decode sub)))
             (Hslice (Z.to_nat len))). }
  split; [exact HB|]. split; [exact HA|].
  split; [|repeat split].
  intros Hshort. rewrite HB, HA, firstn_all2 by exact Hshort. auto.
Qed.

Lemma X8_string_length_not_checked_witness :
  0 <= 1000 < 2 ^ 32
  /\ B.deserialize [x05; x00; x00; x03; xe8; "h"%byte; "i"%byte]
     = Ret (VString (text "hi"%string))
  /\ A.deserialize [x15; x00; x00; x03; xe8; "h"%byte; "i"%byte]
     = Ret (VString (text "hi"%string)).
Proof.
  split; [lia|].
  destruct (X8_string_length_not_checked 1000 ["h"%byte; "i"%byte]
              ltac:(lia)) as (_ & _ & H & _).
  apply H. vm_compute. lia.
Defined.

Lemma newTypedArray_misaligned (Ctor : ElementType) (sub : ArrayBuffer) :
  (length sub mod BYTES_PER_ELEMENT Ctor <> 0)%nat ->
  newTypedArray Ctor sub = Throw RangeError.
Proof.
  intros H. unfold newTypedArray.
  destruct (Nat.eqb_spec (length sub mod BYTES_PER_ELEMENT Ctor) 0);
    [contradiction|reflexivity].
Qed.

(** Evaluate the constructor tables on a closed tag. *)
Ltac eval_tables :=
  repeat match goal with
  | |- context [B.TYPED_ARRAY_TYPES ?t] =>
      let r := eval vm_compute in (B.TYPED_ARRAY_TYPES t) in
      change (B.TYPED_ARRAY_TYPES t) with r
  | |- context [A.typedArrayOf ?t] =>
      let r := eval vm_compute in (A.typedArrayOf t) in
      change (A.typedArrayOf t) with r
  end; cbv iota beta.

Lemma B_read_typedArray (k : ElementType) (len : Z) (payload : list byte) :
  0 <= len < 2 ^ 32 ->
  B.deserialize
    (byteOf (B.getTypeCode (VTypedArray (TypedArray.mk k [] 0 0)))
       :: bigEndian32 len ++ payload)
  = (a <- newTypedArray k (firstn (Z.to_nat len) payload) ;;
     Ret (VTypedArray a)).
Proof.
  intros Hl.
  destruct (header_read (B.getTypeCode (VTypedArray (TypedArray.mk k [] 0 0)))
              len payload (B_tag_range _) Hl) as (Htag & Hlen & Hslice).
  unfold B.deserialize. cbn [length Nat.eqb B.readChunk Nat.add].
  rewrite Htag. cbn [bind].
  change (S (S (S (S (S (Z.to_nat len))))))%nat with (5 + Z.to_nat len)%nat.
  destruct k; cbn [B.getTypeCode TypedArray.elementType] in *;
    decide_tests; rewrite Hlen; cbn [bind]; decide_tests;
    change (S (S (S (S (S (Z.to_nat len))))))%nat with (5 + Z.to_nat len)%nat;
    rewrite Hslice; eval_tables;
    destruct (newTypedArray _ _); reflexivity.
Qed.

Lemma A_read_typedArray (k : ElementType) (len : Z) (payload : list byte) :
  0 <= len < 2 ^ 32 ->
  A.deserialize
    (byteOf (A.typeIndexOf (VTypedArray (TypedArray.mk k [] 0 0)))
       :: bigEndian32 len ++ payload)
  = (a <- newTypedArray k (firstn (Z.to_nat len) payload) ;;
     Ret (VTypedArray a)).
Proof.
  intros Hl.
  destruct (header_read (A.typeIndexOf (VTypedArray (TypedArray.mk k [] 0 0)))
              len payload (A_tag_range _) Hl) as (Htag & Hlen & Hslice).
  unfold A.deserialize. cbn [length A.readChunk Nat.add].
  rewrite Htag. cbn [bind].
  destruct k; cbn [A.typeIndexOf TypedArray.elementType] in *;
    decide_tests; rewrite Hlen; cbn [bind]; decide_tests;
    change (S (S (S (S (S (Z.to_nat len))))))%nat with (5 + Z.to_nat len)%nat;
    rewrite Hslice; eval_tables;
    destruct (newTypedArray _ _); cbn [bind]; decide_tests; reflexivity.
Qed.

(** X9: a typed-array chunk must hold whole elements.  Both readers cut
    the payload with [buffer.slice] (the first [len] bytes after the
    header, or fewer at the end of the buffer) and hand it to the
    constructor of the tag: when its length is a multiple of the element
    size the chunk decodes to an array over exactly those bytes, and
    otherwise the constructor's [RangeError] comes out of
    [deserialize]. *)
Theorem X9_typed_array_whole_elements (k : ElementType) (len : Z)
  (payload : list byte) :
  0 <= len < 2 ^ 32 ->
  let sub := firstn (Z.to_nat len) payload in
  let chunkB :=
    byteOf (B.getTypeCode (VTypedArray (TypedArray.mk k [] 0 0)))
      :: bigEndian32 len ++ payload in
  let chunkA :=
    byteOf (A.typeIndexOf (VTypedArray (TypedArray.mk k [] 0 0)))
      :: bigEndian32 len ++ payload in
  ((length sub mod BYTES_PER_ELEMENT k = 0)%nat ->
   B.deserialize chunkB
   = Ret (VTypedArray (TypedArray.mk k sub 0 (length sub)))
   /\ A.deserialize chunkA
      = Ret (VTypedArray (TypedArray.mk k sub 0 (length sub))))
  /\ ((length sub mod BYTES_PER_ELEMENT k <> 0)%nat ->
      B.deserialize chunkB = Throw RangeError
      /\ A.deserialize chunkA = Throw RangeError).
Proof.
  intros Hl sub chunkB chunkA. subst sub chunkB chunkA.
  rewrite (B_read_typedArray k len payload Hl),
    (A_read_typedArray k len payload Hl).
  split; intros H.
  - rewrite newTypedArray_ok by exact H. auto.
  - rewrite newTypedArray_misaligned by exact H. auto.
Qed.

Lemma X9_typed_array_whole_elements_witness :
  0 <= 3 < 2 ^ 32
  /\ B.deserialize [x0b; x00; x00; x00; x03; x01; x02; x03] = Throw RangeError
  /\ A.deserialize [x0c; x00; x00; x00; x03; x01; x02; x03] = Throw RangeError.
Proof.
  split; [lia|].
  apply (X9_typed_array_whole_elements Int16Array 3 [x01; x02; x03]);
    [lia|vm_compute; lia].
Defined.

Lemma forLoop_app {State : Type} (body : State -> nat -> result (State * nat))
  (done more : nat) :
  forall s offset,
    forLoop (done + more) body s offset
    = ('(s', offset') <- forLoop done body s offset ;;
       forLoop more body s' offset').
Proof.
  induction done as [|done IH]; intros s offset; cbn [Nat.add forLoop bind].
  - reflexivity.
  - destruct (body s offset) as [[s1 o1]|e]; cbn [bind]; [apply IH|reflexivity].
Qed.

Lemma getUint8_end (buffer : ArrayBuffer) (offset : nat) :
  (length buffer <= offset)%nat -> getUint8 buffer offset = Throw RangeError.
Proof.
  intros H. unfold getUint8, getBytes.
  destruct (Nat.leb_spec (offset + 1) (length buffer)); [lia|reflexivity].
Qed.

Lemma B_read_end (fuel : nat) (buffer : ArrayBuffer) (offset : nat) :
  (length buffer <= offset)%nat ->
  B.readChunk (S fuel) buffer offset = Throw RangeError.
Proof.
  intros H. cbn [B.readChunk]. rewrite getUint8_end by exact H. reflexivity.
Qed.

Lemma A_read_end (fuel : nat) (buffer : ArrayBuffer) (offset : nat) :
  (length buffer <= offset)%nat ->
  A.readChunk (S fuel) buffer offset = Throw RangeError.
Proof.
  intros H. cbn [A.readChunk]. rewrite getUint8_end by exact H. reflexivity.
Qed.

Lemma length_wire_item tagOf stringTag payload (items : list Value)
  (x : Value) :
  In x items ->
  (length (wire tagOf stringTag payload x)
   <= length (flat_map (wire tagOf stringTag payload) items))%nat.
Proof.
  induction items as [|y rest IH]; intros Hx; [contradiction|].
  cbn [flat_map]. rewrite length_app. destruct Hx as [->|Hx]; [lia|].
  specialize (IH Hx). lia.
Qed.

Lemma B_read_missing_items (items : list Value) (count : nat) :
  Forall supported items ->
  (length items < count)%nat -> Z.of_nat count < 2 ^ 32 ->
  B.deserialize
    (byteOf B.TYPES.Array :: bigEndian32 (Z.of_nat count)
       ++ flat_map wireB items)
  = Throw RangeError.
Proof.
  intros Hall Hc Hn.
  destruct (header_read B.TYPES.Array (Z.of_nat count) (flat_map wireB items)
              ltac:(cbv; intuition congruence) ltac:(lia))
    as (Htag & Hlen & _).
  cbv zeta in Htag, Hlen. unfold B.deserialize.
  set (buffer := byteOf B.TYPES.Array :: bigEndian32 (Z.of_nat count)
                   ++ flat_map wireB items) in *.
  assert (Hbuf : length buffer = (5 + length (flat_map wireB items))%nat).
  { subst buffer. cbn [length]. rewrite length_app. reflexivity. }
  destruct (Nat.eqb_spec (length buffer) 0) as [E|_]; [lia|].
  remember (length buffer) as fuel eqn:Ef.
  cbn [B.readChunk Nat.add]. rewrite Htag. cbn [bind]. decide_tests.
  rewrite Hlen. cbn [bind]. decide_tests. rewrite Nat2Z.id.
  replace count with (length items + S (count - length items - 1))%nat by lia.
  rewrite forLoop_app.
  assert (IH : Forall (reads buffer (B.readChunk fuel buffer) wireB receivedB)
                 items).
  { rewrite Forall_forall in *. intros x Hx offset rest Hr.
    apply (B_read x (Hall x Hx) _ buffer offset rest); [|exact Hr].
    pose proof (depth_le_wire B.getTypeCode B.TYPES.String elementBytes x)
      as Hd.
    pose proof (length_wire_item B.getTypeCode B.TYPES.String elementBytes
                  items x Hx) as Hx'.
    fold wireB in Hd, Hx'. lia. }
  rewrite (forLoop_items _ _ _ _ items IH [] 5%nat [])
    by (subst buffer; rewrite app_nil_r; reflexivity).
  cbn [bind forLoop].
  destruct fuel as [|fuel]; [lia|].
  rewrite B_read_end by lia. reflexivity.
Qed.

Lemma A_read_missing_items (items : list Value) (count : nat) :
  Forall supported items ->
  (length items < count)%nat -> Z.of_nat count < 2 ^ 32 ->
  A.deserialize
    (byteOf A.TYPES.Array :: bigEndian32 (Z.of_nat count)
       ++ flat_map wireA items)
  = Throw RangeError.
Proof.
  intros Hall Hc Hn.
  destruct (header_read A.TYPES.Array (Z.of_nat count) (flat_map wireA items)
              ltac:(cbv; intuition congruence) ltac:(lia))
    as (Htag & Hlen & _).
  cbv zeta in Htag, Hlen. unfold A.deserialize.
  set (buffer := byteOf A.TYPES.Array :: bigEndian32 (Z.of_nat count)
                   ++ flat_map wireA items) in *.
  assert (Hbuf : length buffer = (5 + length (flat_map wireA items))%nat).
  { subst buffer. cbn [length]. rewrite length_app. reflexivity. }
  remember (length buffer) as fuel eqn:Ef.
  cbn [A.readChunk Nat.add]. rewrite Htag. cbn [bind]. decide_tests.
  rewrite Hlen. cbn [bind]. decide_tests. rewrite Nat2Z.id.
  replace count with (length items + S (count - length items - 1))%nat by lia.
  rewrite (forLoop_ext _ _ (A_array_body fuel buffer)).
  rewrite forLoop_app.
  assert (IH : Forall (reads buffer (A_read_at fuel buffer) wireA receivedA)
                 items).
  { rewrite Forall_forall in *. intros x Hx offset rest Hr.
    unfold A_read_at.
    rewrite (A_read x (Hall x Hx) fuel buffer offset rest);
      [reflexivity| |exact Hr].
    pose proof (depth_le_wire A.typeIndexOf A.TYPES.String bufferStart x) as Hd.
    pose proof (length_wire_item A.typeIndexOf A.TYPES.String bufferStart
                  items x Hx) as Hx'.
    fold wireA in Hd, Hx'. lia. }
  rewrite (forLoop_items _ _ _ _ items IH [] 5%nat [])
    by (subst buffer; rewrite app_nil_r; reflexivity).
  cbn [bind forLoop]. unfold A_read_at.
  destruct fuel as [|fuel]; [lia|].
  rewrite A_read_end by lia. reflexivity.
Qed.

Lemma supported_items (items : list Value) :
  supported (VArray items) -> Forall supported items.
Proof. intros H. apply supported_array in H. tauto. Qed.

(** X10: the item count of an Array chunk is checked only by the bounds
    of the buffer.  When the count in the header of a serialized array is
    raised above the number of items that follow, both readers run off the
    end of the buffer and [deserialize] fails with the platform's
    [RangeError]. *)
Theorem X10_missing_items (items : list Value) (count : nat) :
  supported (VArray items) ->
  (length items < count)%nat -> Z.of_nat count < 2 ^ 32 ->
  (exists body,
      B.serialize (VArray items)
      = Ret (byteOf B.TYPES.Array
               :: bigEndian32 (Z.of_nat (length items)) ++ body)
      /\ B.deserialize
           (byteOf B.TYPES.Array :: bigEndian32 (Z.of_nat count) ++ body)
         = Throw RangeError)
  /\ (forall bytes,
        A.serialize (VArray items) = Ret bytes ->
        exists body,
          bytes = byteOf A.TYPES.Array
                    :: bigEndian32 (Z.of_nat (length items)) ++ body
          /\ A.deserialize
               (byteOf A.TYPES.Array :: bigEndian32 (Z.of_nat count) ++ body)
             = Throw RangeError).
Proof.
  intros Hs Hc Hn. pose proof (supported_items items Hs) as Hall. split.
  - exists (flat_map wireB items). split.
    + rewrite (B_serialize_wire _ (supported_wellFormed _ Hs)).
      unfold wireB. cbn [wire B.getTypeCode]. rewrite beBytes_4. reflexivity.
    + apply B_read_missing_items; assumption.
  - intros bytes Hser.
    apply A_serialize_wire in Hser; [|apply supported_wellFormed, Hs].
    subst bytes. exists (flat_map wireA items). split.
    + unfold wireA. cbn [wire A.typeIndexOf]. rewrite beBytes_4. reflexivity.
    + apply A_read_missing_items; assumption.
Qed.

Lemma X10_missing_items_witness :
  supported (VArray [VNull; VBoolean true])
  /\ B.serialize (VArray [VNull; VBoolean true])
     = Ret [x06; x00; x00; x00; x02; x01; x02; xff]
  /\ B.deserialize [x06; x00; x00; x00; x03; x01; x02; xff] = Throw RangeError.
Proof.
  split; [reflexivity|]. split; [reflexivity|].
  destruct (X10_missing_items [VNull; VBoolean true] 3
              ltac:(reflexivity) ltac:(cbn; lia) ltac:(lia))
    as [(body & Hser & Hde) _].
  vm_compute in Hser. inversion Hser. subst body. exact Hde.
Defined.

(** * The recursion of the readers is bounded by the buffer *)

Lemma forLoop_more {State : Type}
  (body body' : State -> nat -> result (State * nat)) :
  (forall s o, body s o <> Throw OutOfFuel -> body' s o = body s o) ->
  forall count s o,
    forLoop count body s o <> Throw OutOfFuel ->
    forLoop count body' s o = forLoop count body s o.
Proof.
  intros Hb. induction count as [|count IH]; intros s o H; cbn [forLoop] in *.
  - reflexivity.
  - destruct (body s o) as [[s1 o1]|e] eqn:E.
    + rewrite Hb, E by (rewrite E; discriminate). cbn [bind] in *.
      apply IH, H.
    + rewrite Hb, E; [reflexivity|]. rewrite E. exact H.
Qed.

Lemma bind_more {A B : Type} (m m' : result A) (k k' : A -> result B) :
  bind m k <> Throw OutOfFuel ->
  (m <> Throw OutOfFuel -> m' = m) ->
  (forall a, m = Ret a -> k a <> Throw OutOfFuel -> k' a = k a) ->
  bind m' k' = bind m k.
Proof.
  intros H Hm Hk. destruct m as [a|e] eqn:E; cbn [bind] in *.
  - rewrite Hm by discriminate. cbn [bind]. apply Hk; [reflexivity|exact H].
  - rewrite Hm; [reflexivity|]. intros F. apply H. congruence.
Qed.

Lemma B_readChunk_more (fuel : nat) :
  forall fuel' buffer offset,
    (fuel <= fuel')%nat ->
    B.readChunk fuel buffer offset <> Throw OutOfFuel ->
    B.readChunk fuel' buffer offset = B.readChunk fuel buffer offset.
Proof.
  induction fuel as [|fuel IH]; intros fuel' buffer offset Hle H;
    [cbn in H; congruence|].
  destruct fuel' as [|fuel']; [lia|].
  assert (Hrec : forall o,
             B.readChunk fuel buffer o <> Throw OutOfFuel ->
             B.readChunk fuel' buffer o = B.readChunk fuel buffer o).
  { intros o Ho. apply IH; [lia|exact Ho]. }
  clear IH. cbn [B.readChunk] in *.
  destruct (getUint8 buffer offset) as [type|e]; cbn [bind] in *;
    [|reflexivity].
  repeat match goal with
  | |- context [if ?c then _ else _] => destruct c; try reflexivity
  end.
  all: destruct (getUint32 buffer (offset + 1)) as [len|e]; cbn [bind] in *;
    [|reflexivity].
  - apply bind_more; [exact H| |reflexivity].
    intros Hl. apply forLoop_more; [|exact Hl].
    intros s o Hb. apply bind_more; [exact Hb|apply Hrec|reflexivity].
  - apply bind_more; [exact H| |reflexivity].
    intros Hl. apply forLoop_more; [|exact Hl].
    intros s o Hb. apply bind_more; [exact Hb|apply Hrec|].
    intros [key o1] _ Hb1.
    apply bind_more; [exact Hb1|apply Hrec|reflexivity].
Qed.

Lemma A_readChunk_more (fuel : nat) :
  forall fuel' buffer offset,
    (fuel <= fuel')%nat ->
    A.readChunk fuel buffer offset <> Throw OutOfFuel ->
    A.readChunk fuel' buffer offset = A.readChunk fuel buffer offset.
Proof.
  induction fuel as [|fuel IH]; intros fuel' buffer offset Hle H;
    [cbn in H; congruence|].
  destruct fuel' as [|fuel']; [lia|].
  assert (Hrec : forall o,
             A.readChunk fuel buffer o <> Throw OutOfFuel ->
             A.readChunk fuel' buffer o = A.readChunk fuel buffer o).
  { intros o Ho. apply IH; [lia|exact Ho]. }
  clear IH. cbn [A.readChunk] in *.
  destruct (getUint8 buffer offset) as [type|e]; cbn [bind] in *;
    [|reflexivity].
  match goal with
  | |- bind ?m _ = _ => destruct m as [[[len o] v]|e]
  end; cbn [bind] in *; [|reflexivity].
  apply bind_more; [exact H| |reflexivity].
  intros H'.
  repeat match goal with
  | |- context [if ?c then _ else _] => destruct c; try reflexivity
  end.
  - apply bind_more; [exact H'| |reflexivity].
    intros Hl. apply forLoop_more; [|exact Hl].
    intros s o1 Hb. apply bind_more; [exact Hb|apply Hrec|reflexivity].
  - apply bind_more; [exact H'| |reflexivity].
    intros Hl. apply forLoop_more; [|exact Hl].
    intros s o1 Hb. apply bind_more; [exact Hb|apply Hrec|].
    intros key _ Hb1.
    apply bind_more; [exact Hb1|apply Hrec|reflexivity].
Qed.

(** X11: the recursion of [readChunk] is bounded by the buffer.  A
    [readChunk] that returns has moved the offset forward by at least one
    byte, and a read past the end of the buffer raises an error, so no
    chunk nests deeper than the buffer is long: [deserialize], which allows
    one nested call per byte and one more, never runs out of them, and a
    reader that is allowed more calls returns the same outcome. *)
Theorem X11_readChunk_recursion_bounded (buffer : ArrayBuffer) :
  (forall fuel offset v offset',
      B.readChunk fuel buffer offset = Ret (v, offset') ->
      (offset < offset')%nat)
  /\ (forall fuel offset r,
        A.readChunk fuel buffer offset = Ret r ->
        (offset < A.ReadChunk.offset r)%nat)
  /\ B.deserialize buffer <> Throw OutOfFuel
  /\ A.deserialize buffer <> Throw OutOfFuel
  /\ (forall fuel,
        (length buffer < fuel)%nat ->
        B.readChunk fuel buffer 0 = B.readChunk (S (length buffer)) buffer 0)
  /\ (forall fuel,
        (length buffer < fuel)%nat ->
        A.readChunk fuel buffer 0 = A.readChunk (S (length buffer)) buffer 0).
Proof.
  split; [intros fuel offset v offset'; apply B_readChunk_progress|].
  split; [intros fuel offset r; apply A_readChunk_progress|].
  split; [apply B_deserialize_fuel|]. split; [apply A_deserialize_fuel|].
  split; intros fuel Hf.
  - apply B_readChunk_more; [lia|]. apply B_readChunk_fuel; lia.
  - apply A_readChunk_more; [lia|]. apply A_readChunk_fuel; lia.
Qed.

Lemma X11_readChunk_recursion_bounded_witness :
  (length [x06; x00; x00; x00; x01; x06; x00; x00; x00; x00] < 100)%nat
  /\ B.readChunk 100 [x06; x00; x00; x00; x01; x06; x00; x00; x00; x00] 0
     = B.readChunk 11 [x06; x00; x00; x00; x01; x06; x00; x00; x00; x00] 0.
Proof.
  split; [vm_compute; lia|].
  apply (X11_readChunk_recursion_bounded
           [x06; x00; x00; x00; x01; x06; x00; x00; x00; x00]).
  vm_compute; lia.
Defined.

(** * Numbers and dates that a reader returns *)

Lemma canonNaN_range (bits : Z) :
  0 <= bits < 2 ^ 64 -> 0 <= canonNaN bits < 2 ^ 64.
Proof.
  intros H. unfold canonNaN. destruct (f64_isNaN bits); [|exact H].
  unfold f64_NaN. lia.
Qed.

Lemma canonNaN_idempotent (bits : Z) : canonNaN (canonNaN bits) = canonNaN bits.
Proof.
  unfold canonNaN. destruct (f64_isNaN bits) eqn:E; [reflexivity|].
  rewrite E. reflexivity.
Qed.

Lemma isNumber_canonNaN (bits : Z) :
  0 <= bits < 2 ^ 64 -> isNumber (canonNaN bits).
Proof.
  intros H. split; [apply canonNaN_range, H|apply canonNaN_idempotent].
Qed.

(** The fields of the double that holds a non-zero integer below 2^53. *)
Lemma f64_ofInteger_fields (n : Z) :
  n <> 0 -> Z.abs n < 2 ^ 53 ->
  exists k m,
    0 <= k <= 52 /\ 0 <= m < 2 ^ 52
    /\ 2 ^ 52 + m = Z.abs n * 2 ^ (52 - k)
    /\ f64_ofInteger n
       = (if n <? 0 then 2 ^ 63 else 0) + (k + 1023) * 2 ^ 52 + m.
Proof.
  intros Hn Hlt. unfold f64_ofInteger.
  destruct (Z.eqb_spec n 0) as [|_]; [contradiction|].
  set (a := Z.abs n) in *. assert (Ha : 0 < a) by (subst a; lia).
  set (k := Z.log2 a).
  pose proof (Z.log2_nonneg a) as Hk0. fold k in Hk0.
  assert (Hk : k < 53) by (apply Z.log2_lt_pow2; assumption).
  destruct (Z.log2_spec a Ha) as [Hlo Hhi]. fold k in Hlo, Hhi.
  set (p := 2 ^ (52 - k)).
  assert (Hp : 0 < p) by (apply Z.pow_pos_nonneg; lia).
  assert (H52 : 2 ^ k * p = 2 ^ 52).
  { subst p. rewrite <- Z.pow_add_r by lia. f_equal. lia. }
  assert (H53 : 2 ^ Z.succ k * p = 2 ^ 53).
  { subst p. rewrite <- Z.pow_add_r by lia. f_equal. lia. }
  assert (Hlo' : 2 ^ k * p <= a * p) by (apply Z.mul_le_mono_nonneg_r; lia).
  assert (Hhi' : a * p < 2 ^ Z.succ k * p)
    by (apply Z.mul_lt_mono_pos_r; lia).
  exists k, (a * p - 2 ^ 52). repeat split; try lia.
Qed.

Lemma f64_truncate_ofInteger (n : Z) :
  Z.abs n < 2 ^ 53 ->
  0 <= f64_ofInteger n < 2 ^ 64
  /\ f64_truncate (f64_ofInteger n) = Some n.
Proof.
  intros Hlt. destruct (Z.eq_dec n 0) as [->|Hn];
    [split; [cbv; intuition congruence|reflexivity]|].
  destruct (f64_ofInteger_fields n Hn Hlt) as (k & m & Hk & Hm & Hsig & ->).
  set (s := if n <? 0 then 2 ^ 63 else 0).
  assert (Hs : s = 0 \/ s = 2 ^ 63) by (subst s; destruct (n <? 0); auto).
  set (bits := s + (k + 1023) * 2 ^ 52 + m).
  assert (Hq : bits / 2 ^ 52 = s / 2 ^ 52 + (k + 1023)).
  { symmetry. apply (Z.div_unique bits (2 ^ 52) _ m); [lia|].
    subst bits. destruct Hs as [->| ->].
    - change (0 / 2 ^ 52) with 0. lia.
    - change (2 ^ 63 / 2 ^ 52) with (2 ^ 11). lia. }
  assert (He : f64_exponent bits = k + 1023).
  { unfold f64_exponent. rewrite Hq.
    symmetry. apply (Z.mod_unique _ (2 ^ 11) (s / 2 ^ 52 / 2 ^ 11) _); [lia|].
    destruct Hs as [->| ->]; [change (0 / 2 ^ 52) with 0|
                              change (2 ^ 63 / 2 ^ 52) with (2 ^ 11)].
    - change (0 / 2 ^ 11) with 0. lia.
    - change (2 ^ 11 / 2 ^ 11) with 1. lia. }
  assert (Hf : f64_fraction bits = m).
  { unfold f64_fraction.
    symmetry. apply (Z.mod_unique bits (2 ^ 52) (s / 2 ^ 52 + (k + 1023)) m);
      [lia|].
    subst bits. destruct Hs as [->| ->].
    - change (0 / 2 ^ 52) with 0. lia.
    - change (2 ^ 63 / 2 ^ 52) with (2 ^ 11). lia. }
  assert (Hneg : f64_negative bits = (n <? 0)).
  { unfold f64_negative. subst bits s.
    destruct (n <? 0); [apply Z.leb_le|apply Z.leb_gt]; lia. }
  split; [subst bits; destruct Hs as [->| ->]; lia|].
  unfold f64_truncate. rewrite He, Hf, Hneg.
  destruct (Z.eqb_spec (k + 1023) 2047) as [|_]; [lia|].
  destruct (Z.eqb_spec (k + 1023) 0) as [|_]; [lia|].
  rewrite Hsig. f_equal.
  assert (Hmag : (if 1075 <=? k + 1023
                  then Z.abs n * 2 ^ (52 - k) * 2 ^ (k + 1023 - 1075)
                  else Z.abs n * 2 ^ (52 - k) / 2 ^ (1075 - (k + 1023)))
                 = Z.abs n).
  { destruct (Z.leb_spec 1075 (k + 1023)).
    - assert (k = 52) as -> by lia. cbn. lia.
    - replace (1075 - (k + 1023)) with (52 - k) by lia.
      apply Z.div_mul. apply Z.pow_nonzero; lia. }
  rewrite Hmag. destruct (Z.ltb_spec n 0); lia.
Qed.

Lemma isTimeValue_NaN : isTimeValue f64_NaN.
Proof. split; [cbv; intuition congruence|reflexivity]. Qed.

(** [new Date(number)] always holds a time value. *)
Lemma isTimeValue_newDate (time : float64) : isTimeValue (newDate time).
Proof.
  unfold newDate, TimeClip.
  destruct (f64_truncate time) as [n|]; [|apply isTimeValue_NaN].
  destruct (Z.ltb_spec 8640000000000000 (Z.abs n)); [apply isTimeValue_NaN|].
  destruct (f64_truncate_ofInteger n ltac:(lia)) as [Hr Ht].
  split; [exact Hr|]. unfold TimeClip. rewrite Ht.
  destruct (Z.ltb_spec 8640000000000000 (Z.abs n)); [lia|reflexivity].
Qed.

(** * The values that the readers return *)

Lemma getBytes_length (buffer : ArrayBuffer) (offset n : nat) (bs : list byte) :
  getBytes buffer offset n = Ret bs -> length bs = n.
Proof.
  unfold getBytes, slice.
  destruct (Nat.leb_spec (offset + n) (length buffer)); [|discriminate].
  intros E. inversion E. rewrite length_firstn, length_skipn. lia.
Qed.

Lemma getUint32_range (buffer : ArrayBuffer) (offset : nat) (z : Z) :
  getUint32 buffer offset = Ret z -> 0 <= z < 2 ^ 32.
Proof.
  unfold getUint32. destruct (getBytes buffer offset 4) as [bs|] eqn:E;
    cbn [bind]; [|discriminate].
  intros H. inversion H. subst z. apply getBytes_length in E.
  pose proof (beVal_range bs) as R. rewrite E in R. exact R.
Qed.

Lemma getFloat64_isNumber (buffer : ArrayBuffer) (offset : nat) (z : Z) :
  getFloat64 buffer offset = Ret z -> isNumber z.
Proof.
  unfold getFloat64. destruct (getBytes buffer offset 8) as [bs|] eqn:E;
    cbn [bind]; [|discriminate].
  intros H. inversion H. subst z. apply getBytes_length in E.
  pose proof (beVal_range bs) as R. rewrite E in R.
  apply isNumber_canonNaN. exact R.
Qed.

Lemma length_slice (buffer : ArrayBuffer) (offset n : nat) :
  (length (slice buffer offset (offset + n)) <= n)%nat.
Proof. unfold slice. rewrite length_firstn. lia. Qed.

Lemma fitsUint32_le (n : nat) (z : Z) :
  0 <= z < 2 ^ 32 -> (n <= Z.to_nat z)%nat -> fitsUint32 n = true.
Proof. intros Hz Hn. unfold fitsUint32. apply Z.ltb_lt. lia. Qed.

Lemma isNumberb_true (n : float64) : isNumber n -> isNumberb n = true.
Proof.
  intros [[H0 H1] Hc]. unfold isNumberb.
  rewrite Hc, Z.eqb_refl, andb_true_r.
  apply andb_true_intro. split; [apply Z.leb_le|apply Z.ltb_lt]; assumption.
Qed.

Lemma isTimeValueb_true (time : float64) :
  isTimeValue time -> isTimeValueb time = true.
Proof.
  intros [[H0 H1] Hc]. unfold isTimeValueb.
  rewrite Hc, Z.eqb_refl, andb_true_r.
  apply andb_true_intro. split; [apply Z.leb_le|apply Z.ltb_lt]; assumption.
Qed.

(** ** The decoder emits scalar values *)

Lemma isScalarValue_replacement : isScalarValue 0xFFFD.
Proof. unfold isScalarValue. lia. Qed.

Lemma utf8First_scalars (k : Z -> nat -> Z -> Z -> list Z) (byte : Z) :
  0 <= byte < 256 ->
  (forall codePoint needed lower upper,
      completes isScalarValue needed codePoint lower upper ->
      Forall isScalarValue (k codePoint needed lower upper)) ->
  Forall isScalarValue (utf8First k byte).
Proof.
  intros Hb Hk. unfold utf8First.
  destruct (byte <=? 0x7F) eqn:E1.
  { tests. constructor; [unfold isScalarValue; lia|]. apply Hk. exact I. }
  destruct ((0xC2 <=? byte) && (byte <=? 0xDF)) eqn:E2.
  { tests. apply Hk. cbn [completes]. intros b Hr.
    unfold isScalarValue. arith. }
  destruct ((0xE0 <=? byte) && (byte <=? 0xEF)) eqn:E3.
  { tests. apply Hk. cbn [completes]. intros b Hr b' Hr'.
    unfold isScalarValue.
    destruct (Z.eqb_spec byte 0xE0) as [->|]; [simpl (_ =? _) in Hr; arith|].
    destruct (Z.eqb_spec byte 0xED) as [->|]; [simpl (_ =? _) in Hr; arith|].
    arith. }
  destruct ((0xF0 <=? byte) && (byte <=? 0xF4)) eqn:E4.
  { tests. apply Hk. cbn [completes]. intros b Hr b' Hr' b'' Hr''.
    unfold isScalarValue.
    destruct (Z.eqb_spec byte 0xF0) as [->|]; [simpl (_ =? _) in Hr; arith|].
    destruct (Z.eqb_spec byte 0xF4) as [->|]; [simpl (_ =? _) in Hr; arith|].
    arith. }
  constructor; [apply isScalarValue_replacement|]. apply Hk. exact I.
Qed.

Lemma utf8Decode_scalars (bytes : list byte) :
  forall codePoint needed lower upper,
    completes isScalarValue needed codePoint lower upper ->
    Forall isScalarValue (utf8Decode bytes codePoint needed lower upper).
Proof.
  induction bytes as [|b rest IH]; intros codePoint needed lower upper Hc;
    cbn [utf8Decode].
  - destruct needed; constructor; [apply isScalarValue_replacement|].
    constructor.
  - destruct needed as [|needed'].
    + apply utf8First_scalars; [apply byteVal_range|exact IH].
    + destruct ((lower <=? byteVal b) && (byteVal b <=? upper)) eqn:E.
      * tests. cbn [completes] in Hc.
        specialize (Hc (byteVal b) (conj H H0)).
        destruct needed'.
        -- constructor; [exact Hc|]. apply IH. exact I.
        -- apply IH. exact Hc.
      * constructor; [apply isScalarValue_replacement|].
        apply utf8First_scalars; [apply byteVal_range|exact IH].
Qed.

Lemma codeUnits_wellFormed (cs : list Z) :
  Forall isScalarValue cs -> isWellFormed (flat_map codeUnits cs) = true.
Proof.
  induction 1 as [|c cs [Hr Hs] _ IH]; [reflexivity|].
  cbn [flat_map]. unfold codeUnits at 1.
  destruct (c <? 0x10000) eqn:E; tests; cbn [app isWellFormed].
  - unfold isCodeUnit, isLeadSurrogate, isTrailSurrogate.
    replace (0 <=? c) with true by (symmetry; apply Z.leb_le; lia).
    replace (c <=? 0xFFFF) with true by (symmetry; apply Z.leb_le; lia).
    cbn [andb].
    destruct (Z.leb_spec 0xD800 c), (Z.leb_spec c 0xDBFF),
      (Z.leb_spec 0xDC00 c), (Z.leb_spec c 0xDFFF); cbn [andb negb];
      try exact IH; lia.
  - unfold isCodeUnit, isLeadSurrogate, isTrailSurrogate.
    rewrite IH, andb_true_r.
    repeat match goal with
    | |- context [?a <=? ?b] =>
        replace (a <=? b) with true by (symmetry; apply Z.leb_le; arith)
    end.
    reflexivity.
Qed.

Lemma decode_wellFormed (bytes : list byte) :
  isWellFormed (decode bytes) = true.
Proof.
  unfold decode. apply codeUnits_wellFormed, utf8Decode_scalars. exact I.
Qed.

(** ** The properties that an assignment leaves *)

Lemma updateProperty_keys (props : list (DOMString.t * Value))
  (key : DOMString.t) (val : Value) :
  map fst (updateProperty props key val) = map fst props.
Proof.
  induction props as [|[k v] rest IH]; cbn [updateProperty map fst];
    [reflexivity|].
  destruct (DOMString.eqb k key); cbn [map fst]; [reflexivity|].
  rewrite IH. reflexivity.
Qed.

Lemma updateProperty_Forall (P : DOMString.t * Value -> Prop)
  (props : list (DOMString.t * Value)) (key : DOMString.t) (val : Value) :
  Forall P props -> P (key, val) ->
  Forall P (updateProperty props key val).
Proof.
  intros Hall Hnew.
  induction Hall as [|[k v] rest Hkv Hrest IH]; cbn [updateProperty];
    [constructor|].
  destruct (DOMString.eqb k key) eqn:E.
  - apply DOMString_eqb_eq in E. subst k. constructor; assumption.
  - constructor; assumption.
Qed.

Lemma insertProperty_Forall (P : DOMString.t * Value -> Prop)
  (props : list (DOMString.t * Value)) (key : DOMString.t) (val : Value) :
  Forall P props -> P (key, val) ->
  Forall P (insertProperty props key val).
Proof.
  intros Hall Hnew.
  induction Hall as [|[k v] rest Hkv Hrest IH]; cbn [insertProperty].
  - constructor; [exact Hnew|constructor].
  - destruct (precedes key k); repeat constructor; assumption.
Qed.

Lemma setProperty_Forall (P : DOMString.t * Value -> Prop)
  (props : list (DOMString.t * Value)) (key : DOMString.t) (val : Value) :
  Forall P props -> P (key, val) ->
  Forall P (setProperty props key val).
Proof.
  intros Hall Hnew. unfold setProperty.
  destruct (isSome _);
    [apply updateProperty_Forall|apply insertProperty_Forall]; assumption.
Qed.

Lemma insertProperty_length (props : list (DOMString.t * Value))
  (key : DOMString.t) (val : Value) :
  length (insertProperty props key val) = S (length props).
Proof.
  induction props as [|[k v] rest IH]; cbn [insertProperty length];
    [reflexivity|].
  destruct (precedes key k); cbn [length]; lia.
Qed.

Lemma setProperty_length (props : list (DOMString.t * Value))
  (key : DOMString.t) (val : Value) :
  (length (setProperty props key val) <= S (length props))%nat.
Proof.
  unfold setProperty. destruct (isSome _).
  - rewrite <- (length_map fst), updateProperty_keys, length_map. lia.
  - rewrite insertProperty_length. lia.
Qed.

Lemma getProperty_None (props : list (DOMString.t * Value))
  (key : DOMString.t) :
  getProperty props key = None ->
  existsb (DOMString.eqb key) (map fst props) = false.
Proof.
  induction props as [|[k v] rest IH]; cbn [map fst existsb getProperty];
    [reflexivity|].
  rewrite (DOMString_eqb_sym key k).
  destruct (DOMString.eqb k key); [discriminate|]. exact IH.
Qed.

Lemma insertProperty_exists (f : DOMString.t -> bool)
  (props : list (DOMString.t * Value)) (key : DOMString.t) (val : Value) :
  existsb f (map fst (insertProperty props key val))
  = f key || existsb f (map fst props).
Proof.
  induction props as [|[k v] rest IH];
    cbn [insertProperty map fst existsb]; [reflexivity|].
  destruct (precedes key k); cbn [map fst existsb]; [reflexivity|].
  rewrite IH. destruct (f key), (f k); reflexivity.
Qed.

Lemma insertProperty_distinct (props : list (DOMString.t * Value))
  (key : DOMString.t) (val : Value) :
  existsb (DOMString.eqb key) (map fst props) = false ->
  distinct (map fst props) = true ->
  distinct (map fst (insertProperty props key val)) = true.
Proof.
  induction props as [|[k v] rest IH];
    cbn [insertProperty map fst existsb distinct]; intros Hf Hd;
    [reflexivity|].
  apply orb_false_iff in Hf. destruct Hf as [Hk Hf].
  apply andb_true_iff in Hd. destruct Hd as [Hn Hd].
  destruct (precedes key k); cbn [map fst distinct existsb].
  - rewrite Hk, Hf, Hn, Hd. reflexivity.
  - rewrite insertProperty_exists, (DOMString_eqb_sym k key), Hk.
    cbn [orb]. apply andb_true_intro. split; [exact Hn|].
    apply IH; assumption.
Qed.

Lemma precedes_asym (a b : DOMString.t) :
  precedes a b = true -> precedes b a = false.
Proof.
  unfold precedes. destruct (arrayIndex a), (arrayIndex b);
    intros H; try reflexivity; try discriminate; tests.
  apply Z.ltb_ge. lia.
Qed.

Lemma insertProperty_order (props : list (DOMString.t * Value))
  (key : DOMString.t) (val : Value) :
  ownKeysOrder (map fst props) = true ->
  ownKeysOrder (map fst (insertProperty props key val)) = true.
Proof.
  induction props as [|[k v] rest IH];
    cbn [insertProperty map fst]; intros Ho; [reflexivity|].
  destruct (precedes key k) eqn:E.
  - change (map fst ((key, val) :: (k, v) :: rest))
      with (key :: map fst ((k, v) :: rest)).
    cbn [ownKeysOrder]. cbn [map fst] in *.
    rewrite (precedes_asym _ _ E). cbn [negb andb]. exact Ho.
  - cbn [map fst ownKeysOrder] in *.
    apply andb_true_iff in Ho. destruct Ho as [Hk Ho].
    rewrite (IH Ho), andb_true_r.
    destruct rest as [|[k' v'] rest']; cbn [insertProperty map fst].
    + rewrite E. reflexivity.
    + cbn [map fst] in Hk. destruct (precedes key k'); cbn [map fst].
      * rewrite E. reflexivity.
      * exact Hk.
Qed.

Lemma setProperty_distinct (props : list (DOMString.t * Value))
  (key : DOMString.t) (val : Value) :
  distinct (map fst props) = true ->
  distinct (map fst (setProperty props key val)) = true.
Proof.
  intros Hd. unfold setProperty.
  destruct (getProperty props key) eqn:E; cbn [isSome].
  - rewrite updateProperty_keys. exact Hd.
  - apply insertProperty_distinct; [apply getProperty_None, E|exact Hd].
Qed.

Lemma setProperty_order (props : list (DOMString.t * Value))
  (key : DOMString.t) (val : Value) :
  ownKeysOrder (map fst props) = true ->
  ownKeysOrder (map fst (setProperty props key val)) = true.
Proof.
  intros Ho. unfold setProperty. destruct (isSome _).
  - rewrite updateProperty_keys. exact Ho.
  - apply insertProperty_order, Ho.
Qed.

Lemma forLoop_invariant {State : Type}
  (body : State -> nat -> result (State * nat))
  (P : State -> Prop) (size : State -> nat) :
  (forall s o s' o',
      P s -> body s o = Ret (s', o') -> P s' /\ (size s' <= S (size s))%nat) ->
  forall count s o s' o',
    P s -> forLoop count body s o = Ret (s', o') ->
    P s' /\ (size s' <= size s + count)%nat.
Proof.
  intros Hb. induction count as [|count IH]; intros s o s' o' Hs H;
    cbn [forLoop] in H.
  - inversion H. subst. split; [exact Hs|lia].
  - destruct (body s o) as [[s1 o1]|] eqn:E; cbn [bind] in H; [|discriminate].
    destruct (Hb _ _ _ _ Hs E) as [Hs1 Hl1].
    destruct (IH _ _ _ _ Hs1 H) as [Hs' Hl']. split; [exact Hs'|lia].
Qed.

(** ** The invariant of the readers *)

Lemma decoded_number (buffer : ArrayBuffer) (offset : nat) (z : Z) :
  getFloat64 buffer offset = Ret z -> decoded (VNumber z) = true.
Proof.
  intros H. apply isNumberb_true, (getFloat64_isNumber _ _ _ H).
Qed.

Lemma decoded_date (time : float64) : decoded (VDate (newDate time)) = true.
Proof. apply isTimeValueb_true, isTimeValue_newDate. Qed.

Lemma decoded_string (bytes : list byte) :
  decoded (VString (decode bytes)) = true.
Proof. apply decode_wellFormed. Qed.

Lemma decoded_typedArray (buffer : ArrayBuffer) (o1 o2 : nat) (len : Z)
  (Ctor : ElementType) (a : TypedArray.t) :
  getUint32 buffer o1 = Ret len ->
  newTypedArray Ctor (slice buffer o2 (o2 + Z.to_nat len)) = Ret a ->
  decoded (VTypedArray a) = true.
Proof.
  intros H Ha. apply getUint32_range in H.
  pose proof (length_slice buffer o2 (Z.to_nat len)) as Hl.
  remember (slice buffer o2 (o2 + Z.to_nat len)) as sub eqn:Es. clear Es.
  unfold newTypedArray in Ha.
  destruct (Nat.eqb_spec (length sub mod BYTES_PER_ELEMENT Ctor) 0) as [Hm|];
    [|discriminate].
  inversion Ha. subst a. clear Ha.
  cbn [decoded]. unfold isTypedArrayb.
  cbn [TypedArray.byteOffset TypedArray.byteLength TypedArray.buffer
       TypedArray.elementType Nat.add].
  rewrite Nat.leb_refl, Hm, Nat.eqb_refl. cbn [Nat.eqb andb].
  rewrite ?Nat.eqb_refl, ?andb_true_r. apply (fitsUint32_le _ len H Hl).
Qed.

Lemma decoded_array (items : list Value) :
  fitsUint32 (length items) = true ->
  Forall (fun item => decoded item = true) items ->
  decoded (VArray items) = true.
Proof.
  intros Hn Hall. cbn [decoded]. rewrite Hn. cbn [andb].
  apply forallb_forall. rewrite Forall_forall in Hall. exact Hall.
Qed.

Lemma decoded_object (props : list (DOMString.t * Value)) :
  fitsUint32 (length props) = true ->
  distinct (map fst props) = true ->
  ownKeysOrder (map fst props) = true ->
  Forall (fun p => isWellFormed (fst p) = true
                   /\ DOMString.eqb (fst p) PROTO = false
                   /\ decoded (snd p) = true) props ->
  decoded (VObject props) = true.
Proof.
  intros Hn Hd Ho Hall. cbn [decoded]. rewrite Hn, Hd, Ho. cbn [andb].
  apply forallb_forall. rewrite Forall_forall in Hall.
  intros [k x] Hx. destruct (Hall _ Hx) as (Hk & Hp & Hv).
  cbn [fst snd] in *. rewrite Hk, Hp, Hv. reflexivity.
Qed.

Lemma basic_wellFormed (s : DOMString.t) :
  Forall (fun u => 0 <= u < 0xD800) s -> isWellFormed s = true.
Proof.
  induction 1 as [|u s Hu _ IH]; [reflexivity|].
  cbn [isWellFormed]. unfold isCodeUnit, isLeadSurrogate, isTrailSurrogate.
  rewrite IH.
  replace (0 <=? u) with true by (symmetry; apply Z.leb_le; lia).
  replace (u <=? 0xFFFF) with true by (symmetry; apply Z.leb_le; lia).
  replace (0xD800 <=? u) with false by (symmetry; apply Z.leb_gt; lia).
  replace (0xDC00 <=? u) with false by (symmetry; apply Z.leb_gt; lia).
  reflexivity.
Qed.

Lemma digits_basic (fuel : nat) :
  forall n numeral,
    Forall (fun u => 0 <= u < 0xD800) numeral ->
    Forall (fun u => 0 <= u < 0xD800) (digits fuel n numeral).
Proof.
  induction fuel as [|fuel IH]; intros n numeral H; cbn [digits];
    [exact H|].
  assert (Hd : Forall (fun u => 0 <= u < 0xD800) ((48 + n mod 10) :: numeral)).
  { constructor; [|exact H]. pose proof (Z.mod_pos_bound n 10). lia. }
  destruct (n <? 10); [exact Hd|apply IH, Hd].
Qed.

Lemma numberToString_wellFormed (n : float64) (k : DOMString.t) :
  numberToString n = Ret k -> isWellFormed k = true.
Proof.
  unfold numberToString.
  destruct (f64_isNaN n); [intros E; inversion E; reflexivity|].
  destruct (f64_truncate n) as [z|].
  - destruct (n mod 2 ^ 63 =? 0); [intros E; inversion E; reflexivity|].
    destruct (_ && _); [|discriminate].
    intros E.
    assert (Hk : k = (if z <? 0 then [45] else []) ++ digits 16 (Z.abs z) [])
      by congruence.
    clear E. subst k. apply basic_wellFormed. apply Forall_app. split.
    + destruct (z <? 0); repeat constructor; lia.
    + apply digits_basic. constructor.
  - destruct (f64_negative n); intros E; inversion E; reflexivity.
Qed.

Lemma toPropertyKey_wellFormed (key : Value) (k : DOMString.t) :
  decoded key = true -> toPropertyKey key = Ret k -> isWellFormed k = true.
Proof.
  destruct key; cbn [toPropertyKey decoded]; intros Hd E;
    try discriminate Hd; try discriminate E.
  - inversion E. reflexivity.
  - destruct b; inversion E; reflexivity.
  - apply (numberToString_wellFormed _ _ E).
  - inversion E. subst. exact Hd.
  - destruct (getProperty props TO_STRING) as [[]|]; try discriminate E.
    inversion E. reflexivity.
Qed.

(** The state of the loop that reads the properties of an object. *)
Lemma assign_invariant (obj obj' : list (DOMString.t * Value))
  (key val : Value) :
  decoded key = true -> decoded val = true ->
  assign obj key val = Ret obj' ->
  (distinct (map fst obj) = true
   /\ ownKeysOrder (map fst obj) = true
   /\ Forall (fun p => isWellFormed (fst p) = true
                       /\ DOMString.eqb (fst p) PROTO = false
                       /\ decoded (snd p) = true) obj) ->
  (distinct (map fst obj') = true
   /\ ownKeysOrder (map fst obj') = true
   /\ Forall (fun p => isWellFormed (fst p) = true
                       /\ DOMString.eqb (fst p) PROTO = false
                       /\ decoded (snd p) = true) obj')
  /\ (length obj' <= S (length obj))%nat.
Proof.
  intros Hk Hv Ha (Hd & Ho & Hall). unfold assign in Ha.
  destruct (toPropertyKey key) as [k|] eqn:Ek; cbn [bind] in Ha;
    [|discriminate].
  apply (toPropertyKey_wellFormed key k Hk) in Ek.
  destruct (DOMString.eqb k PROTO) eqn:E.
  - destruct (keepsPrototype val); [|discriminate].
    inversion Ha. subst obj'. repeat split; try assumption. lia.
  - inversion Ha. subst obj'. clear Ha. repeat split.
    + apply setProperty_distinct, Hd.
    + apply setProperty_order, Ho.
    + apply setProperty_Forall; [exact Hall|]. cbn [fst snd].
      repeat split; [exact Ek|exact E|exact Hv].
    + apply setProperty_length.
Qed.

Ltac decoded_leaf :=
  first
    [ reflexivity
    | apply decoded_date
    | apply decoded_string
    | eapply decoded_number; eassumption
    | eapply decoded_typedArray; eassumption ].

Lemma B_readChunk_decoded (fuel : nat) :
  forall buffer offset v offset',
    B.readChunk fuel buffer offset = Ret (v, offset') -> decoded v = true.
Proof.
  induction fuel as [|fuel IH]; intros buffer offset v offset' H;
    cbn [B.readChunk] in H; [discriminate|].
  destruct (getUint8 buffer offset) as [type|]; cbn [bind] in H;
    [|discriminate].
  repeat match type of H with
  | (if ?c then _ else _) = Ret _ => destruct c
  end; read_inv H; try decoded_leaf.
  - match goal with
    | L : forLoop _ _ _ _ = Ret _, U : getUint32 _ _ = Ret _ |- _ =>
        apply getUint32_range in U;
        apply (forLoop_invariant _
                 (Forall (fun item => decoded item = true))
                 (@length Value)) in L;
        [destruct L as [Hall Hlen]|clear L|constructor]
    end.
    + apply decoded_array; [|exact Hall].
      eapply fitsUint32_le; [eassumption|]. cbn [length] in Hlen. lia.
    + intros s o s' o' Hs Hb. read_inv Hb.
      match goal with
      | R : B.readChunk _ _ _ = Ret _ |- _ => apply IH in R
      end.
      split; [apply Forall_app; split; [exact Hs|constructor; auto]|].
      rewrite length_app. cbn [length]. lia.
  - match goal with
    | L : forLoop _ _ _ _ = Ret _, U : getUint32 _ _ = Ret _ |- _ =>
        apply getUint32_range in U;
        apply (forLoop_invariant _
                 (fun obj =>
                    distinct (map fst obj) = true
                    /\ ownKeysOrder (map fst obj) = true
                    /\ Forall (fun p =>
                                 isWellFormed (fst p) = true
                                 /\ DOMString.eqb (fst p) PROTO = false
                                 /\ decoded (snd p) = true) obj)
                 (@length (DOMString.t * Value))) in L;
        [destruct L as [(Hd & Ho & Hall) Hlen]|clear L
        |split; [reflexivity|split; [reflexivity|constructor]]]
    end.
    + apply decoded_object; [|exact Hd|exact Ho|exact Hall].
      eapply fitsUint32_le; [eassumption|]. cbn [length] in Hlen. lia.
    + intros s o s' o' Hs Hb. read_inv Hb.
      repeat match goal with
      | R : B.readChunk _ _ _ = Ret _ |- _ => apply IH in R
      end.
      eapply assign_invariant; [| |eassumption|]; eassumption.
Qed.

Lemma fitsUint32_mono (n m : nat) :
  (n <= m)%nat -> fitsUint32 m = true -> fitsUint32 n = true.
Proof.
  unfold fitsUint32. intros Hle Hm. apply Z.ltb_lt in Hm. apply Z.ltb_lt. lia.
Qed.

Lemma fitsUint32_read (buffer : ArrayBuffer) (offset : nat) (z : Z) :
  getUint32 buffer offset = Ret z -> fitsUint32 (Z.to_nat z) = true.
Proof.
  intros H. apply getUint32_range in H. apply (fitsUint32_le _ z H). lia.
Qed.

Lemma A_readChunk_decoded (fuel : nat) :
  forall buffer offset r,
    A.readChunk fuel buffer offset = Ret r ->
    decoded (A.ReadChunk.value r) = true.
Proof.
  induction fuel as [|fuel IH]; intros buffer offset r H;
    cbn [A.readChunk] in H; [discriminate|].
  destruct (getUint8 buffer offset) as [typeIndex|]; cbn [bind] in H;
    [|discriminate].
  match type of H with
  | bind ?m _ = Ret _ =>
      assert (Hfirst : forall len o v,
                 m = Ret (len, o, v) ->
                 decoded v = true /\ fitsUint32 len = true);
      [|destruct m as [[[len o] v]|] eqn:E; cbn [bind] in H; [|discriminate H];
        destruct (Hfirst _ _ _ eq_refl) as [Hv Hlen]; clear Hfirst]
  end.
  { intros len o v Hm.
    repeat match type of Hm with
    | (if ?c then _ else _) = Ret _ => destruct c
    end; read_inv Hm;
      (split;
       [decoded_leaf
       |first [reflexivity | eapply fitsUint32_read; eassumption]]). }
  clear E.
  repeat match type of H with
  | bind (if ?c then _ else _) _ = Ret _ => destruct c
  end; read_inv H;
    repeat match goal with
    | R : _ = Ret _ |- _ => progress read_inv R
    end; cbn [A.ReadChunk.value]; try decoded_leaf; try exact Hv.
  - match goal with
    | L : forLoop _ _ _ _ = Ret _ |- _ =>
        apply (forLoop_invariant _
                 (Forall (fun item => decoded item = true))
                 (@length Value)) in L;
        [destruct L as [Hall Hl]|clear L|constructor]
    end.
    + apply decoded_array; [|exact Hall].
      apply (fitsUint32_mono _ len); [cbn [length] in Hl; lia|exact Hlen].
    + intros s o1 s' o' Hs Hb. read_inv Hb.
      match goal with
      | R : A.readChunk _ _ _ = Ret _ |- _ => apply IH in R
      end.
      split; [apply Forall_app; split; [exact Hs|constructor; auto]|].
      rewrite length_app. cbn [length]. lia.
  - match goal with
    | L : forLoop _ _ _ _ = Ret _ |- _ =>
        apply (forLoop_invariant _
                 (fun obj =>
                    distinct (map fst obj) = true
                    /\ ownKeysOrder (map fst obj) = true
                    /\ Forall (fun p =>
                                 isWellFormed (fst p) = true
                                 /\ DOMString.eqb (fst p) PROTO = false
                                 /\ decoded (snd p) = true) obj)
                 (@length (DOMString.t * Value))) in L;
        [destruct L as [(Hd & Ho & Hall) Hl]|clear L
        |split; [reflexivity|split; [reflexivity|constructor]]]
    end.
    + apply decoded_object; [|exact Hd|exact Ho|exact Hall].
      apply (fitsUint32_mono _ len); [cbn [length] in Hl; lia|exact Hlen].
    + intros s o1 s' o' Hs Hb. read_inv Hb.
      repeat match goal with
      | R : A.readChunk _ _ _ = Ret _ |- _ => apply IH in R
      end.
      eapply assign_invariant; [| |eassumption|]; eassumption.
Qed.

(** * What [deserialize] returns, serialized again *)

Lemma map_fixed {X : Type} (f : X -> X) (l : list X) :
  Forall (fun x => f x = x) l -> map f l = l.
Proof.
  induction 1 as [|x rest Hx _ IH]; cbn [map]; congruence.
Qed.

Lemma decoded_array_inv (items : list Value) :
  decoded (VArray items) = true ->
  Forall (fun item => decoded item = true) items.
Proof.
  cbn [decoded]. intros H. apply andb_true_iff in H. destruct H as [_ H].
  apply Forall_forall. apply forallb_forall. exact H.
Qed.

Lemma decoded_object_inv (props : list (DOMString.t * Value)) :
  decoded (VObject props) = true ->
  Forall (fun p => decoded (snd p) = true) props.
Proof.
  cbn [decoded]. intros H. apply andb_true_iff in H. destruct H as [_ H].
  apply Forall_forall. intros [k x] Hx.
  apply (proj1 (forallb_forall _ _) H) in Hx.
  apply andb_true_iff in Hx. destruct Hx as [_ Hx]. exact Hx.
Qed.

Lemma decoded_degrade (v : Value) : decoded v = true -> degrade v = v.
Proof.
  induction v using Value_induction; intros Hd; try reflexivity;
    try discriminate Hd; cbn [degrade]; f_equal; apply map_fixed.
  - apply decoded_array_inv in Hd. rewrite Forall_forall in *. auto.
  - apply decoded_object_inv in Hd. rewrite Forall_forall in *.
    intros [k x] Hx. f_equal. apply (H _ Hx), (Hd _ Hx).
Qed.

Lemma decoded_wholeBuffers (v : Value) :
  decoded v = true -> wholeBuffers v = true.
Proof.
  induction v using Value_induction; intros Hd; try reflexivity;
    try discriminate Hd; cbn [wholeBuffers].
  - cbn [decoded] in Hd. apply andb_true_iff in Hd. destruct Hd as [_ Hd].
    exact Hd.
  - apply decoded_array_inv in Hd. apply forallb_forall.
    rewrite Forall_forall in *. auto.
  - apply decoded_object_inv in Hd. apply forallb_forall.
    rewrite Forall_forall in *. intros [k x] Hx. apply (H _ Hx), (Hd _ Hx).
Qed.

Section DecodedRebuilt.
Variable payload : TypedArray.t -> list byte.
Hypothesis payload_whole :
  forall k buffer,
    payload (TypedArray.mk k buffer 0 (length buffer)) = buffer.

Lemma decoded_rebuilt (v : Value) :
  decoded v = true -> rebuilt payload v = v.
Proof.
  induction v using Value_induction; intros Hd; try reflexivity;
    try discriminate Hd; cbn [rebuilt].
  - destruct a as [k buf bo bl]. cbn [decoded] in Hd.
    cbn [TypedArray.elementType TypedArray.byteLength TypedArray.buffer
         TypedArray.byteOffset] in *.
    apply andb_true_iff in Hd. destruct Hd as [Hd Hl].
    apply andb_true_iff in Hd. destruct Hd as [_ Ho].
    apply Nat.eqb_eq in Hl, Ho. subst bo bl.
    rewrite payload_whole. reflexivity.
  - f_equal. apply map_fixed. apply decoded_array_inv in Hd.
    rewrite Forall_forall in *. auto.
  - f_equal. apply map_fixed. apply decoded_object_inv in Hd.
    rewrite Forall_forall in *. intros [k x] Hx. f_equal.
    apply (H _ Hx), (Hd _ Hx).
Qed.
End DecodedRebuilt.

Lemma decoded_rebuiltB (v : Value) : decoded v = true -> rebuiltB v = v.
Proof. apply decoded_rebuilt. apply elementBytes_fresh. Qed.

Lemma decoded_rebuiltA (v : Value) : decoded v = true -> rebuiltA v = v.
Proof.
  apply decoded_rebuilt. intros k buffer. unfold bufferStart.
  cbn [TypedArray.byteLength TypedArray.buffer]. apply firstn_all.
Qed.

Lemma B_deserialize_decoded (buffer : ArrayBuffer) (v : Value) :
  B.deserialize buffer = Ret v -> decoded v = true.
Proof.
  unfold B.deserialize. destruct (_ =? _)%nat; [discriminate|].
  intros H. read_inv H.
  match goal with
  | R : B.readChunk _ _ _ = Ret _ |- _ => apply B_readChunk_decoded in R
  end.
  assumption.
Qed.

Lemma A_deserialize_decoded (buffer : ArrayBuffer) (v : Value) :
  A.deserialize buffer = Ret v -> decoded v = true.
Proof.
  unfold A.deserialize. intros H. read_inv H.
  match goal with
  | R : A.readChunk _ _ _ = Ret _ |- _ => apply A_readChunk_decoded in R
  end.
  assumption.
Qed.

Lemma B_fixed_point (v : Value) :
  decoded v = true -> supported v -> plain v = true ->
  B.serialize v = Ret (wireB v) /\ B.deserialize (wireB v) = Ret v.
Proof.
  intros Hd Hs Hp. split; [apply B_serialize_wire, supported_wellFormed, Hs|].
  rewrite <- (app_nil_r (wireB v)), (B_deserialize_wire v [] Hs).
  unfold receivedB. rewrite (received_rebuilt _ v Hs Hp).
  fold (rebuiltB v). rewrite (decoded_rebuiltB v Hd). reflexivity.
Qed.

Lemma A_fixed_point (v : Value) :
  decoded v = true -> supported v -> plain v = true ->
  shadowsHasOwnProperty v = false ->
  A.serialize v = Ret (wireA v) /\ A.deserialize (wireA v) = Ret v.
Proof.
  intros Hd Hs Hp Hsh. split.
  - apply A_serialize_whole;
      [apply supported_wellFormed, Hs|apply decoded_wholeBuffers, Hd|exact Hsh].
  - rewrite <- (app_nil_r (wireA v)), (A_deserialize_wire v [] Hs).
    unfold receivedA. rewrite (received_rebuilt _ v Hs Hp).
    fold (rebuiltA v). rewrite (decoded_rebuiltA v Hd). reflexivity.
Qed.

(** X12: what [B.deserialize] returns, and when it comes back unchanged.
    The value that [B.deserialize] returns has no [undefined], no function
    and no empty slot; its numbers and dates are such as a [DataView] and
    [new Date] give; its strings are well-formed; its typed arrays span a
    buffer of their own; its objects have distinct names in the order of
    their enumeration, none of them [__proto__].  When moreover every
    length of that value fits 32 bits and none of its strings and names
    starts with U+FEFF, [B.serialize] followed by [B.deserialize] gives
    back exactly that value.  A string that starts with U+FEFF does not
    come back: the bytes [EF BB BF EF BB BF] are read as the string
    U+FEFF, which is written as [EF BB BF] and read back as the empty
    string.  This is said of the buffers on which [assign] does not stop
    with [Unmodelled]: those in which no key chunk is a Date, an Array or
    a typed-array chunk or a Number chunk other than an integer below
    2^53, and no entry that decodes to the name [__proto__] holds [null],
    a date, a typed array, an array or an object. *)
Theorem X12_B_deserialize_fixed_point (buffer : ArrayBuffer) (v : Value) :
  B.deserialize buffer = Ret v ->
  decoded v = true /\ degrade v = v /\ wholeBuffers v = true
  /\ (supported v -> plain v = true ->
      exists bytes, B.serialize v = Ret bytes /\ B.deserialize bytes = Ret v)
  /\ B.deserialize [x05; x00; x00; x00; x06; xef; xbb; xbf; xef; xbb; xbf]
     = Ret (VString [0xFEFF])
  /\ B.serialize (VString [0xFEFF])
     = Ret [x05; x00; x00; x00; x03; xef; xbb; xbf]
  /\ B.deserialize [x05; x00; x00; x00; x03; xef; xbb; xbf]
     = Ret (VString []).
Proof.
  intros H. apply B_deserialize_decoded in H.
  split; [exact H|]. split; [apply decoded_degrade, H|].
  split; [apply decoded_wholeBuffers, H|].
  split; [|repeat split].
  intros Hs Hp. exists (wireB v). apply B_fixed_point; assumption.
Qed.

Lemma X12_B_deserialize_fixed_point_witness :
  B.deserialize [x05; x00; x00; x00; x02; "h"%byte; "i"%byte]
  = Ret (VString (text "hi"%string))
  /\ exists bytes,
       B.serialize (VString (text "hi"%string)) = Ret bytes
       /\ B.deserialize bytes = Ret (VString (text "hi"%string)).
Proof.
  split; [reflexivity|].
  apply (X12_B_deserialize_fixed_point
           [x05; x00; x00; x00; x02; "h"%byte; "i"%byte]
           (VString (text "hi"%string)));
    reflexivity.
Defined.

(** X13: what [A.deserialize] returns, and when it comes back unchanged.
    The value that [A.deserialize] returns has no [undefined], no function
    and no empty slot, well-formed strings, typed arrays that span a
    buffer of their own and objects with distinct names in the order of
    their enumeration, none of them [__proto__].  When moreover every
    length of that value fits 32 bits, none of its strings and names
    starts with U+FEFF and none of its objects has a property named
    [hasOwnProperty], [A.serialize] returns a buffer for it and
    [A.deserialize] gives back exactly that value.  An object with such a
    property is returned by [A.deserialize] and refused by [A.serialize]
    with a [TypeError].  This is said of the buffers on which [assign]
    does not stop with [Unmodelled], as for implementation B. *)
Theorem X13_A_deserialize_fixed_point (buffer : ArrayBuffer) (v : Value) :
  A.deserialize buffer = Ret v ->
  decoded v = true /\ degrade v = v /\ wholeBuffers v = true
  /\ (supported v -> plain v = true -> shadowsHasOwnProperty v = false ->
      exists bytes, A.serialize v = Ret bytes /\ A.deserialize bytes = Ret v)
  /\ (exists bytes,
        A.deserialize bytes = Ret (VObject [(HAS_OWN_PROPERTY, VNull)])
        /\ A.serialize (VObject [(HAS_OWN_PROPERTY, VNull)])
           = Throw TypeError).
Proof.
  intros H. apply A_deserialize_decoded in H.
  split; [exact H|]. split; [apply decoded_degrade, H|].
  split; [apply decoded_wholeBuffers, H|]. split.
  - intros Hs Hp Hsh. exists (wireA v). apply A_fixed_point; assumption.
  - exists (wireA (VObject [(HAS_OWN_PROPERTY, VNull)])).
    split; reflexivity.
Qed.

Lemma X13_A_deserialize_fixed_point_witness :
  A.deserialize [x16; x00; x00; x00; x01; x02; x07; xff]
  = Ret (VArray [VBoolean true])
  /\ exists bytes,
       A.serialize (VArray [VBoolean true]) = Ret bytes
       /\ A.deserialize bytes = Ret (VArray [VBoolean true]).
Proof.
  split; [reflexivity|].
  apply (X13_A_deserialize_fixed_point
           [x16; x00; x00; x00; x01; x02; x07; xff]
           (VArray [VBoolean true]));
    reflexivity.
Defined.

(** * The bytes of a value determine it, and do not change *)

Section WireRebuilt.
Variable tagOf : Value -> Z.
Variable stringTag : Z.
Variable payload : TypedArray.t -> list byte.
Hypothesis tagOf_rebuilt :
  forall v, tagOf (rebuilt payload v) = tagOf v.
Hypothesis payload_rebuilt :
  forall a,
    isTypedArray a ->
    length (payload a) = TypedArray.byteLength a
    /\ payload (TypedArray.mk (TypedArray.elementType a) (payload a) 0
                  (length (payload a)))
       = payload a.

Lemma wire_rebuilt (v : Value) :
  wellFormed v = true ->
  wire tagOf stringTag payload (rebuilt payload v)
  = wire tagOf stringTag payload v.
Proof.
  induction v using Value_induction; intros Hs; try discriminate Hs;
    try (cbn [rebuilt wire];
         rewrite <- ?(tagOf_rebuilt VUndefined),
           <- ?(tagOf_rebuilt VFunction); reflexivity).
  - pose proof (tagOf_rebuilt (VTypedArray a)) as T. cbn [rebuilt] in T.
    apply wellFormed_typedArray in Hs.
    destruct (payload_rebuilt a Hs) as [Hl Hp].
    cbn [rebuilt wire]. rewrite T.
    cbn [TypedArray.byteLength]. rewrite Hp, Hl. reflexivity.
  - pose proof (tagOf_rebuilt (VArray items)) as T. cbn [rebuilt] in T.
    apply wellFormed_array in Hs.
    cbn [rebuilt wire]. rewrite T, length_map. clear T. do 2 f_equal.
    induction H as [|x rest Hx _ IH]; cbn [map flat_map]; [reflexivity|].
    inversion Hs; subst. rewrite Hx, IH by assumption. reflexivity.
  - pose proof (tagOf_rebuilt (VObject props)) as T. cbn [rebuilt] in T.
    apply wellFormed_object in Hs.
    cbn [rebuilt wire]. rewrite T, length_map. clear T. do 2 f_equal.
    induction H as [|[k x] rest Hx _ IH]; cbn [map flat_map]; [reflexivity|].
    inversion Hs; subst. cbn [snd] in *. rewrite Hx, IH by assumption.
    reflexivity.
Qed.

Lemma rebuilt_wellFormed (v : Value) :
  wellFormed v = true -> wellFormed (rebuilt payload v) = true.
Proof.
  induction v using Value_induction; intros Hs; try discriminate Hs;
    try reflexivity; cbn [rebuilt wellFormed].
  - apply wellFormed_typedArray in Hs.
    destruct (payload_rebuilt a Hs) as [Hl _].
    destruct Hs as (Hin & Hmod). unfold isTypedArrayb.
    cbn [TypedArray.byteOffset TypedArray.byteLength TypedArray.buffer
         TypedArray.elementType Nat.add].
    rewrite Nat.leb_refl, Hl, Hmod. reflexivity.
  - apply wellFormed_array in Hs. apply forallb_forall. intros x Hx.
    apply in_map_iff in Hx. destruct Hx as (y & <- & Hy).
    rewrite Forall_forall in *. auto.
  - apply wellFormed_object in Hs. apply forallb_forall. intros [k x] Hx.
    apply in_map_iff in Hx. destruct Hx as ([k' y] & E & Hy).
    inversion E; subst. rewrite Forall_forall in *.
    apply (H _ Hy), (Hs _ Hy).
Qed.

Lemma rebuilt_wholeBuffers (v : Value) :
  wholeBuffers (rebuilt payload v) = true.
Proof.
  induction v using Value_induction; try reflexivity;
    cbn [rebuilt wholeBuffers].
  - cbn [TypedArray.byteLength TypedArray.buffer]. apply Nat.eqb_refl.
  - apply forallb_forall. intros x Hx.
    apply in_map_iff in Hx. destruct Hx as (y & <- & Hy).
    rewrite Forall_forall in *. auto.
  - apply forallb_forall. intros [k x] Hx.
    apply in_map_iff in Hx. destruct Hx as ([k' y] & E & Hy).
    inversion E; subst. rewrite Forall_forall in *. apply (H _ Hy).
Qed.

Lemma getProperty_rebuilt (props : list (DOMString.t * Value))
  (key : DOMString.t) :
  isSome (getProperty
            (map (fun '(key, val) => (key, rebuilt payload val)) props) key)
  = isSome (getProperty props key).
Proof.
  induction props as [|[k x] rest IH]; cbn [map getProperty];
    [reflexivity|].
  destruct (DOMString.eqb k key); [reflexivity|exact IH].
Qed.

Lemma rebuilt_shadows (v : Value) :
  shadowsHasOwnProperty (rebuilt payload v) = shadowsHasOwnProperty v.
Proof.
  induction v using Value_induction; try reflexivity;
    cbn [rebuilt shadowsHasOwnProperty].
  - induction H as [|x rest Hx _ IH]; cbn [map existsb]; [reflexivity|].
    rewrite Hx, IH. reflexivity.
  - rewrite getProperty_rebuilt. f_equal.
    induction H as [|[k x] rest Hx _ IH]; cbn [map existsb]; [reflexivity|].
    cbn [snd] in Hx. rewrite Hx, IH. reflexivity.
Qed.
End WireRebuilt.

Lemma wireB_rebuilt (v : Value) :
  wellFormed v = true ->
  wellFormed (rebuiltB v) = true /\ wireB (rebuiltB v) = wireB v.
Proof.
  assert (Hp : forall a,
             isTypedArray a ->
             length (elementBytes a) = TypedArray.byteLength a
             /\ elementBytes
                  (TypedArray.mk (TypedArray.elementType a) (elementBytes a) 0
                     (length (elementBytes a)))
                = elementBytes a).
  { intros a Ha. split; [apply length_elementBytes, Ha|].
    apply elementBytes_fresh. }
  intros Hs. split.
  - apply rebuilt_wellFormed; assumption.
  - apply wire_rebuilt; [|exact Hp|exact Hs].
    intros w. destruct w; reflexivity.
Qed.

Lemma wireA_rebuilt (v : Value) :
  wellFormed v = true ->
  wellFormed (rebuiltA v) = true /\ wireA (rebuiltA v) = wireA v.
Proof.
  assert (Hp : forall a,
             isTypedArray a ->
             length (bufferStart a) = TypedArray.byteLength a
             /\ bufferStart
                  (TypedArray.mk (TypedArray.elementType a) (bufferStart a) 0
                     (length (bufferStart a)))
                = bufferStart a).
  { intros a Ha. split; [apply length_bufferStart, Ha|].
    unfold bufferStart at 1. cbn [TypedArray.byteLength TypedArray.buffer].
    apply firstn_all. }
  intros Hs. split.
  - apply rebuilt_wellFormed; assumption.
  - apply wire_rebuilt; [|exact Hp|exact Hs].
    intros w. destruct w; reflexivity.
Qed.

(** X14: the bytes of a serialized value are stable.  For a supported
    value whose strings and property names are well-formed and do not
    start with U+FEFF, and whose objects have no property named
    [__proto__]: when the value that [deserialize] returns for its bytes
    is serialized again, the same bytes come out; for implementation A
    this holds of every buffer that [A.serialize] returns for a value
    whose objects have no property named [hasOwnProperty].  The bytes of
    the string that starts with U+FEFF are not stable: what is read back
    has lost the mark and is written in two bytes less. *)
Theorem X14_serialize_again (v : Value) :
  supported v -> plain v = true ->
  (exists bytes w,
      B.serialize v = Ret bytes /\ B.deserialize bytes = Ret w
      /\ B.serialize w = Ret bytes)
  /\ (shadowsHasOwnProperty v = false ->
      forall bytes,
        A.serialize v = Ret bytes ->
        exists w, A.deserialize bytes = Ret w /\ A.serialize w = Ret bytes)
  /\ (exists bytes w,
        B.serialize (VString markedText) = Ret bytes
        /\ B.deserialize bytes = Ret w
        /\ B.serialize w <> Ret bytes).
Proof.
  intros Hs Hp. pose proof (supported_wellFormed v Hs) as Hwf. split.
  - exists (wireB v), (rebuiltB v).
    split; [apply B_serialize_wire, Hwf|]. split.
    + rewrite <- (app_nil_r (wireB v)) at 1.
      rewrite (B_deserialize_wire v [] Hs). unfold receivedB.
      rewrite (received_rebuilt _ v Hs Hp). reflexivity.
    + destruct (wireB_rebuilt v Hwf) as [Hwf' Hw].
      rewrite (B_serialize_wire _ Hwf'), Hw. reflexivity.
  - split.
    + intros Hsh bytes Hser.
      apply (A_serialize_wire v bytes Hwf) in Hser.
      subst bytes. exists (rebuiltA v). split.
      * rewrite <- (app_nil_r (wireA v)) at 1.
        rewrite (A_deserialize_wire v [] Hs). unfold receivedA.
        rewrite (received_rebuilt _ v Hs Hp). reflexivity.
      * destruct (wireA_rebuilt v Hwf) as [Hwf' Hw].
        rewrite (A_serialize_whole _ Hwf'), Hw; [reflexivity| |].
        -- apply rebuilt_wholeBuffers.
        -- unfold rebuiltA. rewrite rebuilt_shadows. exact Hsh.
    + eexists. eexists. split; [reflexivity|]. split; [reflexivity|].
      discriminate.
Qed.

Lemma X14_serialize_again_witness :
  supported viewThenText
  /\ exists bytes w,
       B.serialize viewThenText = Ret bytes
       /\ B.deserialize bytes = Ret w
       /\ B.serialize w = Ret bytes.
Proof.
  split; [reflexivity|].
  apply (X14_serialize_again viewThenText); reflexivity.
Defined.

Lemma deepEqual_sym (v : Value) : forall w, deepEqual v w -> deepEqual w v.
Proof.
  induction v using Value_induction; intros w E; inversion E; subst;
    try constructor; auto.
  - clear E.
    match goal with F : Forall2 _ _ _ |- _ => revert H; induction F end;
      intros Hall; constructor; inversion Hall; subst; auto.
  - clear E.
    match goal with F : Forall2 _ _ _ |- _ => revert H; induction F end;
      intros Hall; constructor; inversion Hall; subst; intuition.
Qed.

Lemma deepEqual_trans (v : Value) :
  forall w u, deepEqual v w -> deepEqual w u -> deepEqual v u.
Proof.
  induction v using Value_induction; intros w u E1 E2; inversion E1; subst;
    inversion E2; subst; try constructor; try congruence.
  - clear E1 E2.
    match goal with
    | F : Forall2 _ items _, G : Forall2 _ _ _ |- Forall2 _ items ?l =>
        revert l G H; induction F; intros l G Hall; inversion G; subst;
        constructor; inversion Hall; subst; eauto
    end.
  - clear E1 E2.
    match goal with
    | F : Forall2 _ props _, G : Forall2 _ _ _ |- Forall2 _ props ?l =>
        revert l G H; induction F; intros l G Hall; inversion G; subst;
        constructor; inversion Hall; subst; eauto
    end.
    intuition; [congruence|eauto].
Qed.

(** X15: different values have different bytes.  When [serialize] returns
    the same buffer for two supported values whose strings and property
    names are well-formed and do not start with U+FEFF, and whose objects
    have no property named [__proto__], the two values are deep-equal
    once [undefined] and functions are replaced by [null]; for
    implementation A this holds of values whose typed arrays span their
    buffer and whose objects have no property named [hasOwnProperty].
    Two strings that are not well-formed can have the same
    bytes: the lone surrogates U+D800 and U+DC00 are both written as
    [EF BF BD]. *)
Theorem X15_serialize_injective (v1 v2 : Value) (bytes : ArrayBuffer) :
  supported v1 -> supported v2 -> plain v1 = true -> plain v2 = true ->
  (B.serialize v1 = Ret bytes -> B.serialize v2 = Ret bytes ->
   deepEqual (degrade v1) (degrade v2))
  /\ (wholeBuffers v1 = true -> wholeBuffers v2 = true ->
      shadowsHasOwnProperty v1 = false -> shadowsHasOwnProperty v2 = false ->
      A.serialize v1 = Ret bytes -> A.serialize v2 = Ret bytes ->
      deepEqual (degrade v1) (degrade v2))
  /\ B.serialize (VString [0xD800]) = B.serialize (VString [0xDC00])
  /\ A.serialize (VString [0xD800]) = A.serialize (VString [0xDC00])
  /\ B.serialize (VString [0xD800])
     = Ret [x05; x00; x00; x00; x03; xef; xbf; xbd].
Proof.
  intros Hs1 Hs2 Hp1 Hp2. split; [|split; [|repeat split]].
  - intros E1 E2.
    rewrite (B_serialize_wire _ (supported_wellFormed _ Hs1)) in E1.
    rewrite (B_serialize_wire _ (supported_wellFormed _ Hs2)) in E2.
    assert (E : receivedB v1 = receivedB v2).
    { pose proof (B_deserialize_wire v1 [] Hs1) as D1.
      pose proof (B_deserialize_wire v2 [] Hs2) as D2.
      rewrite app_nil_r in D1, D2. congruence. }
    apply deepEqual_trans with (w := receivedB v1).
    + apply deepEqual_sym, received_deepEqual; assumption.
    + rewrite E. apply received_deepEqual; assumption.
  - intros W1 W2 _ _ E1 E2.
    apply (A_serialize_wire _ _ (supported_wellFormed _ Hs1)) in E1.
    apply (A_serialize_wire _ _ (supported_wellFormed _ Hs2)) in E2.
    assert (E : receivedA v1 = receivedA v2).
    { pose proof (A_deserialize_wire v1 [] Hs1) as D1.
      pose proof (A_deserialize_wire v2 [] Hs2) as D2.
      rewrite app_nil_r in D1, D2. congruence. }
    apply deepEqual_trans with (w := receivedA v1).
    + apply deepEqual_sym, receivedA_deepEqual; assumption.
    + rewrite E. apply receivedA_deepEqual; assumption.
Qed.

Lemma X15_serialize_injective_witness :
  supported (VArray [VUndefined; VNumber 0])
  /\ supported (VArray [VFunction; VNumber 0])
  /\ B.serialize (VArray [VUndefined; VNumber 0])
     = B.serialize (VArray [VFunction; VNumber 0])
  /\ deepEqual (degrade (VArray [VUndefined; VNumber 0]))
       (degrade (VArray [VFunction; VNumber 0])).
Proof.
  split; [reflexivity|]. split; [reflexivity|]. split; [reflexivity|].
  destruct (X15_serialize_injective (VArray [VUndefined; VNumber 0])
              (VArray [VFunction; VNumber 0])
              [x06; x00; x00; x00; x02; x01; x03;
               x00; x00; x00; x00; x00; x00; x00; x00]
              ltac:(reflexivity) ltac:(reflexivity)
              ltac:(reflexivity) ltac:(reflexivity)) as [HB _].
  apply HB; reflexivity.
Defined.

(** * The two implementations side by side *)

Lemma fold_left_sizes_agree {C D : Type} (sizeC : C -> nat) (sizeD : D -> nat)
  (cs : list C) (ds : list D) :
  Forall2 (fun c d => sizeC c = sizeD d) cs ds ->
  forall acc,
    fold_left (fun n c => (n + sizeC c)%nat) cs acc
    = fold_left (fun n d => (n + sizeD d)%nat) ds acc.
Proof.
  induction 1 as [|c d cs ds Hcd _ IH]; intros acc; cbn [fold_left].
  - reflexivity.
  - rewrite Hcd. apply IH.
Qed.









(** X18: the two implementations write the scalars alike.  For [null],
    [undefined], a function, a boolean, a number and a date, whose tags
    are the same in the two tables, [A.serialize] and [B.serialize]
    return the same buffer, and each reader decodes it to the value the
    other one decodes it to. *)
Theorem X18_scalars_alike (v : Value) :
  lengthPrefixed v = false ->
  exists bytes,
    A.serialize v = Ret bytes /\ B.serialize v = Ret bytes
    /\ A.deserialize bytes = B.deserialize bytes.
Proof.
  intros Hv.
  destruct (match v with VHole => true | _ => false end) eqn:Eh.
  { destruct v; try discriminate Eh. exists [x01]. repeat split. }
  assert (Hwf : wellFormed v = true)
    by (destruct v; try discriminate; reflexivity).
  assert (Hsh : shadowsHasOwnProperty v = false)
    by (destruct v; try discriminate; reflexivity).
  assert (Hw : wholeBuffers v = true)
    by (destruct v; try discriminate; reflexivity).
  assert (Hwire : wireA v = wireB v)
    by (destruct v; try discriminate; reflexivity).
  exists (wireB v). rewrite <- Hwire at 1.
  split; [apply A_serialize_whole; assumption|].
  split; [apply B_serialize_wire, Hwf|].
  destruct v; try discriminate; reflexivity.
Qed.

Lemma X18_scalars_alike_witness :
  lengthPrefixed (VNumber 0x400921FB54442D18) = false
  /\ exists bytes,
       A.serialize (VNumber 0x400921FB54442D18) = Ret bytes
       /\ B.serialize (VNumber 0x400921FB54442D18) = Ret bytes
       /\ A.deserialize bytes = B.deserialize bytes.
Proof.
  split; [reflexivity|].
  apply (X18_scalars_alike (VNumber 0x400921FB54442D18)). reflexivity.
Defined.

Lemma forEach_agree {C : Type}
  (write : C -> ArrayBuffer -> nat -> result (ArrayBuffer * nat))
  (cs ds : list C) :
  Forall2 (fun c d => forall buffer offset,
             write c buffer offset = write d buffer offset) cs ds ->
  forall buffer offset,
    forEach write cs buffer offset = forEach write ds buffer offset.
Proof.
  induction 1 as [|c d cs ds Hcd _ IH]; intros buffer offset; cbn [forEach].
  - reflexivity.
  - rewrite Hcd. destruct (write d buffer offset) as [[b o]|e]; cbn [bind];
      [apply IH|reflexivity].
Qed.

Lemma sparse_array (items : list Value) :
  sparse (VArray items) = false ->
  Forall (fun item => item <> VHole /\ sparse item = false) items.
Proof.
  cbn [sparse]. intros H. apply Forall_forall. intros x Hx.
  assert (E : match x with VHole => true | _ => sparse x end = false).
  { destruct (match x with VHole => true | _ => sparse x end) eqn:E;
      [|reflexivity].
    rewrite <- H. symmetry. apply existsb_exists. eauto. }
  destruct x; try discriminate E; split; try exact E; discriminate.
Qed.

Lemma sparse_object (props : list (DOMString.t * Value)) :
  sparse (VObject props) = false ->
  Forall (fun p => sparse (snd p) = false) props.
Proof.
  cbn [sparse]. intros H. apply Forall_forall. intros [k x] Hx. cbn [snd].
  destruct (sparse x) eqn:E; [|reflexivity].
  rewrite <- H. symmetry. apply existsb_exists. exists (k, x). auto.
Qed.

Lemma mapSlot_degrade {C : Type} (f : Value -> C) (v : Value) :
  mapSlot f (degrade v) = Some (f (degrade v)).
Proof. destruct v; reflexivity. Qed.

Lemma mapSlot_value {C : Type} (f : Value -> C) (v : Value) :
  v <> VHole -> mapSlot f v = Some (f v).
Proof. destruct v; try reflexivity. congruence. Qed.

Lemma B_createChunk_degrade (v : Value) :
  sparse v = false -> B.createChunk (degrade v) = B.createChunk v.
Proof.
  induction v using Value_induction; intros Hsp; try reflexivity.
  - apply sparse_array in Hsp.
    cbn [degrade B.createChunk B.getTypeCode]. rewrite !length_map.
    do 2 f_equal. f_equal. rewrite map_map.
    induction H as [|x rest Hx _ IH]; cbn [map]; [reflexivity|].
    inversion Hsp as [|? ? [Hh Hs] Hrest]; subst.
    rewrite (mapSlot_degrade _ x), (mapSlot_value _ x Hh), (Hx Hs).
    rewrite (IH Hrest). reflexivity.
  - apply sparse_object in Hsp.
    cbn [degrade B.createChunk B.getTypeCode].
    assert (E : flat_map (fun '(key, val) =>
                            [Some (B.createStringChunk key);
                             Some (B.createChunk val)])
                  (map (fun '(key, val) => (key, degrade val)) props)
                = flat_map (fun '(key, val) =>
                              [Some (B.createStringChunk key);
                               Some (B.createChunk val)])
                    props).
    { induction H as [|[k x] rest Hx _ IH]; cbn [map flat_map app];
        [reflexivity|].
      inversion Hsp as [|? ? Hs Hrest]; subst.
      cbn [snd] in Hx, Hs. rewrite (Hx Hs), (IH Hrest). reflexivity. }
    rewrite E. reflexivity.
Qed.

Lemma A_createChunk_degrade (v : Value) :
  A.CreateChunk.byteLength (chunkTreeA (degrade v))
  = A.CreateChunk.byteLength (chunkTreeA v)
  /\ forall buffer offset,
       A.writeChunk (chunkTreeA (degrade v)) buffer offset
       = A.writeChunk (chunkTreeA v) buffer offset.
Proof.
  induction v using Value_induction; try (split; reflexivity).
  - assert (F : Forall2 (fun c d =>
                   A.CreateChunk.byteLength c = A.CreateChunk.byteLength d
                   /\ forall buffer offset,
                        A.writeChunk c buffer offset
                        = A.writeChunk d buffer offset)
                  (map chunkTreeA (map degrade items))
                  (map chunkTreeA items)).
    { induction H as [|x rest Hx _ IH]; cbn [map]; constructor; assumption. }
    clear H. split.
    + cbn [degrade chunkTreeA A.CreateChunk.byteLength].
      apply fold_left_sizes_agree.
      eapply Forall2_impl; [|exact F]. intros c d [E _]. exact E.
    + intros buffer offset. cbn [degrade]. A_unfold.
      destruct (setUint8 buffer offset A.TYPES.Array) as [b1|]; cbn [bind];
        [|reflexivity].
      decide_tests. rewrite length_map.
      destruct (setUint32 b1 _ _) as [b2|]; cbn [bind]; [|reflexivity].
      apply forEach_agree.
      eapply Forall2_impl; [|exact F]. intros c d [_ E]. exact E.
  - assert (F : Forall2 (fun c d =>
                   A.CreateChunk.byteLength c = A.CreateChunk.byteLength d
                   /\ forall buffer offset,
                        A.writeChunk c buffer offset
                        = A.writeChunk d buffer offset)
                  (flat_map (fun '(s, v) =>
                               [A.createStringChunk s; chunkTreeA v])
                     (map (fun '(key, val) => (key, degrade val)) props))
                  (flat_map (fun '(s, v) =>
                               [A.createStringChunk s; chunkTreeA v])
                     props)).
    { induction H as [|[k x] rest Hx _ IH]; cbn [map flat_map app];
        [constructor|].
      constructor; [split; reflexivity|]. constructor; assumption. }
    clear H. split.
    + cbn [degrade chunkTreeA A.CreateChunk.byteLength].
      apply fold_left_sizes_agree.
      eapply Forall2_impl; [|exact F]. intros c d [E _]. exact E.
    + intros buffer offset. cbn [degrade]. A_unfold.
      destruct (setUint8 buffer offset A.TYPES.Object) as [b1|]; cbn [bind];
        [|reflexivity].
      decide_tests. rewrite length_map.
      destruct (setUint32 b1 _ _) as [b2|]; cbn [bind]; [|reflexivity].
      apply forEach_agree.
      eapply Forall2_impl; [|exact F]. intros c d [_ E]. exact E.
Qed.

Lemma getProperty_degrade (props : list (DOMString.t * Value))
  (key : DOMString.t) :
  isSome (getProperty (map (fun '(key, val) => (key, degrade val)) props) key)
  = isSome (getProperty props key).
Proof.
  induction props as [|[k x] rest IH]; cbn [map getProperty];
    [reflexivity|].
  destruct (DOMString.eqb k key); [reflexivity|exact IH].
Qed.

Lemma degrade_shadows (v : Value) :
  shadowsHasOwnProperty (degrade v) = shadowsHasOwnProperty v.
Proof.
  induction v using Value_induction; try reflexivity;
    cbn [degrade shadowsHasOwnProperty].
  - induction H as [|x rest Hx _ IH]; cbn [map existsb]; [reflexivity|].
    rewrite Hx, IH. reflexivity.
  - rewrite getProperty_degrade. f_equal.
    induction H as [|[k x] rest Hx _ IH]; cbn [map existsb]; [reflexivity|].
    cbn [snd] in Hx. rewrite Hx, IH. reflexivity.
Qed.

(** X19: [undefined] and functions are written as [null], at any depth.
    [B.serialize] returns for a value whose arrays are dense what it
    returns for the value in which every [undefined] and every function
    is replaced by [null]: the same buffer, or the same error; the two
    chunk trees are already the same.  So does [A.serialize] for a value
    whose objects have no property named [hasOwnProperty], and there an
    empty slot of an array is written as [null] too, where [B.serialize]
    raises [TypeError]. *)
Theorem X19_undefined_written_as_null (v : Value) :
  (sparse v = false ->
   B.createChunk (degrade v) = B.createChunk v
   /\ B.serialize (degrade v) = B.serialize v)
  /\ (shadowsHasOwnProperty v = false ->
      A.serialize (degrade v) = A.serialize v)
  /\ A.serialize sparseArray = A.serialize (degrade sparseArray)
  /\ B.serialize sparseArray = Throw TypeError
  /\ B.serialize (degrade sparseArray)
     = Ret [x06; x00; x00; x00; x02; x01;
            x03; x3f; xf0; x00; x00; x00; x00; x00; x00].
Proof.
  split; [|split; [|repeat split]].
  - intros Hsp. split; [apply B_createChunk_degrade, Hsp|].
    unfold B.serialize. rewrite (B_createChunk_degrade v Hsp). reflexivity.
  - intros Hsh. unfold A.serialize.
    rewrite (A_createChunk_ok v Hsh).
    rewrite (A_createChunk_ok (degrade v))
      by (rewrite degrade_shadows; exact Hsh).
    cbn [bind]. cbv zeta. destruct (A_createChunk_degrade v) as [-> ->].
    reflexivity.
Qed.

Lemma X19_undefined_written_as_null_witness :
  B.serialize (VArray [VNull; VNull])
  = B.serialize (VArray [VUndefined; VFunction])
  /\ A.serialize (VArray [VNull; VNull])
     = A.serialize (VArray [VUndefined; VFunction]).
Proof.
  destruct (X19_undefined_written_as_null (VArray [VUndefined; VFunction]))
    as (HB & HA & _).
  split; [apply HB; reflexivity|apply HA; reflexivity].
Defined.

Lemma B_unknown_after_header (tag len : Z) (payload : list byte) :
  0 <= tag < 256 -> registeredB tag = false ->
  B.deserialize (byteOf tag :: bigEndian32 len ++ payload)
  = Throw (UnknownTypeCode tag).
Proof.
  intros Ht Hr.
  rewrite (B_unregistered (byteOf tag) (bigEndian32 len ++ payload)).
  - rewrite byteVal_byteOf, Z.mod_small by exact Ht. reflexivity.
  - rewrite byteVal_byteOf, Z.mod_small by exact Ht. exact Hr.
  - rewrite length_app. cbn [bigEndian32 length]. lia.
Qed.

(** X20: a typed array written by one implementation is misread by the
    other.  The typed-array tags of the two tables are shifted by one:
    implementation A reads the tag that B wrote for an [Int8Array] as
    [null] and every other typed-array tag of B as the element type just
    before it in the table, and implementation B reads the tag that A
    wrote for a [Float64Array] as an unknown type code and every other
    typed-array tag of A as the element type just after it.  The payload
    bytes are handed to the constructor of that other type, which raises
    [RangeError] when they do not hold whole elements of it; the array is
    never read back with its own element type. *)
Theorem X20_typed_arrays_across (a : TypedArray.t) :
  supported (VTypedArray a) ->
  (exists bytes,
      B.serialize (VTypedArray a) = Ret bytes
      /\ A.deserialize bytes
         = match A.typedArrayOf (B.getTypeCode (VTypedArray a)) with
           | Some Ctor =>
               r <- newTypedArray Ctor (elementBytes a) ;; Ret (VTypedArray r)
           | None => Ret VNull
           end)
  /\ (forall bytes,
        A.serialize (VTypedArray a) = Ret bytes ->
        B.deserialize bytes
        = match B.TYPED_ARRAY_TYPES (A.typeIndexOf (VTypedArray a)) with
          | Some Ctor =>
              r <- newTypedArray Ctor (bufferStart a) ;; Ret (VTypedArray r)
          | None => Throw (UnknownTypeCode (A.typeIndexOf (VTypedArray a)))
          end)
  /\ A.typedArrayOf (B.getTypeCode (VTypedArray a))
     <> Some (TypedArray.elementType a)
  /\ B.TYPED_ARRAY_TYPES (A.typeIndexOf (VTypedArray a))
     <> Some (TypedArray.elementType a)
  /\ map (fun k => A.typedArrayOf
                     (B.getTypeCode (VTypedArray (TypedArray.mk k [] 0 0))))
       elementTypes
     = [None; Some Int8Array; Some Int16Array; Some Int32Array;
        Some Uint8Array; Some Uint16Array; Some Uint32Array;
        Some Float32Array]
  /\ map (fun k => B.TYPED_ARRAY_TYPES
                     (A.typeIndexOf (VTypedArray (TypedArray.mk k [] 0 0))))
       elementTypes
     = [Some Int16Array; Some Int32Array; Some Uint8Array; Some Uint16Array;
        Some Uint32Array; Some Float32Array; Some Float64Array; None].
Proof.
  intros Hs. pose proof (supported_wellFormed _ Hs) as Hwf.
  apply supported_typedArray in Hs. destruct Hs as [Hta Hn].
  pose proof (length_elementBytes a Hta) as HlB.
  pose proof (length_bufferStart a Hta) as HlA.
  assert (Hr : 0 <= Z.of_nat (TypedArray.byteLength a) < 2 ^ 32) by lia.
  split; [|split; [|split; [|split; [|split; reflexivity]]]].
  - exists (wireB (VTypedArray a)).
    split; [apply B_serialize_wire, Hwf|].
    unfold wireB. cbn [wire]. rewrite beBytes_4.
    remember (elementBytes a) as eb eqn:Eeb. clear Eeb.
    destruct a as [k buf bo bl];
      cbn [TypedArray.elementType TypedArray.byteLength B.getTypeCode] in *.
    destruct k;
      [ rewrite (A_unregistered_low (byteOf B.TYPES.Int8Array));
        [reflexivity|reflexivity|cbv; reflexivity]
      | etransitivity;
        [ first
            [ exact (A_read_typedArray Int8Array (Z.of_nat bl) eb Hr)
            | exact (A_read_typedArray Int16Array (Z.of_nat bl) eb Hr)
            | exact (A_read_typedArray Int32Array (Z.of_nat bl) eb Hr)
            | exact (A_read_typedArray Uint8Array (Z.of_nat bl) eb Hr)
            | exact (A_read_typedArray Uint16Array (Z.of_nat bl) eb Hr)
            | exact (A_read_typedArray Uint32Array (Z.of_nat bl) eb Hr)
            | exact (A_read_typedArray Float32Array (Z.of_nat bl) eb Hr) ]
        | rewrite Nat2Z.id, firstn_all2 by lia; reflexivity ] .. ].
  - intros bytes Hser. apply (A_serialize_wire _ _ Hwf) in Hser. subst bytes.
    unfold wireA. cbn [wire]. rewrite beBytes_4.
    remember (bufferStart a) as eb eqn:Eeb. clear Eeb.
    destruct a as [k buf bo bl];
      cbn [TypedArray.elementType TypedArray.byteLength A.typeIndexOf] in *.
    destruct k;
      [ etransitivity;
        [ first
            [ exact (B_read_typedArray Int16Array (Z.of_nat bl) eb Hr)
            | exact (B_read_typedArray Int32Array (Z.of_nat bl) eb Hr)
            | exact (B_read_typedArray Uint8Array (Z.of_nat bl) eb Hr)
            | exact (B_read_typedArray Uint16Array (Z.of_nat bl) eb Hr)
            | exact (B_read_typedArray Uint32Array (Z.of_nat bl) eb Hr)
            | exact (B_read_typedArray Float32Array (Z.of_nat bl) eb Hr)
            | exact (B_read_typedArray Float64Array (Z.of_nat bl) eb Hr) ]
        | rewrite Nat2Z.id, firstn_all2 by lia; reflexivity ] ..
      | apply B_unknown_after_header; [cbv; intuition congruence|reflexivity] ].
  - destruct a as [k buf bo bl]. destruct k; discriminate.
  - destruct a as [k buf bo bl]. destruct k; discriminate.
Qed.

Lemma X20_typed_arrays_across_witness :
  supported (VTypedArray (TypedArray.mk Uint8Array [x01; x02; x03; x04] 0 4))
  /\ B.serialize
       (VTypedArray (TypedArray.mk Uint8Array [x01; x02; x03; x04] 0 4))
     = Ret [x0d; x00; x00; x00; x04; x01; x02; x03; x04]
  /\ A.deserialize [x0d; x00; x00; x00; x04; x01; x02; x03; x04]
     = Ret (VTypedArray
              (TypedArray.mk Int32Array [x01; x02; x03; x04] 0 4)).
Proof.
  split; [reflexivity|]. split; [reflexivity|].
  destruct (X20_typed_arrays_across
              (TypedArray.mk Uint8Array [x01; x02; x03; x04] 0 4)
              ltac:(reflexivity)) as [(bytes & Hser & Hde) _].
  vm_compute in Hser. inversion Hser. subst bytes. exact Hde.
Defined.

(** * The properties of an object, assigned one after the other *)

Lemma length_wire_entry tagOf stringTag payload
  (entries : list (DOMString.t * Value)) (p : DOMString.t * Value) :
  In p entries ->
  (length (wire tagOf stringTag payload (snd p))
   < length (flat_map (fun '(key, v) =>
                         wireString stringTag key
                           ++ wire tagOf stringTag payload v) entries))%nat.
Proof.
  induction entries as [|[k x] rest IH]; intros Hp; [contradiction|].
  cbn [flat_map]. rewrite !length_app. destruct Hp as [<-|Hp].
  - cbn [snd]. unfold wireString. cbn [length]. lia.
  - specialize (IH Hp). lia.
Qed.

Lemma supported_key (key : DOMString.t) :
  supported (VString key) -> Z.of_nat (length (encode key)) < 2 ^ 32.
Proof. apply supported_string. Qed.

Lemma B_read_assignments (entries : list (DOMString.t * Value)) :
  Z.of_nat (length entries) < 2 ^ 32 ->
  Forall (fun p => supported (VString (fst p)) /\ supported (snd p)
                   /\ (DOMString.eqb (decode (encode (fst p))) PROTO = true
                       -> keepsPrototype (degrade (snd p)) = true))
    entries ->
  B.deserialize
    (byteOf B.TYPES.Object :: bigEndian32 (Z.of_nat (length entries))
       ++ flat_map (fun '(key, val) => wireB (VString key) ++ wireB val)
            entries)
  = Ret (VObject
           (fold_left (fun obj '(key, val) =>
                         assigned obj (decode (encode key)) (receivedB val))
              entries [])).
Proof.
  intros Hn Hall.
  set (body := flat_map (fun '(key, val) => wireB (VString key) ++ wireB val)
                 entries).
  destruct (header_read B.TYPES.Object (Z.of_nat (length entries)) body
              ltac:(cbv; intuition congruence) ltac:(lia))
    as (Htag & Hlen & _).
  cbv zeta in Htag, Hlen. unfold B.deserialize.
  set (buffer := byteOf B.TYPES.Object
                   :: bigEndian32 (Z.of_nat (length entries)) ++ body) in *.
  assert (Hbuf : length buffer = (5 + length body)%nat).
  { subst buffer. cbn [length]. rewrite length_app. reflexivity. }
  destruct (Nat.eqb_spec (length buffer) 0) as [E|_]; [lia|].
  remember (length buffer) as fuel eqn:Ef.
  cbn [B.readChunk Nat.add]. rewrite Htag. cbn [bind]. decide_tests.
  rewrite Hlen. cbn [bind]. decide_tests. rewrite Nat2Z.id.
  assert (IH : Forall (fun p =>
                 readsKey buffer (B.readChunk fuel buffer)
                   (wireString B.TYPES.String) (fst p)
                 /\ reads buffer (B.readChunk fuel buffer) wireB receivedB
                      (snd p)
                 /\ (DOMString.eqb (decode (encode (fst p))) PROTO = true
                     -> keepsPrototype (receivedB (snd p)) = true)) entries).
  { rewrite Forall_forall in *. intros p Hp.
    destruct (Hall p Hp) as (Hk & Hv & Hproto).
    pose proof (length_wire_entry B.getTypeCode B.TYPES.String elementBytes
                  entries p Hp) as Hlt.
    change (length (wireB (snd p)) < length body)%nat in Hlt.
    split; [|split];
      [| |intros E; unfold receivedB; rewrite keepsPrototype_received;
          exact (Hproto E)].
    - intros offset rest Hr.
      apply B_read_string with (rest := rest);
        [apply supported_key, Hk|lia|exact Hr].
    - intros offset rest Hr.
      apply (B_read (snd p) Hv fuel buffer offset rest); [|exact Hr].
      pose proof (depth_le_wire B.getTypeCode B.TYPES.String elementBytes
                    (snd p)) as Hd.
      fold wireB in Hd. lia. }
  rewrite (forLoop_props _ _ _ _ _ entries IH [] 5%nat [])
    by (subst buffer body; rewrite app_nil_r; reflexivity).
  reflexivity.
Qed.

Lemma A_read_assignments (entries : list (DOMString.t * Value)) :
  Z.of_nat (length entries) < 2 ^ 32 ->
  Forall (fun p => supported (VString (fst p)) /\ supported (snd p)
                   /\ (DOMString.eqb (decode (encode (fst p))) PROTO = true
                       -> keepsPrototype (degrade (snd p)) = true))
    entries ->
  A.deserialize
    (byteOf A.TYPES.Object :: bigEndian32 (Z.of_nat (length entries))
       ++ flat_map (fun '(key, val) => wireA (VString key) ++ wireA val)
            entries)
  = Ret (VObject
           (fold_left (fun obj '(key, val) =>
                         assigned obj (decode (encode key)) (receivedA val))
              entries [])).
Proof.
  intros Hn Hall.
  set (body := flat_map (fun '(key, val) => wireA (VString key) ++ wireA val)
                 entries).
  destruct (header_read A.TYPES.Object (Z.of_nat (length entries)) body
              ltac:(cbv; intuition congruence) ltac:(lia))
    as (Htag & Hlen & _).
  cbv zeta in Htag, Hlen. unfold A.deserialize.
  set (buffer := byteOf A.TYPES.Object
                   :: bigEndian32 (Z.of_nat (length entries)) ++ body) in *.
  assert (Hbuf : length buffer = (5 + length body)%nat).
  { subst buffer. cbn [length]. rewrite length_app. reflexivity. }
  remember (length buffer) as fuel eqn:Ef.
  cbn [A.readChunk Nat.add]. rewrite Htag. cbn [bind]. decide_tests.
  rewrite Hlen. cbn [bind]. decide_tests. rewrite Nat2Z.id.
  assert (IH : Forall (fun p =>
                 readsKey buffer (A_read_at fuel buffer)
                   (wireString A.TYPES.String) (fst p)
                 /\ reads buffer (A_read_at fuel buffer) wireA receivedA
                      (snd p)
                 /\ (DOMString.eqb (decode (encode (fst p))) PROTO = true
                     -> keepsPrototype (receivedA (snd p)) = true)) entries).
  { rewrite Forall_forall in *. intros p Hp.
    destruct (Hall p Hp) as (Hk & Hv & Hproto).
    pose proof (length_wire_entry A.typeIndexOf A.TYPES.String bufferStart
                  entries p Hp) as Hlt.
    change (length (wireA (snd p)) < length body)%nat in Hlt.
    split; [|split];
      [| |intros E; unfold receivedA; rewrite keepsPrototype_received;
          exact (Hproto E)].
    - intros offset rest Hr. unfold A_read_at.
      rewrite (A_read_string (fst p) fuel buffer offset rest);
        [reflexivity|apply supported_key, Hk|lia|exact Hr].
    - intros offset rest Hr. unfold A_read_at.
      rewrite (A_read (snd p) Hv fuel buffer offset rest);
        [reflexivity| |exact Hr].
      pose proof (depth_le_wire A.typeIndexOf A.TYPES.String bufferStart
                    (snd p)) as Hd.
      fold wireA in Hd. lia. }
  rewrite (forLoop_ext _ _ (A_object_body fuel buffer)).
  rewrite (forLoop_props _ _ _ _ _ entries IH [] 5%nat [])
    by (subst buffer body; rewrite app_nil_r; reflexivity).
  reflexivity.
Qed.

(** X21: the entries of an Object chunk are assigned one after the other.
    Both readers decode an Object chunk by the assignments
    [obj[key] = value] in the order of the entries, under the names that
    the key chunks decode to.  A name that is an array index takes its
    place among the array indices, in ascending order, and any other new
    name goes last.  When a name comes twice, the property keeps its
    place and takes the value of its last entry, and the object has fewer
    properties than the count in the header.  An entry that decodes to
    the name [__proto__] and holds a boolean, a number or a string makes
    no property; the entries that hold anything else under that name are
    left aside here, since their assignment replaces the prototype. *)
Theorem X21_entries_assigned_in_order
  (entries : list (DOMString.t * Value)) :
  Z.of_nat (length entries) < 2 ^ 32 ->
  Forall (fun '(key, val) =>
            supported (VString key) /\ supported val
            /\ (DOMString.eqb (decode (encode key)) PROTO = true ->
                keepsPrototype (degrade val) = true))
    entries ->
  B.deserialize
    (byteOf B.TYPES.Object :: bigEndian32 (Z.of_nat (length entries))
       ++ flat_map (fun '(key, val) => wireB (VString key) ++ wireB val)
            entries)
  = Ret (VObject
           (fold_left (fun obj '(key, val) =>
                         assigned obj (decode (encode key)) (receivedB val))
              entries []))
  /\ A.deserialize
       (byteOf A.TYPES.Object :: bigEndian32 (Z.of_nat (length entries))
          ++ flat_map (fun '(key, val) => wireA (VString key) ++ wireA val)
               entries)
     = Ret (VObject
              (fold_left (fun obj '(key, val) =>
                            assigned obj (decode (encode key))
                              (receivedA val))
                 entries [])).
Proof.
  intros Hn Hall.
  assert (Hall' : Forall (fun p =>
                    supported (VString (fst p)) /\ supported (snd p)
                    /\ (DOMString.eqb (decode (encode (fst p))) PROTO = true
                        -> keepsPrototype (degrade (snd p)) = true)) entries).
  { eapply Forall_impl; [|exact Hall]. intros [k x] H. exact H. }
  split; [apply B_read_assignments|apply A_read_assignments]; assumption.
Qed.

Lemma X21_entries_assigned_in_order_witness :
  B.deserialize
    [x07; x00; x00; x00; x05;
     x05; x00; x00; x00; x01; "a"%byte; x02; xff;
     x05; x00; x00; x00; x01; "7"%byte; x01;
     x05; x00; x00; x00; x09; "_"%byte; "_"%byte; "p"%byte; "r"%byte;
     "o"%byte; "t"%byte; "o"%byte; "_"%byte; "_"%byte; x02; xff;
     x05; x00; x00; x00; x01; "a"%byte; x02; x00;
     x05; x00; x00; x00; x01; "3"%byte; x01]
  = Ret (VObject
           [(text "3"%string, VNull); (text "7"%string, VNull);
            (text "a"%string, VBoolean false)]).
Proof.
  apply (X21_entries_assigned_in_order
           [(text "a"%string, VBoolean true); (text "7"%string, VNull);
            (PROTO, VBoolean true);
            (text "a"%string, VBoolean false); (text "3"%string, VNull)]).
  - vm_compute. reflexivity.
  - repeat (constructor;
            [repeat split; try reflexivity;
             intros E; first [reflexivity|vm_compute in E; discriminate E]|]).
    constructor.
Defined.

(** * The test of the repository, at any time *)

Lemma supported_testValue (now : float64) :
  isTimeValue now -> supported (testValue now).
Proof.
  intros H. apply isTimeValueb_true in H.
  unfold supported, testValue.
  cbn [supportedb forallb map fst snd].
  rewrite H. vm_compute. reflexivity.
Qed.

(** X22: the round-trip test of the repository passes whatever the clock
    says.  For the object that the test builds, with any time value in the
    place of [new Date()], [deserialize] of the buffer that [serialize]
    returns is that object again, in both implementations. *)
Theorem X22_repository_test (now : float64) :
  isTimeValue now ->
  (buffer <- B.serialize (testValue now) ;; B.deserialize buffer)
  = Ret (testValue now)
  /\ (buffer <- A.serialize (testValue now) ;; A.deserialize buffer)
     = Ret (testValue now).
Proof.
  intros H. pose proof (supported_testValue now H) as Hs.
  pose proof (supported_wellFormed _ Hs) as Hwf.
  split.
  - rewrite (B_serialize_wire _ Hwf). cbn [bind].
    rewrite <- (app_nil_r (wireB (testValue now))).
    rewrite (B_deserialize_wire _ [] Hs). reflexivity.
  - rewrite (A_serialize_whole _ Hwf eq_refl eq_refl). cbn [bind].
    rewrite <- (app_nil_r (wireA (testValue now))).
    rewrite (A_deserialize_wire _ [] Hs). reflexivity.
Qed.

Lemma X22_repository_test_witness :
  isTimeValue 0x4278BCFE56800000
  /\ (buffer <- B.serialize (testValue 0x4278BCFE56800000) ;;
      B.deserialize buffer)
     = Ret (testValue 0x4278BCFE56800000).
Proof.
  assert (H : isTimeValue 0x4278BCFE56800000)
    by (split; [lia|vm_compute; reflexivity]).
  split; [exact H|].
  apply (X22_repository_test 0x4278BCFE56800000 H).
Defined.

(** * The readers look at nothing in front of their offset *)

Section Shift.
Variable before buffer : list byte.

Lemma skipn_shift (offset : nat) :
  skipn (length before + offset) (before ++ buffer) = skipn offset buffer.
Proof.
  rewrite skipn_app, skipn_all2 by lia. cbn [app]. f_equal. lia.
Qed.

Lemma slice_shift (offset n : nat) :
  slice (before ++ buffer) (length before + offset)
    (length before + (offset + n))
  = slice buffer offset (offset + n).
Proof.
  unfold slice. rewrite skipn_shift. f_equal. lia.
Qed.

Lemma getBytes_shift (offset n : nat) :
  getBytes (before ++ buffer) (length before + offset) n
  = getBytes buffer offset n.
Proof.
  unfold getBytes. rewrite <- Nat.add_assoc, slice_shift, length_app.
  destruct (Nat.leb_spec (offset + n) (length buffer));
    destruct (Nat.leb_spec (length before + (offset + n))
                (length before + length buffer)); try lia; reflexivity.
Qed.

Lemma getUint8_shift (offset : nat) :
  getUint8 (before ++ buffer) (length before + offset) = getUint8 buffer offset.
Proof. unfold getUint8. rewrite getBytes_shift. reflexivity. Qed.

Lemma getUint32_shift (offset : nat) :
  getUint32 (before ++ buffer) (length before + offset)
  = getUint32 buffer offset.
Proof. unfold getUint32. rewrite getBytes_shift. reflexivity. Qed.

Lemma getFloat64_shift (offset : nat) :
  getFloat64 (before ++ buffer) (length before + offset)
  = getFloat64 buffer offset.
Proof. unfold getFloat64. rewrite getBytes_shift. reflexivity. Qed.

Lemma forLoop_shift {State : Type}
  (body body' : State -> nat -> result (State * nat)) :
  (forall s o,
      body' s (length before + o)%nat
      = ('(s', o') <- body s o ;; Ret (s', (length before + o')%nat))) ->
  forall count s o,
    forLoop count body' s (length before + o)%nat
    = ('(s', o') <- forLoop count body s o ;;
       Ret (s', (length before + o')%nat)).
Proof.
  intros Hb. induction count as [|count IH]; intros s o; cbn [forLoop bind].
  - reflexivity.
  - rewrite Hb. destruct (body s o) as [[s1 o1]|e]; cbn [bind];
      [apply IH|reflexivity].
Qed.
End Shift.

(** Put the offsets of a goal in the form [length before + _]. *)
Ltac shift_offsets :=
  repeat match goal with
  | |- context [(length ?b + ?o + ?n)%nat] =>
      rewrite <- (Nat.add_assoc (length b) o n)
  end.

Lemma B_readChunk_shift (fuel : nat) :
  forall before buffer offset,
    B.readChunk fuel (before ++ buffer) (length before + offset)
    = ('(v, o) <- B.readChunk fuel buffer offset ;;
       Ret (v, (length before + o)%nat)).
Proof.
  induction fuel as [|fuel IH]; intros before buffer offset;
    cbn [B.readChunk]; [reflexivity|].
  rewrite getUint8_shift.
  destruct (getUint8 buffer offset) as [type|e]; cbn [bind]; [|reflexivity].
  shift_offsets.
  rewrite ?getUint8_shift, ?getFloat64_shift, ?getUint32_shift.
  repeat match goal with
  | |- context [if ?c then _ else _] => destruct c
  end;
    try reflexivity;
    try (destruct (getUint8 buffer (offset + 1)) as [x|e]; cbn [bind];
         [shift_offsets; reflexivity|reflexivity]);
    try (destruct (getFloat64 buffer (offset + 1)) as [x|e]; cbn [bind];
         [shift_offsets; reflexivity|reflexivity]);
    (destruct (getUint32 buffer (offset + 1)) as [len|e]; cbn [bind];
     [|reflexivity]);
    shift_offsets; rewrite ?slice_shift;
    try reflexivity;
    try (destruct (B.TYPED_ARRAY_TYPES type); [|reflexivity];
         destruct (newTypedArray _ _); reflexivity).
  - rewrite (forLoop_shift before
               (fun arr offset =>
                  '(value, offset) <- B.readChunk fuel buffer offset ;;
                  Ret (arr ++ [value], offset))).
    + destruct (forLoop _ _ _ _) as [[arr o]|e]; reflexivity.
    + intros s o. rewrite IH.
      destruct (B.readChunk fuel buffer o) as [[x o1]|e]; reflexivity.
  - rewrite (forLoop_shift before
               (fun obj offset =>
                  '(key, offset) <- B.readChunk fuel buffer offset ;;
                  '(val, offset) <- B.readChunk fuel buffer offset ;;
                  obj <- assign obj key val ;;
                  Ret (obj, offset))).
    + destruct (forLoop _ _ _ _) as [[arr o]|e]; reflexivity.
    + intros s o. rewrite IH.
      destruct (B.readChunk fuel buffer o) as [[k o1]|e]; cbn [bind];
        [|reflexivity].
      rewrite IH.
      destruct (B.readChunk fuel buffer o1) as [[x o2]|e]; cbn [bind];
        [|reflexivity].
      destruct (assign s k x); reflexivity.
Qed.

Lemma A_readChunk_shift (fuel : nat) :
  forall before buffer offset,
    A.readChunk fuel (before ++ buffer) (length before + offset)
    = (r <- A.readChunk fuel buffer offset ;;
       Ret (A.ReadChunk.mk (A.ReadChunk.typeIndex r) (A.ReadChunk.value r)
              (A.ReadChunk.length r)
              (length before + A.ReadChunk.offset r))).
Proof.
  induction fuel as [|fuel IH]; intros before buffer offset;
    cbn [A.readChunk]; [reflexivity|].
  rewrite getUint8_shift.
  destruct (getUint8 buffer offset) as [typeIndex|e]; cbn [bind];
    [|reflexivity].
  match goal with
  | |- bind ?m' _ = bind (bind ?m _) _ =>
      assert (E1 : m' = ('(len, o, v) <- m ;;
                         Ret (len, (length before + o)%nat, v)))
  end.
  { shift_offsets. rewrite ?getUint32_shift.
    repeat match goal with
    | |- context [if ?c then _ else _] => destruct c
    end;
      try reflexivity;
      (destruct (getUint32 buffer (offset + 1)) as [len|e]; cbn [bind];
       [|reflexivity]);
      shift_offsets; rewrite ?slice_shift; try reflexivity;
      (destruct (A.typedArrayOf typeIndex);
       [destruct (newTypedArray _ _); reflexivity|reflexivity]). }
  rewrite E1. clear E1.
  match goal with
  | |- bind (bind ?m _) _ = _ => destruct m as [[[len o] v]|e]
  end; cbn [bind]; [|reflexivity].
  rewrite ?getUint8_shift, ?getFloat64_shift.
  repeat match goal with
  | |- context [if ?c then _ else _] => destruct c
  end;
    try reflexivity;
    try (destruct (getUint8 buffer o) as [x|e]; cbn [bind];
         [shift_offsets; reflexivity|reflexivity]);
    try (destruct (getFloat64 buffer o) as [x|e]; cbn [bind];
         [shift_offsets; reflexivity|reflexivity]).
  - rewrite (forLoop_shift before
               (fun arr offset =>
                  item <- A.readChunk fuel buffer offset ;;
                  Ret (arr ++ [A.ReadChunk.value item],
                       A.ReadChunk.offset item))).
    + destruct (forLoop _ _ _ _) as [[arr o1]|e]; reflexivity.
    + intros s o1. rewrite IH.
      destruct (A.readChunk fuel buffer o1) as [x|e]; reflexivity.
  - rewrite (forLoop_shift before
               (fun obj offset =>
                  key <- A.readChunk fuel buffer offset ;;
                  let offset := A.ReadChunk.offset key in
                  val <- A.readChunk fuel buffer offset ;;
                  let offset := A.ReadChunk.offset val in
                  obj <- assign obj (A.ReadChunk.value key)
                           (A.ReadChunk.value val) ;;
                  Ret (obj, offset))).
    + destruct (forLoop _ _ _ _) as [[arr o1]|e]; reflexivity.
    + intros s o1. rewrite IH.
      destruct (A.readChunk fuel buffer o1) as [k|e]; cbn [bind];
        [|reflexivity].
      cbn [A.ReadChunk.offset A.ReadChunk.value]. rewrite IH.
      destruct (A.readChunk fuel buffer (A.ReadChunk.offset k)) as [x|e];
        cbn [bind]; [|reflexivity].
      cbn [A.ReadChunk.offset A.ReadChunk.value].
      destruct (assign s _ _); reflexivity.
Qed.

(** X23: the readers are position independent.  [readChunk] at an offset
    looks at nothing in front of it: with any bytes [before] put in front
    of a buffer, reading at the same place, now [before]'s length further,
    gives the same value or the same error, and the offset it returns is
    that much greater.  In particular an error raised while a nested chunk
    is read comes out of the enclosing [readChunk] unchanged. *)
Theorem X23_readChunk_position_independent
  (before buffer : list byte) (fuel offset : nat) :
  B.readChunk fuel (before ++ buffer) (length before + offset)
  = ('(v, o) <- B.readChunk fuel buffer offset ;;
     Ret (v, (length before + o)%nat))
  /\ A.readChunk fuel (before ++ buffer) (length before + offset)
     = (r <- A.readChunk fuel buffer offset ;;
        Ret (A.ReadChunk.mk (A.ReadChunk.typeIndex r) (A.ReadChunk.value r)
               (A.ReadChunk.length r)
               (length before + A.ReadChunk.offset r))).
Proof.
  split; [apply B_readChunk_shift|apply A_readChunk_shift].
Qed.

(** * What is written at an offset is read back at that offset *)

Lemma skipn_written (buffer buffer' : ArrayBuffer) (offset offset' : nat)
  (bytes : list byte) :
  (offset <= length buffer)%nat ->
  firstn offset' buffer' = firstn offset buffer ++ bytes ->
  skipn offset buffer' = bytes ++ skipn offset' buffer'.
Proof.
  intros Ho H.
  rewrite <- (firstn_skipn offset' buffer') at 1. rewrite H.
  rewrite <- app_assoc, skipn_app, skipn_all2
    by (rewrite length_firstn; lia).
  rewrite length_firstn, Nat.min_l by exact Ho.
  rewrite Nat.sub_diag. reflexivity.
Qed.

(** X24: what [writeChunk] writes at an offset, [readChunk] reads back at
    that offset, and the two agree on where the chunk ends.  When
    [writeChunk] returns for the chunk tree of a supported value, written
    anywhere in a buffer, [readChunk] at the same offset of the buffer
    written returns the offset that [writeChunk] returned (for
    implementation A: when no object of the value has a property named
    [hasOwnProperty]).  When the
    strings and the property names of the value are well-formed and do
    not start with U+FEFF and no property is named [__proto__], the value
    read is deep-equal to the one written once [undefined] and functions
    are replaced by [null] (for implementation A: when the typed arrays
    of the value span their buffer). *)
Theorem X24_write_then_read (v : Value) (buffer : ArrayBuffer)
  (offset : nat) :
  supported v ->
  (forall size,
      B.calculateSize (B.createChunk v) = Ret size ->
      (offset + size <= length buffer)%nat ->
      exists buffer' end_ w,
        B.writeChunk (B.createChunk v) buffer offset = Ret (buffer', end_)
        /\ B.readChunk (S (length buffer')) buffer' offset = Ret (w, end_)
        /\ (plain v = true -> deepEqual w (degrade v)))
  /\ (shadowsHasOwnProperty v = false ->
      forall chunk buffer' end_,
        A.createChunk v = Ret chunk ->
        A.writeChunk chunk buffer offset = Ret (buffer', end_) ->
        exists r,
          A.readChunk (S (length buffer')) buffer' offset = Ret r
          /\ A.ReadChunk.offset r = end_
          /\ (plain v = true -> wholeBuffers v = true ->
              deepEqual (A.ReadChunk.value r) (degrade v))).
Proof.
  intros Hs. pose proof (supported_wellFormed v Hs) as Hwf. split.
  - intros size Hsize Hroom. rewrite (B_size v Hwf) in Hsize.
    inversion Hsize. subst size. clear Hsize.
    exists (splice buffer offset (wireB v)), (offset + length (wireB v))%nat,
      (receivedB v).
    split; [apply (B_write v Hwf), Hroom|].
    split; [|intros Hp; apply received_deepEqual; assumption].
    apply (B_read v Hs _ _ _
             (skipn (offset + length (wireB v))
                (splice buffer offset (wireB v)))).
    + pose proof (depth_le_wire B.getTypeCode B.TYPES.String elementBytes v).
      fold wireB in H. rewrite length_splice by exact Hroom. lia.
    + apply (skipn_written buffer); [lia|].
      rewrite (firstn_splice_upto buffer offset (wireB v)
                 (length (wireB v))) by lia.
      rewrite firstn_all. reflexivity.
  - intros _ chunk buffer' end_ Hc Hw.
    apply A_createChunk_tree in Hc. subst chunk.
    destruct (A_write_prefix v Hwf _ _ _ _ Hw) as (Hl & -> & Hb & F).
    exists (A.ReadChunk.mk (A.typeIndexOf v) (receivedA v) (lengthField v)
              (offset + length (wireA v))).
    split; [|split; [reflexivity|]].
    + apply (A_read v Hs _ _ _ (skipn (offset + length (wireA v)) buffer')).
      * pose proof (depth_le_wire A.typeIndexOf A.TYPES.String bufferStart v).
        fold wireA in H. lia.
      * apply (skipn_written buffer); [lia|exact F].
    + intros Hp Hwb. cbn [A.ReadChunk.value].
      apply receivedA_deepEqual; assumption.
Qed.

Lemma X24_write_then_read_witness :
  supported (VArray [VUndefined; VString (text "hi"%string)])
  /\ exists buffer' end_ w,
       B.writeChunk
         (B.createChunk (VArray [VUndefined; VString (text "hi"%string)]))
         (newArrayBuffer 20) 3
       = Ret (buffer', end_)
       /\ B.readChunk (S (length buffer')) buffer' 3 = Ret (w, end_)
       /\ (plain (VArray [VUndefined; VString (text "hi"%string)]) = true ->
           deepEqual w
             (degrade (VArray [VUndefined; VString (text "hi"%string)]))).
Proof.
  split; [reflexivity|].
  destruct (X24_write_then_read
              (VArray [VUndefined; VString (text "hi"%string)])
              (newArrayBuffer 20) 3 ltac:(reflexivity)) as [HB _].
  apply (HB 13%nat); [reflexivity|vm_compute; lia].
Defined.

(** * The errors of the readers *)

Section Raises.
Variable P : Error -> Prop.
Hypothesis P_RangeError : P RangeError.
Hypothesis P_Unmodelled : P Unmodelled.
Hypothesis P_TypeError : P TypeError.

Lemma raises_ret {A : Type} (a : A) : raisesOnly (Ret a) P.
Proof. intros e H. discriminate H. Qed.

Lemma raises_throw {A : Type} (e : Error) : P e -> raisesOnly (@Throw A e) P.
Proof. intros He e' H. inversion H. subst. exact He. Qed.

Lemma bind_raises {A B : Type} (m : result A) (k : A -> result B) :
  raisesOnly m P ->
  (forall a, m = Ret a -> raisesOnly (k a) P) ->
  raisesOnly (bind m k) P.
Proof.
  intros Hm Hk e H. destruct m as [a|e0]; cbn [bind] in H.
  - apply (Hk a eq_refl e H).
  - inversion H. subst. apply Hm. reflexivity.
Qed.

Lemma forLoop_raises {State : Type}
  (body : State -> nat -> result (State * nat)) :
  (forall s o, raisesOnly (body s o) P) ->
  forall count s o, raisesOnly (forLoop count body s o) P.
Proof.
  intros Hb. induction count as [|count IH]; intros s o; cbn [forLoop].
  - apply raises_ret.
  - apply bind_raises; [apply Hb|]. intros [s1 o1] _. apply IH.
Qed.

Lemma getUint8_raises (buffer : ArrayBuffer) (offset : nat) :
  raisesOnly (getUint8 buffer offset) P.
Proof.
  intros e H.
  destruct (getUint8_inv buffer offset _ eq_refl) as [(z & E & _)|E];
    rewrite E in H; inversion H. exact P_RangeError.
Qed.

Lemma getUint32_raises (buffer : ArrayBuffer) (offset : nat) :
  raisesOnly (getUint32 buffer offset) P.
Proof.
  intros e H.
  destruct (getUint32_inv buffer offset _ eq_refl) as [(z & E)|E];
    rewrite E in H; inversion H. exact P_RangeError.
Qed.

Lemma getFloat64_raises (buffer : ArrayBuffer) (offset : nat) :
  raisesOnly (getFloat64 buffer offset) P.
Proof.
  intros e H.
  destruct (getFloat64_inv buffer offset _ eq_refl) as [(z & E)|E];
    rewrite E in H; inversion H. exact P_RangeError.
Qed.

Lemma newTypedArray_raises (Ctor : ElementType) (sub : ArrayBuffer) :
  raisesOnly (newTypedArray Ctor sub) P.
Proof.
  intros e H.
  destruct (newTypedArray_inv Ctor sub _ eq_refl) as [(z & E)|E];
    rewrite E in H; inversion H. exact P_RangeError.
Qed.

Lemma assign_raises (obj : list (DOMString.t * Value)) (key val : Value) :
  raisesOnly (assign obj key val) P.
Proof.
  intros e H.
  destruct (assign_inv obj key val _ eq_refl) as [(z & E)|[E|E]];
    rewrite E in H; inversion H; assumption.
Qed.
End Raises.

(** Take a goal [raisesOnly _ P] about a reader apart. *)
Ltac raise_step HR HU HT :=
  match goal with
  | |- raisesOnly (Ret _) _ => apply raises_ret
  | |- raisesOnly (Throw RangeError) _ => apply raises_throw; exact HR
  | |- raisesOnly (if ?c then _ else _) _ => destruct c eqn:?
  | |- raisesOnly (match ?x with Some _ => _ | None => _ end) _ =>
      destruct x eqn:?
  | |- raisesOnly (let '(_, _) := ?p in _) _ => destruct p
  | |- raisesOnly (bind (getUint8 _ _) _) _ =>
      apply bind_raises; [apply getUint8_raises; exact HR|intros ? _]
  | |- raisesOnly (bind (getUint32 _ _) _) _ =>
      apply bind_raises; [apply getUint32_raises; exact HR|intros ? _]
  | |- raisesOnly (bind (getFloat64 _ _) _) _ =>
      apply bind_raises; [apply getFloat64_raises; exact HR|intros ? _]
  | |- raisesOnly (bind (newTypedArray _ _) _) _ =>
      apply bind_raises; [apply newTypedArray_raises; exact HR|intros ? _]
  | |- raisesOnly (bind (assign _ _ _) _) _ =>
      apply bind_raises; [apply assign_raises; [exact HU|exact HT]|intros ? _]
  end.

Lemma not_registeredB (type : Z) :
  (type =? B.TYPES.Null) = false -> (type =? B.TYPES.Boolean) = false ->
  (type =? B.TYPES.Number) = false -> (type =? B.TYPES.Date) = false ->
  isSome (B.TYPED_ARRAY_TYPES type) || (type =? B.TYPES.String) = false ->
  (type =? B.TYPES.Array) = false -> (type =? B.TYPES.Object) = false ->
  registeredB type = false.
Proof.
  unfold B.TYPED_ARRAY_TYPES, registeredB.
  unfold B.TYPES.Null, B.TYPES.Boolean, B.TYPES.Number, B.TYPES.Date,
    B.TYPES.String, B.TYPES.Array, B.TYPES.Object, B.TYPES.Int8Array,
    B.TYPES.Int16Array, B.TYPES.Int32Array, B.TYPES.Uint8Array,
    B.TYPES.Uint16Array, B.TYPES.Uint32Array, B.TYPES.Float32Array,
    B.TYPES.Float64Array.
  intros H1 H2 H3 H4 H5 H6 H7.
  apply orb_false_iff in H5. destruct H5 as [H5 H8].
  repeat match type of H5 with
  | context [type =? ?c] =>
      destruct (Z.eqb_spec type c); [discriminate H5|]
  end.
  apply Z.eqb_neq in H1, H2, H3, H4, H6, H7, H8.
  apply orb_false_iff. split; apply andb_false_iff.
  - destruct (Z.leb_spec 1 type); [|left; reflexivity].
    right. apply Z.leb_gt. lia.
  - destruct (Z.leb_spec 10 type); [|left; reflexivity].
    right. apply Z.leb_gt. lia.
Qed.

Lemma B_readChunk_raises (fuel : nat) :
  forall buffer offset,
    raisesOnly (B.readChunk fuel buffer offset)
      (fun e => e = RangeError \/ e = Unmodelled \/ e = OutOfFuel
                \/ e = TypeError
                \/ exists type,
                     e = UnknownTypeCode type /\ registeredB type = false).
Proof.
  induction fuel as [|fuel IH]; intros buffer offset; cbn [B.readChunk].
  - apply raises_throw. auto.
  - match goal with
    | |- raisesOnly _ ?P =>
        assert (HR : P RangeError) by (cbv beta; auto);
        assert (HU : P Unmodelled) by (cbv beta; auto);
        assert (HT : P TypeError) by (cbv beta; auto)
    end.
    repeat raise_step HR HU HT.
    + match goal with
      | F : isSome None || false = true |- _ => discriminate F
      end.
    + apply bind_raises; [|intros [arr o] _; apply raises_ret].
      apply forLoop_raises. intros s o.
      apply bind_raises; [apply IH|]. intros [x o1] _. apply raises_ret.
    + apply bind_raises; [|intros [arr o] _; apply raises_ret].
      apply forLoop_raises. intros s o.
      apply bind_raises; [apply IH|]. intros [k o1] _.
      apply bind_raises; [apply IH|]. intros [x o2] _.
      apply bind_raises; [apply assign_raises; auto|]. intros obj _.
      apply raises_ret.
    + apply raises_throw. right. right. right. right.
      eexists. split; [reflexivity|].
      apply not_registeredB; assumption.
Qed.

Lemma A_readChunk_raises (fuel : nat) :
  forall buffer offset,
    raisesOnly (A.readChunk fuel buffer offset)
      (fun e => e = RangeError \/ e = Unmodelled \/ e = OutOfFuel
                \/ e = TypeError).
Proof.
  induction fuel as [|fuel IH]; intros buffer offset; cbn [A.readChunk].
  - apply raises_throw. auto.
  - match goal with
    | |- raisesOnly _ ?P =>
        assert (HR : P RangeError) by (cbv beta; auto);
        assert (HU : P Unmodelled) by (cbv beta; auto);
        assert (HT : P TypeError) by (cbv beta; auto)
    end.
    apply bind_raises; [apply getUint8_raises; exact HR|]. intros typeIndex _.
    apply bind_raises; [repeat raise_step HR HU HT|]. intros [[len o] v] _.
    apply bind_raises; [|intros [x o1] _; apply raises_ret].
    repeat raise_step HR HU HT.
    + apply bind_raises; [|intros [arr o1] _; apply raises_ret].
      apply forLoop_raises. intros s o1.
      apply bind_raises; [apply IH|]. intros x _. apply raises_ret.
    + apply bind_raises; [|intros [arr o1] _; apply raises_ret].
      apply forLoop_raises. intros s o1.
      apply bind_raises; [apply IH|]. intros k _.
      apply bind_raises; [apply IH|]. intros x _.
      apply bind_raises; [apply assign_raises; auto|]. intros obj _.
      apply raises_ret.
Qed.

(** X25: the errors of [deserialize].  [B.deserialize] fails only with
    its 'Empty buffer' error, with its 'Unknown type code' error for a
    tag that is not registered, with the platform's [RangeError] of a
    read past the end of the buffer or of a typed array with a broken
    last element, or with the [TypeError] of a key that cannot be
    converted to a property name, as the object [{ toString: null }];
    [A.deserialize] fails only with that [RangeError] or that
    [TypeError].  This is said of the buffers on which [assign] does not
    stop with [Unmodelled]: those in which no key chunk is a Date, an
    Array or a typed-array chunk or a Number chunk other than an integer
    below 2^53, and no entry that decodes to the name [__proto__] holds
    [null], a date, a typed array, an array or an object. *)
Theorem X25_deserialize_errors (buffer : ArrayBuffer) (e : Error) :
  e <> Unmodelled ->
  (B.deserialize buffer = Throw e ->
   e = EmptyBuffer \/ e = RangeError \/ e = TypeError
   \/ exists type, e = UnknownTypeCode type /\ registeredB type = false)
  /\ (A.deserialize buffer = Throw e -> e = RangeError \/ e = TypeError)
  /\ B.deserialize
       (wireB (VObject [(TO_STRING, VNull)]) ++ [x01])
     = Ret (VObject [(TO_STRING, VNull)])
  /\ B.deserialize
       ([x07; x00; x00; x00; x01] ++ wireB (VObject [(TO_STRING, VNull)])
        ++ [x01])
     = Throw TypeError
  /\ A.deserialize
       ([x17; x00; x00; x00; x01] ++ wireA (VObject [(TO_STRING, VNull)])
        ++ [x01])
     = Throw TypeError
  /\ B.deserialize [x07; x00; x00; x00; x01; x01; x02; xff]
     = Ret (VObject [(text "null"%string, VBoolean true)]).
Proof.
  intros Hm. split; [|split; [|repeat split]]; intros H.
  - pose proof (B_deserialize_fuel buffer) as Hf. rewrite H in Hf.
    unfold B.deserialize in H.
    destruct (length buffer =? 0)%nat; [inversion H; auto|].
    destruct (B.readChunk _ _ _) as [[v o]|e'] eqn:E; cbn [bind] in H;
      [discriminate|].
    inversion H. subst e'.
    destruct (B_readChunk_raises _ _ _ _ E) as [->|[->|[->|[->|Hu]]]]; auto;
      congruence.
  - pose proof (A_deserialize_fuel buffer) as Hf. rewrite H in Hf.
    unfold A.deserialize in H.
    destruct (A.readChunk _ _ _) as [r|e'] eqn:E; cbn [bind] in H;
      [discriminate|].
    inversion H. subst e'.
    destruct (A_readChunk_raises _ _ _ _ E) as [->|[->|[->| ->]]]; auto;
      congruence.
Qed.

Lemma X25_deserialize_errors_witness :
  B.deserialize [x06; x00; x00; x00; x01; x09; x00; x00; x00; x00]
  = Throw (UnknownTypeCode 9)
  /\ (UnknownTypeCode 9 = EmptyBuffer \/ UnknownTypeCode 9 = RangeError
      \/ UnknownTypeCode 9 = TypeError
      \/ exists type,
           UnknownTypeCode 9 = UnknownTypeCode type
           /\ registeredB type = false).
Proof.
  split; [reflexivity|].
  destruct (X25_deserialize_errors
              [x06; x00; x00; x00; x01; x09; x00; x00; x00; x00]
              (UnknownTypeCode 9) ltac:(discriminate)) as [HB _].
  apply HB. reflexivity.
Defined.

(** * Views, self-delimiting chunks and dates *)

(** X26: what implementation A makes of a typed-array view.  For a
    supported value whose objects have no property named
    [hasOwnProperty], whenever [A.serialize] returns, [A.deserialize] of
    its buffer returns the value that the reader rebuilds: [undefined]
    and functions are [null], every string is decoded from its encoding,
    every object is built by assigning its properties under their decoded
    names, and every typed array is an array of the same type over the
    first [byteLength] bytes of the underlying buffer of the original, so
    that the elements of a view that does not start at the beginning of
    its buffer are replaced by the bytes at the beginning.  When the
    strings and names of the value are well-formed and do not start with
    U+FEFF and no property is named [__proto__], nothing else changes. *)
Theorem X26_A_views_read_back (v : Value) (bytes : ArrayBuffer) :
  supported v -> shadowsHasOwnProperty v = false ->
  A.serialize v = Ret bytes ->
  A.deserialize bytes = Ret (receivedA v)
  /\ (plain v = true -> receivedA v = rebuiltA v)
  /\ forall a,
       receivedA (VTypedArray a)
       = VTypedArray
           (TypedArray.mk (TypedArray.elementType a)
              (firstn (TypedArray.byteLength a) (TypedArray.buffer a)) 0
              (length (firstn (TypedArray.byteLength a)
                         (TypedArray.buffer a)))).
Proof.
  intros Hs Hsh Hser.
  apply (A_serialize_wire v bytes (supported_wellFormed v Hs)) in Hser.
  subst bytes. split; [|split].
  - rewrite <- (app_nil_r (wireA v)). apply A_deserialize_wire, Hs.
  - intros Hp. apply received_rebuilt; assumption.
  - intros a. reflexivity.
Qed.

Lemma X26_A_views_read_back_witness :
  supported viewThenText
  /\ A.serialize viewThenText
     = Ret [x16; x00; x00; x00; x02; x0e; x00; x00; x00; x02; x01; x02;
            x15; x00; x00; x00; x03; "p"%byte; "a"%byte; "d"%byte]
  /\ A.deserialize
       [x16; x00; x00; x00; x02; x0e; x00; x00; x00; x02; x01; x02;
        x15; x00; x00; x00; x03; "p"%byte; "a"%byte; "d"%byte]
     = Ret (VArray [VTypedArray (TypedArray.mk Uint8Array [x01; x02] 0 2);
                    VString (text "pad"%string)]).
Proof.
  split; [reflexivity|]. split; [reflexivity|].
  apply (X26_A_views_read_back viewThenText
           [x16; x00; x00; x00; x02; x0e; x00; x00; x00; x02; x01; x02;
            x15; x00; x00; x00; x03; "p"%byte; "a"%byte; "d"%byte]);
    reflexivity.
Defined.

(** X27: a serialized value is self-delimiting.  No buffer that
    [serialize] returns for a supported value is a proper prefix of
    another one: when the buffer of one supported value followed by some
    bytes is the buffer of another, there are no such bytes. *)
Theorem X27_self_delimiting (v1 v2 : Value) (bytes more : list byte) :
  supported v1 -> supported v2 ->
  (B.serialize v1 = Ret bytes -> B.serialize v2 = Ret (bytes ++ more) ->
   more = [])
  /\ (A.serialize v1 = Ret bytes -> A.serialize v2 = Ret (bytes ++ more) ->
      more = []).
Proof.
  intros Hs1 Hs2. split; intros E1 E2.
  - rewrite (B_serialize_wire _ (supported_wellFormed _ Hs1)) in E1.
    rewrite (B_serialize_wire _ (supported_wellFormed _ Hs2)) in E2.
    injection E1 as E1. injection E2 as E2.
    pose proof (depth_le_wire B.getTypeCode B.TYPES.String elementBytes v1).
    pose proof (depth_le_wire B.getTypeCode B.TYPES.String elementBytes v2).
    fold wireB in *.
    assert (Hlen : length (wireB v2) = (length (wireB v1) + length more)%nat)
      by (rewrite E2, length_app, E1; reflexivity).
    assert (R1 : B.readChunk (length (wireB v2)) (wireB v2) 0
                 = Ret (receivedB v1, (0 + length (wireB v1))%nat)).
    { apply (B_read v1 Hs1 _ _ 0%nat more); [lia|]. cbn [skipn]. congruence. }
    assert (R2 : B.readChunk (length (wireB v2)) (wireB v2) 0
                 = Ret (receivedB v2, (0 + length (wireB v2))%nat)).
    { apply (B_read v2 Hs2 _ _ 0%nat []); [lia|]. cbn [skipn].
      rewrite app_nil_r. reflexivity. }
    rewrite R1 in R2. injection R2 as _ Hl.
    destruct more; [reflexivity|cbn [length] in Hlen; lia].
  - apply (A_serialize_wire _ _ (supported_wellFormed _ Hs1)) in E1.
    apply (A_serialize_wire _ _ (supported_wellFormed _ Hs2)) in E2.
    pose proof (depth_le_wire A.typeIndexOf A.TYPES.String bufferStart v1).
    pose proof (depth_le_wire A.typeIndexOf A.TYPES.String bufferStart v2).
    fold wireA in *.
    assert (Hlen : length (wireA v2) = (length (wireA v1) + length more)%nat)
      by (rewrite <- E2, length_app, E1; reflexivity).
    assert (R1 : A.readChunk (length (wireA v2)) (wireA v2) 0
                 = Ret (A.ReadChunk.mk (A.typeIndexOf v1) (receivedA v1)
                          (lengthField v1) (0 + length (wireA v1)))).
    { apply (A_read v1 Hs1 _ _ 0%nat more); [lia|]. cbn [skipn]. congruence. }
    assert (R2 : A.readChunk (length (wireA v2)) (wireA v2) 0
                 = Ret (A.ReadChunk.mk (A.typeIndexOf v2) (receivedA v2)
                          (lengthField v2) (0 + length (wireA v2)))).
    { apply (A_read v2 Hs2 _ _ 0%nat []); [lia|]. cbn [skipn].
      rewrite app_nil_r. reflexivity. }
    rewrite R1 in R2. injection R2 as _ _ _ Hl.
    destruct more; [reflexivity|cbn [length] in Hlen; lia].
Qed.

Lemma X27_self_delimiting_witness :
  supported (VString (text "hi"%string))
  /\ B.serialize (VString (text "hi"%string))
     = Ret ([x05; x00; x00; x00; x02; "h"%byte; "i"%byte] ++ [])
  /\ @nil byte = [].
Proof.
  split; [reflexivity|]. split; [reflexivity|].
  destruct (X27_self_delimiting (VString (text "hi"%string))
              (VString (text "hi"%string))
              [x05; x00; x00; x00; x02; "h"%byte; "i"%byte] []
              ltac:(reflexivity) ltac:(reflexivity)) as [HB _].
  apply HB; reflexivity.
Defined.

(** X28: a Date chunk decodes through [new Date].  Both readers hand the
    double of a Date chunk to [new Date], so the value is always a [Date]
    that holds a time value: a whole number of milliseconds of magnitude
    at most 8.64e15, or NaN for a double that is not finite or is out of
    that range.  A double that already is a time value comes back
    unchanged. *)
Theorem X28_date_chunk (bits : Z) (rest : list byte) :
  0 <= bits < 2 ^ 64 ->
  B.deserialize (byteOf B.TYPES.Date :: bigEndian64 bits ++ rest)
  = Ret (VDate (newDate (canonNaN bits)))
  /\ A.deserialize (byteOf A.TYPES.Date :: bigEndian64 bits ++ rest)
     = Ret (VDate (newDate (canonNaN bits)))
  /\ isTimeValue (newDate (canonNaN bits))
  /\ (isTimeValue bits -> newDate (canonNaN bits) = bits).
Proof.
  intros Hb.
  assert (Hf : forall tag,
             getFloat64 (tag :: bigEndian64 bits ++ rest) 1
             = Ret (canonNaN bits)).
  { intros tag. rewrite <- beBytes_8.
    rewrite (getFloat64_at _ 1%nat bits rest) by reflexivity.
    rewrite Z.mod_small by exact Hb. reflexivity. }
  split; [|split; [|split]].
  - unfold B.deserialize. cbn [length Nat.eqb B.readChunk Nat.add].
    rewrite getUint8_head.
    change (byteVal (byteOf B.TYPES.Date)) with 4. cbn [bind].
    decide_tests. rewrite Hf. reflexivity.
  - unfold A.deserialize. cbn [length A.readChunk Nat.add].
    rewrite getUint8_head.
    change (byteVal (byteOf A.TYPES.Date)) with 4. cbn [bind].
    decide_tests. cbn [bind]. decide_tests. rewrite Hf. reflexivity.
  - apply isTimeValue_newDate.
  - intros Ht. rewrite (isTimeValue_canon bits Ht). destruct Ht as [_ Ht].
    exact Ht.
Qed.

Lemma X28_date_chunk_witness :
  0 <= 0x3FF8000000000000 < 2 ^ 64
  /\ B.deserialize [x04; x3f; xf8; x00; x00; x00; x00; x00; x00]
     = Ret (VDate 0x3FF0000000000000).
Proof.
  split; [lia|].
  apply (X28_date_chunk 0x3FF8000000000000 []). lia.
Defined.

(** * Errors of nested chunks *)

Lemma B_read_failing_item (items : list Value) (count : nat)
  (bad : list byte) (e : Error) :
  Forall supported items ->
  (length items < count)%nat -> Z.of_nat count < 2 ^ 32 ->
  B.deserialize bad = Throw e -> e <> EmptyBuffer ->
  B.deserialize
    (byteOf B.TYPES.Array :: bigEndian32 (Z.of_nat count)
       ++ flat_map wireB items ++ bad)
  = Throw e.
Proof.
  intros Hall Hc Hn Hbad He.
  set (body := flat_map wireB items).
  destruct (header_read B.TYPES.Array (Z.of_nat count) (body ++ bad)
              ltac:(cbv; intuition congruence) ltac:(lia))
    as (Htag & Hlen & _).
  cbv zeta in Htag, Hlen. unfold B.deserialize.
  set (buffer := byteOf B.TYPES.Array :: bigEndian32 (Z.of_nat count)
                   ++ body ++ bad) in *.
  assert (Hbuf : length buffer = (5 + length body + length bad)%nat).
  { subst buffer. cbn [length]. rewrite !length_app. cbn [bigEndian32 length].
    lia. }
  destruct (Nat.eqb_spec (length buffer) 0) as [E|_]; [lia|].
  remember (length buffer) as fuel eqn:Ef.
  cbn [B.readChunk Nat.add]. rewrite Htag. cbn [bind]. decide_tests.
  rewrite Hlen. cbn [bind]. decide_tests. rewrite Nat2Z.id.
  replace count with (length items + S (count - length items - 1))%nat by lia.
  rewrite forLoop_app.
  assert (IH : Forall (reads buffer (B.readChunk fuel buffer) wireB receivedB)
                 items).
  { rewrite Forall_forall in *. intros x Hx offset rest Hr.
    apply (B_read x (Hall x Hx) _ buffer offset rest); [|exact Hr].
    pose proof (depth_le_wire B.getTypeCode B.TYPES.String elementBytes x)
      as Hd.
    pose proof (length_wire_item B.getTypeCode B.TYPES.String elementBytes
                  items x Hx) as Hx'.
    fold wireB in Hd, Hx'. fold body in Hx'. lia. }
  rewrite (forLoop_items _ _ _ _ items IH [] 5%nat bad) by reflexivity.
  cbn [bind forLoop]. fold body.
  assert (Hread : B.readChunk fuel buffer (5 + length body) = Throw e).
  { unfold B.deserialize in Hbad.
    destruct (Nat.eqb_spec (length bad) 0) as [E|E];
      [inversion Hbad; congruence|].
    destruct (B.readChunk (S (length bad)) bad 0) as [[v o]|e'] eqn:R;
      cbn [bind] in Hbad; [discriminate|].
    inversion Hbad. subst e'.
    assert (Hf : B.readChunk (S (length bad)) bad 0 <> Throw OutOfFuel)
      by (apply B_readChunk_fuel; lia).
    pose proof (B_readChunk_more (S (length bad)) fuel bad 0 ltac:(lia) Hf)
      as M.
    pose proof (B_readChunk_shift fuel
                  (byteOf B.TYPES.Array :: bigEndian32 (Z.of_nat count)
                     ++ body) bad 0) as S.
    rewrite M, R in S. cbn [bind] in S.
    replace (length (byteOf B.TYPES.Array
                       :: bigEndian32 (Z.of_nat count) ++ body) + 0)%nat
      with (5 + length body)%nat in S
      by (cbn [length]; rewrite length_app; cbn [bigEndian32 length]; lia).
    rewrite <- S. reflexivity. }
  rewrite Hread. reflexivity.
Qed.

Lemma A_read_failing_item (items : list Value) (count : nat)
  (bad : list byte) (e : Error) :
  Forall supported items ->
  (length items < count)%nat -> Z.of_nat count < 2 ^ 32 ->
  A.deserialize bad = Throw e ->
  A.deserialize
    (byteOf A.TYPES.Array :: bigEndian32 (Z.of_nat count)
       ++ flat_map wireA items ++ bad)
  = Throw e.
Proof.
  intros Hall Hc Hn Hbad.
  set (body := flat_map wireA items).
  destruct (header_read A.TYPES.Array (Z.of_nat count) (body ++ bad)
              ltac:(cbv; intuition congruence) ltac:(lia))
    as (Htag & Hlen & _).
  cbv zeta in Htag, Hlen. unfold A.deserialize.
  set (buffer := byteOf A.TYPES.Array :: bigEndian32 (Z.of_nat count)
                   ++ body ++ bad) in *.
  assert (Hbuf : length buffer = (5 + length body + length bad)%nat).
  { subst buffer. cbn [length]. rewrite !length_app. cbn [bigEndian32 length].
    lia. }
  remember (length buffer) as fuel eqn:Ef.
  cbn [A.readChunk Nat.add]. rewrite Htag. cbn [bind]. decide_tests.
  rewrite Hlen. cbn [bind]. decide_tests. rewrite Nat2Z.id.
  replace count with (length items + S (count - length items - 1))%nat by lia.
  rewrite (forLoop_ext _ _ (A_array_body fuel buffer)).
  rewrite forLoop_app.
  assert (IH : Forall (reads buffer (A_read_at fuel buffer) wireA receivedA)
                 items).
  { rewrite Forall_forall in *. intros x Hx offset rest Hr.
    unfold A_read_at.
    rewrite (A_read x (Hall x Hx) fuel buffer offset rest);
      [reflexivity| |exact Hr].
    pose proof (depth_le_wire A.typeIndexOf A.TYPES.String bufferStart x)
      as Hd.
    pose proof (length_wire_item A.typeIndexOf A.TYPES.String bufferStart
                  items x Hx) as Hx'.
    fold wireA in Hd, Hx'. fold body in Hx'. lia. }
  rewrite (forLoop_items _ _ _ _ items IH [] 5%nat bad) by reflexivity.
  cbn [bind forLoop]. fold body. unfold A_read_at.
  assert (Hread : A.readChunk fuel buffer (5 + length body) = Throw e).
  { unfold A.deserialize in Hbad.
    destruct (A.readChunk (S (length bad)) bad 0) as [r|e'] eqn:R;
      cbn [bind] in Hbad; [discriminate|].
    inversion Hbad. subst e'.
    assert (Hf : A.readChunk (S (length bad)) bad 0 <> Throw OutOfFuel)
      by (apply A_readChunk_fuel; lia).
    pose proof (A_readChunk_more (S (length bad)) fuel bad 0 ltac:(lia) Hf)
      as M.
    pose proof (A_readChunk_shift fuel
                  (byteOf A.TYPES.Array :: bigEndian32 (Z.of_nat count)
                     ++ body) bad 0) as S.
    rewrite M, R in S. cbn [bind] in S.
    replace (length (byteOf A.TYPES.Array
                       :: bigEndian32 (Z.of_nat count) ++ body) + 0)%nat
      with (5 + length body)%nat in S
      by (cbn [length]; rewrite length_app; cbn [bigEndian32 length]; lia).
    rewrite <- S. reflexivity. }
  rewrite Hread. reflexivity.
Qed.

(** X29: an error in an item comes out of [deserialize] unchanged.  When
    an Array chunk holds the chunks of supported values followed, where a
    further item is due, by bytes on which [deserialize] fails, then
    [deserialize] of the whole fails with the same error and returns no
    partial array; for implementation B the error of the bytes alone must
    not be the 'Empty buffer' error, which only the outermost call
    raises. *)
Theorem X29_item_error_propagates (items : list Value) (count : nat)
  (bad : list byte) (e : Error) :
  supported (VArray items) ->
  (length items < count)%nat -> Z.of_nat count < 2 ^ 32 ->
  (B.deserialize bad = Throw e -> e <> EmptyBuffer ->
   exists body,
     B.serialize (VArray items)
     = Ret (byteOf B.TYPES.Array
              :: bigEndian32 (Z.of_nat (length items)) ++ body)
     /\ B.deserialize
          (byteOf B.TYPES.Array :: bigEndian32 (Z.of_nat count)
             ++ body ++ bad)
        = Throw e)
  /\ (A.deserialize bad = Throw e ->
      forall bytes,
        A.serialize (VArray items) = Ret bytes ->
        exists body,
          bytes = byteOf A.TYPES.Array
                    :: bigEndian32 (Z.of_nat (length items)) ++ body
          /\ A.deserialize
               (byteOf A.TYPES.Array :: bigEndian32 (Z.of_nat count)
                  ++ body ++ bad)
             = Throw e).
Proof.
  intros Hs Hc Hn. pose proof (supported_items items Hs) as Hall. split.
  - intros Hbad He. exists (flat_map wireB items). split.
    + rewrite (B_serialize_wire _ (supported_wellFormed _ Hs)).
      unfold wireB. cbn [wire B.getTypeCode]. rewrite beBytes_4. reflexivity.
    + apply B_read_failing_item; assumption.
  - intros Hbad bytes Hser.
    apply A_serialize_wire in Hser; [|apply supported_wellFormed, Hs].
    subst bytes. exists (flat_map wireA items). split.
    + unfold wireA. cbn [wire A.typeIndexOf]. rewrite beBytes_4. reflexivity.
    + apply A_read_failing_item; assumption.
Qed.

Lemma X29_item_error_propagates_witness :
  supported (VArray [VNull])
  /\ B.deserialize [x63; x00; x00; x00; x00] = Throw (UnknownTypeCode 99)
  /\ B.deserialize
       [x06; x00; x00; x00; x02; x01; x63; x00; x00; x00; x00]
     = Throw (UnknownTypeCode 99).
Proof.
  split; [reflexivity|]. split; [reflexivity|].
  destruct (X29_item_error_propagates [VNull] 2
              [x63; x00; x00; x00; x00] (UnknownTypeCode 99)
              ltac:(reflexivity) ltac:(cbn; lia) ltac:(lia)) as [HB _].
  destruct (HB ltac:(reflexivity) ltac:(discriminate))
    as (body & Hser & Hde).
  vm_compute in Hser. inversion Hser. subst body. exact Hde.
Defined.
